(** * Fredy: identity resolution, similarity scoring and version linking

    A shallow embedding of the listing-identity, similarity and
    version-chain code of the Fredy real-estate finder, together with the
    properties of its specification.

    Sources embedded here:
    - [lib/services/versioning/propertyIdentity.js]
    - [lib/services/versioning/fuzzyPropertyMatcher.js]
    - [lib/services/versioning/versionDetector.js]
    - [lib/services/similarity/geoMatcher.js]
    - [lib/services/similarity/addressNormalizer.js]
    - [lib/services/similarity/enhancedSimilarityScorer.js]
      (the scorer and the manual-link storage layer)

    Modelling conventions.
    - A JavaScript string is a [string] of Latin-1 code units: one [ascii]
      per UTF-16 code unit below 256.  Code units above 255 are outside the
      model.
    - A JavaScript number is a [number]: an exact rational, NaN or a signed
      infinity.  The arithmetic of the fuzzy matcher (tolerances, buckets,
      rounded coordinates) is that of the doubles, [Float64]: round to
      nearest, ties to even, with overflow and both zeros.  The scorer, the
      geo matcher and the haversine formula are computed on the exact
      rationals, over the runtime's [Math] functions.
    - [null] and [undefined] are one value in a listing field; the options
      of [findSimilarListings] tell them apart.
    - SQL tables are lists of rows in storage order; a query without
      [ORDER BY] returns the matching rows in that order. *)

From Stdlib Require Import List String Ascii Bool Arith ZArith Lia.
From Stdlib Require Import QArith Qcanon Qround Qabs.
From Stdlib Require Import Permutation Sorted DecimalString Relations Lqa.
Import ListNotations.

Set Implicit Arguments.

(** ** JavaScript values *)

Module Js.

Local Open Scope Z_scope.

(** *** Numbers *)

Inductive number : Type :=
| NaN
| PosInf
| NegInf
| Fin (q : Qc).

Definition qz (z : Z) : Qc := Q2Qc (inject_Z z).
Definition qfrac (n : Z) (d : positive) : Qc := Q2Qc (n # d).
Definition ofZ (z : Z) : number := Fin (qz z).
Definition frac (n : Z) (d : positive) : number := Fin (qfrac n d).

Definition qsign (q : Qc) : comparison := (q ?= 0)%Qc.
Definition qleb (a b : Qc) : bool := Qle_bool a b.
Definition qeqb (a b : Qc) : bool := Qeq_bool a b.
Definition qltb (a b : Qc) : bool := negb (Qle_bool b a).

Definition isNaN (x : number) : bool :=
  match x with NaN => true | _ => false end.

Definition neg (x : number) : number :=
  match x with
  | NaN => NaN
  | PosInf => NegInf
  | NegInf => PosInf
  | Fin q => Fin (- q)%Qc
  end.

Definition add (x y : number) : number :=
  match x, y with
  | NaN, _ | _, NaN => NaN
  | PosInf, NegInf | NegInf, PosInf => NaN
  | PosInf, _ | _, PosInf => PosInf
  | NegInf, _ | _, NegInf => NegInf
  | Fin a, Fin b => Fin (a + b)%Qc
  end.

Definition sub (x y : number) : number := add x (neg y).

(** The sign of a product or quotient with an infinite operand. *)
Definition signed_inf (s : comparison) : number :=
  match s with Gt => PosInf | Lt => NegInf | Eq => NaN end.

Definition flip (s : comparison) : comparison := CompOpp s.

Definition mul (x y : number) : number :=
  match x, y with
  | NaN, _ | _, NaN => NaN
  | PosInf, PosInf | NegInf, NegInf => PosInf
  | PosInf, NegInf | NegInf, PosInf => NegInf
  | PosInf, Fin b | Fin b, PosInf => signed_inf (qsign b)
  | NegInf, Fin b | Fin b, NegInf => signed_inf (flip (qsign b))
  | Fin a, Fin b => Fin (a * b)%Qc
  end.

(** Division: a finite value over zero is an infinity of the sign of the
    dividend (the zero divisor counts as positive), zero over zero is NaN. *)
Definition div (x y : number) : number :=
  match x, y with
  | NaN, _ | _, NaN => NaN
  | (PosInf | NegInf), (PosInf | NegInf) => NaN
  | PosInf, Fin b => if qltb b 0 then NegInf else PosInf
  | NegInf, Fin b => if qltb b 0 then PosInf else NegInf
  | Fin _, (PosInf | NegInf) => Fin 0
  | Fin a, Fin b =>
      if qeqb b 0 then signed_inf (qsign a) else Fin (a / b)%Qc
  end.

Definition abs (x : number) : number :=
  match x with
  | NaN => NaN
  | PosInf | NegInf => PosInf
  | Fin q => Fin (if qltb q 0 then - q else q)%Qc
  end.

(** [x <= y], [x < y], [x === y] on numbers; every comparison with NaN is
    false. *)
Definition leb (x y : number) : bool :=
  match x, y with
  | NaN, _ | _, NaN => false
  | NegInf, _ | _, PosInf => true
  | PosInf, _ | _, NegInf => false
  | Fin a, Fin b => qleb a b
  end.

Definition ltb (x y : number) : bool :=
  match x, y with
  | NaN, _ | _, NaN => false
  | PosInf, _ | _, NegInf => false
  | NegInf, _ | _, PosInf => true
  | Fin a, Fin b => qltb a b
  end.

Definition geb (x y : number) : bool := leb y x.
Definition gtb (x y : number) : bool := ltb y x.

Definition eqb (x y : number) : bool :=
  match x, y with
  | PosInf, PosInf | NegInf, NegInf => true
  | Fin a, Fin b => qeqb a b
  | _, _ => false
  end.

(** [Math.round]: the nearest integer, ties towards plus infinity. *)
Definition qround (q : Qc) : Z := Qfloor (q + qfrac 1 2)%Qc.

Definition round (x : number) : number :=
  match x with
  | Fin q => ofZ (qround q)
  | _ => x
  end.

(** [Math.max] and [Math.min] of two numbers. *)
Definition max (x y : number) : number :=
  match x, y with
  | NaN, _ | _, NaN => NaN
  | _, _ => if leb x y then y else x
  end.

Definition min (x y : number) : number :=
  match x, y with
  | NaN, _ | _, NaN => NaN
  | _, _ => if leb x y then x else y
  end.

(** Truthiness of a number: every number but 0 and NaN. *)
Definition truthy_num (x : number) : bool :=
  match x with
  | NaN => false
  | Fin q => negb (qeqb q 0)
  | _ => true
  end.

End Js.

(** ** Algebra of the number model *)

Module NumberFacts.
Import Js.
Local Open Scope Qc_scope.

Lemma qleb_iff (a b : Qc) : qleb a b = true <-> a <= b.
Proof. unfold qleb, Qcle. apply Qle_bool_iff. Qed.

Lemma qeqb_iff (a b : Qc) : qeqb a b = true <-> a = b.
Proof.
  unfold qeqb. rewrite Qeq_bool_iff. split.
  - apply Qc_is_canon.
  - intros ->. reflexivity.
Qed.

Lemma qltb_iff (a b : Qc) : qltb a b = true <-> a < b.
Proof.
  unfold qltb. rewrite negb_true_iff, <- not_true_iff_false.
  change (Qle_bool b a) with (qleb b a). rewrite qleb_iff. split.
  - apply Qcnot_le_lt.
  - apply Qclt_not_le.
Qed.

Lemma qopp_zero : - 0 = 0.
Proof. ring. Qed.

Lemma qlt_opp (a : Qc) : a < 0 <-> 0 < - a.
Proof.
  split; intro H.
  - rewrite Qclt_minus_iff in H. now rewrite Qcplus_0_l in H.
  - rewrite Qclt_minus_iff. now rewrite Qcplus_0_l.
Qed.

Lemma qgt_opp (a : Qc) : 0 < a <-> - a < 0.
Proof.
  rewrite (qlt_opp (- a)), Qcopp_involutive. reflexivity.
Qed.

Lemma qsign_opp (q : Qc) : qsign (- q) = flip (qsign q).
Proof.
  unfold qsign, flip.
  destruct (q ?= 0) eqn:E; simpl.
  - apply Qceq_alt in E. subst q. reflexivity.
  - apply Qclt_alt in E. apply Qcgt_alt. now apply qlt_opp.
  - apply Qcgt_alt in E. apply Qclt_alt. now apply qgt_opp in E.
Qed.

Lemma qltb_opp (q : Qc) : qltb (- q) 0 = qltb 0 q.
Proof.
  apply eq_true_iff_eq. rewrite !qltb_iff. symmetry. apply qgt_opp.
Qed.

Lemma qeqb_opp (q : Qc) : qeqb (- q) 0 = qeqb q 0.
Proof.
  apply eq_true_iff_eq. rewrite !qeqb_iff. split; intro H.
  - rewrite <- (Qcopp_involutive q), H. ring.
  - rewrite H. ring.
Qed.

Lemma neg_involutive (x : number) : neg (neg x) = x.
Proof. destruct x; simpl; trivial. now rewrite Qcopp_involutive. Qed.

Lemma neg_signed_inf (s : comparison) :
  neg (signed_inf s) = signed_inf (flip s).
Proof. now destruct s. Qed.

Lemma flip_flip (s : comparison) : flip (flip s) = s.
Proof. now destruct s. Qed.

Lemma add_comm (x y : number) : add x y = add y x.
Proof. destruct x, y; simpl; trivial. now rewrite Qcplus_comm. Qed.

Lemma mul_comm (x y : number) : mul x y = mul y x.
Proof. destruct x, y; simpl; trivial. now rewrite Qcmult_comm. Qed.

Lemma mul_neg_l (x y : number) : mul (neg x) y = neg (mul x y).
Proof.
  destruct x, y; simpl; trivial;
    rewrite ?neg_signed_inf, ?qsign_opp, ?flip_flip; trivial.
  f_equal. ring.
Qed.

Lemma mul_neg_r (x y : number) : mul x (neg y) = neg (mul x y).
Proof. now rewrite mul_comm, mul_neg_l, mul_comm. Qed.

Lemma mul_neg_neg (x y : number) : mul (neg x) (neg y) = mul x y.
Proof. now rewrite mul_neg_l, mul_neg_r, neg_involutive. Qed.

Lemma div_neg_l (x y : number) : div (neg x) y = neg (div x y).
Proof.
  destruct x, y; simpl; trivial;
    try (now destruct (qltb q 0)).
  destruct (qeqb q0 0) eqn:E.
  - now rewrite neg_signed_inf, qsign_opp.
  - simpl. f_equal. apply not_true_iff_false in E. rewrite qeqb_iff in E.
    now field.
Qed.

Lemma sub_swap (x y : number) : sub y x = neg (sub x y).
Proof.
  unfold sub. destruct x, y; simpl; trivial. f_equal. ring.
Qed.

Lemma abs_neg (x : number) : abs (neg x) = abs x.
Proof.
  destruct x; simpl; trivial. f_equal.
  rewrite qltb_opp.
  destruct (qltb 0 q) eqn:E1, (qltb q 0) eqn:E2; trivial.
  - apply qltb_iff in E1, E2. exfalso.
    apply (Qclt_not_le _ _ E1). now apply Qclt_le_weak.
  - apply Qcopp_involutive.
  - apply not_true_iff_false in E1, E2. rewrite qltb_iff in E1, E2.
    apply Qcnot_lt_le in E1, E2.
    rewrite (Qcle_antisym _ _ E1 E2). ring.
Qed.

Lemma abs_sub_swap (x y : number) : abs (sub y x) = abs (sub x y).
Proof. now rewrite sub_swap, abs_neg. Qed.

End NumberFacts.

(** ** Double-precision arithmetic *)

Module Float64.
Import Js.
Local Open Scope Z_scope.

(** A double: not a number, an infinity, or a finite value with its sign
    and magnitude; the two zeros are the finite values of magnitude 0. *)
Inductive double : Type :=
| DNaN
| DInf (negative : bool)
| DFin (negative : bool) (magnitude : Qc).

(** [2^x]. *)
Definition pow2 (x : Z) : Qc :=
  if 0 <=? x then qz (2 ^ x) else qfrac 1 (Z.to_pos (2 ^ (- x))).

(** The [k] with [2^k <= n/d < 2^(k+1)]. *)
Definition log2_floor (n d : positive) : Z :=
  let k := Z.log2 (Z.pos n) - Z.log2 (Z.pos d) in
  let below :=
    if 0 <=? k then Z.pos d * 2 ^ k <=? Z.pos n
    else Z.pos d <=? Z.pos n * 2 ^ (- k) in
  if below then k else k - 1.

(** The integer nearest to [n/d], the even one of two that are equally
    near. *)
Definition nearest_even (n : Z) (d : positive) : Z :=
  let f := n / Z.pos d in
  match 2 * (n mod Z.pos d) ?= Z.pos d with
  | Lt => f
  | Gt => f + 1
  | Eq => if Z.even f then f else f + 1
  end.

(** The magnitude of the double nearest to [n/d]: a multiple of the unit in
    the last of 53 binary places, which is no smaller than [2^-1074];
    nothing when it is [2^1024] or more. *)
Definition round_magnitude (n d : positive) : option Qc :=
  let x := Z.max (log2_floor n d) (-1022) - 52 in
  let r :=
    if 0 <=? x then nearest_even (Z.pos n) (d * Z.to_pos (2 ^ x))
    else nearest_even (Z.pos n * 2 ^ (- x)) d in
  let v := (qz r * pow2 x)%Qc in
  if qleb (pow2 1024) v then None else Some v.

Definition magnitude_of (q : Qc) : Qc := (if qltb q 0 then - q else q)%Qc.

(** Round to nearest, ties to even. *)
Definition rnd (q : Qc) : double :=
  let s := qltb q 0 in
  match Qnum (this (magnitude_of q)) with
  | Z.pos n =>
      match round_magnitude n (Qden (this (magnitude_of q))) with
      | Some m => DFin s m
      | None => DInf s
      end
  | _ => DFin false 0%Qc
  end.

Definition double_of (x : number) : double :=
  match x with
  | NaN => DNaN
  | PosInf => DInf false
  | NegInf => DInf true
  | Fin q => rnd q
  end.

Definition number_of (x : double) : number :=
  match x with
  | DNaN => NaN
  | DInf false => PosInf
  | DInf true => NegInf
  | DFin s m => Fin (if s then - m else m)%Qc
  end.

(** The double nearest to an integer. *)
Definition ofInt (z : Z) : double := rnd (qz z).

(** The value of a finite double. *)
Definition signed (s : bool) (m : Qc) : Qc := (if s then - m else m)%Qc.

(** [-x] and [Math.abs(x)]. *)
Definition dneg (x : double) : double :=
  match x with
  | DNaN => DNaN
  | DInf s => DInf (negb s)
  | DFin s m => DFin (negb s) m
  end.

Definition dabs (x : double) : double :=
  match x with
  | DNaN => DNaN
  | DInf _ => DInf false
  | DFin _ m => DFin false m
  end.

(** [x + y]: a sum that is exactly zero is [+0], unless both operands are
    [-0]. *)
Definition dadd (x y : double) : double :=
  match x, y with
  | DNaN, _ | _, DNaN => DNaN
  | DInf s, DInf t => if Bool.eqb s t then DInf s else DNaN
  | DInf s, DFin _ _ | DFin _ _, DInf s => DInf s
  | DFin s a, DFin t b =>
      let v := (signed s a + signed t b)%Qc in
      if qeqb v 0 then DFin (s && t) 0%Qc else rnd v
  end.

Definition dsub (x y : double) : double := dadd x (dneg y).

(** The rounded magnitude [m] with the sign [s]. *)
Definition rnd_signed (s : bool) (m : Qc) : double :=
  match rnd m with
  | DFin _ r => DFin s r
  | DInf _ => DInf s
  | DNaN => DNaN
  end.

(** [x * y]: the sign is the exclusive or of the signs. *)
Definition dmul (x y : double) : double :=
  match x, y with
  | DNaN, _ | _, DNaN => DNaN
  | DInf s, DInf t => DInf (xorb s t)
  | DInf s, DFin t b | DFin t b, DInf s =>
      if qeqb b 0 then DNaN else DInf (xorb s t)
  | DFin s a, DFin t b => rnd_signed (xorb s t) (a * b)%Qc
  end.

(** [x / y]: a finite value that is not zero over a zero is an infinity,
    zero over zero is NaN. *)
Definition ddiv (x y : double) : double :=
  match x, y with
  | DNaN, _ | _, DNaN => DNaN
  | DInf _, DInf _ => DNaN
  | DInf s, DFin t _ => DInf (xorb s t)
  | DFin s _, DInf t => DFin (xorb s t) 0%Qc
  | DFin s a, DFin t b =>
      if qeqb b 0
      then (if qeqb a 0 then DNaN else DInf (xorb s t))
      else rnd_signed (xorb s t) (a / b)%Qc
  end.

(** [x <= y]; the two zeros are equal. *)
Definition dleb (x y : double) : bool := leb (number_of x) (number_of y).

(** [Math.round(x)]: a result of zero keeps the sign of [x]. *)
Definition dround (x : double) : double :=
  match x with
  | DFin s m =>
      let z := qround (signed s m) in
      if z =? 0 then DFin s 0%Qc else DFin (z <? 0) (qz (Z.abs z))
  | _ => x
  end.

(** [Math.max(x, y)]: [+0] is larger than [-0]. *)
Definition dmax (x y : double) : double :=
  match x, y with
  | DNaN, _ | _, DNaN => DNaN
  | DFin s a, DFin t b =>
      if qeqb a 0 && qeqb b 0 then DFin (s && t) 0%Qc
      else if dleb x y then y else x
  | _, _ => if dleb x y then y else x
  end.

(** The double nearest to a number, as a number. *)
Definition nearest (x : number) : number := number_of (double_of x).

(** The same double: [NaN] is the same as [NaN] here, and the two zeros
    differ. *)
Definition same (x y : double) : bool :=
  match x, y with
  | DNaN, DNaN => true
  | DInf s, DInf t => Bool.eqb s t
  | DFin s a, DFin t b => Bool.eqb s t && qeqb a b
  | _, _ => false
  end.

End Float64.

(** *** Facts about the doubles *)

Module Float64Facts.
Import Js NumberFacts Float64.
Local Open Scope Qc_scope.

Lemma magnitude_of_opp (q : Qc) : magnitude_of (- q) = magnitude_of q.
Proof.
  change (magnitude_of (- q)) with (match abs (neg (Fin q)) with
                                    | Fin m => m | _ => 0 end).
  now rewrite abs_neg.
Qed.

(** Rounding is symmetric about zero. *)
Lemma dabs_rnd_opp (q : Qc) : dabs (rnd (- q)) = dabs (rnd q).
Proof.
  unfold rnd. rewrite magnitude_of_opp.
  destruct (Qnum (this (magnitude_of q))); trivial.
  now destruct (round_magnitude _ _).
Qed.

Lemma signed_negb (s : bool) (m : Qc) : signed (negb s) m = - signed s m.
Proof. destruct s; simpl; [now rewrite Qcopp_involutive | reflexivity]. Qed.

Lemma dadd_comm (x y : double) : dadd x y = dadd y x.
Proof.
  destruct x as [|s|s a], y as [|t|t b]; simpl; trivial.
  - now destruct s, t.
  - rewrite (Qcplus_comm (signed t b)), (andb_comm t s). reflexivity.
Qed.

Lemma dabs_dsub_swap (x y : double) : dabs (dsub y x) = dabs (dsub x y).
Proof.
  unfold dsub.
  destruct x as [|s|s a], y as [|t|t b]; simpl; trivial.
  - now destruct s, t.
  - rewrite !signed_negb.
    replace (signed t b + - signed s a) with (- (signed s a + - signed t b))
      by ring.
    rewrite qeqb_opp.
    destruct (qeqb (signed s a + - signed t b) 0); [reflexivity|].
    apply dabs_rnd_opp.
Qed.

(** The doubles nearest to 0.1, 0.2 and 0.3: [0.1 + 0.2] is not the double
    nearest to 0.3; an odd integer above [2^53] is rounded to an even one;
    what is too large is infinite, and what is too small is zero. *)
Lemma rounding_examples :
  same (rnd (qfrac 1 10)) (DFin false (qfrac 3602879701896397 (2 ^ 55)))
  && same (dadd (rnd (qfrac 1 10)) (rnd (qfrac 2 10)))
          (DFin false (qfrac 1351079888211149 (2 ^ 52)))
  && same (rnd (qfrac 3 10)) (DFin false (qfrac 5404319552844595 (2 ^ 54)))
  && same (ofInt (2 ^ 53 + 1)) (ofInt (2 ^ 53))
  && same (ofInt (2 ^ 53 + 3)) (ofInt (2 ^ 53 + 4))
  && same (ofInt (2 ^ 1024)) (DInf false)
  && same (rnd (- qfrac 1 (2 ^ 1075))) (DFin true 0)
  && same (ddiv (ofInt 1) (DFin true 0)) (DInf true)
  = true.
Proof.
  vm_compute. reflexivity.
Qed.

End Float64Facts.

(** ** Strings and regular expressions *)

Module Str.

Local Open Scope nat_scope.

Definition chars (s : string) : list ascii := list_ascii_of_string s.
Definition str (l : list ascii) : string := string_of_list_ascii l.

Definition code (c : ascii) : nat := nat_of_ascii c.

Definition between (lo hi : nat) (c : ascii) : bool :=
  (lo <=? code c) && (code c <=? hi).

Definition is_digit (c : ascii) : bool := between 48 57 c.
Definition is_upper (c : ascii) : bool := between 65 90 c.
Definition is_lower (c : ascii) : bool := between 97 122 c.
Definition is_alpha (c : ascii) : bool := is_upper c || is_lower c.

(** [\w]: letters, digits and the underscore. *)
Definition is_word (c : ascii) : bool :=
  is_alpha c || is_digit c || (code c =? 95).

(** [\s] restricted to Latin-1: TAB, LF, VT, FF, CR, space and the
    no-break space. *)
Definition is_space (c : ascii) : bool :=
  between 9 13 c || (code c =? 32) || (code c =? 160).

(** [String.prototype.toLowerCase] on one Latin-1 code unit. *)
Definition lower (c : ascii) : ascii :=
  if is_upper c || (between 192 222 c && negb (code c =? 215))
  then ascii_of_nat (code c + 32) else c.

Definition toLowerCase (s : string) : string := str (map lower (chars s)).

Definition is_char (c d : ascii) : bool := Ascii.eqb c d.
(** A literal character under the [i] flag. *)
Definition is_ci (c d : ascii) : bool := Ascii.eqb (lower c) (lower d).

(** *** A backtracking matcher

    Patterns are matched the way the ECMAScript matcher does: left to
    right, alternatives in order, quantifiers greedy, an iteration of a
    starred pattern that consumes nothing is refused. *)

Inductive re : Type :=
| Emp
| Chr (p : ascii -> bool)
| Seq (a b : re)
| Alt (a b : re)
| Opt (a : re)
| Star (a : re)
| Cap (i : nat) (a : re)
| Bol
| Eol
| Wb.

Definition Plus (a : re) : re := Seq a (Star a).

Fixpoint Rep (n : nat) (a : re) : re :=
  match n with
  | O => Emp
  | S n' => Seq a (Rep n' a)
  end.

Fixpoint seq_of (f : ascii -> ascii -> bool) (l : list ascii) : re :=
  match l with
  | [] => Emp
  | c :: l' => Seq (Chr (f c)) (seq_of f l')
  end.

(** A literal string, and a literal string under the [i] flag. *)
Definition Lit (s : string) : re := seq_of is_char (chars s).
Definition LitCi (s : string) : re := seq_of is_ci (chars s).

Fixpoint alts (l : list re) : re :=
  match l with
  | [] => Emp
  | [a] => a
  | a :: l' => Alt a (alts l')
  end.

Fixpoint seqs (l : list re) : re :=
  match l with
  | [] => Emp
  | [a] => a
  | a :: l' => Seq a (seqs l')
  end.

(** Frequent atoms: [\s], [\d], [\w] and a class given by its members. *)
Definition ws : re := Chr is_space.
Definition digit : re := Chr is_digit.
Definition one_of (s : string) : ascii -> bool :=
  fun c => existsb (is_char c) (chars s).

Record mstate : Type := MState {
  prev : option ascii;
  rest : list ascii;
  caps : list (nat * list ascii)
}.

Definition word_at (o : option ascii) : bool :=
  match o with Some c => is_word c | None => false end.

Definition consumed (s s' : mstate) : list ascii :=
  firstn (List.length (rest s) - List.length (rest s')) (rest s).

Definition set_cap (i : nat) (v : list ascii) (s : mstate) : mstate :=
  MState (prev s) (rest s) ((i, v) :: caps s).

Fixpoint run (A : Type) (r : re) (s : mstate) (k : mstate -> option A)
  : option A :=
  match r with
  | Emp => k s
  | Chr p =>
      match rest s with
      | c :: t => if p c then k (MState (Some c) t (caps s)) else None
      | [] => None
      end
  | Seq a b => run a s (fun s' => run b s' k)
  | Alt a b =>
      match run a s k with
      | Some x => Some x
      | None => run b s k
      end
  | Opt a =>
      match run a s k with
      | Some x => Some x
      | None => k s
      end
  | Star a =>
      (fix loop (n : nat) (s : mstate) {struct n} : option A :=
         match n with
         | O => k s
         | S n' =>
             match run a s (fun s' =>
                     if List.length (rest s') <? List.length (rest s)
                     then loop n' s' else None) with
             | Some x => Some x
             | None => k s
             end
         end) (List.length (rest s)) s
  | Cap i a => run a s (fun s' => k (set_cap i (consumed s s') s'))
  | Bol => match prev s with None => k s | Some _ => None end
  | Eol => match rest s with [] => k s | _ :: _ => None end
  | Wb =>
      if xorb (word_at (prev s)) (word_at (hd_error (rest s)))
      then k s else None
  end.

(** The result of [RegExp.prototype.exec]: where the match starts, the
    matched text and the captures. *)
Record found : Type := Found {
  index : nat;
  whole : list ascii;
  groups : list (nat * list ascii)
}.

Definition match_here (r : re) (p : option ascii) (l : list ascii)
  : option mstate :=
  run r (MState p l []) (fun s' => Some s').

Fixpoint search (r : re) (p : option ascii) (l : list ascii) (pos : nat)
  : option found :=
  match match_here r p l with
  | Some s' =>
      Some (Found pos (firstn (List.length l - List.length (rest s')) l) (caps s'))
  | None =>
      match l with
      | [] => None
      | c :: t => search r (Some c) t (S pos)
      end
  end.

Definition exec (r : re) (s : string) : option found :=
  search r None (chars s) 0.

Definition test (r : re) (s : string) : bool :=
  match exec r s with Some _ => true | None => false end.

(** The text of capture group [i], when the group took part in the match. *)
Fixpoint lookup (i : nat) (g : list (nat * list ascii)) : option string :=
  match g with
  | [] => None
  | (j, v) :: g' => if i =? j then Some (str v) else lookup i g'
  end.

Definition group (i : nat) (f : found) : option string := lookup i (groups f).

(** [s.replace(/r/g, by)]: every match, left to right; [skip] counts the
    characters of the current match still to be dropped. *)
Fixpoint replace_loop (r : re) (by_ : list ascii) (p : option ascii)
  (l : list ascii) (skip : nat) : list ascii :=
  match skip with
  | S k =>
      match l with
      | [] => []
      | c :: t => replace_loop r by_ (Some c) t k
      end
  | O =>
      match match_here r p l with
      | Some s' =>
          match List.length l - List.length (rest s'), l with
          | O, [] => by_
          | O, c :: t => by_ ++ c :: replace_loop r by_ (Some c) t 0
          | S k, [] => by_
          | S k, c :: t => by_ ++ replace_loop r by_ (Some c) t k
          end
      | None =>
          match l with
          | [] => []
          | c :: t => c :: replace_loop r by_ (Some c) t 0
          end
      end
  end.

Definition replaceAll (r : re) (by_ : string) (s : string) : string :=
  str (replace_loop r (chars by_) None (chars s) 0).

(** [s.replace(/r/, by)] and [s.replace(text, by)]: the first match only. *)
Definition replaceFirst (r : re) (by_ : string) (s : string) : string :=
  match exec r s with
  | None => s
  | Some f =>
      str (firstn (index f) (chars s) ++ chars by_
           ++ skipn (index f + List.length (whole f)) (chars s))
  end.

Definition replaceText (text by_ : string) (s : string) : string :=
  replaceFirst (Lit text) by_ s.

(** [s.trim()]. *)
Fixpoint drop_space (l : list ascii) : list ascii :=
  match l with
  | c :: t => if is_space c then drop_space t else l
  | [] => []
  end.

Definition trim (s : string) : string :=
  str (rev (drop_space (rev (drop_space (chars s))))).

(** [s.split(separator)] for a separator that never matches the empty
    string; [piece] holds the current piece reversed. *)
Fixpoint split_loop (r : re) (p : option ascii) (l : list ascii)
  (piece : list ascii) (skip : nat) : list string :=
  match skip with
  | S k =>
      match l with
      | [] => [str (rev piece)]
      | c :: t => split_loop r (Some c) t piece k
      end
  | O =>
      match l with
      | [] => [str (rev piece)]
      | c :: t =>
          match match_here r p l with
          | Some s' =>
              match List.length l - List.length (rest s') with
              | O => split_loop r (Some c) t (c :: piece) 0
              | S k => str (rev piece) :: split_loop r (Some c) t [] k
              end
          | None => split_loop r (Some c) t (c :: piece) 0
          end
      end
  end.

Definition split (r : re) (s : string) : list string :=
  split_loop r None (chars s) [] 0.

Definition join (sep : string) (l : list string) : string :=
  String.concat sep l.

Definition includes (s sub : string) : bool := test (Lit sub) s.

Definition nonempty (s : string) : bool := negb (String.eqb s "").

(** Truthiness of a string or [null]. *)
Definition truthy (o : option string) : bool :=
  match o with Some s => nonempty s | None => false end.

End Str.

(** ** SHA-256

    [crypto.createHash('sha256').update(input).digest('hex')]: the digest
    of the UTF-8 encoding of [input], as 64 lower-case hexadecimal digits
    (FIPS 180-4). *)

Module Sha256.

Local Open Scope N_scope.

Definition mask32 : N := 4294967295.
Definition add32 (a b : N) : N := N.land (a + b) mask32.
Definition rotr (n x : N) : N :=
  N.lor (N.shiftr x n) (N.land (N.shiftl x (32 - n)) mask32).
Definition shr (n x : N) : N := N.shiftr x n.
Definition not32 (x : N) : N := N.lxor x mask32.

Definition Ch (x y z : N) : N := N.lxor (N.land x y) (N.land (not32 x) z).
Definition Maj (x y z : N) : N :=
  N.lxor (N.lxor (N.land x y) (N.land x z)) (N.land y z).
Definition Sigma0 (x : N) : N :=
  N.lxor (N.lxor (rotr 2 x) (rotr 13 x)) (rotr 22 x).
Definition Sigma1 (x : N) : N :=
  N.lxor (N.lxor (rotr 6 x) (rotr 11 x)) (rotr 25 x).
Definition sigma0 (x : N) : N :=
  N.lxor (N.lxor (rotr 7 x) (rotr 18 x)) (shr 3 x).
Definition sigma1 (x : N) : N :=
  N.lxor (N.lxor (rotr 17 x) (rotr 19 x)) (shr 10 x).

(** The constants of the standard are the first 32 bits of the fractional
    parts of the cube roots (for [K]) and of the square roots (for the
    initial hash value) of the first primes. *)
Definition is_prime (n : nat) : bool :=
  forallb (fun d => negb (n mod d =? 0)%nat) (seq 2 (n - 2)).

Definition primes : list N := map N.of_nat (filter is_prime (seq 2 310)).

(** The integer cube root, one bit at a time from bit [bits - 1] down. *)
Fixpoint cube_root (bits : nat) (n acc : N) : N :=
  match bits with
  | O => acc
  | S b =>
      let c := acc + N.shiftl 1 (N.of_nat b) in
      cube_root b n (if c * c * c <=? n then c else acc)
  end.

Definition frac32_cbrt (p : N) : N :=
  N.land (cube_root 36 (N.shiftl p 96) 0) mask32.
Definition frac32_sqrt (p : N) : N :=
  N.land (N.sqrt (N.shiftl p 64)) mask32.

Definition K : list N := Eval vm_compute in map frac32_cbrt primes.

(** The eight working variables, and the initial hash value. *)
Record regs : Type := Regs {
  ra : N; rb : N; rc : N; rd : N; re : N; rf : N; rg : N; rh : N
}.

Definition H0 : regs :=
  Eval vm_compute in
    let h (i : nat) := frac32_sqrt (nth i primes 0) in
    Regs (h 0%nat) (h 1%nat) (h 2%nat) (h 3%nat)
         (h 4%nat) (h 5%nat) (h 6%nat) (h 7%nat).

Definition round (r : regs) (kw : N * N) : regs :=
  let t1 := add32 (add32 (add32 (add32 (rh r) (Sigma1 (re r)))
                                (Ch (re r) (rf r) (rg r))) (fst kw)) (snd kw) in
  let t2 := add32 (Sigma0 (ra r)) (Maj (ra r) (rb r) (rc r)) in
  Regs (add32 t1 t2) (ra r) (rb r) (rc r) (add32 (rd r) t1) (re r) (rf r) (rg r).

(** The message schedule: [w] holds the words so far, newest first. *)
Fixpoint schedule (n : nat) (w : list N) : list N :=
  match n with
  | O => w
  | S n' =>
      let at_ (i : nat) := nth i w 0 in
      schedule n'
        (add32 (add32 (add32 (sigma1 (at_ 1%nat)) (at_ 6%nat))
                      (sigma0 (at_ 14%nat))) (at_ 15%nat) :: w)
  end.

Fixpoint words (l : list N) : list N :=
  match l with
  | a :: b :: c :: d :: l' =>
      (N.shiftl a 24 + N.shiftl b 16 + N.shiftl c 8 + d) :: words l'
  | _ => []
  end.

Definition compress (h : regs) (block : list N) : regs :=
  let w := rev (schedule 48 (rev (words block))) in
  let r := fold_left round (combine K w) h in
  Regs (add32 (ra h) (ra r)) (add32 (rb h) (rb r))
       (add32 (rc h) (rc r)) (add32 (rd h) (rd r))
       (add32 (re h) (re r)) (add32 (rf h) (rf r))
       (add32 (rg h) (rg r)) (add32 (rh h) (rh r)).

(** Bytes are fed one at a time; [buf] is the current block, reversed. *)
Definition feed (st : regs * list N) (byte : N) : regs * list N :=
  let buf := byte :: snd st in
  if (List.length buf =? 64)%nat then (compress (fst st) (rev buf), [])
  else (fst st, buf).

Definition be64 (n : N) : list N :=
  map (fun i => N.land (N.shiftr n (8 * i)) 255) [7; 6; 5; 4; 3; 2; 1; 0].

Definition padding (len : nat) : list N :=
  let r := ((len + 1) mod 64)%nat in
  let zeros := (if r <=? 56 then 56 - r else 120 - r)%nat in
  128 :: repeat 0 zeros ++ be64 (8 * N.of_nat len).

Definition digest (bytes : list N) : regs :=
  fst (fold_left feed (bytes ++ padding (List.length bytes)) (H0, [])).

Definition hexdigit (n : N) : ascii :=
  ascii_of_N (if n <? 10 then 48 + n else 87 + n).

Definition hex32 (x : N) : list ascii :=
  map (fun i => hexdigit (N.land (N.shiftr x (4 * i)) 15))
      [7; 6; 5; 4; 3; 2; 1; 0].

Definition hexregs (r : regs) : list ascii :=
  hex32 (ra r) ++ hex32 (rb r) ++ hex32 (rc r) ++ hex32 (rd r) ++
  hex32 (re r) ++ hex32 (rf r) ++ hex32 (rg r) ++ hex32 (rh r).

(** The UTF-8 encoding of a Latin-1 string. *)
Definition utf8 (c : ascii) : list N :=
  let n := N_of_ascii c in
  if n <? 128 then [n]
  else [N.lor 192 (N.shiftr n 6); N.lor 128 (N.land n 63)].

Definition hex (input : string) : list ascii :=
  hexregs (digest (flat_map utf8 (Str.chars input))).

(** [hash.substring(0, 16)] of the hexadecimal digest. *)
Definition hex16 (input : string) : string :=
  Str.str (firstn 16 (hex input)).

Definition is_hex (c : ascii) : bool :=
  Str.is_digit c || Str.between 97 102 c.

End Sha256.

(** *** The shape of a digest *)

Module HashFacts.
Import Str Sha256.

Lemma hexregs_length (r : regs) : List.length (hexregs r) = 64%nat.
Proof.
  unfold hexregs, hex32. repeat rewrite length_app. repeat rewrite length_map.
  reflexivity.
Qed.
Lemma str_length (l : list ascii) : String.length (str l) = List.length l.
Proof. induction l; simpl; congruence. Qed.
Lemma hex16_length (input : string) : String.length (hex16 input) = 16%nat.
Proof.
  unfold hex16, hex. rewrite str_length, length_firstn, hexregs_length.
  reflexivity.
Qed.
Lemma hexdigit_is_hex (n : N) : is_hex (hexdigit (N.land n 15)) = true.
Proof.
  assert (H : (N.land n 15 < 16)%N).
  { change 15%N with (N.ones 4). rewrite N.land_ones. now apply N.mod_lt. }
  remember (N.land n 15) as k eqn:E. clear E.
  assert (C : (k = 0 \/ k = 1 \/ k = 2 \/ k = 3 \/ k = 4 \/ k = 5 \/ k = 6
               \/ k = 7 \/ k = 8 \/ k = 9 \/ k = 10 \/ k = 11 \/ k = 12
               \/ k = 13 \/ k = 14 \/ k = 15)%N) by lia.
  repeat (destruct C as [C|C]; [now subst k|]). now subst k.
Qed.

Lemma hex32_is_hex (x : N) : forallb is_hex (hex32 x) = true.
Proof.
  unfold hex32. cbn [map forallb]. rewrite !hexdigit_is_hex. reflexivity.
Qed.

Lemma hexregs_is_hex (r : regs) : forallb is_hex (hexregs r) = true.
Proof.
  unfold hexregs. rewrite !forallb_app, !hex32_is_hex. reflexivity.
Qed.

Lemma forallb_firstn (A : Type) (p : A -> bool) (n : nat) (l : list A) :
  forallb p l = true -> forallb p (firstn n l) = true.
Proof.
  revert n. induction l as [|x l IH]; intros [|n] H; simpl in *; trivial.
  apply andb_true_iff in H. destruct H as [H1 H2].
  now rewrite H1, IH.
Qed.

Lemma chars_str (l : list ascii) : chars (str l) = l.
Proof. apply list_ascii_of_string_of_list_ascii. Qed.

Lemma hex16_is_hex (input : string) :
  forallb is_hex (chars (hex16 input)) = true.
Proof.
  unfold hex16. rewrite chars_str. apply forallb_firstn, hexregs_is_hex.
Qed.

End HashFacts.

(** ** Field values and conversions between strings and numbers *)

Module Val.

Import Js Str.
Local Open Scope Z_scope.

(** A listing field: [null] (or [undefined]), a number or a string. *)
Inductive value : Type :=
| Null
| Num (n : number)
| Text (s : string).

Definition is_null (v : value) : bool :=
  match v with Null => true | _ => false end.

(** [!!v]. *)
Definition truthy (v : value) : bool :=
  match v with
  | Null => false
  | Num n => truthy_num n
  | Text s => nonempty s
  end.

(** [a === b]. *)
Definition strict_eq (a b : value) : bool :=
  match a, b with
  | Null, Null => true
  | Num x, Num y => eqb x y
  | Text s, Text t => String.eqb s t
  | _, _ => false
  end.

Definition digit_val (c : ascii) : Z := Z.of_nat (code c) - 48.

Fixpoint span (p : ascii -> bool) (l : list ascii) : list ascii * list ascii :=
  match l with
  | c :: t => if p c then let (a, b) := span p t in (c :: a, b) else ([], l)
  | [] => ([], [])
  end.

Definition digits_val (base : Z) (val : ascii -> Z) (l : list ascii) : Z :=
  fold_left (fun acc c => base * acc + val c) l 0.

(** [m * 10^e] as an exact rational. *)
Definition scale10 (m e : Z) : Qc :=
  if 0 <=? e then qz (m * 10 ^ e) else qfrac m (Z.to_pos (10 ^ (- e))).

Fixpoint starts (pre l : list ascii) : option (list ascii) :=
  match pre, l with
  | [], _ => Some l
  | c :: pre', d :: l' => if Ascii.eqb c d then starts pre' l' else None
  | _ :: _, [] => None
  end.

Definition take_sign (l : list ascii) : bool * list ascii :=
  match l with
  | "-"%char :: t => (true, t)
  | "+"%char :: t => (false, t)
  | _ => (false, l)
  end.

Definition is_e (c : ascii) : bool := is_char "e" c || is_char "E" c.

(** The exponent part of a decimal literal, when a complete one follows. *)
Definition take_exp (l : list ascii) : Z * list ascii :=
  match l with
  | c :: t =>
      if is_e c then
        let (sg, t1) := take_sign t in
        let (ds, t2) := span is_digit t1 in
        match ds with
        | [] => (0, l)
        | _ => ((if sg then -1 else 1) * digits_val 10 digit_val ds, t2)
        end
      else (0, l)
  | [] => (0, l)
  end.

(** The longest prefix of [l] that is a [StrDecimalLiteral], with its value
    and what follows it. *)
Definition decimal_prefix (l : list ascii) : option (number * list ascii) :=
  let (sg, l0) := take_sign l in
  match starts (chars "Infinity") l0 with
  | Some t => Some (if sg then NegInf else PosInf, t)
  | None =>
      let (ip, r1) := span is_digit l0 in
      let (fp, r2) :=
        match r1 with
        | "."%char :: t => span is_digit t
        | _ => ([], r1)
        end in
      match ip ++ fp with
      | [] => None
      | ds =>
          let (e, r3) := take_exp r2 in
          let m := digits_val 10 digit_val ds in
          Some (Fin (scale10 (if sg then - m else m)
                             (e - Z.of_nat (List.length fp))), r3)
      end
  end.

(** [parseFloat(s)]. *)
Definition parseFloat (s : string) : number :=
  match decimal_prefix (drop_space (chars s)) with
  | Some (n, _) => n
  | None => NaN
  end.

Definition is_hexdigit (c : ascii) : bool :=
  is_digit c || between 97 102 c || between 65 70 c.
Definition hex_val (c : ascii) : Z :=
  if is_digit c then digit_val c
  else if between 97 102 c then Z.of_nat (code c) - 87
  else Z.of_nat (code c) - 55.

Definition radix_literal (base : Z) (p : ascii -> bool) (val : ascii -> Z)
  (l : list ascii) : number :=
  match l with
  | [] => NaN
  | _ => if forallb p l then ofZ (digits_val base val l) else NaN
  end.

(** [Number(s)] on a string: the whole trimmed text must be a numeric
    literal; the empty text is 0. *)
Definition toNumber (s : string) : number :=
  let l := chars (trim s) in
  match l with
  | [] => ofZ 0
  | "0"%char :: x :: t =>
      if is_char "x" x || is_char "X" x then radix_literal 16 is_hexdigit hex_val t
      else if is_char "o" x || is_char "O" x
      then radix_literal 8 (between 48 55) digit_val t
      else if is_char "b" x || is_char "B" x
      then radix_literal 2 (between 48 49) digit_val t
      else match decimal_prefix l with
           | Some (n, []) => n
           | _ => NaN
           end
  | _ =>
      match decimal_prefix l with
      | Some (n, []) => n
      | _ => NaN
      end
  end.

(** The numeric value of a field in a comparison such as [v > 0]. *)
Definition to_number (v : value) : number :=
  match v with
  | Null => ofZ 0
  | Num n => n
  | Text s => toNumber s
  end.

Definition decimal (z : Z) : string := NilZero.string_of_int (Z.to_int z).

Definition is_integer (q : Qc) : bool := Pos.eqb (Qden (this q)) 1.

(** [x.toFixed(4)] below 10^21. *)
Definition fixed4 (q : Qc) : string :=
  let a := (if qltb q 0 then - q else q)%Qc in
  let n := qround (a * qz 10000)%Qc in
  let ds := chars (decimal n) in
  let ds := repeat "0"%char (5 - List.length ds) ++ ds in
  let k := (List.length ds - 4)%nat in
  str ((if qltb q 0 then ["-"%char] else []) ++ firstn k ds
       ++ "."%char :: skipn k ds).

Section Runtime.

(** [Number.prototype.toString] prints the shortest decimal that reads back
    as the same double.  For a whole number below 2^53 that is the number
    with all its digits; for the other finite numbers it is left to the
    runtime. *)
Variable shortest : Qc -> string.

Definition numberToString (n : number) : string :=
  match n with
  | NaN => "NaN"
  | PosInf => "Infinity"
  | NegInf => "-Infinity"
  | Fin q =>
      if is_integer q && qltb (if qltb q 0 then - q else q)%Qc (qz (2 ^ 53))
      then decimal (Qnum (this q))
      else shortest q
  end.

Definition toFixed4 (n : number) : string :=
  match n with
  | Fin q =>
      if qltb (if qltb q 0 then - q else q)%Qc (qz (10 ^ 21))
      then fixed4 q else numberToString n
  | _ => numberToString n
  end.

(** [String(v)] and [`${v}`] on a field that is not [null]. *)
Definition toString (v : value) : string :=
  match v with
  | Null => "null"
  | Num n => numberToString n
  | Text s => s
  end.

End Runtime.

End Val.

(** ** Listings *)

Module Data.

Import Js Val.

(** An entry of [changeSet.priceHistory]. *)
Record PriceEntry : Type := Entry {
  date : number;
  entryPrice : value
}.

Record ChangeSet : Type := Changes {
  priceHistory : option (list PriceEntry)
}.

(** A listing as the pipeline carries it.  Before it is persisted its [id]
    is the provider's stable hash of the listing (the [Listing] typedef of
    FredyPipelineExecutioner.js). *)
Record Listing : Type := MkListing {
  id : option string;
  hash : option string;
  title : option string;
  address : option string;
  price : value;
  size : value;
  rooms : value;
  latitude : value;
  longitude : value;
  publishedAt : value;
  propertyIdentity : option string;
  fuzzyIdentity : option string;
  previousVersionId : option string;
  changeSet : option ChangeSet;
  batchPreviousHash : option string
}.

(** [Array.prototype.sort]: stable; [le a b] says that the comparator does
    not put [b] before [a]. *)
Section Sort.
Variable A : Type.
Variable le : A -> A -> bool.

Fixpoint insert (x : A) (l : list A) : list A :=
  match l with
  | [] => [x]
  | y :: l' => if le x y then x :: l else y :: insert x l'
  end.

Fixpoint sort (l : list A) : list A :=
  match l with
  | [] => []
  | x :: l' => insert x (sort l')
  end.
End Sort.

(** The outcome of a comparator: not positive, where NaN counts as zero. *)
Definition keeps_order (c : number) : bool := isNaN c || leb c (ofZ 0).

End Data.

(** *** The stable sort on a total order *)

Module SortFacts.
Import Data.

Section Order.
Variable A : Type.
Variable le : A -> A -> bool.
Hypothesis le_total : forall x y, le x y = true \/ le y x = true.
Hypothesis le_antisym : forall x y, le x y = true -> le y x = true -> x = y.
Hypothesis le_trans :
  forall x y z, le x y = true -> le y z = true -> le x z = true.

Lemma insert_insert (x y : A) (l : list A) :
  insert le x (insert le y l) = insert le y (insert le x l).
Proof.
  induction l as [|z l IH]; simpl.
  - destruct (le x y) eqn:Exy, (le y x) eqn:Eyx; trivial.
    + now rewrite (le_antisym Exy Eyx).
    + destruct (le_total x y); congruence.
  - destruct (le x z) eqn:Exz, (le y z) eqn:Eyz; simpl;
      rewrite ?Exz, ?Eyz.
    + destruct (le x y) eqn:Exy, (le y x) eqn:Eyx; trivial.
      * now rewrite (le_antisym Exy Eyx).
      * destruct (le_total x y); congruence.
    + destruct (le y x) eqn:Eyx; trivial.
      rewrite (le_trans Eyx Exz) in Eyz. discriminate.
    + destruct (le x y) eqn:Exy; trivial.
      rewrite (le_trans Exy Eyz) in Exz. discriminate.
    + now rewrite IH.
Qed.

Lemma sort_permutation_invariant (l l' : list A) :
  Permutation l l' -> sort le l = sort le l'.
Proof.
  induction 1; simpl; try congruence.
  apply insert_insert.
Qed.

End Order.

Lemma insert_perm (A : Type) (le : A -> A -> bool) (x : A) (l : list A) :
  Permutation (x :: l) (insert le x l).
Proof.
  induction l as [|y l IH]; simpl; trivial.
  destruct (le x y); trivial.
  rewrite perm_swap. now apply perm_skip.
Qed.

Lemma sort_perm (A : Type) (le : A -> A -> bool) (l : list A) :
  Permutation l (sort le l).
Proof.
  induction l as [|x l IH]; simpl; trivial.
  rewrite <- insert_perm. now apply perm_skip.
Qed.

Lemma ascii_compare_trans (a b c : ascii) :
  (Ascii.compare a b <> Gt -> Ascii.compare b c <> Gt ->
   Ascii.compare a c <> Gt)
  /\ (Ascii.compare a b = Lt -> Ascii.compare b c <> Gt ->
      Ascii.compare a c = Lt)
  /\ (Ascii.compare a b <> Gt -> Ascii.compare b c = Lt ->
      Ascii.compare a c = Lt).
Proof.
  unfold Ascii.compare.
  destruct (N.compare_spec (N_of_ascii a) (N_of_ascii b)),
    (N.compare_spec (N_of_ascii b) (N_of_ascii c)),
    (N.compare_spec (N_of_ascii a) (N_of_ascii c));
    repeat split; intros; try congruence; exfalso; lia.
Qed.

Lemma string_leb_trans (s1 s2 s3 : string) :
  String.leb s1 s2 = true -> String.leb s2 s3 = true ->
  String.leb s1 s3 = true.
Proof.
  unfold String.leb. revert s2 s3.
  induction s1 as [|a s1 IH]; intros [|b s2] [|c s3]; simpl; trivial;
    try discriminate.
  destruct (ascii_compare_trans a b c) as (T1 & T2 & T3).
  destruct (Ascii.compare a b) eqn:Eab; try discriminate;
    destruct (Ascii.compare b c) eqn:Ebc; try discriminate; intros H1 H2.
  - apply Ascii.compare_eq_iff in Eab, Ebc. subst.
    assert (E : Ascii.compare c c = Eq) by apply N.compare_refl.
    rewrite E. now apply (IH s2 s3).
  - rewrite T3; trivial; discriminate.
  - rewrite T2; trivial; discriminate.
  - rewrite T2; trivial; discriminate.
Qed.

Lemma sort_strings_invariant (l l' : list string) :
  Permutation l l' -> sort String.leb l = sort String.leb l'.
Proof.
  apply sort_permutation_invariant.
  - apply String.leb_total.
  - apply String.leb_antisym.
  - apply string_leb_trans.
Qed.

End SortFacts.

(** ** propertyIdentity.js *)

Module PropertyIdentity.

Import Js Str Val Data.
Local Open Scope string_scope.

Definition sharp_s : ascii := "223"%char.
Definition a_umlaut : ascii := "228"%char.
Definition o_umlaut : ascii := "246"%char.
Definition u_umlaut : ascii := "252"%char.
(** The text "straße". *)
Definition strasze : string := "stra" ++ String sharp_s "e".

Definition not_word_or_space (c : ascii) : bool :=
  negb (is_word c || is_space c).

Definition normalizeAddress (address : option string) : string :=
  match address with
  | None => ""
  | Some a =>
      if negb (nonempty a) then "" else
      let s := toLowerCase a in
      let s := replaceAll (Seq (LitCi "str") (Chr (is_char "."))) "strasse" s in
      let s := replaceAll (LitCi strasze) "strasse" s in
      let s := replaceAll (Seq (LitCi "platz") Wb) "pl" s in
      let s := replaceAll (Seq (LitCi "weg") Wb) "wg" s in
      let s := replaceAll (Seq (LitCi "allee") Wb) "al" s in
      let s := replaceAll (Chr (is_char a_umlaut)) "ae" s in
      let s := replaceAll (Chr (is_char o_umlaut)) "oe" s in
      let s := replaceAll (Chr (is_char u_umlaut)) "ue" s in
      let s := replaceAll (Chr (is_char sharp_s)) "ss" s in
      let s := replaceAll (Plus (Chr is_space)) " " s in
      let s := replaceAll (Chr not_word_or_space) "" s in
      trim s
  end.

Section Runtime.
Variable shortest : Qc -> string.

Definition computePropertyIdentity (listing : option Listing) : option string :=
  match listing with
  | None => None
  | Some l =>
      if negb (Str.truthy (address l)) then None else
      let normalizedAddress := normalizeAddress (address l) in
      if negb (nonempty normalizedAddress) then None else
      let sizeStr :=
        if is_null (size l) then "" else toString shortest (size l) in
      let input := normalizedAddress ++ "|" ++ sizeStr in
      Some (Sha256.hex16 input)
  end.

Definition isSameProperty (listing1 listing2 : option Listing) : bool :=
  match computePropertyIdentity listing1, computePropertyIdentity listing2 with
  | Some identity1, Some identity2 => String.eqb identity1 identity2
  | _, _ => false
  end.

End Runtime.

End PropertyIdentity.

(** ** fuzzyPropertyMatcher.js *)

Module FuzzyMatcher.

Import Js Str Val Data Float64.
Local Open Scope string_scope.

(** 5% tolerance on sizes, 30 m of geographic proximity.  The sizes, the
    prices, the buckets and the rounded coordinates are computed in double
    precision.  A numeric field of a listing is a double, which [double_of]
    embeds; a text is read as the double nearest to what it denotes. *)
Definition SIZE_TOLERANCE_PERCENT : double := double_of (frac 5 100).
Definition GEO_PROXIMITY_METERS : number := ofZ 30.
Definition EARTH_RADIUS_METERS : number := ofZ 6371000.

Definition hasValidCoordinates (lat lon : value) : bool :=
  match lat, lon with
  | Num la, Num lo =>
      negb (isNaN la) && negb (isNaN lo)
      && geb la (ofZ (-90)) && leb la (ofZ 90)
      && geb lo (ofZ (-180)) && leb lo (ofZ 180)
      && negb (eqb la (ofZ 0) && eqb lo (ofZ 0))
  | _, _ => false
  end.

Definition space_or_comma : re := Chr (fun c => is_space c || is_char "," c).

(** [/(?:^|[\s,])(?:D-?|DE-?)?(\d{5})(?:[\s,]|$)/] *)
Definition zip_re : re :=
  seqs [ Alt Bol space_or_comma;
         Opt (Alt (Seq (Lit "D") (Opt (Lit "-")))
                  (Seq (Lit "DE") (Opt (Lit "-"))));
         Cap 1 (Rep 5 digit);
         Alt space_or_comma Eol ].

Definition extractZipCode (address : option string) : option string :=
  if negb (Str.truthy address) then None else
  match address with
  | None => None
  | Some a =>
      match exec zip_re a with
      | Some m => group 1 m
      | None => None
      end
  end.

Definition letter : re := Chr is_alpha.

(** [/\s(\d+(?:\s?[a-zA-Z])?(?:\s?[-–/]\s?\d+(?:\s?[a-zA-Z])?)?)(?:\s|,|$)/];
    the en dash of the class is not a Latin-1 character. *)
Definition house_number_re : re :=
  seqs [ ws;
         Cap 1 (seqs [ Plus digit;
                       Opt (Seq (Opt ws) letter);
                       Opt (seqs [ Opt ws; Chr (one_of "-/"); Opt ws;
                                   Plus digit; Opt (Seq (Opt ws) letter) ]) ]);
         alts [ ws; Lit ","; Eol ] ].

Definition extractHouseNumber (address : option string) : option string :=
  if negb (Str.truthy address) then None else
  match address with
  | None => None
  | Some a =>
      match exec house_number_re a with
      | Some m =>
          match group 1 m with
          | Some g => Some (toLowerCase (replaceAll (Plus ws) "" g))
          | None => None
          end
      | None => None
      end
  end.

Definition not_digit_or_dot (c : ascii) : bool :=
  negb (is_digit c || is_char "." c).

(** [isNaN(num) || num <= 0 ? null : num]. *)
Definition positive_or_null (num : number) : option number :=
  if isNaN num || leb num (ofZ 0) then None else Some num.

Definition parseSize (size : value) : option number :=
  match size with
  | Null => None
  | Num n => Some n
  | Text s =>
      let cleaned := replaceText "," "." (replaceAll (Lit ".") "" s) in
      positive_or_null (nearest (parseFloat cleaned))
  end.

Definition sizesMatch (size1 size2 : value) : bool :=
  match parseSize size1, parseSize size2 with
  | Some s1, Some s2 =>
      let s1 := double_of s1 in
      let s2 := double_of s2 in
      let avg := ddiv (dadd s1 s2) (ofInt 2) in
      let diff := ddiv (dabs (dsub s1 s2)) avg in
      dleb diff SIZE_TOLERANCE_PERCENT
  | _, _ => false
  end.

Definition computeSizeBucket (size : value) : option number :=
  match parseSize size with
  | None => None
  | Some numericSize =>
      let bucketSize := ofInt 3 in
      Some (number_of
              (dmul (dround (ddiv (double_of numericSize) bucketSize))
                    bucketSize))
  end.

Definition parsePrice (price : value) : option number :=
  match price with
  | Null => None
  | Num n => Some n
  | Text s =>
      let cleaned :=
        replaceAll (Chr not_digit_or_dot) ""
          (replaceText "," "." (replaceAll (Lit ".") "" s)) in
      positive_or_null (nearest (parseFloat cleaned))
  end.

Definition computePriceBucket (price : value) : option number :=
  match parsePrice price with
  | None => None
  | Some numericPrice =>
      let numericPrice := double_of numericPrice in
      let bucketSize :=
        dmax (ofInt 5000)
             (dmul (dround (ddiv (dmul numericPrice (double_of (frac 2 100)))
                                 (ofInt 1000)))
                   (ofInt 1000)) in
      Some (number_of
              (dmul (dround (ddiv numericPrice bucketSize)) bucketSize))
  end.

Definition pricesMatch (price1 price2 : value) : bool :=
  match parsePrice price1, parsePrice price2 with
  | Some p1, Some p2 =>
      let p1 := double_of p1 in
      let p2 := double_of p2 in
      let avg := ddiv (dadd p1 p2) (ofInt 2) in
      let diff := ddiv (dabs (dsub p1 p2)) avg in
      dleb diff (double_of (frac 5 100))
  | _, _ => false
  end.

Section Runtime.
Variable shortest : Qc -> string.

(** [listing.rooms != null && listing.rooms > 0]. *)
Definition hasRooms (rooms : value) : bool :=
  negb (is_null rooms) && gtb (nearest (to_number rooms)) (ofZ 0).

Definition geoPart (l : Listing) : list string :=
  if hasValidCoordinates (latitude l) (longitude l) then
    match latitude l, longitude l with
    | Num la, Num lo =>
        let roundedLat :=
          ddiv (dround (dmul (double_of la) (ofInt 3333))) (ofInt 3333) in
        let roundedLon :=
          ddiv (dround (dmul (double_of lo) (ofInt 3333))) (ofInt 3333) in
        [ "geo:" ++ toFixed4 shortest (number_of roundedLat) ++ ":"
                 ++ toFixed4 shortest (number_of roundedLon) ]
    | _, _ => []
    end
  else [].

Definition zipPart (l : Listing) : list string :=
  match extractZipCode (address l) with
  | Some zipCode => if nonempty zipCode then ["plz:" ++ zipCode] else []
  | None => []
  end.

Definition houseNumberPart (l : Listing) : list string :=
  match extractHouseNumber (address l) with
  | Some houseNumber =>
      if nonempty houseNumber then ["hn:" ++ houseNumber] else []
  | None => []
  end.

Definition sizePart (l : Listing) : list string :=
  match computeSizeBucket (size l) with
  | Some sizeBucket => ["size:" ++ numberToString shortest sizeBucket]
  | None => []
  end.

Definition roomsPart (l : Listing) : list string :=
  if hasRooms (rooms l) then ["rooms:" ++ toString shortest (rooms l)] else [].

Definition pricePart (l : Listing) : list string :=
  match computePriceBucket (price l) with
  | Some priceBucket => ["price:" ++ numberToString shortest priceBucket]
  | None => []
  end.

(** The parts in the order in which they are pushed. *)
Definition identityParts (l : Listing) : list string :=
  geoPart l ++ zipPart l ++ houseNumberPart l ++ sizePart l
  ++ roomsPart l ++ pricePart l.

(** From [parts.length < 4] on: the parts are sorted, joined and hashed. *)
Definition identityOfParts (parts : list string) : option string :=
  if (List.length parts <? 4)%nat then None else
  let input := join "||" (sort String.leb parts) in
  Some (Sha256.hex16 input).

Definition computeFuzzyIdentity (listing : option Listing) : option string :=
  match listing with
  | None => None
  | Some l => identityOfParts (identityParts l)
  end.

(** [Math.sin], [Math.cos], [Math.sqrt], [Math.atan2] and [Math.PI]. *)
Variable Math_sin Math_cos Math_sqrt : number -> number.
Variable Math_atan2 : number -> number -> number.
Variable Math_PI : number.

Definition toRad (deg : number) : number := div (mul deg Math_PI) (ofZ 180).

Definition haversineDistance (lat1 lon1 lat2 lon2 : number) : number :=
  let dLat := toRad (sub lat2 lat1) in
  let dLon := toRad (sub lon2 lon1) in
  let a :=
    add (mul (Math_sin (div dLat (ofZ 2))) (Math_sin (div dLat (ofZ 2))))
        (mul (mul (mul (Math_cos (toRad lat1)) (Math_cos (toRad lat2)))
                  (Math_sin (div dLon (ofZ 2))))
             (Math_sin (div dLon (ofZ 2)))) in
  let c := mul (ofZ 2) (Math_atan2 (Math_sqrt a) (Math_sqrt (sub (ofZ 1) a))) in
  mul EARTH_RADIUS_METERS c.

(** What the geographic check decides: accept, reject, or leave the
    decision to the fuzzy identity. *)
Inductive geoVerdict : Type := GeoAccept | GeoReject | GeoUndecided.

Definition geoCheck (l1 l2 : Listing) : geoVerdict :=
  let hasGeo1 := hasValidCoordinates (latitude l1) (longitude l1) in
  let hasGeo2 := hasValidCoordinates (latitude l2) (longitude l2) in
  if hasGeo1 && hasGeo2 then
    match latitude l1, longitude l1, latitude l2, longitude l2 with
    | Num la1, Num lo1, Num la2, Num lo2 =>
        let distance := haversineDistance la1 lo1 la2 lo2 in
        if leb distance GEO_PROXIMITY_METERS then GeoAccept
        else if gtb distance (ofZ 200) then GeoReject
        else GeoUndecided
    | _, _, _, _ => GeoUndecided
    end
  else GeoUndecided.

Definition sameHash (l1 l2 : Listing) : bool :=
  Str.truthy (hash l1) && Str.truthy (hash l2)
  && match hash l1, hash l2 with
     | Some h1, Some h2 => String.eqb h1 h2
     | _, _ => false
     end.

Definition zipConflict (l1 l2 : Listing) : bool :=
  match extractZipCode (address l1), extractZipCode (address l2) with
  | Some zip1, Some zip2 =>
      nonempty zip1 && nonempty zip2 && negb (String.eqb zip1 zip2)
  | _, _ => false
  end.

Definition houseNumberConflict (l1 l2 : Listing) : bool :=
  match extractHouseNumber (address l1), extractHouseNumber (address l2) with
  | Some hn1, Some hn2 =>
      nonempty hn1 && nonempty hn2 && negb (String.eqb hn1 hn2)
  | _, _ => false
  end.

(** [identity1 && identity2 && identity1 === identity2]: [null] when an
    identity is missing. *)
Definition identitiesAgree (identity1 identity2 : option string)
  : option bool :=
  match identity1, identity2 with
  | Some i1, Some i2 => Some (String.eqb i1 i2)
  | _, _ => None
  end.

(** The result is [true], [false] or [null] ([None]). *)
Definition couldBeSameProperty (listing1 listing2 : option Listing)
  : option bool :=
  match listing1, listing2 with
  | Some l1, Some l2 =>
      if sameHash l1 l2 then Some true
      else if negb (sizesMatch (size l1) (size l2)) then Some false
      else if is_null (rooms l1) || is_null (rooms l2) then Some false
      else if negb (strict_eq (rooms l1) (rooms l2)) then Some false
      else if negb (pricesMatch (price l1) (price l2)) then Some false
      else if zipConflict l1 l2 then Some false
      else if houseNumberConflict l1 l2 then Some false
      else
        match geoCheck l1 l2 with
        | GeoAccept => Some true
        | GeoReject => Some false
        | GeoUndecided =>
            identitiesAgree (computeFuzzyIdentity listing1)
                            (computeFuzzyIdentity listing2)
        end
  | _, _ => Some false
  end.

End Runtime.

End FuzzyMatcher.

(** ** Properties of the fuzzy matcher *)

Module FuzzyFacts.
Import Js Str Val Data Float64 FuzzyMatcher NumberFacts HashFacts.
Local Open Scope string_scope.
Local Open Scope nat_scope.

(** *** The six identifying factors *)

Definition geoFactor (l : Listing) : bool :=
  hasValidCoordinates (latitude l) (longitude l).
Definition zipFactor (l : Listing) : bool :=
  Str.truthy (extractZipCode (address l)).
Definition houseNumberFactor (l : Listing) : bool :=
  Str.truthy (extractHouseNumber (address l)).
Definition sizeFactor (l : Listing) : bool :=
  match computeSizeBucket (size l) with Some _ => true | None => false end.
Definition roomsFactor (l : Listing) : bool := hasRooms (rooms l).
Definition priceFactor (l : Listing) : bool :=
  match computePriceBucket (price l) with Some _ => true | None => false end.

Definition factors (l : Listing) : list bool :=
  [ geoFactor l; zipFactor l; houseNumberFactor l; sizeFactor l;
    roomsFactor l; priceFactor l ].

Definition countFactors (l : Listing) : nat :=
  List.length (filter (fun b : bool => b) (factors l)).

Definition bit (b : bool) : nat := if b then 1 else 0.

Lemma countFactors_bits (l : Listing) :
  countFactors l =
  bit (geoFactor l) + bit (zipFactor l) + bit (houseNumberFactor l)
  + bit (sizeFactor l) + bit (roomsFactor l) + bit (priceFactor l).
Proof.
  unfold countFactors, factors.
  destruct (geoFactor l), (zipFactor l), (houseNumberFactor l),
    (sizeFactor l), (roomsFactor l), (priceFactor l); reflexivity.
Qed.

Section Runtime.
Variable shortest : Qc -> string.

Lemma geoPart_length (l : Listing) :
  List.length (geoPart shortest l) = bit (geoFactor l).
Proof.
  unfold geoPart, geoFactor.
  destruct (hasValidCoordinates (latitude l) (longitude l)) eqn:E; trivial.
  unfold hasValidCoordinates in E.
  destruct (latitude l), (longitude l); try discriminate. reflexivity.
Qed.

Lemma zipPart_length (l : Listing) :
  List.length (zipPart l) = bit (zipFactor l).
Proof.
  unfold zipPart, zipFactor, Str.truthy.
  destruct (extractZipCode (address l)) as [z|]; trivial.
  now destruct (nonempty z).
Qed.

Lemma houseNumberPart_length (l : Listing) :
  List.length (houseNumberPart l) = bit (houseNumberFactor l).
Proof.
  unfold houseNumberPart, houseNumberFactor, Str.truthy.
  destruct (extractHouseNumber (address l)) as [z|]; trivial.
  now destruct (nonempty z).
Qed.

Lemma sizePart_length (l : Listing) :
  List.length (sizePart shortest l) = bit (sizeFactor l).
Proof.
  unfold sizePart, sizeFactor. now destruct (computeSizeBucket (size l)).
Qed.

Lemma roomsPart_length (l : Listing) :
  List.length (roomsPart shortest l) = bit (roomsFactor l).
Proof.
  unfold roomsPart, roomsFactor. now destruct (hasRooms (rooms l)).
Qed.

Lemma pricePart_length (l : Listing) :
  List.length (pricePart shortest l) = bit (priceFactor l).
Proof.
  unfold pricePart, priceFactor. now destruct (computePriceBucket (price l)).
Qed.

Lemma identityParts_length (l : Listing) :
  List.length (identityParts shortest l) = countFactors l.
Proof.
  unfold identityParts.
  rewrite !length_app, geoPart_length, zipPart_length, houseNumberPart_length,
    sizePart_length, roomsPart_length, pricePart_length, countFactors_bits.
  lia.
Qed.

(** C3.  A listing with fewer than four of the six factors (geo cell, ZIP
    code, house number, size bucket, room count, price bucket) has no fuzzy
    identity; with four or more, the identity is a string of sixteen
    hexadecimal digits. *)
Theorem fuzzy_identity_needs_four_factors (l : Listing) :
  (countFactors l < 4 -> computeFuzzyIdentity shortest (Some l) = None)
  /\ (4 <= countFactors l ->
      exists h, computeFuzzyIdentity shortest (Some l) = Some h
                /\ String.length h = 16
                /\ forallb Sha256.is_hex (chars h) = true).
Proof.
  unfold computeFuzzyIdentity, identityOfParts.
  rewrite identityParts_length. split; intro H.
  - apply Nat.ltb_lt in H. now rewrite H.
  - apply Nat.ltb_ge in H. rewrite H. eexists. split; [reflexivity|].
    split; [apply hex16_length | apply hex16_is_hex].
Qed.

(** *** The pairwise predicate *)

Variable Math_sin Math_cos Math_sqrt : number -> number.
Variable Math_atan2 : number -> number -> number.
Variable Math_PI : number.

Local Abbreviation distance :=
  (haversineDistance Math_sin Math_cos Math_sqrt Math_atan2 Math_PI).
Local Abbreviation could :=
  (couldBeSameProperty shortest Math_sin Math_cos Math_sqrt Math_atan2 Math_PI).
Local Abbreviation check :=
  (geoCheck Math_sin Math_cos Math_sqrt Math_atan2 Math_PI).

(** The distance between two listings that both have valid coordinates. *)
Definition distanceBetween (l1 l2 : Listing) : option number :=
  if geoFactor l1 && geoFactor l2 then
    match latitude l1, longitude l1, latitude l2, longitude l2 with
    | Num la1, Num lo1, Num la2, Num lo2 => Some (distance la1 lo1 la2 lo2)
    | _, _, _, _ => None
    end
  else None.

(** The conditions of the chain, in the words of the specification.  The
    relative difference of two numbers is taken against their mean,
    [|a - b| / ((a + b) / 2)], in double precision. *)
Definition relativeDifference (a b : number) : double :=
  ddiv (dabs (dsub (double_of a) (double_of b)))
       (ddiv (dadd (double_of a) (double_of b)) (ofInt 2)).

(** At most 5%: no more than the double nearest to 0.05.  A relative
    difference that is not a number, as that of 0 and 0, is not within the
    tolerance. *)
Definition withinTolerance (a b : number) : bool :=
  dleb (relativeDifference a b) (rnd (qfrac 5 100)).

Definition unknownOrApart (parse : value -> option number) (v1 v2 : value)
  : Prop :=
  parse v1 = None \/ parse v2 = None
  \/ exists a b, parse v1 = Some a /\ parse v2 = Some b
                 /\ withinTolerance a b = false.

Definition knownAndClose (parse : value -> option number) (v1 v2 : value)
  : Prop :=
  exists a b, parse v1 = Some a /\ parse v2 = Some b
              /\ withinTolerance a b = true.

(** Both listings have the same non-empty hash. *)
Definition hashesAgree (l1 l2 : Listing) : Prop :=
  exists h, hash l1 = Some h /\ hash l2 = Some h /\ h <> "".

(** Both texts are present and they differ. *)
Definition presentAndDifferent (o1 o2 : option string) : Prop :=
  exists a b, o1 = Some a /\ o2 = Some b /\ a <> "" /\ b <> "" /\ a <> b.

Definition zipsDiffer (l1 l2 : Listing) : Prop :=
  presentAndDifferent (extractZipCode (address l1))
                      (extractZipCode (address l2)).

Definition houseNumbersDiffer (l1 l2 : Listing) : Prop :=
  presentAndDifferent (extractHouseNumber (address l1))
                      (extractHouseNumber (address l2)).

Definition roomsUnknownOrDifferent (l1 l2 : Listing) : Prop :=
  is_null (rooms l1) = true \/ is_null (rooms l2) = true
  \/ strict_eq (rooms l1) (rooms l2) = false.

Definition fartherThan200 (l1 l2 : Listing) : Prop :=
  exists d, distanceBetween l1 l2 = Some d /\ gtb d (ofZ 200) = true.

Definition within30 (l1 l2 : Listing) : Prop :=
  exists d, distanceBetween l1 l2 = Some d /\ leb d (ofZ 30) = true.

Definition bandOrNoCoordinates (l1 l2 : Listing) : Prop :=
  distanceBetween l1 l2 = None
  \/ exists d, distanceBetween l1 l2 = Some d
               /\ leb d (ofZ 30) = false /\ gtb d (ofZ 200) = false.

Definition priorChecksPass (l1 l2 : Listing) : Prop :=
  knownAndClose parseSize (size l1) (size l2)
  /\ is_null (rooms l1) = false /\ is_null (rooms l2) = false
  /\ strict_eq (rooms l1) (rooms l2) = true
  /\ knownAndClose parsePrice (price l1) (price l2)
  /\ ~ zipsDiffer l1 l2
  /\ ~ houseNumbersDiffer l1 l2.

Lemma nonempty_iff (s : string) : nonempty s = true <-> s <> "".
Proof.
  destruct s; simpl; split; try discriminate; trivial.
  intros H. now contradiction H.
Qed.

Lemma sameHash_iff (l1 l2 : Listing) :
  sameHash l1 l2 = true <-> hashesAgree l1 l2.
Proof.
  unfold sameHash, hashesAgree, Str.truthy.
  destruct (hash l1) as [a|], (hash l2) as [b|]; simpl;
    rewrite ?andb_false_r;
    try (split; [discriminate | intros (h & H1 & H2 & _); discriminate]).
  rewrite !andb_true_iff, !nonempty_iff, String.eqb_eq. split.
  - intros [[A _] ->]. now exists b.
  - intros (h & H1 & H2 & N). injection H1 as ->. injection H2 as ->.
    auto.
Qed.

Lemma conflict_iff (o1 o2 : option string) :
  match o1, o2 with
  | Some a, Some b => nonempty a && nonempty b && negb (String.eqb a b)
  | _, _ => false
  end = true <-> presentAndDifferent o1 o2.
Proof.
  unfold presentAndDifferent.
  destruct o1 as [a|], o2 as [b|];
    try (split; [discriminate | intros (x & y & H1 & H2 & _); discriminate]).
  rewrite !andb_true_iff, !nonempty_iff, negb_true_iff, String.eqb_neq. split.
  - intros [[A B] N]. now exists a, b.
  - intros (x & y & H1 & H2 & A & B & N).
    injection H1 as ->. injection H2 as ->. auto.
Qed.

Lemma no_conflict (o1 o2 : option string) :
  ~ presentAndDifferent o1 o2 ->
  match o1, o2 with
  | Some a, Some b => nonempty a && nonempty b && negb (String.eqb a b)
  | _, _ => false
  end = false.
Proof.
  intros N. apply not_true_iff_false. intros E. apply N.
  now apply conflict_iff.
Qed.

Lemma far_not_near (d : number) :
  gtb d (ofZ 200) = true -> leb d (ofZ 30) = false.
Proof.
  unfold gtb. destruct d; simpl; trivial; try discriminate.
  intro H. apply qltb_iff in H. apply not_true_iff_false. intro L.
  apply qleb_iff in L.
  assert (C : (qz 200 < qz 30)%Qc) by (eapply Qclt_le_trans; eassumption).
  apply qltb_iff in C. discriminate C.
Qed.

(** The two tests of the code are the tolerance of the specification on
    the parsed values. *)
Lemma sizesMatch_tolerance (v1 v2 : value) :
  sizesMatch v1 v2
  = match parseSize v1, parseSize v2 with
    | Some a, Some b => withinTolerance a b
    | _, _ => false
    end.
Proof. reflexivity. Qed.

Lemma pricesMatch_tolerance (v1 v2 : value) :
  pricesMatch v1 v2
  = match parsePrice v1, parsePrice v2 with
    | Some a, Some b => withinTolerance a b
    | _, _ => false
    end.
Proof. reflexivity. Qed.

Lemma apart_no_match (parse : value -> option number) (v1 v2 : value) :
  unknownOrApart parse v1 v2 ->
  match parse v1, parse v2 with
  | Some a, Some b => withinTolerance a b
  | _, _ => false
  end = false.
Proof.
  intros [H|[H|(a & b & Ha & Hb & H)]].
  - now rewrite H.
  - rewrite H. now destruct (parse v1).
  - now rewrite Ha, Hb.
Qed.

Lemma close_match (parse : value -> option number) (v1 v2 : value) :
  knownAndClose parse v1 v2 ->
  match parse v1, parse v2 with
  | Some a, Some b => withinTolerance a b
  | _, _ => false
  end = true.
Proof. intros (a & b & Ha & Hb & H). now rewrite Ha, Hb. Qed.

Lemma sizes_apart (v1 v2 : value) :
  unknownOrApart parseSize v1 v2 -> sizesMatch v1 v2 = false.
Proof. rewrite sizesMatch_tolerance. apply apart_no_match. Qed.

Lemma prices_apart (v1 v2 : value) :
  unknownOrApart parsePrice v1 v2 -> pricesMatch v1 v2 = false.
Proof. rewrite pricesMatch_tolerance. apply apart_no_match. Qed.

Lemma sizes_close (v1 v2 : value) :
  knownAndClose parseSize v1 v2 -> sizesMatch v1 v2 = true.
Proof. rewrite sizesMatch_tolerance. apply close_match. Qed.

Lemma prices_close (v1 v2 : value) :
  knownAndClose parsePrice v1 v2 -> pricesMatch v1 v2 = true.
Proof. rewrite pricesMatch_tolerance. apply close_match. Qed.

Lemma geoCheck_distance (l1 l2 : Listing) :
  check l1 l2 =
  match distanceBetween l1 l2 with
  | Some d => if leb d GEO_PROXIMITY_METERS then GeoAccept
              else if gtb d (ofZ 200) then GeoReject else GeoUndecided
  | None => GeoUndecided
  end.
Proof.
  unfold geoCheck, distanceBetween, geoFactor.
  destruct (hasValidCoordinates (latitude l1) (longitude l1)
            && hasValidCoordinates (latitude l2) (longitude l2)); trivial.
  destruct (latitude l1), (longitude l1), (latitude l2), (longitude l2);
    reflexivity.
Qed.

Lemma identitiesAgree_true (i1 i2 : option string) :
  identitiesAgree i1 i2 = Some true <->
  exists i, i1 = Some i /\ i2 = Some i.
Proof.
  destruct i1 as [a|], i2 as [b|]; simpl; split;
    try discriminate; try (intros (i & H1 & H2); discriminate).
  - intro H. injection H as H. apply String.eqb_eq in H. subst. now exists b.
  - intros (i & H1 & H2). injection H1 as ->. injection H2 as ->.
    now rewrite String.eqb_refl.
Qed.

(** The chain, on the tests of the code for hashes and conflicts. *)
Lemma couldBeSameProperty_tests (l1 l2 : Listing) :
  (sameHash l1 l2 = true -> could (Some l1) (Some l2) = Some true)
  /\ (sameHash l1 l2 = false ->
      (unknownOrApart parseSize (size l1) (size l2) ->
       could (Some l1) (Some l2) = Some false)
      /\ (roomsUnknownOrDifferent l1 l2 ->
          could (Some l1) (Some l2) = Some false)
      /\ (unknownOrApart parsePrice (price l1) (price l2) ->
          could (Some l1) (Some l2) = Some false)
      /\ (zipConflict l1 l2 = true -> could (Some l1) (Some l2) = Some false)
      /\ (houseNumberConflict l1 l2 = true ->
          could (Some l1) (Some l2) = Some false)
      /\ (fartherThan200 l1 l2 -> could (Some l1) (Some l2) = Some false)
      /\ (priorChecksPass l1 l2 ->
          (within30 l1 l2 -> could (Some l1) (Some l2) = Some true)
          /\ (bandOrNoCoordinates l1 l2 ->
              (could (Some l1) (Some l2) = Some true <->
               exists i, computeFuzzyIdentity shortest (Some l1) = Some i
                         /\ computeFuzzyIdentity shortest (Some l2) = Some i)))).
Proof.
  unfold couldBeSameProperty. split; [intros ->; reflexivity|].
  intros ->. rewrite geoCheck_distance. unfold GEO_PROXIMITY_METERS.
  repeat split.
  - intro H. apply sizes_apart in H. now rewrite H.
  - intros [H|[H|H]]; destruct (negb (sizesMatch _ _)); trivial.
    + now rewrite H.
    + rewrite H, orb_true_r. reflexivity.
    + destruct (is_null (rooms l1) || is_null (rooms l2)); trivial.
      now rewrite H.
  - intro H. apply prices_apart in H. rewrite H.
    destruct (negb (sizesMatch _ _)); trivial.
    destruct (is_null (rooms l1) || is_null (rooms l2)); trivial.
    now destruct (negb (strict_eq _ _)).
  - intros ->.
    destruct (negb (sizesMatch _ _)); trivial.
    destruct (is_null (rooms l1) || is_null (rooms l2)); trivial.
    destruct (negb (strict_eq _ _)); trivial.
    now destruct (negb (pricesMatch _ _)).
  - intros ->.
    destruct (negb (sizesMatch _ _)); trivial.
    destruct (is_null (rooms l1) || is_null (rooms l2)); trivial.
    destruct (negb (strict_eq _ _)); trivial.
    destruct (negb (pricesMatch _ _)); trivial.
    now destruct (zipConflict l1 l2).
  - intros (d & -> & Hd).
    destruct (negb (sizesMatch _ _)); trivial.
    destruct (is_null (rooms l1) || is_null (rooms l2)); trivial.
    destruct (negb (strict_eq _ _)); trivial.
    destruct (negb (pricesMatch _ _)); trivial.
    destruct (zipConflict l1 l2); trivial.
    destruct (houseNumberConflict l1 l2); trivial.
    now rewrite (far_not_near _ Hd), Hd.
  - destruct H as (Hs & -> & -> & -> & Hp & Hz & Hh).
    apply no_conflict in Hz, Hh. unfold zipConflict, houseNumberConflict.
    rewrite Hz, Hh, (sizes_close Hs), (prices_close Hp).
    intros (d & -> & ->). reflexivity.
  - destruct H as (Hs & -> & -> & -> & Hp & Hz & Hh).
    apply no_conflict in Hz, Hh. unfold zipConflict, houseNumberConflict.
    rewrite Hz, Hh, (sizes_close Hs), (prices_close Hp).
    destruct H0 as [->|(d & -> & -> & ->)]; simpl;
      apply identitiesAgree_true.
  - destruct H as (Hs & -> & -> & -> & Hp & Hz & Hh).
    apply no_conflict in Hz, Hh. unfold zipConflict, houseNumberConflict.
    rewrite Hz, Hh, (sizes_close Hs), (prices_close Hp).
    destruct H0 as [->|(d & -> & -> & ->)]; simpl;
      apply identitiesAgree_true.
Qed.

(** C5, as amended.  [couldBeSameProperty] is a conservative chain: equal
    non-empty hashes match at once; otherwise an unknown size or price, a
    size or price whose relative difference, computed in double precision,
    is not within the tolerance of 5%, an unknown or different room count,
    a ZIP or house-number conflict, or valid coordinates more than 200 m
    apart reject; when sizes and prices are known and within the
    tolerance, the room counts known and equal and there is no conflict,
    coordinates at most 30 m apart accept, and in the band between (or
    without coordinates) the answer is [true] exactly when both fuzzy
    identities exist and are equal. *)
Theorem couldBeSameProperty_chain (l1 l2 : Listing) :
  (hashesAgree l1 l2 -> could (Some l1) (Some l2) = Some true)
  /\ (~ hashesAgree l1 l2 ->
      (unknownOrApart parseSize (size l1) (size l2) ->
       could (Some l1) (Some l2) = Some false)
      /\ (roomsUnknownOrDifferent l1 l2 ->
          could (Some l1) (Some l2) = Some false)
      /\ (unknownOrApart parsePrice (price l1) (price l2) ->
          could (Some l1) (Some l2) = Some false)
      /\ (zipsDiffer l1 l2 -> could (Some l1) (Some l2) = Some false)
      /\ (houseNumbersDiffer l1 l2 ->
          could (Some l1) (Some l2) = Some false)
      /\ (fartherThan200 l1 l2 -> could (Some l1) (Some l2) = Some false)
      /\ (priorChecksPass l1 l2 ->
          (within30 l1 l2 -> could (Some l1) (Some l2) = Some true)
          /\ (bandOrNoCoordinates l1 l2 ->
              (could (Some l1) (Some l2) = Some true <->
               exists i, computeFuzzyIdentity shortest (Some l1) = Some i
                         /\ computeFuzzyIdentity shortest (Some l2) = Some i)))).
Proof.
  destruct (couldBeSameProperty_tests l1 l2) as [Same Other].
  split; [intros H; now apply Same, sameHash_iff|].
  intros N.
  assert (sameHash l1 l2 = false) as E.
  { apply not_true_iff_false. intros E. now apply N, sameHash_iff. }
  destruct (Other E) as (A & B & C & D & F & G & H).
  split; [exact A|]. split; [exact B|]. split; [exact C|].
  split; [intros Z; apply D; now apply conflict_iff|].
  split; [intros Z; apply F; now apply conflict_iff|].
  split; [exact G|exact H].
Qed.

(** *** Symmetry *)

Lemma withinTolerance_sym (a b : number) :
  withinTolerance a b = withinTolerance b a.
Proof.
  unfold withinTolerance, relativeDifference.
  now rewrite (Float64Facts.dadd_comm (double_of a)),
    (Float64Facts.dabs_dsub_swap (double_of a)).
Qed.

Lemma sizesMatch_sym (v1 v2 : value) : sizesMatch v1 v2 = sizesMatch v2 v1.
Proof.
  rewrite !sizesMatch_tolerance.
  destruct (parseSize v1), (parseSize v2); trivial.
  apply withinTolerance_sym.
Qed.

Lemma pricesMatch_sym (v1 v2 : value) : pricesMatch v1 v2 = pricesMatch v2 v1.
Proof.
  rewrite !pricesMatch_tolerance.
  destruct (parsePrice v1), (parsePrice v2); trivial.
  apply withinTolerance_sym.
Qed.

Lemma qeqb_sym (a b : Qc) : qeqb a b = qeqb b a.
Proof.
  apply eq_true_iff_eq. rewrite !qeqb_iff. split; congruence.
Qed.

Lemma strict_eq_sym (a b : value) : strict_eq a b = strict_eq b a.
Proof.
  destruct a as [|x|s], b as [|y|t]; simpl; trivial.
  - destruct x, y; simpl; trivial. apply qeqb_sym.
  - apply String.eqb_sym.
Qed.

Lemma sameHash_sym (l1 l2 : Listing) : sameHash l1 l2 = sameHash l2 l1.
Proof.
  unfold sameHash.
  destruct (hash l1) as [a|], (hash l2) as [b|]; simpl;
    rewrite ?andb_false_r; trivial.
  rewrite (String.eqb_sym a b).
  destruct (nonempty a), (nonempty b); reflexivity.
Qed.

Lemma conflict_sym (o1 o2 : option string) :
  match o1, o2 with
  | Some a, Some b => nonempty a && nonempty b && negb (String.eqb a b)
  | _, _ => false
  end =
  match o2, o1 with
  | Some a, Some b => nonempty a && nonempty b && negb (String.eqb a b)
  | _, _ => false
  end.
Proof.
  destruct o1 as [a|], o2 as [b|]; trivial.
  rewrite (String.eqb_sym a b).
  destruct (nonempty a), (nonempty b); reflexivity.
Qed.

Lemma identitiesAgree_sym (i1 i2 : option string) :
  identitiesAgree i1 i2 = identitiesAgree i2 i1.
Proof.
  destruct i1 as [a|], i2 as [b|]; simpl; trivial.
  now rewrite String.eqb_sym.
Qed.

Section Symmetry.

(** The sine of the runtime is an odd function. *)
Hypothesis sin_odd : forall x, Math_sin (neg x) = neg (Math_sin x).

Lemma toRad_neg (x : number) :
  toRad Math_PI (neg x) = neg (toRad Math_PI x).
Proof. unfold toRad. now rewrite mul_neg_l, div_neg_l. Qed.

Lemma half_sine_swap (x y : number) :
  let s := fun a b => Math_sin (div (toRad Math_PI (sub a b)) (ofZ 2)) in
  s y x = neg (s x y).
Proof.
  simpl. now rewrite (sub_swap x y), toRad_neg, div_neg_l, sin_odd.
Qed.

Lemma haversineDistance_sym (lat1 lon1 lat2 lon2 : number) :
  distance lat1 lon1 lat2 lon2 = distance lat2 lon2 lat1 lon1.
Proof.
  unfold haversineDistance.
  pose proof (half_sine_swap lat1 lat2) as Hlat.
  pose proof (half_sine_swap lon1 lon2) as Hlon.
  simpl in Hlat, Hlon. rewrite Hlat, Hlon.
  rewrite mul_neg_neg, !mul_neg_r, mul_neg_l, !neg_involutive.
  now rewrite (mul_comm (Math_cos (toRad Math_PI lat2))).
Qed.

Lemma geoCheck_sym (l1 l2 : Listing) : check l1 l2 = check l2 l1.
Proof.
  unfold geoCheck.
  rewrite (andb_comm (hasValidCoordinates (latitude l2) (longitude l2))).
  destruct (hasValidCoordinates (latitude l1) (longitude l1)
            && hasValidCoordinates (latitude l2) (longitude l2)); trivial.
  destruct (latitude l1), (longitude l1), (latitude l2), (longitude l2);
    trivial.
  now rewrite haversineDistance_sym.
Qed.

(** C10.  [couldBeSameProperty] gives the same answer for a pair of
    listings in either order, given that the runtime's sine is odd. *)
Theorem couldBeSameProperty_symmetric (listing1 listing2 : option Listing) :
  could listing1 listing2 = could listing2 listing1.
Proof.
  destruct listing1 as [l1|], listing2 as [l2|]; trivial.
  unfold couldBeSameProperty.
  rewrite (sameHash_sym l2 l1), (sizesMatch_sym (size l2)),
    (orb_comm (is_null (rooms l2))), (strict_eq_sym (rooms l2)),
    (pricesMatch_sym (price l2)), (geoCheck_sym l2 l1),
    (identitiesAgree_sym (computeFuzzyIdentity shortest (Some l2))).
  unfold zipConflict, houseNumberConflict.
  rewrite (conflict_sym (extractZipCode (address l2))),
    (conflict_sym (extractHouseNumber (address l2))).
  reflexivity.
Qed.

End Symmetry.

End Runtime.
End FuzzyFacts.

(** ** Properties of the two identities *)

Module IdentityFacts.
Import Js Str Val Data PropertyIdentity FuzzyMatcher SortFacts FuzzyFacts.
Local Open Scope string_scope.
Local Open Scope nat_scope.

(** The whitespace-separated tokens of an address. *)
Definition addressTokens (a : string) : list string := split (Plus ws) a.

(** A listing that has only an address, a size, a room count and a price. *)
Definition plainListing (a : string) (size_ rooms_ price_ : value) : Listing :=
  MkListing None None None (Some a) price_ size_ rooms_ Null Null Null
            None None None None None.

(** Two orders of the same address tokens. *)
Definition streetFirst : string := "Musterstr 12 10115 Berlin".
Definition numberFirst : string := "12 Musterstr 10115 Berlin".

(** C2, as stated, fails: the two addresses have the same tokens, and the
    listings differ in nothing else, yet both the strict and the fuzzy
    identity differ. *)
Lemma identities_depend_on_token_order :
  Permutation (addressTokens streetFirst) (addressTokens numberFirst)
  /\ (forall shortest,
        computePropertyIdentity shortest
          (Some (plainListing streetFirst Null Null Null))
        = Some "54aaa260070f75c1"
        /\ computePropertyIdentity shortest
             (Some (plainListing numberFirst Null Null Null))
           = Some "63a3be802e773739")
  /\ (forall shortest,
        computeFuzzyIdentity shortest
          (Some (plainListing streetFirst (Num (ofZ 70)) (Num (ofZ 3))
                              (Num (ofZ 250000))))
        = Some "b5fefc0dbdd62a65"
        /\ computeFuzzyIdentity shortest
             (Some (plainListing numberFirst (Num (ofZ 70)) (Num (ofZ 3))
                                 (Num (ofZ 250000))))
           = Some "12e1c75f33a867cd").
Proof.
  split; [|split].
  - vm_compute. apply perm_swap.
  - intro shortest. split; vm_compute; reflexivity.
  - intro shortest. split; vm_compute; reflexivity.
Qed.

Section Runtime.
Variable shortest : Qc -> string.

Lemma normalizeAddress_falsy (a : option string) :
  Str.truthy a = false -> normalizeAddress a = "".
Proof.
  destruct a as [a|]; simpl; trivial.
  unfold normalizeAddress. now intros ->.
Qed.

Lemma computePropertyIdentity_normalized (l : Listing) :
  computePropertyIdentity shortest (Some l) =
  if nonempty (normalizeAddress (address l))
  then Some (Sha256.hex16
               (normalizeAddress (address l) ++ "|"
                ++ (if is_null (size l) then ""
                    else toString shortest (size l))))
  else None.
Proof.
  unfold computePropertyIdentity.
  destruct (Str.truthy (address l)) eqn:E; simpl.
  - now destruct (nonempty (normalizeAddress (address l))).
  - now rewrite (normalizeAddress_falsy _ E).
Qed.

Lemma identityOfParts_permutation (parts parts' : list string) :
  Permutation parts parts' -> identityOfParts parts = identityOfParts parts'.
Proof.
  intro P. unfold identityOfParts.
  now rewrite (Permutation_length P), (sort_strings_invariant P).
Qed.

(** C2, amended.  Both identities are functions of a few fields only.  The
    strict identity depends on the address through [normalizeAddress] (which
    keeps the order of the tokens) and on the size; the fuzzy identity
    depends on the address through the extracted ZIP code and house number
    and on size, rooms, price and coordinates; the order of the fuzzy
    identity's factor strings does not matter. *)
Theorem identities_depend_on (l l' : Listing) :
  (size l = size l' ->
   normalizeAddress (address l) = normalizeAddress (address l') ->
   computePropertyIdentity shortest (Some l)
   = computePropertyIdentity shortest (Some l'))
  /\ (size l = size l' -> rooms l = rooms l' -> price l = price l' ->
      latitude l = latitude l' -> longitude l = longitude l' ->
      extractZipCode (address l) = extractZipCode (address l') ->
      extractHouseNumber (address l) = extractHouseNumber (address l') ->
      computeFuzzyIdentity shortest (Some l)
      = computeFuzzyIdentity shortest (Some l'))
  /\ (forall parts parts' : list string,
        Permutation parts parts' ->
        identityOfParts parts = identityOfParts parts').
Proof.
  split; [|split].
  - intros Hs Ha. rewrite !computePropertyIdentity_normalized.
    now rewrite Hs, Ha.
  - intros Hs Hr Hp Hla Hlo Hz Hh.
    unfold computeFuzzyIdentity, identityParts, geoPart, zipPart,
      houseNumberPart, sizePart, roomsPart, pricePart.
    now rewrite Hs, Hr, Hp, Hla, Hlo, Hz, Hh.
  - apply identityOfParts_permutation.
Qed.

End Runtime.

(** A runtime for examples: the small-angle sine, a unit cosine, and
    square root and arc tangent replaced by their first argument. *)
Definition sample_shortest (q : Qc) : string := "".
Definition sample_sin (x : number) : number := x.
Definition sample_cos (x : number) : number := ofZ 1.
Definition sample_sqrt (x : number) : number := x.
Definition sample_atan2 (y x : number) : number := y.
Definition sample_PI : number := frac 355 113.

Definition located (a : string) (lat lon : Z * positive) : Listing :=
  MkListing None None None (Some a) (Num (ofZ 250000)) (Num (ofZ 70))
            (Num (ofZ 3)) (Num (frac (fst lat) (snd lat)))
            (Num (frac (fst lon) (snd lon))) Null None None None None None.

Lemma couldBeSameProperty_symmetric_witness :
  (forall x, sample_sin (neg x) = neg (sample_sin x))
  /\ couldBeSameProperty sample_shortest sample_sin sample_cos sample_sqrt
       sample_atan2 sample_PI
       (Some (located streetFirst (5252%Z, 100%positive) (1340%Z, 100%positive)))
       (Some (located numberFirst (5253%Z, 100%positive) (1341%Z, 100%positive)))
     = couldBeSameProperty sample_shortest sample_sin sample_cos sample_sqrt
         sample_atan2 sample_PI
         (Some (located numberFirst (5253%Z, 100%positive) (1341%Z, 100%positive)))
         (Some (located streetFirst (5252%Z, 100%positive) (1340%Z, 100%positive))).
Proof.
  split.
  - reflexivity.
  - apply couldBeSameProperty_symmetric. reflexivity.
Defined.

(** Two listings of one place that differ in their hashes only; the size
    is a number or a text. *)
Definition sized (hash_ : string) (size_ : value) : Listing :=
  MkListing None (Some hash_) None (Some streetFirst) (Num (ofZ 250000))
            size_ (Num (ofZ 3)) (Num (frac 5252 100)) (Num (frac 1340 100))
            Null None None None None None.

(** The relative difference against the mean, without rounding. *)
Definition exactDifference (a b : number) : number :=
  div (abs (sub a b)) (div (add a b) (ofZ 2)).

(** C5, as stated, fails.  Two listings with the size 0 are rejected,
    although they have different hashes, equal sizes, equal room counts and
    equal prices, no conflict of ZIP code or house number and are no
    distance apart: the relative difference of 0 and 0 is not a number.
    The sizes 66,3 and 69,7 are exactly 5% apart and are rejected, because
    the doubles that stand for them are further apart.  The doubles for
    70,98 and 74,62 are more than 5% apart and are accepted, because the
    computed quotient is rounded to the tolerance. *)
Lemma tolerance_fails_at_zero_and_at_the_boundary :
  (forall shortest Math_sin Math_cos Math_sqrt Math_atan2 Math_PI,
      couldBeSameProperty shortest Math_sin Math_cos Math_sqrt Math_atan2
        Math_PI (Some (sized "h1" (Num (ofZ 0))))
        (Some (sized "h2" (Num (ofZ 0))))
      = Some false)
  /\ ~ hashesAgree (sized "h1" (Num (ofZ 0))) (sized "h2" (Num (ofZ 0)))
  /\ parseSize (Num (ofZ 0)) = Some (ofZ 0)
  /\ is_null (Num (ofZ 3)) = false
  /\ strict_eq (Num (ofZ 3)) (Num (ofZ 3)) = true
  /\ knownAndClose parsePrice (Num (ofZ 250000)) (Num (ofZ 250000))
  /\ ~ zipsDiffer (sized "h1" (Num (ofZ 0))) (sized "h2" (Num (ofZ 0)))
  /\ ~ houseNumbersDiffer (sized "h1" (Num (ofZ 0)))
                          (sized "h2" (Num (ofZ 0)))
  /\ within30 sample_sin sample_cos sample_sqrt sample_atan2 sample_PI
              (sized "h1" (Num (ofZ 0))) (sized "h2" (Num (ofZ 0)))
  /\ eqb (exactDifference (parseFloat "66.3") (parseFloat "69.7"))
         (frac 5 100) = true
  /\ (forall shortest Math_sin Math_cos Math_sqrt Math_atan2 Math_PI,
        couldBeSameProperty shortest Math_sin Math_cos Math_sqrt Math_atan2
          Math_PI (Some (sized "h1" (Text "66,3")))
          (Some (sized "h2" (Text "69,7")))
        = Some false)
  /\ (exists a b,
        parseSize (Text "70,98") = Some a /\ parseSize (Text "74,62") = Some b
        /\ gtb (exactDifference a b) (frac 5 100) = true)
  /\ couldBeSameProperty sample_shortest sample_sin sample_cos sample_sqrt
       sample_atan2 sample_PI (Some (sized "h1" (Text "70,98")))
       (Some (sized "h2" (Text "74,62")))
     = Some true.
Proof.
  split; [intros; vm_compute; reflexivity|].
  split; [intros (h & H1 & H2 & _); cbn in H1, H2; congruence|].
  split; [reflexivity|].
  split; [reflexivity|].
  split; [vm_compute; reflexivity|].
  split.
  { exists (ofZ 250000), (ofZ 250000).
    split; [reflexivity|]. split; [reflexivity|]. vm_compute. reflexivity. }
  split.
  { intros Z. apply conflict_iff in Z. vm_compute in Z. discriminate. }
  split.
  { intros Z. apply conflict_iff in Z. vm_compute in Z. discriminate. }
  split.
  { unfold within30.
    exists (haversineDistance sample_sin sample_cos sample_sqrt sample_atan2
              sample_PI (frac 5252 100) (frac 1340 100) (frac 5252 100)
              (frac 1340 100)).
    split; vm_compute; reflexivity. }
  split; [vm_compute; reflexivity|].
  split; [intros; vm_compute; reflexivity|].
  split; [|vm_compute; reflexivity].
  exists (Float64.nearest (frac 7098 100)), (Float64.nearest (frac 7462 100)).
  split; [vm_compute; reflexivity|]. split; vm_compute; reflexivity.
Qed.

End IdentityFacts.

(** ** geoMatcher.js *)

Module GeoMatcher.

Import Js Val Data.
Local Open Scope string_scope.

Definition EARTH_RADIUS_METERS : number := ofZ 6371000.

(** [{ maxDistance, points }], nearest first. *)
Definition PROXIMITY_THRESHOLDS : list (number * number) :=
  [ (ofZ 30, ofZ 20); (ofZ 50, ofZ 15); (ofZ 100, ofZ 10); (ofZ 200, ofZ 5) ].

Definition isValidCoordinate (lat lon : value) : bool :=
  match lat, lon with
  | Num la, Num lo =>
      if isNaN la || isNaN lo then false
      else if ltb la (ofZ (-90)) || gtb la (ofZ 90) then false
      else if ltb lo (ofZ (-180)) || gtb lo (ofZ 180) then false
      else if eqb la (ofZ 0) && eqb lo (ofZ 0) then false
      else true
  | _, _ => false
  end.

(** The outcome of [calculateGeoScore]; [distance] is [null] without valid
    coordinates. *)
Record GeoScore : Type := MkGeoScore {
  score : number;
  distance : option number;
  confidence : string
}.

Fixpoint firstThreshold (d : number) (table : list (number * number))
  : option (number * number) :=
  match table with
  | [] => None
  | (maxDistance, points) :: table' =>
      if leb d maxDistance then Some (maxDistance, points)
      else firstThreshold d table'
  end.

Section Runtime.
Variable Math_sin Math_cos Math_sqrt : number -> number.
Variable Math_atan2 : number -> number -> number.
Variable Math_PI : number.

Definition toRad (deg : number) : number := div (mul deg Math_PI) (ofZ 180).

(** The great-circle distance in metres, rounded to a tenth. *)
Definition haversineDistance (lat1 lon1 lat2 lon2 : number) : number :=
  let phi1 := toRad lat1 in
  let phi2 := toRad lat2 in
  let deltaPhi := toRad (sub lat2 lat1) in
  let deltaLambda := toRad (sub lon2 lon1) in
  let a :=
    add (mul (Math_sin (div deltaPhi (ofZ 2))) (Math_sin (div deltaPhi (ofZ 2))))
        (mul (mul (mul (Math_cos phi1) (Math_cos phi2))
                  (Math_sin (div deltaLambda (ofZ 2))))
             (Math_sin (div deltaLambda (ofZ 2)))) in
  let c := mul (ofZ 2) (Math_atan2 (Math_sqrt a) (Math_sqrt (sub (ofZ 1) a))) in
  div (round (mul (mul EARTH_RADIUS_METERS c) (ofZ 10))) (ofZ 10).

Definition calculateGeoScore (lat1 lon1 lat2 lon2 : value) : GeoScore :=
  if negb (isValidCoordinate lat1 lon1) || negb (isValidCoordinate lat2 lon2)
  then MkGeoScore (ofZ 0) None "none"
  else
    match lat1, lon1, lat2, lon2 with
    | Num la1, Num lo1, Num la2, Num lo2 =>
        let d := haversineDistance la1 lo1 la2 lo2 in
        match firstThreshold d PROXIMITY_THRESHOLDS with
        | Some (_, points) =>
            MkGeoScore points (Some d)
                       (if leb d (ofZ 50) then "high" else "medium")
        | None => MkGeoScore (ofZ 0) (Some d) "low"
        end
    | _, _, _, _ => MkGeoScore (ofZ 0) None "none"
    end.

(** A listing found by [findListingsWithinRadius], with its [_distance]. *)
Definition findListingsWithinRadius (listings : list Listing)
  (centerLat centerLon : value) (radiusMeters : number)
  : list (Listing * number) :=
  match centerLat, centerLon with
  | Num cla, Num clo =>
      if negb (isValidCoordinate centerLat centerLon) then [] else
      let results :=
        flat_map
          (fun listing =>
             match latitude listing, longitude listing with
             | Num lat, Num lon =>
                 if negb (isValidCoordinate (latitude listing)
                                            (longitude listing)) then []
                 else
                   let d := haversineDistance cla clo lat lon in
                   if leb d radiusMeters then [(listing, d)] else []
             | _, _ => []
             end)
          listings in
      sort (fun a b => keeps_order (sub (snd a) (snd b))) results
  | _, _ => []
  end.

Record BoundingBox : Type := MkBox {
  minLat : number; maxLat : number; minLon : number; maxLon : number
}.

Definition createBoundingBox (lat lon radiusMeters : number) : BoundingBox :=
  let latDelta := div radiusMeters (ofZ 111320) in
  let lonDelta :=
    div radiusMeters
        (mul (ofZ 111320) (Math_cos (div (mul lat Math_PI) (ofZ 180)))) in
  MkBox (sub lat latDelta) (add lat latDelta)
        (sub lon lonDelta) (add lon lonDelta).

End Runtime.

End GeoMatcher.

(** ** addressNormalizer.js *)

Module AddressNormalizer.

Import Js Str Val Data.
Local Open Scope string_scope.

Definition A_umlaut : ascii := "196"%char.
Definition O_umlaut : ascii := "214"%char.
Definition U_umlaut : ascii := "220"%char.
Definition a_umlaut : ascii := "228"%char.
Definition o_umlaut : ascii := "246"%char.
Definition u_umlaut : ascii := "252"%char.
Definition sharp_s : ascii := "223"%char.

Definition strasze : string := "stra" ++ String sharp_s "e".
Definition bruecke_umlaut : string := "br" ++ String u_umlaut "cke".

(** The street types, in the order of the object literal. *)
Definition STREET_TYPE_MAPPINGS : list (string * string) :=
  [ ("str", "strasse"); ("str.", "strasse"); (strasze, "strasse");
    ("strasse", "strasse"); ("pl", "platz"); ("pl.", "platz");
    ("platz", "platz"); ("wg", "weg"); ("wg.", "weg"); ("weg", "weg");
    ("al", "allee"); ("al.", "allee"); ("allee", "allee");
    ("gasse", "gasse"); ("ring", "ring"); ("damm", "damm"); ("ufer", "ufer");
    ("chaussee", "chaussee"); ("promenade", "promenade"); ("steig", "steig");
    ("stieg", "stieg"); ("pfad", "pfad"); (bruecke_umlaut, "bruecke");
    ("bruecke", "bruecke") ].

Definition UMLAUT_MAP : list (ascii * string) :=
  [ (a_umlaut, "ae"); (o_umlaut, "oe"); (u_umlaut, "ue"); (sharp_s, "ss");
    (A_umlaut, "ae"); (O_umlaut, "oe"); (U_umlaut, "ue") ].

Fixpoint umlaut (c : ascii) (table : list (ascii * string)) : list ascii :=
  match table with
  | [] => [c]
  | (u, r) :: table' => if is_char u c then chars r else umlaut c table'
  end.

Definition replaceUmlauts (s : string) : string :=
  str (flat_map (fun c => umlaut c UMLAUT_MAP) (chars s)).

Definition space_or_comma : re := Chr (fun c => is_space c || is_char "," c).

(** [/(?:^|[\s,])(?:D-?|DE-?)?(\d{5})(?:[\s,]|$)/] *)
Definition zip_re : re :=
  seqs [ Alt Bol space_or_comma;
         Opt (Alt (Seq (Lit "D") (Opt (Lit "-")))
                  (Seq (Lit "DE") (Opt (Lit "-"))));
         Cap 1 (Rep 5 digit);
         Alt space_or_comma Eol ].

(** [{ zipCode, addressWithoutZip }] *)
Definition extractZipCode (address : string) : option string * string :=
  if negb (nonempty address) then (None, "") else
  match exec zip_re address with
  | Some zipMatch =>
      (group 1 zipMatch, trim (replaceText (str (whole zipMatch)) " " address))
  | None => (None, address)
  end.

Definition letter : re := Chr is_alpha.

(** [/\s(\d+(?:\s?[a-zA-Z])?(?:\s?[-–/]\s?\d+(?:\s?[a-zA-Z])?)?)(?:\s|,|$)/] *)
Definition house_number_re : re :=
  seqs [ ws;
         Cap 1 (seqs [ Plus digit;
                       Opt (Seq (Opt ws) letter);
                       Opt (seqs [ Opt ws; Chr (one_of "-/"); Opt ws;
                                   Plus digit; Opt (Seq (Opt ws) letter) ]) ]);
         alts [ ws; Lit ","; Eol ] ].

(** [{ houseNumber, addressWithoutNumber }] *)
Definition extractHouseNumber (address : string) : option string * string :=
  if negb (nonempty address) then (None, "") else
  match exec house_number_re address with
  | Some numberMatch =>
      (match group 1 numberMatch with
       | Some g => Some (toLowerCase (replaceAll (Plus ws) "" g))
       | None => None
       end,
       trim (replaceText (str (whole numberMatch)) " " address))
  | None => (None, address)
  end.

Definition german_letter (c : ascii) : bool :=
  is_alpha c
  || existsb (is_char c)
       [a_umlaut; o_umlaut; u_umlaut; A_umlaut; O_umlaut; U_umlaut; sharp_s].

(** [/([^(]+)\s*\(([^)]+)\)/] *)
Definition paren_re : re :=
  seqs [ Cap 1 (Plus (Chr (fun c => negb (is_char "(" c))));
         Star ws; Lit "(";
         Cap 2 (Plus (Chr (fun c => negb (is_char ")" c))));
         Lit ")" ].

(** [/([A-Za-zäöüÄÖÜß]+)-([A-Za-zäöüÄÖÜß]+)(?:\s|,|$)/] *)
Definition dash_re : re :=
  seqs [ Cap 1 (Plus (Chr german_letter)); Lit "-";
         Cap 2 (Plus (Chr german_letter));
         alts [ ws; Lit ","; Eol ] ].

(** [/^\d+[a-z]?$/] *)
Definition number_word_re : re :=
  seqs [ Bol; Plus digit; Opt (Chr is_lower); Eol ].

Definition isStreetType (word : string) : bool :=
  existsb (fun entry => String.eqb (fst entry) (toLowerCase word))
          STREET_TYPE_MAPPINGS.

(** The last word that is no house number, no street type and has three
    characters or more; [words] comes last word first. *)
Fixpoint lastSignificant (words : list string) : option string :=
  match words with
  | [] => None
  | word :: words' =>
      if test number_word_re word then lastSignificant words'
      else if isStreetType word then lastSignificant words'
      else if (String.length word <? 3)%nat then lastSignificant words'
      else Some word
  end.

(** [{ city, district }] *)
Definition extractCityAndDistrict (address : string)
  : option string * option string :=
  if negb (nonempty address) then (None, None) else
  let district :=
    match exec paren_re address with
    | Some parenMatch => option_map trim (group 2 parenMatch)
    | None => None
    end in
  let district :=
    match exec dash_re address with
    | Some dashMatch =>
        if negb (Str.truthy district) then group 2 dashMatch else district
    | None => district
    end in
  let addressWithoutZip := snd (extractZipCode address) in
  let words :=
    filter nonempty (split (Plus space_or_comma) addressWithoutZip) in
  (lastSignificant (rev words), district).

(** [/^(am|an der|an dem|im|in der|in dem|auf der|auf dem|zur|zum)\s+/i] *)
Definition prefix_re : re :=
  seqs [ Bol;
         alts (map LitCi [ "am"; "an der"; "an dem"; "im"; "in der"; "in dem";
                           "auf der"; "auf dem"; "zur"; "zum" ]);
         Plus ws ].

(** [new RegExp(`\\b${abbr.replace('.', '\\.')}\\b`, 'gi')] for an
    abbreviation of the table. *)
Definition abbreviation_re (abbr : string) : re :=
  seqs [ Wb; LitCi abbr; Wb ].

Definition normalizeStreetName (street : string) : string :=
  if negb (nonempty street) then "" else
  let normalized := toLowerCase street in
  let normalized := replaceUmlauts normalized in
  let normalized := replaceFirst prefix_re "" normalized in
  let normalized :=
    fold_left (fun acc entry =>
                 replaceAll (abbreviation_re (fst entry)) (snd entry) acc)
              STREET_TYPE_MAPPINGS normalized in
  trim (replaceAll (Plus ws) " " normalized).

Record ParsedAddress : Type := MkParsed {
  original : string;
  normalized : string;
  zipCode : option string;
  city : option string;
  district : option string;
  street : option string;
  houseNumber : option string
}.

Definition emptyParsed : ParsedAddress :=
  MkParsed "" "" None None None None None.

(** The characters with a meaning of their own in a pattern. *)
Definition is_syntax_char (c : ascii) : bool :=
  one_of "\^$.*+?()[]{}|" c.

Definition push_if (o : option string) : list string :=
  match o with
  | Some s => if nonempty s then [s] else []
  | None => []
  end.

Section Runtime.

(** [new RegExp(source, 'gi')] for a source with syntax characters: the
    pattern the runtime compiles, or nothing when it throws a
    [SyntaxError]. *)
Variable compileRegExp : string -> option re.

(** [new RegExp(`\\b${city}\\b`, 'gi')]: a city without syntax characters
    stands for itself. *)
Definition city_re (city : string) : option re :=
  if existsb is_syntax_char (chars city)
  then compileRegExp ("\b" ++ city ++ "\b")
  else Some (seqs [ Wb; LitCi city; Wb ]).

(** [parseAddress], or nothing when the pattern built from the city is
    refused. *)
Definition parseAddress (address : option string) : option ParsedAddress :=
  match address with
  | None => Some emptyParsed
  | Some address =>
      if negb (nonempty address) then Some emptyParsed else
      let (zipCode, addressWithoutZip) := extractZipCode address in
      let (houseNumber, addressWithoutNumber) :=
        extractHouseNumber addressWithoutZip in
      let (city, district) := extractCityAndDistrict addressWithoutZip in
      let street := addressWithoutNumber in
      let street : option string :=
        match city with
        | Some c =>
            match city_re c with
            | Some r => Some (trim (replaceAll r "" street))
            | None => None
            end
        | None => Some street
        end in
      match street with
      | None => None
      | Some street =>
          let street :=
            trim (replaceAll
                    (seqs [ Lit "(";
                            Plus (Chr (fun c => negb (is_char ")" c)));
                            Lit ")" ]) "" street) in
          let street := trim (replaceAll (Lit ",") " " street) in
          let normalizedStreet := normalizeStreetName street in
          let lowerCity :=
            option_map (fun c => replaceUmlauts (toLowerCase c)) city in
          let parts :=
            (push_if (Some normalizedStreet) ++ push_if houseNumber
             ++ push_if zipCode ++ push_if lowerCity)%list in
          Some (MkParsed address (join " " parts) zipCode lowerCity
                  (if Str.truthy district
                   then option_map (fun d => replaceUmlauts (toLowerCase d))
                                   district
                   else None)
                  (if nonempty normalizedStreet then Some normalizedStreet
                   else None)
                  houseNumber)
      end
  end.

End Runtime.

(** [fuzzyStringMatch]: a similarity between 0 and 1. *)
Definition tokenMatches (t1 t2 : string) : bool :=
  String.eqb t1 t2 || includes t1 t2 || includes t2 t1.

Definition matchedTokens (tokens1 tokens2 : list string) : nat :=
  List.length (filter (fun t1 => existsb (tokenMatches t1) tokens2) tokens1).

Definition ofNat (n : nat) : number := ofZ (Z.of_nat n).

Definition fuzzyStringMatch (str1 str2 : string) : number :=
  if negb (nonempty str1) || negb (nonempty str2) then ofZ 0
  else if String.eqb str1 str2 then ofZ 1
  else
    let s1 := toLowerCase str1 in
    let s2 := toLowerCase str2 in
    if includes s1 s2 || includes s2 s1 then
      let minLen := Nat.min (String.length s1) (String.length s2) in
      let maxLen := Nat.max (String.length s1) (String.length s2) in
      div (ofNat minLen) (ofNat maxLen)
    else
      let tokens1 := split (Plus ws) s1 in
      let tokens2 := split (Plus ws) s2 in
      let totalTokens := Nat.max (List.length tokens1) (List.length tokens2) in
      if (0 <? totalTokens)%nat
      then div (ofNat (matchedTokens tokens1 tokens2)) (ofNat totalTokens)
      else ofZ 0.

Record AddressDetails : Type := MkDetails {
  zipMatch : bool;
  cityMatch : bool;
  streetMatch : bool;
  houseNumberMatch : bool;
  streetSimilarity : option number;
  houseNumberPartialMatch : bool
}.

Record Comparison : Type := MkComparison {
  score : number;
  details : AddressDetails;
  parsed1 : ParsedAddress;
  parsed2 : ParsedAddress
}.

Definition bothTruthy (a b : option string) : option (string * string) :=
  match a, b with
  | Some x, Some y => if nonempty x && nonempty y then Some (x, y) else None
  | _, _ => None
  end.

Definition zipPoints (p1 p2 : ParsedAddress) : number :=
  match bothTruthy (zipCode p1) (zipCode p2) with
  | Some (z1, z2) => if String.eqb z1 z2 then ofZ 25 else ofZ 0
  | None => ofZ 0
  end.

Definition cityPoints (p1 p2 : ParsedAddress) : number :=
  match bothTruthy (city p1) (city p2) with
  | Some (c1, c2) => if String.eqb c1 c2 then ofZ 15 else ofZ 0
  | None => ofZ 0
  end.

Definition streetScoreOf (p1 p2 : ParsedAddress) : option number :=
  match bothTruthy (street p1) (street p2) with
  | Some (s1, s2) => Some (fuzzyStringMatch s1 s2)
  | None => None
  end.

Definition streetPoints (p1 p2 : ParsedAddress) : number :=
  match streetScoreOf p1 p2 with
  | Some streetScore => round (mul streetScore (ofZ 40))
  | None => ofZ 0
  end.

(** [0]: no match, [10]: the bases of two ranges agree, [20]: equal. *)
Definition houseNumberPoints (p1 p2 : ParsedAddress) : number :=
  match bothTruthy (houseNumber p1) (houseNumber p2) with
  | Some (h1, h2) =>
      let norm1 := replaceAll (Chr (one_of "-/")) "-" h1 in
      let norm2 := replaceAll (Chr (one_of "-/")) "-" h2 in
      if String.eqb norm1 norm2 then ofZ 20
      else
        let base1 := hd "" (split (Lit "-") norm1) in
        let base2 := hd "" (split (Lit "-") norm2) in
        if String.eqb base1 base2 then ofZ 10 else ofZ 0
  | None => ofZ 0
  end.

Definition compareParsed (p1 p2 : ParsedAddress) : Comparison :=
  let score := ofZ 0 in
  let score := add score (zipPoints p1 p2) in
  let score := add score (cityPoints p1 p2) in
  let score := add score (streetPoints p1 p2) in
  let score := add score (houseNumberPoints p1 p2) in
  MkComparison score
    (MkDetails (eqb (zipPoints p1 p2) (ofZ 25))
               (eqb (cityPoints p1 p2) (ofZ 15))
               (match streetScoreOf p1 p2 with
                | Some s => geb s (frac 8 10)
                | None => false
                end)
               (eqb (houseNumberPoints p1 p2) (ofZ 20))
               (streetScoreOf p1 p2)
               (eqb (houseNumberPoints p1 p2) (ofZ 10)))
    p1 p2.

Section Compare.
Variable compileRegExp : string -> option re.

Definition compareAddresses (address1 address2 : option string)
  : option Comparison :=
  match parseAddress compileRegExp address1 with
  | None => None
  | Some p1 =>
      match parseAddress compileRegExp address2 with
      | None => None
      | Some p2 => Some (compareParsed p1 p2)
      end
  end.

End Compare.

End AddressNormalizer.

(** ** enhancedSimilarityScorer.js: the scorer *)

Module Scorer.

Import Js Str Val Data.
Local Open Scope string_scope.

(** [FACTOR_WEIGHTS] and [CONFIDENCE_THRESHOLDS]. *)
Definition weight_address : number := ofZ 40.
Definition weight_size : number := ofZ 20.
Definition weight_geo : number := ofZ 20.
Definition weight_rooms : number := ofZ 10.
Definition weight_price : number := ofZ 10.

Definition threshold_high : number := ofZ 80.
Definition threshold_medium : number := ofZ 60.
Definition threshold_low : number := ofZ 40.

Inductive Confidence : Type := High | Medium | Low | NoConfidence.

(** The result of one factor.  [score] is set by the address factor,
    [distance] by the geo factor, [difference] by the size, rooms and price
    factors ([percentDiff], [difference]). *)
Record Factor : Type := MkFactor {
  points : number;
  available : bool;
  score : option number;
  distance : option number;
  difference : option number;
  matchKind : string
}.

Definition missing : Factor := MkFactor (ofZ 0) false None None None "".

Definition not_digit_or_dot (c : ascii) : bool :=
  negb (is_digit c || is_char "." c).

Definition positive_or_null (num : number) : option number :=
  if isNaN num || leb num (ofZ 0) then None else Some num.

Definition parseSize (size : value) : option number :=
  match size with
  | Null => None
  | Num n => Some n
  | Text s =>
      let cleaned :=
        replaceAll (Chr not_digit_or_dot) ""
          (replaceText "," "." (replaceAll (Lit ".") "" s)) in
      positive_or_null (parseFloat cleaned)
  end.

Definition parseRooms (rooms : value) : option number :=
  match rooms with
  | Null => None
  | Num n => Some n
  | Text s =>
      let cleaned :=
        replaceAll (Chr not_digit_or_dot) "" (replaceText "," "." s) in
      positive_or_null (parseFloat cleaned)
  end.

Definition parsePrice (price : value) : option number := parseSize price.

(** The three tiers of a factor: full points, 80% and 50% of them. *)
Definition tiered (maxPoints diff t1 t2 t3 : number) : number * string :=
  if leb diff t1 then (maxPoints, "exact")
  else if leb diff t2 then (round (mul maxPoints (frac 8 10)), "close")
  else if leb diff t3 then (round (mul maxPoints (frac 5 10)), "approximate")
  else (ofZ 0, "none").

Definition percentDifference (a b : number) : number :=
  let avg := div (add a b) (ofZ 2) in
  div (abs (sub a b)) avg.

Definition calculateSizeScore (listing1 listing2 : Listing) : Factor :=
  let maxPoints := weight_size in
  match parseSize (size listing1), parseSize (size listing2) with
  | Some size1, Some size2 =>
      let percentDiff := percentDifference size1 size2 in
      let (points, kind) :=
        tiered maxPoints percentDiff (frac 5 100) (frac 1 10) (frac 15 100) in
      MkFactor points true None None
               (Some (round (mul percentDiff (ofZ 100)))) kind
  | _, _ => missing
  end.

Definition calculateRoomScore (listing1 listing2 : Listing) : Factor :=
  let maxPoints := weight_rooms in
  match parseRooms (rooms listing1), parseRooms (rooms listing2) with
  | Some rooms1, Some rooms2 =>
      let diff := abs (sub rooms1 rooms2) in
      let (points, kind) :=
        if eqb diff (ofZ 0) then (maxPoints, "exact")
        else if leb diff (frac 5 10)
        then (round (mul maxPoints (frac 8 10)), "close")
        else if leb diff (ofZ 1)
        then (round (mul maxPoints (frac 5 10)), "approximate")
        else (ofZ 0, "none") in
      MkFactor points true None None (Some diff) kind
  | _, _ => missing
  end.

Definition calculatePriceScore (listing1 listing2 : Listing) : Factor :=
  let maxPoints := weight_price in
  match parsePrice (price listing1), parsePrice (price listing2) with
  | Some price1, Some price2 =>
      let percentDiff := percentDifference price1 price2 in
      let (points, kind) :=
        tiered maxPoints percentDiff (frac 5 100) (frac 1 10) (frac 2 10) in
      MkFactor points true None None
               (Some (round (mul percentDiff (ofZ 100)))) kind
  | _, _ => missing
  end.

Definition countAvailable (factors : list Factor) : nat :=
  List.length (filter available factors).

Definition generateRecommendation (score : number) (confidence : Confidence)
  : string :=
  match confidence with
  | High =>
      if geb score (ofZ 80)
      then "Very likely the same property. Auto-linking recommended."
      else "Likely the same property. Manual review recommended."
  | Medium =>
      if geb score (ofZ 70)
      then "Likely the same property. Manual review recommended."
      else if geb score (ofZ 50)
      then "Possibly the same property. User verification needed."
      else if geb score (ofZ 40)
      then "Some similarities detected. Manual comparison advised."
      else "Unlikely to be the same property."
  | _ =>
      if geb score (ofZ 40)
      then "Some similarities detected. Manual comparison advised."
      else "Unlikely to be the same property."
  end.

Record Factors : Type := MkFactors {
  f_address : Factor;
  f_size : Factor;
  f_geo : Factor;
  f_rooms : Factor;
  f_price : Factor
}.

Definition factorList (f : Factors) : list Factor :=
  [f_address f; f_size f; f_geo f; f_rooms f; f_price f].

Definition calculateConfidence (totalScore : number) (factors : Factors)
  : Confidence :=
  let availableFactors := countAvailable (factorList factors) in
  if (availableFactors <? 3)%nat then
    if geb totalScore threshold_medium then Medium else Low
  else
    let hasStrongGeo :=
      available (f_geo factors)
      && match distance (f_geo factors) with
         | Some d => leb d (ofZ 50)
         | None => false
         end in
    let hasStrongAddress :=
      available (f_address factors)
      && match score (f_address factors) with
         | Some s => geb s (ofZ 80)
         | None => false
         end in
    if hasStrongGeo && hasStrongAddress && geb totalScore threshold_medium
    then High
    else if geb totalScore threshold_high then High
    else if geb totalScore threshold_medium then Medium
    else if geb totalScore threshold_low then Low
    else NoConfidence.

Record Similarity : Type := MkSimilarity {
  total : number;
  confidence : Confidence;
  factors : Factors;
  recommendation : string
}.

Section Runtime.
Variable compileRegExp : string -> option re.
Variable Math_sin Math_cos Math_sqrt : number -> number.
Variable Math_atan2 : number -> number -> number.
Variable Math_PI : number.

(** The address factor, or nothing when [compareAddresses] throws. *)
Definition calculateAddressScore (listing1 listing2 : Listing)
  : option Factor :=
  let maxPoints := weight_address in
  if negb (Str.truthy (address listing1)) || negb (Str.truthy (address listing2))
  then Some missing
  else
    match AddressNormalizer.compareAddresses compileRegExp
            (address listing1) (address listing2) with
    | None => None
    | Some comparison =>
        let s := AddressNormalizer.score comparison in
        let points := round (mul (div s (ofZ 100)) maxPoints) in
        Some (MkFactor points true (Some s) None None "")
    end.

Definition calculateGeoSimilarityScore (listing1 listing2 : Listing) : Factor :=
  let geoResult :=
    GeoMatcher.calculateGeoScore Math_sin Math_cos Math_sqrt Math_atan2
      Math_PI (latitude listing1) (longitude listing1)
      (latitude listing2) (longitude listing2) in
  MkFactor (GeoMatcher.score geoResult)
           (match GeoMatcher.distance geoResult with
            | Some _ => true | None => false end)
           None (GeoMatcher.distance geoResult) None "".

(** [computeSimilarity]; [total] is the [score] of the result. *)
Definition computeSimilarity (listing1 listing2 : Listing)
  : option Similarity :=
  match calculateAddressScore listing1 listing2 with
  | None => None
  | Some addressResult =>
      let totalScore := ofZ 0 in
      let totalScore := add totalScore (points addressResult) in
      let sizeResult := calculateSizeScore listing1 listing2 in
      let totalScore := add totalScore (points sizeResult) in
      let geoResult := calculateGeoSimilarityScore listing1 listing2 in
      let totalScore := add totalScore (points geoResult) in
      let roomResult := calculateRoomScore listing1 listing2 in
      let totalScore := add totalScore (points roomResult) in
      let priceResult := calculatePriceScore listing1 listing2 in
      let totalScore := add totalScore (points priceResult) in
      let factors :=
        MkFactors addressResult sizeResult geoResult roomResult priceResult in
      let confidence := calculateConfidence totalScore factors in
      let recommendation := generateRecommendation totalScore confidence in
      Some (MkSimilarity (round totalScore) confidence factors recommendation)
  end.

(** [candidate.id === targetListing.id || candidate.hash ===
    targetListing.hash]; a missing field equals a missing field. *)
Definition same (a b : option string) : bool :=
  match a, b with
  | None, None => true
  | Some x, Some y => String.eqb x y
  | _, _ => false
  end.

Definition isSelf (targetListing candidate : Listing) : bool :=
  same (id candidate) (id targetListing)
  || same (hash candidate) (hash targetListing).

Record Match : Type := MkMatch {
  listing : Listing;
  similarity : Similarity
}.

(** The loop over the candidates: the matches pushed so far, or nothing
    when a comparison throws. *)
Fixpoint collect (targetListing : Listing) (minScore : number)
  (candidates : list Listing) : option (list Match) :=
  match candidates with
  | [] => Some []
  | candidate :: candidates' =>
      if isSelf targetListing candidate
      then collect targetListing minScore candidates'
      else
        match computeSimilarity targetListing candidate with
        | None => None
        | Some similarity =>
            match collect targetListing minScore candidates' with
            | None => None
            | Some results =>
                if geb (total similarity) minScore
                then Some (MkMatch candidate similarity :: results)
                else Some results
            end
        end
  end.

(** [results.slice(0, maxResults)]: the end index is truncated towards zero,
    a negative one counts from the end of the array. *)
Definition toInteger (n : number) : option Z :=
  match n with
  | Fin q => Some (Z.quot (Qnum (this q)) (Z.pos (Qden (this q))))
  | NaN => Some 0%Z
  | _ => None
  end.

Definition sliceEnd (len : nat) (maxResults : number) : nat :=
  match toInteger maxResults with
  | Some z =>
      if (z <? 0)%Z then Z.to_nat (Z.of_nat len + z)
      else Nat.min (Z.to_nat z) len
  | None => match maxResults with PosInf => len | _ => 0 end
  end.

Definition byScoreDescending (a b : Match) : bool :=
  keeps_order (sub (total (similarity b)) (total (similarity a))).

(** The options object: a field is left out (or [undefined]), and then the
    default of the destructuring stands in, or it holds [null], a number or
    a string. *)
Record Options : Type := MkOptions {
  minScore : option value;
  maxResults : option value
}.

(** [similarity.score >= minScore] and [results.slice(0, maxResults)] both
    convert the option to a number. *)
Definition findSimilarListings (targetListing : Listing)
  (candidates : list Listing) (options : Options) : option (list Match) :=
  let minScore :=
    match minScore options with Some m => m | None => Num (ofZ 50) end in
  let maxResults :=
    match maxResults options with Some m => m | None => Num (ofZ 10) end in
  match collect targetListing (to_number minScore) candidates with
  | None => None
  | Some results =>
      let results := sort byScoreDescending results in
      Some (firstn (sliceEnd (List.length results) (to_number maxResults))
                   results)
  end.

End Runtime.

End Scorer.

(** ** Bounds in the number model *)

Module Bounds.
Import Js NumberFacts.
Local Open Scope Z_scope.

(** An integer between [lo] and [hi]. *)
Definition integer_in (lo hi : Z) (x : number) : Prop :=
  exists z, x = ofZ z /\ lo <= z <= hi.

(** A rational between 0 and 1. *)
Definition in_unit_interval (x : number) : Prop :=
  exists q : Qc, x = Fin q /\ (0 <= q)%Qc /\ (q <= 1)%Qc.

Lemma qz_plus (a b : Z) : (qz a + qz b)%Qc = qz (a + b).
Proof.
  unfold Qcplus, qz. apply Q2Qc_eq_iff. cbn [this Q2Qc].
  rewrite !Qred_correct, inject_Z_plus. reflexivity.
Qed.

Lemma add_ofZ (a b : Z) : add (ofZ a) (ofZ b) = ofZ (a + b).
Proof. unfold ofZ. simpl. now rewrite qz_plus. Qed.

Lemma qz_le (a b : Z) : a <= b <-> (qz a <= qz b)%Qc.
Proof.
  unfold Qcle, qz. cbn [this Q2Qc]. rewrite Qred_le. now rewrite <- Zle_Qle.
Qed.

Lemma qz_lt (a b : Z) : a < b <-> (qz a < qz b)%Qc.
Proof.
  split; intro H.
  - apply Qcnot_le_lt. intro L. apply qz_le in L. lia.
  - apply Z.nle_gt. intro L. apply qz_le in L.
    now apply (Qclt_not_le _ _ H).
Qed.

Lemma qround_bounds (q : Qc) (n : Z) :
  (0 <= q)%Qc -> (q <= qz n)%Qc -> 0 <= qround q <= n.
Proof.
  unfold qround, Qcle, Qcplus, qz, qfrac. intros H0 Hn.
  cbn [this Q2Qc] in *. rewrite Qred_correct in Hn.
  set (x := this q) in *. clearbody x.
  assert (E : Qfloor (Qred (x + Qred (1 # 2))) = Qfloor (x + (1 # 2))).
  { apply Qfloor_comp. now rewrite !Qred_correct. }
  rewrite E. split.
  - change 0 with (Qfloor 0). apply Qfloor_resp_le.
    rewrite <- (Qplus_0_r 0). apply Qplus_le_compat; [exact H0|discriminate].
  - assert (F : Qfloor (inject_Z n + (1 # 2)) = n).
    { unfold Qfloor, inject_Z, Qplus. cbn [Qnum Qden].
      replace (n * Z.pos 2 + 1 * Z.pos 1) with (1 + n * 2) by lia.
      change (Z.pos (1 * 2)) with 2.
      rewrite Z.div_add by lia. reflexivity. }
    rewrite <- F. apply Qfloor_resp_le.
    apply Qplus_le_compat; [exact Hn|apply Qle_refl].
Qed.

Lemma qround_qz (z : Z) : qround (qz z) = z.
Proof.
  unfold qround, qz, qfrac, Qcplus. cbn [this Q2Qc].
  assert (E : Qfloor (Qred (Qred (inject_Z z) + Qred (1 # 2)))
              = Qfloor (inject_Z z + (1 # 2))).
  { apply Qfloor_comp. now rewrite !Qred_correct. }
  rewrite E. unfold Qfloor, inject_Z, Qplus. cbn [Qnum Qden].
  replace (z * Z.pos 2 + 1 * Z.pos 1) with (1 + z * 2) by lia.
  change (Z.pos (1 * 2)) with 2.
  rewrite Z.div_add by lia. reflexivity.
Qed.

Lemma round_ofZ (z : Z) : round (ofZ z) = ofZ z.
Proof. unfold round, ofZ. now rewrite qround_qz. Qed.

Lemma leb_ofZ (a b : Z) : leb (ofZ a) (ofZ b) = (a <=? b).
Proof.
  apply eq_true_iff_eq. simpl. rewrite qleb_iff, <- qz_le.
  symmetry. apply Z.leb_le.
Qed.

Lemma integer_in_add (a b c d : Z) (x y : number) :
  integer_in a b x -> integer_in c d y -> integer_in (a + c) (b + d) (add x y).
Proof.
  intros (u & -> & Hu) (v & -> & Hv). exists (u + v).
  split; [apply add_ofZ|lia].
Qed.

Lemma integer_in_weaken (a b c d : Z) (x : number) :
  c <= a -> b <= d -> integer_in a b x -> integer_in c d x.
Proof. intros H1 H2 (u & -> & Hu). exists u. split; [reflexivity|lia]. Qed.

Lemma integer_in_const (z : Z) : integer_in z z (ofZ z).
Proof. exists z. split; [reflexivity|lia]. Qed.

Lemma integer_in_round (x : number) (lo hi : Z) :
  integer_in lo hi x -> round x = x.
Proof. intros (z & -> & _). apply round_ofZ. Qed.

Lemma integer_in_bounds (lo hi : Z) (x : number) :
  integer_in lo hi x -> leb (ofZ lo) x = true /\ leb x (ofZ hi) = true.
Proof.
  intros (z & -> & H). rewrite !leb_ofZ. split; apply Z.leb_le; lia.
Qed.

(** A quotient of integers [0 <= a <= b], [0 < b]. *)
Lemma unit_quotient (a b : Z) :
  0 <= a <= b -> 0 < b -> in_unit_interval (div (ofZ a) (ofZ b)).
Proof.
  intros Ha Hb. unfold ofZ. simpl.
  assert (Nb : qz b <> 0%Qc).
  { intro E. apply qz_lt in Hb. rewrite E in Hb.
    now apply (Qclt_not_eq _ _ Hb). }
  destruct (qeqb (qz b) 0) eqn:E; [apply qeqb_iff in E; contradiction|].
  exists (qz a / qz b)%Qc. split; [reflexivity|].
  assert (Pb : (0 < qz b)%Qc) by now apply qz_lt in Hb.
  split.
  - apply (Qcmult_lt_0_le_reg_r _ _ (qz b) Pb).
    rewrite Qcmult_0_l.
    replace (qz a / qz b * qz b)%Qc with (qz a) by (field; exact Nb).
    apply (proj1 (qz_le 0 a)). lia.
  - apply (Qcmult_lt_0_le_reg_r _ _ (qz b) Pb).
    rewrite Qcmult_1_l.
    replace (qz a / qz b * qz b)%Qc with (qz a) by (field; exact Nb).
    apply (proj1 (qz_le a b)). lia.
Qed.

(** Scaling a value of the unit interval to [n] points and rounding. *)
Lemma scaled_points (x : number) (n : Z) :
  0 <= n -> in_unit_interval x -> integer_in 0 n (round (mul x (ofZ n))).
Proof.
  intros Hn (q & -> & H0 & H1). simpl.
  exists (qround (q * qz n)). split; [reflexivity|].
  assert (Pn : (0 <= qz n)%Qc) by now apply (proj1 (qz_le 0 n)).
  apply qround_bounds.
  - rewrite <- (Qcmult_0_l (qz n)). now apply Qcmult_le_compat_r.
  - rewrite <- (Qcmult_1_l (qz n)) at 2. now apply Qcmult_le_compat_r.
Qed.

End Bounds.

(** *** Sorting by an integer key *)

Module KeySort.
Import Data.
Local Open Scope Z_scope.

Lemma in_firstn (A : Type) (n : nat) (l : list A) (x : A) :
  In x (firstn n l) -> In x l.
Proof.
  revert n. induction l as [|z l IH]; intros [|n]; simpl; try tauto.
  intros [H|H]; [now left|right; now apply (IH n)].
Qed.

Lemma in_skipn (A : Type) (n : nat) (l : list A) (x : A) :
  In x (skipn n l) -> In x l.
Proof.
  revert n. induction l as [|z l IH]; intros [|n]; simpl; try tauto.
  intro H. right. now apply (IH n).
Qed.

Section Members.
Variable A : Type.
Variable le : A -> A -> bool.

Lemma insert_in (x y : A) (l : list A) :
  In y (insert le x l) <-> y = x \/ In y l.
Proof.
  induction l as [|z l IH]; simpl.
  - intuition.
  - destruct (le x z); simpl; rewrite ?IH; intuition.
Qed.

Lemma sort_in (y : A) (l : list A) : In y (sort le l) <-> In y l.
Proof.
  induction l as [|x l IH]; simpl; [reflexivity|].
  rewrite insert_in, IH. intuition.
Qed.

Lemma insert_length (x : A) (l : list A) :
  List.length (insert le x l) = S (List.length l).
Proof.
  induction l as [|z l IH]; simpl; trivial.
  destruct (le x z); simpl; congruence.
Qed.

Lemma sort_length (l : list A) : List.length (sort le l) = List.length l.
Proof.
  induction l as [|x l IH]; simpl; trivial.
  now rewrite insert_length, IH.
Qed.

End Members.

Section Keyed.
Variable A : Type.
Variable key : A -> Z.
Variable le : A -> A -> bool.

(** [le] orders the elements of [l] by descending key. *)
Definition by_key (l : list A) : Prop :=
  forall a b, In a l -> In b l -> le a b = (key b <=? key a).

Definition descending (a b : A) : Prop := key b <= key a.

Lemma insert_sorted (x : A) (l : list A) :
  by_key (x :: l) -> StronglySorted descending l ->
  StronglySorted descending (insert le x l).
Proof.
  intros K S. induction S as [|z l S IH F]; simpl.
  - repeat constructor.
  - rewrite (K x z) by (simpl; auto).
    destruct (key z <=? key x) eqn:E.
    + apply Z.leb_le in E. constructor; [now constructor|].
      constructor; [exact E|].
      rewrite Forall_forall in *. intros y Hy.
      unfold descending in *. specialize (F y Hy). lia.
    + apply Z.leb_gt in E. constructor.
      * apply IH. intros a b Ha Hb.
        apply K; [destruct Ha as [->|Ha]|destruct Hb as [->|Hb]];
          simpl; auto.
      * rewrite Forall_forall in *. intros y Hy.
        apply insert_in in Hy. destruct Hy as [->|Hy].
        -- unfold descending. lia.
        -- now apply F.
Qed.

Lemma sort_sorted (l : list A) :
  by_key l -> StronglySorted descending (sort le l).
Proof.
  induction l as [|x l IH]; intro K; simpl; [constructor|].
  apply insert_sorted.
  - intros a b Ha Hb. apply K; simpl in *.
    + destruct Ha as [->|Ha]; [auto|right; exact (proj1 (@sort_in _ _ _ _) Ha)].
    + destruct Hb as [->|Hb]; [auto|right; exact (proj1 (@sort_in _ _ _ _) Hb)].
  - apply IH. intros a b Ha Hb. apply K; simpl; auto.
Qed.

Lemma sorted_firstn (n : nat) (l : list A) :
  StronglySorted descending l -> StronglySorted descending (firstn n l).
Proof.
  intro S. revert n. induction S as [|z l S IH F]; intros [|n]; simpl;
    try constructor.
  - apply IH.
  - rewrite Forall_forall in *. intros y Hy. apply F.
    now apply (in_firstn n).
Qed.

(** The sort is stable: the elements of one key keep their order. *)
Lemma insert_stable (k : Z) (x : A) (l : list A) :
  by_key (x :: l) ->
  filter (fun a => key a =? k) (insert le x l)
  = filter (fun a => key a =? k) (x :: l).
Proof.
  intros K. induction l as [|y l IH]; [reflexivity|].
  cbn [insert]. rewrite (K x y) by (simpl; auto).
  destruct (key y <=? key x) eqn:E; [reflexivity|].
  apply Z.leb_gt in E. cbn [filter] in *.
  rewrite IH.
  - destruct (key x =? k) eqn:Ex, (key y =? k) eqn:Ey; trivial.
    apply Z.eqb_eq in Ex, Ey. lia.
  - intros a b Ha Hb.
    apply K; [destruct Ha as [->|Ha]|destruct Hb as [->|Hb]]; simpl; auto.
Qed.

Lemma sort_stable (k : Z) (l : list A) :
  by_key l ->
  filter (fun a => key a =? k) (sort le l) = filter (fun a => key a =? k) l.
Proof.
  induction l as [|x l IH]; intro K; [reflexivity|].
  cbn [sort]. rewrite insert_stable.
  - cbn [filter]. rewrite IH; [reflexivity|].
    intros a b Ha Hb. apply K; simpl; auto.
  - intros a b Ha Hb. apply K; simpl in *.
    + destruct Ha as [->|Ha]; [auto|right; exact (proj1 (@sort_in _ _ _ _) Ha)].
    + destruct Hb as [->|Hb]; [auto|right; exact (proj1 (@sort_in _ _ _ _) Hb)].
Qed.

(** What a prefix of a sorted list leaves out ranks no higher than what it
    keeps. *)
Lemma sorted_cut (n : nat) (l : list A) (x y : A) :
  StronglySorted descending l ->
  In x (firstn n l) -> In y (skipn n l) -> key y <= key x.
Proof.
  intro S. revert n. induction S as [|z l S IH F]; intros [|n]; simpl;
    try contradiction.
  intros [->|Hx] Hy.
  - rewrite Forall_forall in F. apply F. now apply (in_skipn n).
  - now apply (IH n).
Qed.

End Keyed.
End KeySort.

(** ** Properties of the scorer *)

Module ScorerFacts.
Import Js Str Val Data NumberFacts HashFacts Bounds.
Import AddressNormalizer Scorer.
Local Open Scope string_scope.
Local Open Scope Z_scope.

Lemma chars_length (s : string) : List.length (chars s) = String.length s.
Proof. induction s; simpl; congruence. Qed.

Lemma toLowerCase_length (s : string) :
  String.length (toLowerCase s) = String.length s.
Proof.
  unfold toLowerCase. now rewrite str_length, length_map, chars_length.
Qed.

Lemma nonempty_length (s : string) :
  nonempty s = true -> (0 < String.length s)%nat.
Proof. destruct s; simpl; [discriminate|lia]. Qed.

Lemma unit_zero : in_unit_interval (ofZ 0).
Proof. exists (qz 0). repeat split; discriminate. Qed.

Lemma unit_one : in_unit_interval (ofZ 1).
Proof. exists (qz 1). repeat split; discriminate. Qed.

Lemma matchedTokens_le (tokens1 tokens2 : list string) :
  (matchedTokens tokens1 tokens2 <= List.length tokens1)%nat.
Proof. apply filter_length_le. Qed.

Lemma fuzzyStringMatch_unit (str1 str2 : string) :
  in_unit_interval (fuzzyStringMatch str1 str2).
Proof.
  unfold fuzzyStringMatch.
  destruct (nonempty str1) eqn:N1; [|apply unit_zero].
  destruct (nonempty str2) eqn:N2; [|apply unit_zero]. simpl.
  destruct (String.eqb str1 str2); [apply unit_one|].
  destruct (includes _ _ || includes _ _).
  - unfold ofNat. apply unit_quotient.
    + lia.
    + rewrite !toLowerCase_length. apply nonempty_length in N1. lia.
  - destruct (0 <? Nat.max _ _)%nat eqn:T; [|apply unit_zero].
    apply Nat.ltb_lt in T. unfold ofNat. apply unit_quotient; [|lia].
    pose proof (matchedTokens_le (split (Plus ws) (toLowerCase str1))
                                 (split (Plus ws) (toLowerCase str2))).
    lia.
Qed.

Lemma zipPoints_bounds (p1 p2 : ParsedAddress) :
  integer_in 0 25 (zipPoints p1 p2).
Proof.
  unfold zipPoints. destruct (bothTruthy _ _) as [[z1 z2]|];
    [destruct (String.eqb z1 z2)|];
    eapply integer_in_weaken; try apply integer_in_const; lia.
Qed.

Lemma cityPoints_bounds (p1 p2 : ParsedAddress) :
  integer_in 0 15 (cityPoints p1 p2).
Proof.
  unfold cityPoints. destruct (bothTruthy _ _) as [[z1 z2]|];
    [destruct (String.eqb z1 z2)|];
    eapply integer_in_weaken; try apply integer_in_const; lia.
Qed.

Lemma streetPoints_bounds (p1 p2 : ParsedAddress) :
  integer_in 0 40 (streetPoints p1 p2).
Proof.
  unfold streetPoints, streetScoreOf.
  destruct (bothTruthy _ _) as [[s1 s2]|].
  - apply scaled_points; [lia|apply fuzzyStringMatch_unit].
  - eapply integer_in_weaken; try apply integer_in_const; lia.
Qed.

Lemma houseNumberPoints_bounds (p1 p2 : ParsedAddress) :
  integer_in 0 20 (houseNumberPoints p1 p2).
Proof.
  unfold houseNumberPoints. destruct (bothTruthy _ _) as [[h1 h2]|].
  - destruct (String.eqb _ _); [|destruct (String.eqb _ _)];
      eapply integer_in_weaken; try apply integer_in_const; lia.
  - eapply integer_in_weaken; try apply integer_in_const; lia.
Qed.

(** The address comparison is an integer score between 0 and 100. *)
Lemma compareParsed_bounds (p1 p2 : ParsedAddress) :
  integer_in 0 100 (AddressNormalizer.score (compareParsed p1 p2)).
Proof.
  unfold compareParsed. cbn [AddressNormalizer.score].
  change 100 with (0 + 25 + 15 + 40 + 20).
  change 0 with (0 + 0 + 0 + 0 + 0) at 1.
  repeat apply integer_in_add.
  - apply integer_in_const.
  - apply zipPoints_bounds.
  - apply cityPoints_bounds.
  - apply streetPoints_bounds.
  - apply houseNumberPoints_bounds.
Qed.

Lemma scaled_score (s : number) (n : Z) :
  0 <= n -> integer_in 0 100 s ->
  integer_in 0 n (round (mul (div s (ofZ 100)) (ofZ n))).
Proof.
  intros Hn (z & -> & Hz). apply scaled_points; trivial.
  apply unit_quotient; lia.
Qed.

Lemma missing_points (n : Z) : 0 <= n -> integer_in 0 n (points missing).
Proof.
  intro H. eapply integer_in_weaken; try apply integer_in_const; lia.
Qed.

Lemma tiered_bounds (diff t1 t2 t3 : number) (n : Z) :
  n = 10 \/ n = 20 ->
  integer_in 0 n (fst (tiered (ofZ n) diff t1 t2 t3)).
Proof.
  unfold tiered. intros [-> | ->];
    destruct (leb diff t1); [|destruct (leb diff t2); [|destruct (leb diff t3)]| |
      destruct (leb diff t2); [|destruct (leb diff t3)]]; cbn [fst].
  all: try (eapply integer_in_weaken; try apply integer_in_const; lia).
  - exists 8. split; [vm_compute; reflexivity|lia].
  - exists 5. split; [vm_compute; reflexivity|lia].
  - exists 16. split; [vm_compute; reflexivity|lia].
  - exists 10. split; [vm_compute; reflexivity|lia].
Qed.

Lemma calculateSizeScore_bounds (l1 l2 : Listing) :
  integer_in 0 20 (points (calculateSizeScore l1 l2)).
Proof.
  unfold calculateSizeScore.
  destruct (parseSize (size l1)), (parseSize (size l2));
    try (apply missing_points; lia).
  pose proof (tiered_bounds (percentDifference n n0) (frac 5 100)
                (frac 1 10) (frac 15 100) (or_intror eq_refl)) as H.
  unfold weight_size. destruct (tiered _ _ _ _ _). exact H.
Qed.

Lemma calculatePriceScore_bounds (l1 l2 : Listing) :
  integer_in 0 10 (points (calculatePriceScore l1 l2)).
Proof.
  unfold calculatePriceScore.
  destruct (parsePrice (price l1)), (parsePrice (price l2));
    try (apply missing_points; lia).
  pose proof (tiered_bounds (percentDifference n n0) (frac 5 100)
                (frac 1 10) (frac 2 10) (or_introl eq_refl)) as H.
  unfold weight_price. destruct (tiered _ _ _ _ _). exact H.
Qed.

Lemma calculateRoomScore_bounds (l1 l2 : Listing) :
  integer_in 0 10 (points (calculateRoomScore l1 l2)).
Proof.
  unfold calculateRoomScore.
  destruct (parseRooms (rooms l1)), (parseRooms (rooms l2));
    try (apply missing_points; lia).
  destruct (eqb _ _); [|destruct (leb _ _); [|destruct (leb _ _)]];
    cbn [points].
  - exists 10. split; [reflexivity|lia].
  - exists 8. split; [vm_compute; reflexivity|lia].
  - exists 5. split; [vm_compute; reflexivity|lia].
  - exists 0. split; [reflexivity|lia].
Qed.

Lemma firstThreshold_points (d : number) (entry : number * number) :
  GeoMatcher.firstThreshold d GeoMatcher.PROXIMITY_THRESHOLDS = Some entry ->
  integer_in 0 20 (snd entry).
Proof.
  unfold GeoMatcher.PROXIMITY_THRESHOLDS. simpl.
  repeat (destruct (leb d _);
          [intro H; injection H as <-; simpl;
           eexists; split; [reflexivity|lia]|]).
  discriminate.
Qed.

Section Runtime.
Variable compileRegExp : string -> option re.
Variable Math_sin Math_cos Math_sqrt : number -> number.
Variable Math_atan2 : number -> number -> number.
Variable Math_PI : number.

Lemma calculateGeoScore_bounds (lat1 lon1 lat2 lon2 : value) :
  integer_in 0 20
    (GeoMatcher.score
       (GeoMatcher.calculateGeoScore Math_sin Math_cos Math_sqrt Math_atan2
          Math_PI lat1 lon1 lat2 lon2)).
Proof.
  unfold GeoMatcher.calculateGeoScore.
  destruct (negb _ || negb _); [apply (missing_points (n:=20)); lia|].
  destruct lat1, lon1, lat2, lon2; try (apply (missing_points (n:=20)); lia).
  destruct (GeoMatcher.firstThreshold _ _) as [[m p]|] eqn:E.
  - apply (firstThreshold_points _ E).
  - apply (missing_points (n:=20)); lia.
Qed.

Lemma calculateAddressScore_bounds (l1 l2 : Listing) (f : Factor) :
  calculateAddressScore compileRegExp l1 l2 = Some f ->
  integer_in 0 40 (points f).
Proof.
  unfold calculateAddressScore.
  destruct (negb _ || negb _).
  - intro H. injection H as <-. apply missing_points. lia.
  - unfold compareAddresses.
    destruct (parseAddress compileRegExp (address l1)) as [p1|];
      [|discriminate].
    destruct (parseAddress compileRegExp (address l2)) as [p2|];
      [|discriminate].
    intro H. injection H as <-. cbn [points]. unfold weight_address.
    apply scaled_score; [lia|apply compareParsed_bounds].
Qed.

Lemma calculateAddressScore_throws (l1 l2 : Listing) :
  calculateAddressScore compileRegExp l1 l2 = None ->
  Str.truthy (address l1) = true /\ Str.truthy (address l2) = true.
Proof.
  unfold calculateAddressScore.
  destruct (Str.truthy (address l1)), (Str.truthy (address l2)); simpl;
    try discriminate.
  now split.
Qed.

Local Abbreviation computed :=
  (computeSimilarity compileRegExp Math_sin Math_cos Math_sqrt Math_atan2
     Math_PI).

(** The sum of the five contributions, in the order in which they are
    added. *)
Definition contributions (f : Factors) : number :=
  add (add (add (add (points (f_address f)) (points (f_size f)))
                (points (f_geo f)))
           (points (f_rooms f)))
      (points (f_price f)).

(** The five contributions of a returned result, as integers. *)
Lemma computeSimilarity_points (listing1 listing2 : Listing) (r : Similarity) :
  computed listing1 listing2 = Some r ->
  exists za zs zg zr zp,
    points (f_address (factors r)) = ofZ za /\ 0 <= za <= 40
    /\ points (f_size (factors r)) = ofZ zs /\ 0 <= zs <= 20
    /\ points (f_geo (factors r)) = ofZ zg /\ 0 <= zg <= 20
    /\ points (f_rooms (factors r)) = ofZ zr /\ 0 <= zr <= 10
    /\ points (f_price (factors r)) = ofZ zp /\ 0 <= zp <= 10
    /\ total r = ofZ (za + zs + zg + zr + zp).
Proof.
  unfold computeSimilarity.
  destruct (calculateAddressScore compileRegExp listing1 listing2)
    as [a|] eqn:Ea; [|discriminate].
  intro H. injection H as <-.
  cbn [total factors f_address f_size f_geo f_rooms f_price].
  destruct (calculateAddressScore_bounds _ _ Ea) as (za & Ea' & Ha).
  destruct (calculateSizeScore_bounds listing1 listing2) as (zs & Es & Hs).
  destruct (calculateRoomScore_bounds listing1 listing2) as (zr & Er & Hr).
  destruct (calculatePriceScore_bounds listing1 listing2) as (zp & Ep & Hp).
  destruct (calculateGeoScore_bounds (latitude listing1) (longitude listing1)
              (latitude listing2) (longitude listing2)) as (zg & Eg & Hg).
  exists za, zs, zg, zr, zp.
  unfold calculateGeoSimilarityScore. cbn [points].
  rewrite Ea', Es, Eg, Er, Ep.
  change (match ofZ za with
          | NaN => NaN | PosInf => PosInf | NegInf => NegInf
          | Fin b => Fin (qz 0 + b)
          end) with (add (ofZ 0) (ofZ za)).
  rewrite !add_ofZ, round_ofZ.
  repeat split; trivial; lia.
Qed.

(** Whenever [computeSimilarity] returns, its score is an integer between
    0 and 100 and is the sum of the five contributions, which lie between 0
    and the weights 40, 20, 20, 10 and 10.  The call can only throw when
    both addresses are present (the pattern built from a city may be
    refused). *)
Theorem similarity_score_bounds (listing1 listing2 : Listing) :
  match computed listing1 listing2 with
  | Some r =>
      total r = contributions (factors r)
      /\ integer_in 0 100 (total r)
      /\ integer_in 0 40 (points (f_address (factors r)))
      /\ integer_in 0 20 (points (f_size (factors r)))
      /\ integer_in 0 20 (points (f_geo (factors r)))
      /\ integer_in 0 10 (points (f_rooms (factors r)))
      /\ integer_in 0 10 (points (f_price (factors r)))
  | None =>
      Str.truthy (address listing1) = true
      /\ Str.truthy (address listing2) = true
  end.
Proof.
  destruct (computed listing1 listing2) as [r|] eqn:E.
  - destruct (computeSimilarity_points _ _ E)
      as (za & zs & zg & zr & zp & Ea & Ha & Es & Hs & Eg & Hg & Er & Hr
          & Ep & Hp & Et).
    unfold contributions. rewrite Et, Ea, Es, Eg, Er, Ep, !add_ofZ.
    repeat split; try (eexists; split; [reflexivity|lia]).
  - unfold computeSimilarity in E.
    destruct (calculateAddressScore compileRegExp listing1 listing2) eqn:Ea;
      [discriminate|].
    now apply calculateAddressScore_throws.
Qed.

(** *** Ranking candidates *)

Lemma qz_opp (z : Z) : (- qz z)%Qc = qz (- z).
Proof.
  unfold Qcopp, qz. apply Q2Qc_eq_iff. cbn [this Q2Qc].
  rewrite Qred_correct. reflexivity.
Qed.

Lemma sub_ofZ (a b : Z) : sub (ofZ a) (ofZ b) = ofZ (a - b).
Proof.
  unfold sub, ofZ. cbn [neg add]. now rewrite qz_opp, qz_plus.
Qed.

Lemma toInteger_ofZ (z : Z) : toInteger (ofZ z) = Some z.
Proof.
  unfold toInteger, ofZ, qz. cbn [this Q2Qc].
  rewrite Qred_identity by apply Z.gcd_1_r.
  cbn [inject_Z Qnum Qden]. now rewrite Z.quot_1_r.
Qed.

(** The score of a match as an integer. *)
Definition scoreOf (m : Match) : Z :=
  match toInteger (total (similarity m)) with
  | Some z => z
  | None => 0
  end.

Definition qualifies (targetListing : Listing) (minScore : number)
  (candidate : Listing) (s : Similarity) : Prop :=
  isSelf targetListing candidate = false
  /\ computed targetListing candidate = Some s
  /\ geb (total s) minScore = true.

Local Abbreviation collected :=
  (collect compileRegExp Math_sin Math_cos Math_sqrt Math_atan2 Math_PI).

Lemma collect_spec (targetListing : Listing) (minScore : number)
  (candidates : list Listing) (results : list Match) :
  collected targetListing minScore candidates = Some results ->
  forall m, In m results <->
            In (listing m) candidates
            /\ qualifies targetListing minScore (listing m) (similarity m).
Proof.
  unfold qualifies. revert results.
  induction candidates as [|c cs IH]; simpl; intros results H m.
  - injection H as <-. simpl. tauto.
  - destruct (isSelf targetListing c) eqn:Self.
    + rewrite (IH _ H). split.
      * intros (I & Q). split; [now right|exact Q].
      * intros ([E|I] & Q); [|now split].
        subst c. destruct Q as (Q & _). congruence.
    + destruct (computed targetListing c) as [sim|] eqn:Sim;
        [|discriminate].
      destruct (collected targetListing minScore cs) as [rs|];
        [|discriminate].
      specialize (IH rs eq_refl).
      destruct (geb (total sim) minScore) eqn:G; injection H as <-.
      * simpl. rewrite IH. split.
        -- intros [<-|(I & Q)]; simpl; [auto|].
           split; [now right|exact Q].
        -- intros ([E|I] & Q1 & Q2 & Q3); [left|right; auto].
           destruct m as [lm sm]. simpl in *. subst lm.
           rewrite Sim in Q2. now injection Q2 as <-.
      * rewrite IH. split.
        -- intros (I & Q). split; [now right|exact Q].
        -- intros ([E|I] & Q1 & Q2 & Q3); [|auto].
           subst c. rewrite Sim in Q2. injection Q2 as E. subst sim.
           congruence.
Qed.

Lemma collect_throws (targetListing : Listing) (minScore : number)
  (candidates : list Listing) :
  collected targetListing minScore candidates = None ->
  exists c, In c candidates /\ isSelf targetListing c = false
            /\ computed targetListing c = None.
Proof.
  induction candidates as [|c cs IH]; simpl; [discriminate|].
  destruct (isSelf targetListing c) eqn:Self.
  - intro H. destruct (IH H) as (d & I & Q). exists d. auto.
  - destruct (computed targetListing c) as [sim|] eqn:Sim.
    + destruct (collected targetListing minScore cs) as [rs|].
      * destruct (geb (total sim) minScore); discriminate.
      * intros _. destruct (IH eq_refl) as (d & I & Q). exists d. auto.
    + intros _. exists c. auto.
Qed.

Lemma similarity_total (targetListing c : Listing) (s : Similarity) :
  computed targetListing c = Some s ->
  exists z, total s = ofZ z.
Proof.
  intro H.
  destruct (computeSimilarity_points _ _ H)
    as (za & zs & zg & zr & zp & H'). decompose [and] H'. eauto.
Qed.

Lemma match_total (targetListing : Listing) (minScore : number)
  (candidates : list Listing) (results : list Match) (m : Match) :
  collected targetListing minScore candidates = Some results ->
  In m results -> total (similarity m) = ofZ (scoreOf m).
Proof.
  intros H I. apply (collect_spec _ _ _ H) in I.
  destruct I as (_ & _ & Sim & _).
  destruct (similarity_total _ _ Sim) as (z & E).
  unfold scoreOf. now rewrite E, toInteger_ofZ.
Qed.

Lemma byScoreDescending_key (a b : Match) :
  total (similarity a) = ofZ (scoreOf a) ->
  total (similarity b) = ofZ (scoreOf b) ->
  byScoreDescending a b = (scoreOf b <=? scoreOf a).
Proof.
  unfold byScoreDescending, keeps_order. intros -> ->.
  rewrite sub_ofZ, leb_ofZ. cbn [isNaN ofZ orb].
  apply eq_true_iff_eq. rewrite !Z.leb_le. lia.
Qed.

Lemma sliceEnd_ofZ (len : nat) (n : Z) :
  0 <= n -> sliceEnd len (ofZ n) = Nat.min (Z.to_nat n) len.
Proof.
  intro H. unfold sliceEnd. rewrite toInteger_ofZ.
  destruct (n <? 0) eqn:E; trivial. apply Z.ltb_lt in E. lia.
Qed.

(** The threshold and the limit, as the numbers they are compared as. *)
Definition minScoreOf (options : Options) : number :=
  to_number (match minScore options with Some m => m | None => Num (ofZ 50) end).
Definition maxResultsOf (options : Options) : number :=
  to_number (match maxResults options with Some m => m | None => Num (ofZ 10) end).

Local Abbreviation find :=
  (findSimilarListings compileRegExp Math_sin Math_cos Math_sqrt Math_atan2
     Math_PI).

(** A candidate that is no self-match and whose score reaches the
    threshold. *)
Definition eligible (targetListing : Listing) (minScore : number)
  (candidate : Listing) : bool :=
  negb (isSelf targetListing candidate)
  && match computed targetListing candidate with
     | Some s => geb (total s) minScore
     | None => false
     end.

(** A candidate whose score is [z]. *)
Definition scores (targetListing : Listing) (z : Z) (candidate : Listing)
  : bool :=
  match computed targetListing candidate with
  | Some s => eqb (total s) (ofZ z)
  | None => false
  end.

(** The matches pushed are the eligible candidates, in their order, each
    with its similarity. *)
Lemma collect_listing (targetListing : Listing) (minScore : number)
  (candidates : list Listing) (results : list Match) :
  collected targetListing minScore candidates = Some results ->
  map listing results = filter (eligible targetListing minScore) candidates
  /\ (forall c, In c candidates -> isSelf targetListing c = false ->
                computed targetListing c <> None).
Proof.
  unfold eligible. revert results.
  induction candidates as [|c cs IH]; simpl; intros results H.
  - injection H as <-. split; [reflexivity|]. intros c [].
  - destruct (isSelf targetListing c) eqn:Self; cbn [negb andb].
    + destruct (IH _ H) as [E A]. split; [exact E|].
      intros d [<-|I] S; [congruence|now apply A].
    + destruct (computed targetListing c) as [sim|] eqn:Sim;
        [|discriminate].
      destruct (collected targetListing minScore cs) as [rs|];
        [|discriminate].
      destruct (IH rs eq_refl) as [E A].
      assert (forall d, c = d \/ In d cs -> isSelf targetListing d = false ->
                        computed targetListing d <> None) as A'.
      { intros d [<-|I] S; [congruence|now apply A]. }
      destruct (geb (total sim) minScore); injection H as <-;
        (split; [|exact A']); simpl; congruence.
Qed.

Lemma whole_eqb (a b : Z) : eqb (ofZ a) (ofZ b) = (a =? b).
Proof.
  apply eq_true_iff_eq. cbn [eqb ofZ].
  rewrite qeqb_iff, Z.eqb_eq. split; [|congruence].
  intros E. apply Z.le_antisymm; apply qz_le; rewrite E; apply Qcle_refl.
Qed.

Lemma filter_map_listing (p : Listing -> bool) (l : list Match) :
  filter p (map listing l) = map listing (filter (fun m => p (listing m)) l).
Proof.
  induction l as [|m l IH]; simpl; [reflexivity|].
  destruct (p (listing m)); simpl; congruence.
Qed.

(** The matches of score [z], as listings. *)
Lemma scores_key (targetListing : Listing) (minScore : number)
  (candidates : list Listing) (results l : list Match) (z : Z) :
  collected targetListing minScore candidates = Some results ->
  (forall m, In m l -> In m results) ->
  filter (scores targetListing z) (map listing l)
  = map listing (filter (fun m => scoreOf m =? z) l).
Proof.
  intros C Sub. rewrite filter_map_listing. f_equal.
  apply filter_ext_in. intros m I. unfold scores.
  pose proof (proj1 (collect_spec _ _ _ C m) (Sub m I)) as (_ & _ & Sim & _).
  rewrite Sim, (@match_total _ _ _ _ _ C (Sub m I)). apply whole_eqb.
Qed.

(** [slice] truncates its end index towards zero. *)
Lemma toInteger_floor (q : Qc) :
  (0 <= q)%Qc -> toInteger (Fin q) = Some (Qfloor (this q)).
Proof.
  unfold Qcle, Qle, toInteger. change (this 0%Qc) with (0 # 1)%Q.
  destruct (this q) as [n d]. cbn [Qnum Qden Qfloor]. intros H.
  now rewrite Z.quot_div_nonneg by lia.
Qed.

Lemma toInteger_ceiling (q : Qc) :
  (q < 0)%Qc -> toInteger (Fin q) = Some (Qceiling (this q)).
Proof.
  unfold Qclt, Qlt, toInteger, Qceiling. change (this 0%Qc) with (0 # 1)%Q.
  destruct (this q) as [n d]. cbn [Qnum Qden Qfloor Qopp]. intros H.
  rewrite <- (Z.opp_involutive n) at 1.
  rewrite Z.quot_opp_l by lia. now rewrite Z.quot_div_nonneg by lia.
Qed.

Lemma ceiling_small (q : Qc) :
  (q < 0)%Qc -> (qz (-1) < q)%Qc -> Qceiling (this q) = 0.
Proof.
  unfold Qclt, Qlt, Qceiling. change (this 0%Qc) with (0 # 1)%Q.
  change (this (qz (-1))) with (-1 # 1)%Q.
  destruct (this q) as [n d]. cbn [Qnum Qden Qfloor Qopp]. intros H L.
  rewrite Z.div_small; lia.
Qed.

Lemma ceiling_negative (q : Qc) :
  (q <= qz (-1))%Qc -> Qceiling (this q) < 0.
Proof.
  unfold Qcle, Qle, Qceiling. change (this (qz (-1))) with (-1 # 1)%Q.
  destruct (this q) as [n d]. cbn [Qnum Qden Qfloor Qopp]. intros H.
  assert (1 <= - n / Z.pos d); [|lia].
  apply Z.div_le_lower_bound; lia.
Qed.

(** C7, as amended.  When no comparison throws, [findSimilarListings]
    returns.  Every entry is then a candidate that is no self-match and
    scores at least [minScore], with its similarity, and the entries are in
    descending order of score.  For every score, the entries of that score
    are the first of the eligible candidates of that score, in the order of
    the candidates, and where some are left out every entry scores at least
    as high.  The number of entries is what [slice(0, maxResults)] keeps of
    the eligible candidates: all of them for [Infinity], none for [NaN] and
    [-Infinity], at most the whole part of a [maxResults] that is not
    negative, none for one between -1 and 0, and all but the last
    [-maxResults], cut to a whole number, for one that is -1 or less.  The
    call throws only when a comparison with a candidate that is no
    self-match throws. *)
Theorem findSimilarListings_ranks (targetListing : Listing)
  (candidates : list Listing) (options : Options) :
  let wanted :=
    filter (eligible targetListing (minScoreOf options)) candidates in
  match find targetListing candidates options with
  | Some results =>
      (forall c, In c candidates -> isSelf targetListing c = false ->
                 computed targetListing c <> None)
      /\ (forall m, In m results ->
            In (listing m) candidates
            /\ qualifies targetListing (minScoreOf options)
                 (listing m) (similarity m))
      /\ StronglySorted
           (fun a b => leb (total (similarity b)) (total (similarity a)) = true)
           results
      /\ (forall z, exists rest,
            filter (scores targetListing z) wanted
            = (filter (scores targetListing z) (map listing results)
               ++ rest)%list
            /\ (rest <> [] ->
                forall m, In m results ->
                          leb (ofZ z) (total (similarity m)) = true))
      /\ match maxResultsOf options with
         | PosInf => List.length results = List.length wanted
         | Fin q =>
             ((0 <= q)%Qc ->
              Z.of_nat (List.length results)
              = Z.min (Qfloor (this q)) (Z.of_nat (List.length wanted)))
             /\ ((q < 0)%Qc -> (qz (-1) < q)%Qc -> results = [])
             /\ ((q <= qz (-1))%Qc ->
                 Z.of_nat (List.length results)
                 = Z.max 0 (Z.of_nat (List.length wanted)
                            + Qceiling (this q)))
         | NaN | NegInf => results = []
         end
  | None =>
      exists c, In c candidates /\ isSelf targetListing c = false
                /\ computed targetListing c = None
  end.
Proof.
  intros wanted. unfold findSimilarListings.
  fold (minScoreOf options). fold (maxResultsOf options).
  destruct (collected targetListing (minScoreOf options) candidates)
    as [rs|] eqn:C; [|exact (collect_throws _ _ _ C)].
  set (sorted := sort byScoreDescending rs).
  set (k := sliceEnd (List.length sorted) (maxResultsOf options)).
  destruct (collect_listing _ _ _ C) as [W Compared]. fold wanted in W.
  assert (K : KeySort.by_key scoreOf byScoreDescending rs).
  { intros a b Ha Hb.
    apply byScoreDescending_key;
      [exact (@match_total _ _ _ _ _ C Ha)|exact (@match_total _ _ _ _ _ C Hb)]. }
  assert (S : StronglySorted (KeySort.descending scoreOf) sorted)
    by now apply KeySort.sort_sorted.
  assert (T : forall m, In m sorted -> total (similarity m) = ofZ (scoreOf m)).
  { intros m I. apply KeySort.sort_in in I.
    exact (@match_total _ _ _ _ _ C I). }
  assert (Len : List.length sorted = List.length wanted).
  { unfold sorted. now rewrite KeySort.sort_length, <- W, length_map. }
  split; [exact Compared|]. split; [|split; [|split]].
  - intros m I. apply KeySort.in_firstn, KeySort.sort_in in I.
    now apply (collect_spec _ _ _ C).
  - assert (S' := KeySort.sorted_firstn k S).
    assert (T' : forall m, In m (firstn k sorted) ->
                           total (similarity m) = ofZ (scoreOf m))
      by (intros m I; apply T; now apply (KeySort.in_firstn k)).
    induction S' as [|z l S' IH F]; constructor.
    + apply IH. intros m I. apply T'. now right.
    + rewrite Forall_forall in *. intros y Hy.
      rewrite (T' z), (T' y) by (simpl; auto).
      rewrite leb_ofZ. apply Z.leb_le. now apply F.
  - intros z.
    exists (map listing (filter (fun m => scoreOf m =? z) (skipn k sorted))).
    split.
    + rewrite <- W.
      rewrite (@scores_key _ _ _ rs rs z C) by auto.
      rewrite (@scores_key _ _ _ rs (firstn k sorted) z C)
        by (intros m I; now apply KeySort.in_firstn, KeySort.sort_in in I).
      rewrite <- (KeySort.sort_stable z K). fold sorted.
      rewrite <- (firstn_skipn k sorted) at 1.
      now rewrite filter_app, map_app.
    + intros N m I.
      destruct (filter (fun m => scoreOf m =? z) (skipn k sorted))
        as [|y l] eqn:E; [now contradiction N|].
      assert (In y (filter (fun m => scoreOf m =? z) (skipn k sorted))) as Y
        by (rewrite E; now left).
      apply filter_In in Y. destruct Y as [Y Ey]. apply Z.eqb_eq in Ey.
      pose proof (KeySort.sorted_cut k _ _ S I Y) as L.
      rewrite (T m) by now apply (KeySort.in_firstn k).
      rewrite leb_ofZ. apply Z.leb_le. lia.
  - assert (List.length (firstn k sorted)
            = Nat.min (sliceEnd (List.length wanted) (maxResultsOf options))
                      (List.length wanted)) as Lk
      by (unfold k; now rewrite length_firstn, Len).
    clearbody k sorted. unfold sliceEnd in Lk.
    destruct (maxResultsOf options) as [| | |q].
    + apply length_zero_iff_nil. rewrite Lk. reflexivity.
    + rewrite Lk. apply Nat.min_id.
    + apply length_zero_iff_nil. rewrite Lk. reflexivity.
    + split; [|split].
      * intros P. rewrite (toInteger_floor P) in Lk.
        assert (0 <= Qfloor (this q)) as F.
        { change 0 with (Qfloor 0). now apply Qfloor_resp_le. }
        destruct (Qfloor (this q) <? 0) eqn:E; [apply Z.ltb_lt in E; lia|].
        rewrite Lk. lia.
      * intros N B. rewrite (toInteger_ceiling N), (ceiling_small N B) in Lk.
        apply length_zero_iff_nil. rewrite Lk. reflexivity.
      * intros B.
        assert (q < 0)%Qc as N.
        { apply (Qcle_lt_trans _ _ _ B). reflexivity. }
        pose proof (ceiling_negative B) as Neg.
        rewrite (toInteger_ceiling N) in Lk.
        destruct (Qceiling (this q) <? 0) eqn:E; [|apply Z.ltb_ge in E; lia].
        rewrite Lk. lia.
Qed.

End Runtime.

(** *** A ranking with a negative limit *)

Definition flat (id_ hash_ : string) (size_ : Z) : Listing :=
  MkListing (Some id_) (Some hash_) None None (Num (ofZ 1000))
            (Num (ofZ size_)) (Num (ofZ 3)) Null Null Null
            None None None None None.

Definition wanted : Listing := flat "t" "ht" 70.
Definition first_candidate : Listing := flat "a" "h1" 70.
Definition second_candidate : Listing := flat "b" "h2" 75.
Definition third_candidate : Listing := flat "c" "h3" 70.
Definition all_but_one : Options :=
  MkOptions (Some (Num (ofZ 30))) (Some (Num (ofZ (-1)))).

(** C7, as stated, fails: with [maxResults = -1] and three candidates that
    are no self-matches and score at least [minScore = 30], the result
    holds two entries, which is more than [maxResults]. *)
Lemma negative_maxResults_is_no_bound :
  (forall compileRegExp Math_sin Math_cos Math_sqrt Math_atan2 Math_PI,
     option_map (map listing)
       (findSimilarListings compileRegExp Math_sin Math_cos Math_sqrt
          Math_atan2 Math_PI wanted
          [first_candidate; second_candidate; third_candidate] all_but_one)
     = Some [first_candidate; third_candidate])
  /\ maxResults all_but_one = Some (Num (ofZ (-1)))
  /\ ltb (ofZ (-1))
         (ofZ (Z.of_nat (List.length [first_candidate; third_candidate])))
     = true.
Proof.
  split; [|split].
  - intros. vm_compute. reflexivity.
  - reflexivity.
  - reflexivity.
Qed.

(** *** A city that is no pattern *)

Lemma parseAddress_refused (compileRegExp : string -> option re)
  (text c : string) :
  nonempty text = true ->
  fst (extractCityAndDistrict (snd (extractZipCode text))) = Some c ->
  city_re compileRegExp c = None ->
  parseAddress compileRegExp (Some text) = None.
Proof.
  intros N C R. unfold parseAddress. rewrite N. cbn [negb].
  destruct (extractZipCode text) as [z rest]. cbn [snd] in C.
  destruct (extractHouseNumber rest) as [h street].
  destruct (extractCityAndDistrict rest) as [c' d].
  cbn [fst] in C. subst c'. now rewrite R.
Qed.

(** A listing whose address ends in a word with an opening bracket. *)
Definition bracketed : Listing :=
  MkListing (Some "n") (Some "h4") None (Some "Allee 1, Bad (Neustadt")
            (Num (ofZ 1000)) (Num (ofZ 70)) (Num (ofZ 3)) Null Null Null
            None None None None None.

(** C4: the city is put into a pattern as it is.  The last word of the
    address [Allee 1, Bad (Neustadt] is taken as the city, the runtime
    refuses the pattern built from it (its group is not closed), and
    [computeSimilarity] throws on that listing and any other listing that
    has an address: there is no score. *)
Theorem unescaped_city_throws (compileRegExp : string -> option re)
  (Math_sin Math_cos Math_sqrt : number -> number)
  (Math_atan2 : number -> number -> number) (Math_PI : number)
  (other : Listing) :
  compileRegExp "\b(Neustadt\b" = None ->
  Str.truthy (address other) = true ->
  computeSimilarity compileRegExp Math_sin Math_cos Math_sqrt Math_atan2
                    Math_PI bracketed other = None.
Proof.
  intros E T.
  assert (parseAddress compileRegExp (address bracketed) = None) as P.
  { apply (@parseAddress_refused compileRegExp _ "(Neustadt").
    - reflexivity.
    - vm_compute. reflexivity.
    - unfold city_re.
      replace (existsb is_syntax_char (chars "(Neustadt"))
        with true by (vm_compute; reflexivity).
      exact E. }
  unfold computeSimilarity, calculateAddressScore.
  rewrite T. change (Str.truthy (address bracketed)) with true.
  cbn [negb orb]. unfold compareAddresses.
  now rewrite P.
Qed.

(** The functions of the runtime on the inputs of the examples. *)
Definition refuse (source : string) : option re := None.
Definition flat_sine (x : number) : number := x.
Definition flat_atan2 (y x : number) : number := y.

Lemma unescaped_city_throws_witness :
  refuse "\b(Neustadt\b" = None
  /\ Str.truthy (address bracketed) = true
  /\ computeSimilarity refuse flat_sine flat_sine flat_sine flat_atan2
                       (ofZ 3) bracketed bracketed
     = None.
Proof.
  split; [reflexivity|]. split; [reflexivity|].
  apply unescaped_city_throws; reflexivity.
Defined.

End ScorerFacts.

(** ** listingsStorage.js and listingsExtendedStorage.js: the tables *)

Module Storage.

Import Js Str Val Data.
Local Open Scope string_scope.
Local Open Scope list_scope.
Local Open Scope Z_scope.

(** The [change_set] column: SQL [NULL], a text that [JSON.parse] refuses,
    or the JSON text of an object. *)
Inductive Stored : Type :=
| NoText
| BadText
| Json (c : ChangeSet).

(** A row of [listings]; only the columns the versioning code reads or
    writes.  Timestamps are [INTEGER] columns, [NULL] is [None]; the
    migrated schema (with [is_superseded], [previous_version_id] and the
    identity columns) is assumed. *)
Record Row : Type := MkRow {
  id : string;
  hash : string;
  job_id : string;
  price : value;
  published_at : option Z;
  created_at : option Z;
  property_identity : option string;
  fuzzy_identity : option string;
  previous_version_id : option string;
  is_superseded : bool;
  manually_deleted : bool;
  change_set : Stored
}.

(** A row of [manual_property_links]. *)
Record Link : Type := MkLink {
  link_id : string;
  listing_id : string;
  linked_listing_id : string;
  created_by : option string;
  link_created_at : Z
}.

(** The tables, rows in storage order. *)
Record Store : Type := MkStore {
  listings : list Row;
  links : list Link
}.

Definition mem (x : string) (l : list string) : bool :=
  existsb (String.eqb x) l.

Definition is_id (x : string) (r : Row) : bool := String.eqb (id r) x.

(** [SELECT ... FROM listings WHERE id = @id], first row. *)
Definition rowById (st : Store) (x : string) : option Row :=
  find (is_id x) (listings st).

(** [UPDATE listings SET ... WHERE id = @id] *)
Definition updateRows (f : Row -> Row) (x : string) (st : Store) : Store :=
  MkStore (map (fun r => if is_id x r then f r else r) (listings st))
          (links st).

Definition setSuperseded (b : bool) (r : Row) : Row :=
  MkRow (id r) (hash r) (job_id r) (price r) (published_at r) (created_at r)
        (property_identity r) (fuzzy_identity r) (previous_version_id r)
        b (manually_deleted r) (change_set r).

Definition setPrevious (p : option string) (r : Row) : Row :=
  MkRow (id r) (hash r) (job_id r) (price r) (published_at r) (created_at r)
        (property_identity r) (fuzzy_identity r) p
        (is_superseded r) (manually_deleted r) (change_set r).

Definition setChangeSet (c : Stored) (r : Row) : Row :=
  MkRow (id r) (hash r) (job_id r) (price r) (published_at r) (created_at r)
        (property_identity r) (fuzzy_identity r) (previous_version_id r)
        (is_superseded r) (manually_deleted r) c.

(** [markListingAsSuperseded] *)
Definition markListingAsSuperseded (listingId : string) (st : Store) : Store :=
  if negb (nonempty listingId) then st
  else updateRows (setSuperseded true) listingId st.

(** [markAllVersionsAsSuperseded] *)
Definition markAllVersionsAsSuperseded (jobId fuzzyIdentity : option string)
  (excludeHash : string) (st : Store) : Store :=
  match jobId, fuzzyIdentity with
  | Some j, Some f =>
      if negb (nonempty j) || negb (nonempty f) then st else
      MkStore (map (fun r =>
                      if String.eqb (job_id r) j
                         && match fuzzy_identity r with
                            | Some x => String.eqb x f
                            | None => false
                            end
                         && negb (String.eqb (hash r) excludeHash)
                      then setSuperseded true r else r)
                   (listings st))
              (links st)
  | _, _ => st
  end.

(** [ORDER BY created_at DESC]: [NULL] sorts below every timestamp. *)
Definition created_before (a b : Row) : bool :=
  match created_at a, created_at b with
  | Some x, Some y => x <? y
  | None, Some _ => true
  | _, _ => false
  end.

(** [ORDER BY created_at DESC LIMIT 1].  SQL leaves the choice among rows
    created at the same time open; the first of them in storage order is
    taken here. *)
Definition mostRecent (rows : list Row) : option Row :=
  match rows with
  | [] => None
  | first :: rest =>
      Some (fold_left (fun best r => if created_before best r then r else best)
                      rest first)
  end.

(** [findListingByPropertyIdentity] *)
Definition findListingByPropertyIdentity (st : Store) (jobId : string)
  (propertyIdentity excludeHash : option string) : option Row :=
  match propertyIdentity with
  | Some p =>
      if negb (nonempty p) then None else
      mostRecent
        (filter (fun r =>
                   String.eqb (job_id r) jobId
                   && match property_identity r with
                      | Some x => String.eqb x p
                      | None => false
                      end
                   && match excludeHash with
                      | Some e => if nonempty e
                                  then negb (String.eqb (hash r) e) else true
                      | None => true
                      end)
                (listings st))
  | None => None
  end.

(** [findListingsByFuzzyIdentities]; the [Map] it returns, as a lookup. *)
Definition findListingsByFuzzyIdentities (st : Store) (jobId : string)
  (fuzzyIdentities : list string) (fuzzyId : string) : option Row :=
  if mem fuzzyId fuzzyIdentities && nonempty fuzzyId then
    mostRecent
      (filter (fun r =>
                 String.eqb (job_id r) jobId
                 && match fuzzy_identity r with
                    | Some x => String.eqb x fuzzyId
                    | None => false
                    end
                 && negb (manually_deleted r))
              (listings st))
  else None.

End Storage.

(** ** enhancedSimilarityScorer.js: the manual-link storage layer *)

Module ManualLinks.

Import Js Str Val Data Storage.
Local Open Scope string_scope.
Local Open Scope list_scope.
Local Open Scope Z_scope.

(** [a || b] on timestamps: 0 and [NULL] are falsy. *)
Definition orElse (a b : option Z) : option Z :=
  match a with
  | Some z => if z =? 0 then b else a
  | None => b
  end.

(** [l.published_at || l.created_at || 0] *)
Definition dateOf (l : Row) : Z :=
  match orElse (published_at l) (created_at l) with
  | Some z => z
  | None => 0
  end.

(** [SELECT ... WHERE id = @idOrHash OR hash = @idOrHash], first row. *)
Definition getListingByIdOrHash (st : Store) (idOrHash : string) : option Row :=
  find (fun r => String.eqb (id r) idOrHash || String.eqb (hash r) idOrHash)
       (listings st).

Definition points_to (x : string) (r : Row) : bool :=
  match previous_version_id r with
  | Some p => String.eqb p x
  | None => false
  end.

Definition touches (x : string) (k : Link) : bool :=
  String.eqb (listing_id k) x || String.eqb (linked_listing_id k) x.

Definition other_end (x : string) (k : Link) : string :=
  if String.eqb (listing_id k) x then linked_listing_id k else listing_id k.

(** What one iteration of the walk pushes for [currentId], in order: the
    previous version, the newer versions, the manually linked listings;
    each only if [fresh]. *)
Definition pushed (st : Store) (currentId : string) (fresh : string -> bool)
  : list string :=
  match rowById st currentId with
  | None => []
  | Some listing =>
      (match previous_version_id listing with
       | Some p => if nonempty p && fresh p then [p] else []
       | None => []
       end)
      ++ filter fresh (map id (filter (points_to currentId) (listings st)))
      ++ filter fresh (map (other_end currentId)
                           (filter (touches currentId) (links st)))
  end.

Definition excluded (excludeId : option string) (x : string) : bool :=
  match excludeId with
  | Some e => String.eqb x e
  | None => false
  end.

(** The breadth-first walk of [findChainHead] ([excludeId] absent) and of
    [getChainIdsExcluding]: [visited] in insertion order, [toVisit] the
    queue.  One unit of [fuel] is spent per iteration; [None] when it runs
    out. *)
Fixpoint walk (fuel : nat) (st : Store) (excludeId : option string)
  (visited toVisit : list string) : option (list string) :=
  match toVisit with
  | [] => Some visited
  | currentId :: rest =>
      match fuel with
      | O => None
      | S fuel' =>
          if mem currentId visited || excluded excludeId currentId
          then walk fuel' st excludeId visited rest
          else
            let visited' := visited ++ [currentId] in
            let fresh x := negb (mem x visited') && negb (excluded excludeId x) in
            walk fuel' st excludeId visited'
                 (rest ++ pushed st currentId fresh)
      end
  end.

(** Every identifier the walk can meet. *)
Definition universe (st : Store) (start : string) : list string :=
  start :: map id (listings st)
  ++ flat_map (fun r => match previous_version_id r with
                        | Some p => [p] | None => [] end) (listings st)
  ++ flat_map (fun k => [listing_id k; linked_listing_id k]) (links st).

(** An iteration pushes at most [degree] identifiers. *)
Definition degree (st : Store) : nat :=
  (1 + List.length (listings st) + List.length (links st))%nat.

(** Iterations the walk can need: one per queued identifier. *)
Definition budget (st : Store) (start : string) : nat :=
  (1 + (degree st + 1) * List.length (universe st start))%nat.

Definition component (st : Store) (excludeId : option string) (start : string)
  : option (list string) :=
  walk (budget st start) st excludeId [] [start].

(** [getChainIdsExcluding] *)
Definition getChainIdsExcluding (st : Store) (startingId excludeId : string)
  : option (list string) :=
  component st (Some excludeId) startingId.

(** The newest row: a later row replaces the head only when strictly
    newer. *)
Definition newest (rows : list Row) : option Row :=
  match rows with
  | [] => None
  | first :: _ =>
      Some (fold_left (fun headListing l =>
                         if dateOf headListing <? dateOf l then l
                         else headListing)
                      rows first)
  end.

(** [{ headListing, allInChain }] *)
Definition findChainHead (st : Store) (startingId : string)
  : option (option Row * list Row) :=
  match component st None startingId with
  | None => None
  | Some allListingIds =>
      let allInChain :=
        filter (fun r => mem (id r) allListingIds) (listings st) in
      Some (newest allInChain, allInChain)
  end.

(** [UPDATE listings SET is_superseded = 0 WHERE id = @id] *)
Definition unsupersede (x : string) (st : Store) : Store :=
  updateRows (setSuperseded false) x st.

(** [parsePrice] of the link layer: no sign check. *)
Definition parsePrice (price : value) : option number :=
  match price with
  | Null => None
  | Num n => Some n
  | Text s =>
      let cleaned := replaceText "," "." (replaceAll (Lit ".") "" s) in
      let num := parseFloat cleaned in
      if isNaN num then None else Some num
  end.

Definition hasDate (d : number) (history : list PriceEntry) : bool :=
  existsb (fun e => eqb (date e) d) history.

(** [priceHistory.sort((a, b) => a.date - b.date)] *)
Definition byDate (a b : PriceEntry) : bool :=
  keeps_order (sub (date a) (date b)).

(** [if (date && price != null)]: append the price of [l] at its date,
    unless the date is missing or 0, the price unknown or the date already
    present. *)
Definition pushPrice (l : Row) (history : list PriceEntry) : list PriceEntry :=
  match orElse (published_at l) (created_at l), parsePrice (price l) with
  | Some d, Some p =>
      if (d =? 0) || hasDate (ofZ d) history then history
      else history ++ [Entry (ofZ d) (Num p)]
  | _, _ => history
  end.

(** [changeSet.priceHistory || []] of a stored [change_set]. *)
Definition storedHistory (c : Stored) : list PriceEntry :=
  match c with
  | Json c => match priceHistory c with Some h => h | None => [] end
  | _ => []
  end.

(** The older price, then the newer one, each unless its date is taken;
    sorted by date. *)
Definition mergedEntries (newerListing olderListing : Row)
  (history : list PriceEntry) : list PriceEntry :=
  sort byDate (pushPrice newerListing (pushPrice olderListing history)).

Definition mergedHistory (newerListing olderListing : Row) : list PriceEntry :=
  mergedEntries newerListing olderListing
                (storedHistory (change_set newerListing)).

Definition updatePriceHistory (newerListing olderListing : Row) (st : Store)
  : Store :=
  updateRows (setChangeSet (Json (Changes (Some (mergedHistory newerListing
                                                               olderListing)))))
             (id newerListing) st.

(** The result object of a link operation. *)
Record Result : Type := MkResult {
  success : bool;
  error : option string;
  linkId : option string;
  alreadyExists : bool;
  removed : option bool
}.

Definition failure (message : string) : Result :=
  MkResult false (Some message) None false None.

(** Numeric order of the identifiers: [Number(a.id) <= Number(b.id)]. *)
Definition ordered (a b : Row) : Row * Row :=
  if leb (toNumber (id a)) (toNumber (id b)) then (a, b) else (b, a).

Definition is_link (first second : string) (k : Link) : bool :=
  String.eqb (listing_id k) first && String.eqb (linked_listing_id k) second.

Definition supersedeOthers (headId : string) (rows : list Row) (st : Store)
  : Store :=
  fold_left (fun st chainListing =>
               if String.eqb (id chainListing) headId then st
               else markListingAsSuperseded (id chainListing) st)
            rows st.

Definition mergeHistories (freshHead : Row) (rows : list Row) (st : Store)
  : Store :=
  fold_left (fun st chainListing =>
               if String.eqb (id chainListing) (id freshHead) then st
               else updatePriceHistory freshHead chainListing st)
            rows st.

(** The newer and the older listing of a pair: [date1 >= date2] keeps the
    order of the arguments. *)
Definition byAge (listing1 listing2 : Row) : Row * Row :=
  if dateOf listing2 <=? dateOf listing1 then (listing1, listing2)
  else (listing2, listing1).

(** The updates of [createManualLink] that follow the insert and the
    setting of [previous_version_id]: the head of the whole chain stays
    visible and collects the prices.  [None] only if the walk ran out of
    fuel. *)
Definition settleChain (listing1 newerOfPair olderOfPair : Row) (st : Store)
  : option Store :=
  match findChainHead st (id listing1) with
  | None => None
  | Some (Some headListing, allInChain) =>
      let st := supersedeOthers (id headListing) allInChain st in
      let st := unsupersede (id headListing) st in
      Some match rowById st (id headListing) with
           | Some freshHead => mergeHistories freshHead allInChain st
           | None => st
           end
  | Some (None, _) =>
      let st := markListingAsSuperseded (id olderOfPair) st in
      Some (updatePriceHistory newerOfPair olderOfPair st)
  end.

(** The store after the insert and the setting of [previous_version_id]. *)
Definition insertLink (link : Link) (newerOfPair olderOfPair : Row) (st : Store)
  : Store :=
  let st := MkStore (listings st) (links st ++ [link]) in
  if negb (Str.truthy (previous_version_id newerOfPair))
  then updateRows (setPrevious (Some (id olderOfPair))) (id newerOfPair) st
  else st.

(** [createManualLink]; [newLinkId] is what [generateLinkId] draws and [now]
    what [Date.now] reads.  [None] only if the walk ran out of fuel. *)
Definition createManualLink (newLinkId : string) (now : Z)
  (listingId linkedListingId : option string) (userId : option string)
  (st : Store) : option (Result * Store) :=
  match listingId, linkedListingId with
  | Some a, Some b =>
      if negb (nonempty a) || negb (nonempty b)
      then Some (failure "Both listing IDs are required", st)
      else if String.eqb a b
      then Some (failure "Cannot link a listing to itself", st)
      else
        match getListingByIdOrHash st a, getListingByIdOrHash st b with
        | Some listing1, Some listing2 =>
            let (firstListing, secondListing) := ordered listing1 listing2 in
            let first := id firstListing in
            let second := id secondListing in
            match find (is_link first second) (links st) with
            | Some existing =>
                Some (MkResult true None (Some (link_id existing)) true None,
                      st)
            | None =>
                let (newerOfPair, olderOfPair) := byAge listing1 listing2 in
                let st :=
                  insertLink (MkLink newLinkId first second userId now)
                             newerOfPair olderOfPair st in
                match settleChain listing1 newerOfPair olderOfPair st with
                | Some st =>
                    Some (MkResult true None (Some newLinkId) false None, st)
                | None => None
                end
            end
        | _, _ => Some (failure "One or both listings not found", st)
        end
  | _, _ => Some (failure "Both listing IDs are required", st)
  end.

(** [DELETE FROM manual_property_links WHERE ...]: the rows left and the
    number of rows deleted. *)
Definition deleteLinks (p : Link -> bool) (st : Store) : Store * nat :=
  (MkStore (listings st) (filter (fun k => negb (p k)) (links st)),
   List.length (filter p (links st))).

(** The first manual link of [listing2] whose other end lies in
    [chain1Ids]. *)
Definition bridgingLink (st : Store) (listing2Id : string)
  (chain1Ids : list string) : option Link :=
  find (fun k => mem (other_end listing2Id k) chain1Ids)
       (filter (touches listing2Id) (links st)).

(** The two deletes of [removeManualLink]: the direct link, else the first
    link joining [listing2] to the chain of [listing1]; with the number of
    rows the last delete removed. *)
Definition unlink (listing1 listing2 : Row) (st : Store)
  : option (Store * nat) :=
  let (firstListing, secondListing) := ordered listing1 listing2 in
  let (st, changes) :=
    deleteLinks (is_link (id firstListing) (id secondListing)) st in
  if (changes =? 0)%nat then
    match getChainIdsExcluding st (id listing1) (id listing2) with
    | None => None
    | Some chain1Ids =>
        match bridgingLink st (id listing2) chain1Ids with
        | Some link =>
            Some (deleteLinks (fun k => String.eqb (link_id k) (link_id link))
                              st)
        | None => Some (st, changes)
        end
    end
  else Some (st, changes).

(** What follows a delete: [listing2] no longer points into the chain of
    [listing1] and is visible again. *)
Definition detach (id1 id2 : string) (st : Store) : option Store :=
  let prevId2 :=
    match getListingByIdOrHash st id2 with
    | Some fresh2 => previous_version_id fresh2
    | None => None
    end in
  let cleared : option Store :=
    if Str.truthy prevId2 then
      match getChainIdsExcluding st id1 id2 with
      | None => None
      | Some chain1Ids =>
          if match prevId2 with Some p => mem p chain1Ids | None => false end
          then Some (updateRows (setPrevious None) id2 st)
          else Some st
      end
    else Some st in
  match cleared with
  | Some st => Some (unsupersede id2 st)
  | None => None
  end.

(** [removeManualLink]; [None] only if a walk ran out of fuel. *)
Definition removeManualLink (listingId linkedListingId : option string)
  (st : Store) : option (Result * Store) :=
  match listingId, linkedListingId with
  | Some a, Some b =>
      if negb (nonempty a) || negb (nonempty b)
      then Some (failure "Both listing IDs are required", st)
      else
        match getListingByIdOrHash st a, getListingByIdOrHash st b with
        | Some listing1, Some listing2 =>
            match unlink listing1 listing2 st with
            | None => None
            | Some (st, changes) =>
                if (0 <? changes)%nat then
                  match detach (id listing1) (id listing2) st with
                  | Some st =>
                      Some (MkResult true None None false (Some true), st)
                  | None => None
                  end
                else Some (MkResult true None None false (Some false), st)
            end
        | _, _ => Some (MkResult false None None false (Some false), st)
        end
  | _, _ => Some (failure "Both listing IDs are required", st)
  end.

(** [getManualLinks]: newest first. *)
Definition getManualLinks (st : Store) (listingId : option string) : list Link :=
  match listingId with
  | Some x =>
      if negb (nonempty x) then [] else
      sort (fun a b => link_created_at b <=? link_created_at a)
           (filter (touches x) (links st))
  | None => []
  end.

Definition getLinkedListingIds (st : Store) (listingId : option string)
  : list string :=
  match listingId with
  | Some x => map (other_end x) (getManualLinks st listingId)
  | None => []
  end.

(** [areListingsLinked] *)
Definition areListingsLinked (st : Store) (listingId1 listingId2 : option string)
  : bool :=
  match listingId1, listingId2 with
  | Some a, Some b =>
      if negb (nonempty a) || negb (nonempty b) then false else
      let (first, second) :=
        if leb (toNumber a) (toNumber b) then (a, b) else (b, a) in
      existsb (is_link first second) (links st)
  | _, _ => false
  end.

(** [removeManualLinkById] *)
Definition removeManualLinkById (linkId : option string) (st : Store)
  : Result * Store :=
  match linkId with
  | Some x =>
      if negb (nonempty x) then (failure "Link ID is required", st) else
      let (st', changes) := deleteLinks (fun k => String.eqb (link_id k) x) st in
      (MkResult true None None false (Some (0 <? changes)%nat), st')
  | None => (failure "Link ID is required", st)
  end.

End ManualLinks.

(** ** versionDetector.js *)

Module VersionDetector.

Import Js Str Val Data.
Local Open Scope string_scope.
Local Open Scope list_scope.
Local Open Scope nat_scope.

Definition setIdentities (fuzzy strict : option string) (l : Listing) : Listing :=
  MkListing (id l) (hash l) (title l) (address l) (price l) (size l) (rooms l)
            (latitude l) (longitude l) (publishedAt l)
            strict fuzzy (previousVersionId l) (changeSet l)
            (batchPreviousHash l).

Definition setPropertyIdentity (strict : option string) (l : Listing) : Listing :=
  setIdentities (fuzzyIdentity l) strict l.

Definition setBatchPreviousHash (marker : option string) (l : Listing) : Listing :=
  MkListing (id l) (hash l) (title l) (address l) (price l) (size l) (rooms l)
            (latitude l) (longitude l) (publishedAt l)
            (propertyIdentity l) (fuzzyIdentity l) (previousVersionId l)
            (changeSet l) marker.

(** [listing.previousVersionId = ...; listing.changeSet = ...] *)
Definition setVersion (previous : option string) (changes : ChangeSet)
  (l : Listing) : Listing :=
  MkListing (id l) (hash l) (title l) (address l) (price l) (size l) (rooms l)
            (latitude l) (longitude l) (publishedAt l)
            (propertyIdentity l) (fuzzyIdentity l) previous
            (Some changes) (batchPreviousHash l).

(** [parsePrice] *)
Definition parsePrice (price : value) : option number :=
  match price with
  | Null => None
  | Num n => Some n
  | Text s =>
      let cleaned := replaceText "," "." (replaceAll (Lit ".") "" s) in
      let num := parseFloat cleaned in
      if isNaN num then None else Some num
  end.

(** [(listing.changeSet || {}).priceHistory || []] *)
Definition historyOf (l : Listing) : list PriceEntry :=
  match changeSet l with
  | Some c => match priceHistory c with Some h => h | None => [] end
  | None => []
  end.

(** [priceHistory.sort((a, b) => a.date - b.date)] *)
Definition byDate (a b : PriceEntry) : bool :=
  keeps_order (sub (date a) (date b)).

(** The previous price, at the time the existing row was created, unless
    that time is 0 or [NULL], the price is [NULL], or the history has an
    entry of that date. *)
Definition pushExisting (existingListing : Storage.Row)
  (history : list PriceEntry) : list PriceEntry :=
  match Storage.created_at existingListing with
  | Some created =>
      if (created =? 0)%Z || is_null (Storage.price existingListing)
         || existsb (fun e => eqb (date e) (ofZ created)) history
      then history
      else history ++ [Entry (ofZ created) (Storage.price existingListing)]
  | None => history
  end.

Definition priceValue (p : option number) : value :=
  match p with Some n => Num n | None => Null end.

(** The price history [detectVersion] writes: the previous price, then the
    current price whatever it is, sorted by date. *)
Definition detectedEntries (now : Z) (currentPrice : option number)
  (existingListing : Storage.Row) (history : list PriceEntry)
  : list PriceEntry :=
  sort byDate (pushExisting existingListing history
               ++ [Entry (ofZ now) (priceValue currentPrice)]).

Definition detectedHistory (now : Z) (listing : Listing)
  (existingListing : Storage.Row) : list PriceEntry :=
  detectedEntries now (parsePrice (price listing)) existingListing
                  (historyOf listing).

(** The price history [linkListingToExisting] writes: the current price is
    added only if it parses. *)
Definition linkedEntries (now : Z) (currentPrice : option number)
  (existingListing : Storage.Row) (history : list PriceEntry)
  : list PriceEntry :=
  sort byDate (pushExisting existingListing history
               ++ match currentPrice with
                  | Some p => [Entry (ofZ now) (Num p)]
                  | None => []
                  end).

Definition linkedHistory (now : Z) (listing : Listing)
  (existingListing : Storage.Row) : list PriceEntry :=
  linkedEntries now (parsePrice (price listing)) existingListing
                (historyOf listing).

(** The listing as [linkListingToExisting] leaves it. *)
Definition linked (now : Z) (listing : Listing) (existingListing : Storage.Row)
  : Listing :=
  setVersion (Some (Storage.id existingListing))
             (Changes (Some (linkedHistory now listing existingListing)))
             listing.

(** [array[i] = f(array[i])]: an object of the batch is changed in place;
    nothing happens past the end. *)
Fixpoint modify (i : nat) (f : Listing -> Listing) (heap : list Listing)
  : list Listing :=
  match heap, i with
  | [], _ => []
  | l :: rest, O => f l :: rest
  | l :: rest, S i' => l :: modify i' f rest
  end.

(** The batch, whose objects the groups refer to by position; the tables;
    and how often the clock has been read. *)
Record State : Type := MkState {
  batch : list Listing;
  db : Storage.Store;
  reads : nat
}.

Section Runtime.

(** [String] of a number that is not an integer. *)
Variable shortest : Qc -> string.

(** What the n-th call of [Date.now] returns. *)
Variable Date_now : nat -> Z.

Definition strictIdentity (l : Listing) : option string :=
  PropertyIdentity.computePropertyIdentity shortest (Some l).

Definition fuzzyIdentityOf (l : Listing) : option string :=
  FuzzyMatcher.computeFuzzyIdentity shortest (Some l).

(** [detectVersion] on a listing object, with the time read when a previous
    version is found.  The second component tells whether the clock was
    read. *)
Definition detectVersion (st : Storage.Store) (jobId : string) (now : Z)
  (listing : Listing) : Listing * bool :=
  match strictIdentity listing with
  | Some propertyIdentity =>
      if negb (nonempty propertyIdentity) then (listing, false) else
      let listing := setPropertyIdentity (Some propertyIdentity) listing in
      match Storage.findListingByPropertyIdentity
              st jobId (Some propertyIdentity) (id listing) with
      | Some existingListing =>
          (setVersion (Some (Storage.id existingListing))
                      (Changes (Some (detectedHistory now listing
                                                      existingListing)))
                      listing,
           true)
      | None => (listing, false)
      end
  | None => (listing, false)
  end.

(** [detectVersion(listings[i], jobId)] *)
Definition detectVersionAt (jobId : string) (i : nat) (s : State) : State :=
  match nth_error (batch s) i with
  | Some listing =>
      let (listing', read) :=
        detectVersion (db s) jobId (Date_now (reads s)) listing in
      MkState (modify i (fun _ => listing') (batch s)) (db s)
              (if read then S (reads s) else reads s)
  | None => s
  end.

(** [detectVersions]: [listings.map(...)] returns the same objects. *)
Definition detectVersions (jobId : string) (s : State) : State :=
  fold_left (fun s i => detectVersionAt jobId i s)
            (seq 0 (List.length (batch s))) s.

(** [linkListingToExisting(listings[i], existingListing)] *)
Definition linkListingToExisting (i : nat) (existingListing : Storage.Row)
  (s : State) : State :=
  match nth_error (batch s) i with
  | Some listing =>
      let currentPrice := parsePrice (price listing) in
      MkState (modify i (fun l => linked (Date_now (reads s)) l existingListing)
                      (batch s))
              (Storage.markListingAsSuperseded (Storage.id existingListing)
                                               (db s))
              (match currentPrice with
               | Some _ => S (reads s)
               | None => reads s
               end)
  | None => s
  end.

(** [groups.get(identity).push(listing)], creating the group at the end of
    the [Map] if there is none. *)
Fixpoint addToGroup (fuzzyId : string) (ref : nat)
  (groups : list (string * list nat)) : list (string * list nat) :=
  match groups with
  | [] => [(fuzzyId, [ref])]
  | (key, refs) :: rest =>
      if String.eqb key fuzzyId then (key, refs ++ [ref]) :: rest
      else (key, refs) :: addToGroup fuzzyId ref rest
  end.

(** The loop of [groupByFuzzyIdentity], [ref] being the position of the
    next listing. *)
Fixpoint groupFrom (ref : nat) (listings : list Listing)
  (groups : list (string * list nat)) : list (string * list nat) :=
  match listings with
  | [] => groups
  | listing :: rest =>
      groupFrom (S ref) rest
                (match fuzzyIdentityOf listing with
                 | Some fuzzyId =>
                     if nonempty fuzzyId then addToGroup fuzzyId ref groups
                     else groups
                 | None => groups
                 end)
  end.

(** [groupByFuzzyIdentity]: the groups in the order their first member
    arrives, each holding positions of the batch. *)
Definition groupByFuzzyIdentity (heap : list Listing)
  : list (string * list nat) :=
  groupFrom 0 heap [].

(** [a.publishedAt || 0], as the number the subtraction sees. *)
Definition publishedOrZero (l : Listing) : number :=
  if Val.truthy (publishedAt l) then to_number (publishedAt l) else ofZ 0.

Definition dateAt (heap : list Listing) (ref : nat) : number :=
  match nth_error heap ref with
  | Some l => publishedOrZero l
  | None => NaN
  end.

(** The comparator [(a, b) => dateB - dateA]. *)
Definition newestFirst (heap : list Listing) (a b : nat) : bool :=
  keeps_order (sub (dateAt heap b) (dateAt heap a)).

(** [newer._batchPreviousHash = older.id] along the sorted group. *)
Fixpoint markChain (refs : list nat) (heap : list Listing) : list Listing :=
  match refs with
  | newer :: (older :: _) as rest =>
      let marker := match nth_error heap older with
                    | Some l => id l
                    | None => None
                    end in
      markChain rest (modify newer (setBatchPreviousHash marker) heap)
  | _ => heap
  end.

Definition linkToMatch (dbMatches : string -> option Storage.Row)
  (fuzzyIdentity : string) (ref : nat) (s : State) : State :=
  match dbMatches fuzzyIdentity with
  | Some dbMatch => linkListingToExisting ref dbMatch s
  | None => s
  end.

(** One round of the loop over [groups.entries()]. *)
Definition processGroup (dbMatches : string -> option Storage.Row)
  (s : State) (group : string * list nat) : State :=
  let (fuzzyIdentity, groupListings) := group in
  match groupListings with
  | [listing] => linkToMatch dbMatches fuzzyIdentity listing s
  | _ =>
      let sorted := sort (newestFirst (batch s)) groupListings in
      let s := MkState (markChain sorted (batch s)) (db s) (reads s) in
      match sorted with
      | [] => s
      | _ => linkToMatch dbMatches fuzzyIdentity (last sorted O) s
      end
  end.

(** [listings.filter((l) => !l.fuzzyIdentity)], as positions from [ref]
    on. *)
Fixpoint withoutIdentity (ref : nat) (listings : list Listing) : list nat :=
  match listings with
  | [] => []
  | l :: rest =>
      if Str.truthy (fuzzyIdentity l) then withoutIdentity (S ref) rest
      else ref :: withoutIdentity (S ref) rest
  end.

Definition noIdentity (heap : list Listing) : list nat :=
  withoutIdentity 0 heap.

(** [detectVersionsWithBatchAwareness], for a schema that has the identity
    columns. *)
Definition detectVersionsWithBatchAwareness (jobId : string) (s : State)
  : State :=
  match batch s with
  | [] => s
  | _ =>
      let heap := map (fun l => setIdentities (fuzzyIdentityOf l)
                                              (strictIdentity l) l)
                      (batch s) in
      let groups := groupByFuzzyIdentity heap in
      let allFuzzyIdentities := map fst groups in
      let dbMatches :=
        match allFuzzyIdentities with
        | [] => fun _ => None
        | _ => Storage.findListingsByFuzzyIdentities
                 (db s) jobId allFuzzyIdentities
        end in
      let s := fold_left (processGroup dbMatches) groups
                         (MkState heap (db s) (reads s)) in
      fold_left (fun s i => detectVersionAt jobId i s) (noIdentity (batch s)) s
  end.

End Runtime.

End VersionDetector.

(** ** The chain walk *)

Module WalkFacts.

Import Js Str Val Data Storage ManualLinks.
Local Open Scope string_scope.
Local Open Scope list_scope.
Local Open Scope nat_scope.

Lemma mem_In (x : string) (l : list string) : mem x l = true <-> In x l.
Proof.
  unfold mem. rewrite existsb_exists. split.
  - intros [y [Hy E]]. apply String.eqb_eq in E. now subst.
  - intros H. exists x. split; [assumption | apply String.eqb_refl].
Qed.

Lemma mem_not_In (x : string) (l : list string) : mem x l = false <-> ~ In x l.
Proof.
  rewrite <- mem_In. destruct (mem x l); split; congruence.
Qed.

Lemma mem_snoc (x c : string) (l : list string) :
  mem x (l ++ [c]) = mem x l || String.eqb x c.
Proof.
  unfold mem. rewrite existsb_app. simpl. now rewrite orb_false_r.
Qed.

Lemma filter_all (A : Type) (l : list A) : filter (fun _ => true) l = l.
Proof.
  induction l as [|a l IH]; simpl; [reflexivity | now rewrite IH].
Qed.

(** Everything [currentId] is joined to: what an iteration pushes when
    nothing is filtered out. *)
Definition neighbours (st : Store) (currentId : string) : list string :=
  pushed st currentId (fun _ => true).

Lemma pushed_filter (st : Store) (a : string) (fresh : string -> bool) :
  pushed st a fresh = filter fresh (neighbours st a).
Proof.
  unfold neighbours, pushed. destruct (rowById st a) as [r|]; [|reflexivity].
  rewrite !filter_app, !filter_all. f_equal.
  destruct (previous_version_id r) as [p|]; [|reflexivity].
  rewrite andb_true_r. destruct (nonempty p); simpl; [|reflexivity].
  now destruct (fresh p).
Qed.

Lemma neighbours_universe (st : Store) (start a b : string) :
  In b (neighbours st a) -> In b (universe st start).
Proof.
  unfold neighbours, pushed, universe.
  destruct (rowById st a) as [r|] eqn:R; [|intros []].
  intros H. right. rewrite !in_app_iff in *.
  destruct H as [H|[H|H]].
  - right; left. apply in_flat_map. exists r. split.
    + unfold rowById in R. now apply find_some in R.
    + destruct (previous_version_id r) as [p|]; [|destruct H].
      destruct (nonempty p && true); [|destruct H]. exact H.
  - left. rewrite filter_all in H. apply in_map_iff in H.
    destruct H as [x [E H]]. apply filter_In in H. apply in_map_iff.
    exists x. tauto.
  - right; right. rewrite filter_all in H. apply in_map_iff in H.
    destruct H as [k [E H]]. apply filter_In in H. apply in_flat_map.
    exists k. split; [tauto|]. unfold other_end in E. simpl.
    destruct (String.eqb (listing_id k) a); auto.
Qed.

Lemma neighbours_degree (st : Store) (a : string) :
  List.length (neighbours st a) <= degree st.
Proof.
  unfold neighbours, pushed, degree.
  destruct (rowById st a) as [r|]; [|simpl; lia].
  rewrite !length_app, !filter_all, !length_map.
  pose proof (filter_length_le (points_to a) (listings st)).
  pose proof (filter_length_le (touches a) (links st)).
  assert (List.length (match previous_version_id r with
                       | Some p => if nonempty p && true then [p] else []
                       | None => []
                       end) <= 1).
  { destruct (previous_version_id r) as [p|]; [|simpl; lia].
    destruct (nonempty p && true); simpl; lia. }
  lia.
Qed.

Section Walk.

Variable st : Store.
Variable excludeId : option string.

Definition unvisited (U visited : list string) : nat :=
  List.length (filter (fun u => negb (mem u visited)) U).

Lemma unvisited_le (U visited : list string) (c : string) :
  unvisited U (visited ++ [c]) <= unvisited U visited.
Proof.
  unfold unvisited. induction U as [|u U IH]; simpl; [lia|].
  rewrite mem_snoc. destruct (mem u visited); simpl; [exact IH|].
  destruct (String.eqb u c); simpl; lia.
Qed.

Lemma unvisited_lt (U visited : list string) (c : string) :
  In c U -> mem c visited = false ->
  unvisited U (visited ++ [c]) < unvisited U visited.
Proof.
  intros H M. induction U as [|u U IH]; [destruct H|].
  pose proof (unvisited_le U visited c) as L.
  unfold unvisited in *. simpl. rewrite mem_snoc.
  destruct H as [H|H].
  - subst u. rewrite M, String.eqb_refl. simpl. lia.
  - specialize (IH H). destruct (mem u visited); simpl; [exact IH|].
    destruct (String.eqb u c); simpl; lia.
Qed.

(** The walk ends within its budget. *)
Lemma walk_ends (start : string) (fuel : nat) :
  forall visited toVisit,
    (forall q, In q toVisit -> In q (universe st start)) ->
    List.length toVisit
    + (degree st + 1) * unvisited (universe st start) visited <= fuel ->
    exists v, walk fuel st excludeId visited toVisit = Some v.
Proof.
  induction fuel as [|fuel IH]; intros visited toVisit HU HF.
  - destruct toVisit; [now exists visited | cbn [List.length] in HF; lia].
  - destruct toVisit as [|c rest]; [now exists visited|].
    simpl. destruct (mem c visited || excluded excludeId c) eqn:E.
    + apply IH; [intros q Hq; apply HU; now right | cbn [List.length] in HF; lia].
    + apply orb_false_iff in E. destruct E as [M _].
      apply IH.
      * intros q Hq. apply in_app_iff in Hq. destruct Hq as [Hq|Hq].
        -- apply HU. now right.
        -- rewrite pushed_filter in Hq. apply filter_In in Hq.
           apply (@neighbours_universe st start c q). tauto.
      * rewrite length_app, pushed_filter.
        pose proof (filter_length_le
                      (fun x => negb (mem x (visited ++ [c]))
                                && negb (excluded excludeId x))
                      (neighbours st c)) as L1.
        pose proof (neighbours_degree st c) as L2.
        assert (In c (universe st start)) as Hc by (apply HU; now left).
        pose proof (@unvisited_lt (universe st start) visited c Hc M) as L3.
        cbn [List.length] in HF. nia.
Qed.

Lemma component_ends (start : string) :
  exists v, component st excludeId start = Some v.
Proof.
  unfold component, budget. apply walk_ends with (start := start).
  - intros q [<-|[]]. now left.
  - unfold unvisited. change (List.length [start]) with 1.
    apply Nat.add_le_mono; [lia|]. apply Nat.mul_le_mono_l.
    apply filter_length_le.
Qed.

(** An edge of the walk: a neighbour that is not excluded. *)
Definition edge (a b : string) : Prop :=
  In b (neighbours st a) /\ excluded excludeId b = false.

Definition reaches : string -> string -> Prop :=
  clos_refl_trans_1n string edge.

Lemma walk_sound (fuel : nat) :
  forall visited toVisit v,
    walk fuel st excludeId visited toVisit = Some v ->
    forall x, In x v ->
      In x visited
      \/ exists q, In q toVisit /\ excluded excludeId q = false /\ reaches q x.
Proof.
  induction fuel as [|fuel IH]; intros visited toVisit v W x Hx.
  - destruct toVisit; [|discriminate]. injection W as <-. now left.
  - destruct toVisit as [|c rest]; [injection W as <-; now left|].
    simpl in W. destruct (mem c visited || excluded excludeId c) eqn:E.
    + destruct (IH _ _ _ W x Hx) as [H|[q [Hq H]]]; [now left|].
      right. exists q. split; [now right | exact H].
    + apply orb_false_iff in E. destruct E as [M X].
      destruct (IH _ _ _ W x Hx) as [H|[q [Hq [Xq R]]]].
      * apply in_app_iff in H. destruct H as [H|[<-|[]]]; [now left|].
        right. exists c. repeat split; [now left | exact X | constructor].
      * apply in_app_iff in Hq. destruct Hq as [Hq|Hq].
        -- right. exists q. repeat split; [now right | exact Xq | exact R].
        -- right. exists c. repeat split; [now left | exact X |].
           rewrite pushed_filter in Hq. apply filter_In in Hq.
           apply Relation_Operators.rt1n_trans with q; [|exact R].
           split; [tauto | exact Xq].
Qed.

Lemma walk_closed (fuel : nat) :
  forall visited toVisit v,
    walk fuel st excludeId visited toVisit = Some v ->
    (forall a b, In a visited -> edge a b -> In b visited \/ In b toVisit) ->
    (forall a, In a visited -> In a v)
    /\ (forall q, In q toVisit -> excluded excludeId q = false -> In q v)
    /\ (forall a b, In a v -> edge a b -> In b v).
Proof.
  induction fuel as [|fuel IH]; intros visited toVisit v W Inv.
  - destruct toVisit; [|discriminate]. injection W as <-.
    repeat split; [auto | intros q [] |].
    intros a b Ha E. destruct (Inv a b Ha E) as [H|[]]. exact H.
  - destruct toVisit as [|c rest].
    { injection W as <-. repeat split; [auto | intros q [] |].
      intros a b Ha E. destruct (Inv a b Ha E) as [H|[]]. exact H. }
    simpl in W. destruct (mem c visited || excluded excludeId c) eqn:E.
    + destruct (IH _ _ _ W) as [V [Q C]].
      * intros a b Ha Eab. destruct (Inv a b Ha Eab) as [H|[<-|H]]; auto.
        apply orb_true_iff in E. destruct E as [E|E].
        -- left. now apply mem_In.
        -- destruct Eab as [_ X]. congruence.
      * repeat split; [exact V | | exact C].
        intros q [<-|Hq] X; [|now apply Q].
        apply orb_true_iff in E. destruct E as [E|E]; [|congruence].
        apply V. now apply mem_In.
    + apply orb_false_iff in E. destruct E as [M X].
      destruct (IH _ _ _ W) as [V [Q C]].
      * intros a b Ha Eab. rewrite !in_app_iff in *. simpl.
        destruct Ha as [Ha|[<-|[]]].
        -- destruct (Inv a b Ha Eab) as [H|[<-|H]]; auto.
        -- destruct (mem b (visited ++ [c])) eqn:Mb.
           ++ apply mem_In in Mb. apply in_app_iff in Mb. simpl in Mb. tauto.
           ++ right; right. rewrite pushed_filter. apply filter_In.
              destruct Eab as [N Xb]. split; [exact N|].
              now rewrite Mb, Xb.
      * repeat split; [| | exact C].
        -- intros a Ha. apply V. apply in_app_iff. now left.
        -- intros q [<-|Hq] Xq.
           ++ apply V. apply in_app_iff. right. now left.
           ++ apply Q; [|exact Xq]. apply in_app_iff. now left.
Qed.

(** The walk collects exactly what can be reached from the start along
    edges, unless the start itself is excluded. *)
Lemma component_reaches (start : string) (v : list string) :
  component st excludeId start = Some v ->
  forall x, In x v <-> excluded excludeId start = false /\ reaches start x.
Proof.
  unfold component. intros W x. split.
  - intros Hx. destruct (@walk_sound _ _ _ _ W x Hx) as [[]|[q [[<-|[]] H]]].
    exact H.
  - intros [X R]. destruct (@walk_closed _ _ _ _ W) as [_ [Q C]].
    + intros a b [].
    + assert (In start v) as Hs by (apply Q; [now left | exact X]).
      clear W Q X. induction R as [|a b c E R IH]; [exact Hs|].
      apply IH. exact (C a b Hs E).
Qed.

End Walk.

End WalkFacts.

(** ** The manual-link operations *)

Module ManualFacts.

Import Js Str Val Data Storage ManualLinks WalkFacts.
Local Open Scope string_scope.
Local Open Scope list_scope.
Local Open Scope nat_scope.

(** [id] is the primary key of [listings]: unique, and never empty. *)
Definition keyed (st : Store) : Prop :=
  NoDup (map id (listings st))
  /\ forall r, In r (listings st) -> nonempty (id r) = true.

(** A row update that leaves the key and the chain pointer alone. *)
Definition quiet (F : Row -> Row) : Prop :=
  forall r, id (F r) = id r
            /\ previous_version_id (F r) = previous_version_id r.

Lemma find_map_id (F : Row -> Row) (y : string) (l : list Row) :
  (forall r, id (F r) = id r) ->
  find (is_id y) (map F l) = option_map F (find (is_id y) l).
Proof.
  intros H. induction l as [|r l IH]; [reflexivity|]. simpl.
  unfold is_id at 1. rewrite H. fold (is_id y r).
  destruct (is_id y r); [reflexivity | exact IH].
Qed.

Lemma newer_map (F : Row -> Row) (a : string) (l : list Row) :
  quiet F ->
  map id (filter (points_to a) (map F l)) = map id (filter (points_to a) l).
Proof.
  intros H. induction l as [|r l IH]; [reflexivity|]. simpl.
  destruct (H r) as [Hi Hp].
  assert (points_to a (F r) = points_to a r) as ->
      by (unfold points_to; now rewrite Hp).
  destruct (points_to a r); simpl; [rewrite Hi; f_equal|]; exact IH.
Qed.

Section SameEdges.

Variables (F : Row -> Row) (st st' : Store).
Hypothesis F_quiet : quiet F.
Hypothesis rows : listings st' = map F (listings st).
Hypothesis same_links : links st' = links st.

Lemma neighbours_map (a : string) : neighbours st' a = neighbours st a.
Proof.
  unfold neighbours, pushed, rowById. rewrite rows, same_links.
  rewrite find_map_id by (intros r; apply F_quiet).
  destruct (find (is_id a) (listings st)) as [r|]; [|reflexivity]. simpl.
  destruct (F_quiet r) as [_ ->]. now rewrite newer_map.
Qed.

Lemma walk_map (excludeId : option string) (fuel : nat) :
  forall visited toVisit,
    walk fuel st' excludeId visited toVisit
    = walk fuel st excludeId visited toVisit.
Proof.
  induction fuel as [|fuel IH]; intros visited toVisit; [reflexivity|].
  destruct toVisit as [|c rest]; [reflexivity|]. simpl.
  rewrite !pushed_filter, neighbours_map, !IH. reflexivity.
Qed.

Lemma universe_map (start : string) : universe st' start = universe st start.
Proof.
  unfold universe. rewrite rows, same_links, map_map. f_equal. f_equal.
  - apply map_ext. intros r. apply F_quiet.
  - f_equal. rewrite !flat_map_concat_map, map_map. f_equal.
    apply map_ext. intros r. now destruct (F_quiet r) as [_ ->].
Qed.

Lemma component_map (excludeId : option string) (start : string) :
  component st' excludeId start = component st excludeId start.
Proof.
  unfold component, budget, degree.
  now rewrite universe_map, rows, same_links, length_map, walk_map.
Qed.

End SameEdges.

Lemma newest_fold (rows : list Row) :
  forall first h,
    fold_left (fun headListing l =>
                 if (dateOf headListing <? dateOf l)%Z then l
                 else headListing) rows first = h ->
    (h = first \/ In h rows)
    /\ (dateOf first <= dateOf h)%Z
    /\ forall r, In r rows -> (dateOf r <= dateOf h)%Z.
Proof.
  induction rows as [|l rows IH]; intros first h E; simpl in E.
  - subst h. repeat split; [now left | lia | intros r []].
  - destruct (dateOf first <? dateOf l)%Z eqn:L.
    + apply Z.ltb_lt in L. destruct (IH _ _ E) as [A [B C]].
      repeat split; [destruct A as [->|A]; right; [now left | now right] | lia |].
      intros r [<-|Hr]; [exact B | now apply C].
    + apply Z.ltb_ge in L. destruct (IH _ _ E) as [A [B C]].
      repeat split; [destruct A as [->|A]; [now left | right; now right] | exact B |].
      intros r [<-|Hr]; [lia | now apply C].
Qed.

(** The head is a member of the chain and no member is newer. *)
Lemma newest_spec (rows : list Row) (h : Row) :
  newest rows = Some h ->
  In h rows /\ forall r, In r rows -> (dateOf r <= dateOf h)%Z.
Proof.
  destruct rows as [|first rows]; [discriminate|].
  unfold newest. intros E.
  destruct (@newest_fold (first :: rows) first h) as [A [_ C]];
    [congruence|].
  split; [|exact C]. destruct A as [->|A]; [now left | exact A].
Qed.

(** What [supersedeOthers] does to a row. *)
Definition hide (headId : string) (ids : list string) (r : Row) : Row :=
  if mem (id r) ids && negb (String.eqb (id r) headId) && nonempty (id r)
  then setSuperseded true r else r.

Lemma setSuperseded_twice (b : bool) (r : Row) :
  setSuperseded b (setSuperseded b r) = setSuperseded b r.
Proof. reflexivity. Qed.

Lemma hide_cons (headId c : string) (ids : list string) (r : Row) :
  hide headId (c :: ids) r
  = if String.eqb (id r) c && negb (String.eqb c headId) && nonempty c
    then setSuperseded true r else hide headId ids r.
Proof.
  unfold hide, mem. cbn [existsb].
  destruct (String.eqb (id r) c) eqn:E; [|reflexivity].
  apply String.eqb_eq in E. subst c. cbn [orb andb].
  destruct (negb (String.eqb (id r) headId)), (nonempty (id r));
    rewrite ?andb_false_r; reflexivity.
Qed.

Lemma hide_hidden (headId : string) (ids : list string) (r : Row) :
  hide headId ids (setSuperseded true r) = setSuperseded true r.
Proof.
  unfold hide. cbn [id setSuperseded].
  now destruct (mem (id r) ids && negb (String.eqb (id r) headId)
                && nonempty (id r)).
Qed.

Lemma rows_supersedeOthers (headId : string) (rows : list Row) :
  forall st,
    listings (supersedeOthers headId rows st)
    = map (hide headId (map id rows)) (listings st)
    /\ links (supersedeOthers headId rows st) = links st.
Proof.
  unfold supersedeOthers.
  induction rows as [|c rows IH]; intros st; cbn [fold_left map].
  - split; [|reflexivity]. rewrite <- (map_id (listings st)) at 1.
    apply map_ext. intros r. reflexivity.
  - match goal with |- context [fold_left ?f rows ?s] =>
      destruct (IH s) as [-> ->] end.
    unfold markListingAsSuperseded, updateRows.
    destruct (String.eqb (id c) headId) eqn:E;
      [|destruct (nonempty (id c)) eqn:N]; cbn [negb listings links];
      (split; [|reflexivity]); rewrite ?map_map; apply map_ext; intros r;
      rewrite hide_cons, ?E, ?N, ?andb_false_r; cbn [negb andb];
      try reflexivity.
    unfold is_id. rewrite andb_true_r.
    destruct (String.eqb (id r) (id c)); [apply hide_hidden | reflexivity].
Qed.

(** [mergeHistories] rewrites the [change_set] of the head and nothing
    else. *)
Lemma rows_mergeHistories (freshHead : Row) (rows : list Row) :
  forall st,
    links (mergeHistories freshHead rows st) = links st
    /\ exists F,
         listings (mergeHistories freshHead rows st) = map F (listings st)
         /\ forall r, F r = r
                      \/ (id r = id freshHead
                          /\ exists c, F r = setChangeSet c r).
Proof.
  unfold mergeHistories.
  induction rows as [|c rows IH]; intros st; simpl.
  - split; [reflexivity|]. exists (fun r => r). split; [|now left].
    now rewrite map_id.
  - destruct (String.eqb (id c) (id freshHead)); [apply IH|].
    match goal with |- context [fold_left ?f rows ?s] =>
      destruct (IH s) as [L [F [R HF]]] end.
    split; [exact L|]. rewrite R. unfold updatePriceHistory, updateRows.
    simpl. rewrite map_map. eexists. split; [reflexivity|].
    intros r. simpl. unfold is_id.
    destruct (String.eqb (id r) (id freshHead)) eqn:E.
    + right. apply String.eqb_eq in E. split; [exact E|].
      match goal with |- context [setChangeSet ?c0 r] =>
        destruct (HF (setChangeSet c0 r)) as [->|[_ [c1 ->]]] end;
        eexists; reflexivity.
    + apply HF.
Qed.


Lemma same_key (l : list Row) (x y : Row) :
  NoDup (map id l) -> In x l -> In y l -> id x = id y -> x = y.
Proof.
  induction l as [|r l IH]; intros N Hx Hy E; [destruct Hx|].
  cbn [map] in N. apply NoDup_cons_iff in N. destruct N as [N1 N2].
  destruct Hx as [<-|Hx], Hy as [<-|Hy].
  - reflexivity.
  - exfalso. apply N1. rewrite E. now apply in_map.
  - exfalso. apply N1. rewrite <- E. now apply in_map.
  - now apply IH.
Qed.

Lemma rowById_key (st : Store) (x : string) :
  In x (map id (listings st)) ->
  exists r, rowById st x = Some r /\ In r (listings st) /\ id r = x.
Proof.
  intros H. unfold rowById. destruct (find (is_id x) (listings st)) as [r|] eqn:E.
  - apply find_some in E. destruct E as [E1 E2]. exists r.
    repeat split; [exact E1 | now apply String.eqb_eq in E2].
  - apply in_map_iff in H. destruct H as [r [<- Hr]].
    pose proof (find_none _ _ E _ Hr) as C. unfold is_id in C.
    now rewrite String.eqb_refl in C.
Qed.

Lemma getListingByIdOrHash_row (st : Store) (x : string) (r : Row) :
  getListingByIdOrHash st x = Some r -> In r (listings st).
Proof.
  unfold getListingByIdOrHash. intros E. now apply find_some in E.
Qed.

Lemma restore_row (r : Row) :
  setChangeSet (change_set r) (setSuperseded (is_superseded r) r) = r.
Proof. now destruct r. Qed.

(** The visibility flag [settleChain] leaves on a row: the head is visible,
    the other members of the chain are hidden, the rest keep their flag. *)
Definition settled (headId : string) (members : list string) (r : Row) : bool :=
  if String.eqb (id r) headId then false
  else if mem (id r) members && nonempty (id r) then true
       else is_superseded r.

Lemma settleChain_spec (listing1 newerOfPair olderOfPair : Row)
  (st st' : Store) :
  In (id listing1) (map id (listings st)) ->
  settleChain listing1 newerOfPair olderOfPair st = Some st' ->
  exists chain h F,
    component st None (id listing1) = Some chain
    /\ In h (listings st) /\ In (id h) chain
    /\ (forall r, In r (listings st) -> In (id r) chain ->
                  (dateOf r <= dateOf h)%Z)
    /\ links st' = links st
    /\ listings st' = map F (listings st)
    /\ forall r, exists c,
         F r = setChangeSet c
                 (setSuperseded
                    (settled (id h)
                       (map id (filter (fun x => mem (id x) chain)
                                       (listings st))) r) r)
         /\ (id r <> id h -> c = change_set r).
Proof.
  intros H1. unfold settleChain, findChainHead.
  destruct (component_ends st None (id listing1)) as [chain C]. rewrite C.
  set (allInChain := filter (fun r => mem (id r) chain) (listings st)).
  destruct (newest allInChain) as [h|] eqn:N.
  - intros E. injection E as E.
    destruct (newest_spec _ N) as [Hh Hmax].
    apply filter_In in Hh. destruct Hh as [Hh Mh]. apply mem_In in Mh.
    destruct (rows_supersedeOthers (id h) allInChain st) as [R1 L1].
    set (st1 := supersedeOthers (id h) allInChain st) in *.
    assert (exists G,
               links st' = links (unsupersede (id h) st1)
               /\ listings st' = map G (listings (unsupersede (id h) st1))
               /\ forall r, G r = r
                            \/ (id r = id h /\ exists c, G r = setChangeSet c r))
      as [G [L3 [R3 HG]]].
    { destruct (rowById (unsupersede (id h) st1) (id h)) as [fresh|] eqn:Fr.
      - destruct (rows_mergeHistories fresh allInChain
                                      (unsupersede (id h) st1))
          as [L [G [R HG]]].
        assert (id fresh = id h) as Ef.
        { unfold rowById in Fr. apply find_some in Fr.
          destruct Fr as [_ Fr]. now apply String.eqb_eq in Fr. }
        exists G. subst st'. repeat split; [exact L | exact R |].
        intros r. rewrite <- Ef. apply HG.
      - exists (fun r => r). subst st'. rewrite map_id.
        repeat split. now left. }
    exists chain, h. eexists. repeat split.
    + exact Hh.
    + exact Mh.
    + intros r Hr Hc. apply Hmax. apply filter_In. split; [exact Hr|].
      now apply mem_In.
    + rewrite L3. cbn [unsupersede updateRows links]. exact L1.
    + rewrite R3. cbn [unsupersede updateRows listings]. rewrite R1.
      rewrite !map_map. reflexivity.
    + intros r. cbv beta. unfold settled, hide, is_id.
      fold allInChain. cbn [id setSuperseded].
      destruct (String.eqb (id r) (id h)) eqn:Erh.
      * rewrite andb_false_r. cbn [andb]. rewrite Erh.
        destruct (HG (setSuperseded false r)) as [->|[_ [c ->]]].
        -- exists (change_set r). split; [reflexivity|].
           apply String.eqb_eq in Erh. congruence.
        -- exists c. split; [reflexivity|].
           apply String.eqb_eq in Erh. congruence.
      * exists (change_set r). split; [|reflexivity].
        rewrite andb_true_r.
        destruct (mem (id r) (map id allInChain) && nonempty (id r)).
        -- cbn [id setSuperseded]. rewrite Erh.
           destruct (HG (setSuperseded true r)) as [->|[Ei _]];
             [reflexivity|].
           cbn [id setSuperseded] in Ei. apply String.eqb_neq in Erh.
           contradiction.
        -- rewrite Erh. destruct (HG r) as [->|[Ei _]];
             [now rewrite restore_row|].
           apply String.eqb_neq in Erh. contradiction.
  - exfalso. destruct (@rowById_key st _ H1) as [r [_ [Hr Er]]].
    assert (In r allInChain) as Ha.
    { apply filter_In. split; [exact Hr|]. apply mem_In. rewrite Er.
      apply (@component_reaches st None _ chain C). split; [reflexivity | constructor]. }
    destruct allInChain; [destruct Ha | discriminate].
Qed.


(** Joined by [previous_version_id] pointers, followed in both directions,
    and manual links: what the walk of [findChainHead] can reach. *)
Definition connected (st : Store) (a b : string) : Prop :=
  reaches st None a b.

Lemma component_connected (st : Store) (start : string) (chain : list string) :
  component st None start = Some chain ->
  forall x, In x chain <-> connected st start x.
Proof.
  intros C x. rewrite (@component_reaches st None start chain C x).
  unfold connected. cbn [excluded]. tauto.
Qed.

Lemma insertLink_spec (k : Link) (newerOfPair olderOfPair : Row) (st : Store) :
  links (insertLink k newerOfPair olderOfPair st) = links st ++ [k]
  /\ exists P,
       listings (insertLink k newerOfPair olderOfPair st)
       = map P (listings st)
       /\ forall r, id (P r) = id r
                    /\ (id r <> id newerOfPair -> P r = r).
Proof.
  unfold insertLink.
  destruct (negb (Str.truthy (previous_version_id newerOfPair)));
    cbn [updateRows listings links]; (split; [reflexivity|]).
  - eexists. split; [reflexivity|]. intros r. cbv beta. unfold is_id.
    destruct (String.eqb (id r) (id newerOfPair)) eqn:E.
    + split; [reflexivity|]. apply String.eqb_eq in E. contradiction.
    + split; reflexivity.
  - exists (fun r => r). rewrite map_id. repeat split.
Qed.

Lemma link_edge (st : Store) (k : Link) (x : string) :
  In x (map id (listings st)) -> In k (links st) -> touches x k = true ->
  In (other_end x k) (neighbours st x).
Proof.
  intros Hx Hk T. unfold neighbours, pushed.
  destruct (@rowById_key st x Hx) as [r [-> _]].
  rewrite !in_app_iff. right; right. rewrite filter_all.
  apply in_map. apply filter_In. now split.
Qed.

Lemma ordered_cases (a b : Row) :
  ordered a b = (a, b) \/ ordered a b = (b, a).
Proof.
  unfold ordered. destruct (leb (toNumber (id a)) (toNumber (id b))); auto.
Qed.

Lemma byAge_cases (a b : Row) : byAge a b = (a, b) \/ byAge a b = (b, a).
Proof.
  unfold byAge. destruct (dateOf b <=? dateOf a)%Z; auto.
Qed.

(** The stored pair joins the two listings, whichever comes first. *)
Lemma new_link_joins (listing1 listing2 : Row) (linkId : string)
  (userId : option string) (now : Z) :
  let (firstListing, secondListing) := ordered listing1 listing2 in
  let k := MkLink linkId (id firstListing) (id secondListing) userId now in
  touches (id listing1) k = true /\ other_end (id listing1) k = id listing2.
Proof.
  destruct (ordered_cases listing1 listing2) as [-> | ->];
    unfold touches, other_end; cbn [listing_id linked_listing_id].
  - rewrite String.eqb_refl. split; reflexivity.
  - rewrite String.eqb_refl, orb_true_r. split; [reflexivity|].
    destruct (String.eqb (id listing2) (id listing1)) eqn:E; [|reflexivity].
    apply String.eqb_eq in E. now symmetry.
Qed.

Lemma dateOf_retouched (c : Stored) (b : bool) (r : Row) :
  dateOf (setChangeSet c (setSuperseded b r)) = dateOf r.
Proof. reflexivity. Qed.

(** After a link was inserted: of the listings joined to [listing1], the
    newest one is visible and every other one hidden; the rest of the table
    is as it was. *)
Lemma createManualLink_settles (newLinkId : string) (now : Z)
  (a b : string) (userId : option string) (st : Store)
  (res : Result) (st' : Store) :
  keyed st ->
  createManualLink newLinkId now (Some a) (Some b) userId st
  = Some (res, st') ->
  success res = true -> alreadyExists res = false ->
  exists listing1 listing2 head,
    getListingByIdOrHash st a = Some listing1
    /\ getListingByIdOrHash st b = Some listing2
    /\ connected st' (id listing1) (id listing2)
    /\ In head (listings st')
    /\ connected st' (id listing1) (id head)
    /\ is_superseded head = false
    /\ (forall r, In r (listings st') ->
                  connected st' (id listing1) (id r) ->
                  (dateOf r <= dateOf head)%Z
                  /\ (r <> head -> is_superseded r = true))
    /\ (forall r, In r (listings st') ->
                  ~ connected st' (id listing1) (id r) ->
                  In r (listings st)).
Proof.
  intros [K1 K2] E S A. unfold createManualLink in E.
  destruct (negb (nonempty a) || negb (nonempty b));
    [injection E as <- _; discriminate|].
  destruct (String.eqb a b); [injection E as <- _; discriminate|].
  destruct (getListingByIdOrHash st a) as [l1|] eqn:G1;
    [|injection E as <- _; discriminate].
  destruct (getListingByIdOrHash st b) as [l2|] eqn:G2;
    [|injection E as <- _; discriminate].
  pose proof (new_link_joins l1 l2 newLinkId userId now) as J.
  destruct (ordered l1 l2) as [f s].
  destruct (find (is_link (id f) (id s)) (links st));
    [injection E as <- _; discriminate|].
  pose proof (byAge_cases l1 l2) as B.
  destruct (byAge l1 l2) as [n o].
  set (k := MkLink newLinkId (id f) (id s) userId now) in *.
  destruct (insertLink_spec k n o st) as [Lm [P [Rm HP]]].
  set (mid := insertLink k n o st) in *.
  destruct (settleChain l1 n o mid) as [st2|] eqn:SC; [|discriminate].
  injection E as _ <-.
  pose proof (getListingByIdOrHash_row _ _ G1) as In1.
  pose proof (getListingByIdOrHash_row _ _ G2) as In2.
  assert (map id (listings mid) = map id (listings st)) as Ids.
  { rewrite Rm, map_map. apply map_ext. intros r. apply HP. }
  assert (In (id l1) (map id (listings mid))) as M1
      by (rewrite Ids; now apply in_map).
  destruct (@settleChain_spec l1 n o mid st2 M1 SC)
    as [chain [h [F [C [Hh [Ch [Hmax [L2 [R2 HF]]]]]]]]].
  assert (quiet F) as QF.
  { intros r. destruct (HF r) as [c [-> _]]. split; reflexivity. }
  assert (component st2 None (id l1) = Some chain) as C2
      by (rewrite (@component_map F mid st2 QF R2 L2 None (id l1)); exact C).
  pose proof (@component_connected st2 (id l1) chain C2) as Conn.
  assert (forall r, In r (listings mid) -> In (id r) chain ->
                    mem (id r) (map id (filter (fun x => mem (id x) chain)
                                               (listings mid))) = true) as Mem.
  { intros r Hr Hc. apply mem_In. apply in_map. apply filter_In.
    split; [exact Hr | now apply mem_In]. }
  assert (In (id l2) chain) as Ch2.
  { apply (@component_reaches mid None (id l1) chain C).
    split; [reflexivity|]. destruct J as [T O].
    apply Relation_Operators.rt1n_trans with (id l2); [|constructor].
    split; [|reflexivity]. rewrite <- O. apply link_edge.
    - exact M1.
    - rewrite Lm. apply in_app_iff. right. now left.
    - exact T. }
  assert (In (id l1) chain) as Ch1.
  { apply (@component_reaches mid None (id l1) chain C).
    split; [reflexivity | constructor]. }
  exists l1, l2, (F h). repeat split.
  - apply Conn. exact Ch2.
  - rewrite R2. now apply in_map.
  - apply Conn. destruct (QF h) as [-> _]. exact Ch.
  - destruct (HF h) as [c [-> _]]. cbn [is_superseded setChangeSet setSuperseded].
    unfold settled. now rewrite String.eqb_refl.
  - rewrite R2 in H. apply in_map_iff in H. destruct H as [r0 [<- Hr0]].
    destruct (HF r0) as [c [-> _]]. destruct (HF h) as [c' [-> _]].
    rewrite !dateOf_retouched. apply Hmax; [exact Hr0|].
    apply Conn in H0. now destruct (QF r0) as [<- _].
  - intros Ne. rewrite R2 in H. apply in_map_iff in H.
    destruct H as [r0 [<- Hr0]]. apply Conn in H0.
    destruct (QF r0) as [Ei _]. rewrite Ei in H0.
    destruct (HF r0) as [c [-> _]].
    cbn [is_superseded setChangeSet setSuperseded]. unfold settled.
    destruct (String.eqb (id r0) (id h)) eqn:Eh.
    + exfalso. apply Ne. apply String.eqb_eq in Eh. f_equal.
      apply (same_key (listings mid)); try assumption.
      now rewrite Ids.
    + rewrite (Mem r0 Hr0 H0). cbn [andb].
      assert (nonempty (id r0) = true) as ->; [|reflexivity].
      rewrite Rm in Hr0. apply in_map_iff in Hr0.
      destruct Hr0 as [r1 [<- Hr1]]. destruct (HP r1) as [-> _].
      now apply K2.
  - intros r Hr Nc. rewrite R2 in Hr. apply in_map_iff in Hr.
    destruct Hr as [r0 [<- Hr0]].
    assert (~ In (id r0) chain) as N0.
    { intros Hc. apply Nc. apply Conn. now destruct (QF r0) as [-> _]. }
    destruct (HF r0) as [c [-> Hc]]. unfold settled.
    assert (id r0 <> id h) as Nh by (intros Eh; apply N0; now rewrite Eh).
    rewrite (Hc Nh). apply String.eqb_neq in Nh. rewrite Nh.
    assert (mem (id r0) (map id (filter (fun x => mem (id x) chain)
                                        (listings mid))) = false) as ->.
    { apply mem_not_In. intros Hm. apply in_map_iff in Hm.
      destruct Hm as [x [Ex Hx]]. apply filter_In in Hx.
      destruct Hx as [_ Hx]. apply mem_In in Hx. apply N0. now rewrite <- Ex. }
    cbn [andb]. rewrite restore_row.
    rewrite Rm in Hr0. apply in_map_iff in Hr0.
    destruct Hr0 as [r1 [<- Hr1]]. destruct (HP r1) as [Ei Keep].
    rewrite Ei in N0. rewrite Keep; [exact Hr1|].
    intros En. apply N0. rewrite En.
    destruct B as [B|B]; injection B as <- _; assumption.
Qed.


Lemma createManualLink_returns (newLinkId : string) (now : Z)
  (listingId linkedListingId userId : option string) (st : Store) :
  exists out,
    createManualLink newLinkId now listingId linkedListingId userId st
    = Some out.
Proof.
  unfold createManualLink.
  destruct listingId as [a|], linkedListingId as [b|]; try (eexists; reflexivity).
  destruct (negb (nonempty a) || negb (nonempty b)); [eexists; reflexivity|].
  destruct (String.eqb a b); [eexists; reflexivity|].
  destruct (getListingByIdOrHash st a) as [l1|]; [|eexists; reflexivity].
  destruct (getListingByIdOrHash st b) as [l2|]; [|eexists; reflexivity].
  destruct (ordered l1 l2) as [f s].
  destruct (find (is_link (id f) (id s)) (links st)); [eexists; reflexivity|].
  destruct (byAge l1 l2) as [n o]. unfold settleChain, findChainHead.
  match goal with |- context [component ?m None ?x] =>
    destruct (component_ends m None x) as [chain ->] end.
  destruct (newest _); eexists; reflexivity.
Qed.

Lemma Some_deleted (p : Link -> bool) (l : list Link) (k : Link) :
  In k l -> p k = true -> 0 < List.length (filter p l).
Proof.
  intros H T. assert (In k (filter p l)) as F by (apply filter_In; now split).
  destruct (filter p l); [destruct F | simpl; lia].
Qed.

Lemma unlink_spec (listing1 listing2 : Row) (st : Store) :
  exists st1 changes,
    unlink listing1 listing2 st = Some (st1, changes)
    /\ listings st1 = listings st
    /\ (changes = 0 -> links st1 = links st)
    /\ (0 < changes -> List.length (links st1) < List.length (links st)).
Proof.
  assert (forall p (l : list Link),
             List.length (filter p l) = 0 ->
             filter (fun k => negb (p k)) l = l) as Keep.
  { intros p l. induction l as [|k l IH]; [reflexivity|]. simpl.
    destruct (p k); simpl; [discriminate|]. intros E. now rewrite IH. }
  assert (forall p (l : list Link),
             0 < List.length (filter p l) ->
             List.length (filter (fun k => negb (p k)) l) < List.length l)
    as Drop.
  { intros p l. induction l as [|k l IH]; simpl; [lia|].
    pose proof (filter_length_le (fun k => negb (p k)) l).
    destruct (p k); simpl; [lia|]. intros E. specialize (IH E). lia. }
  unfold unlink. destruct (ordered listing1 listing2) as [f s].
  unfold deleteLinks.
  set (direct := is_link (id f) (id s)).
  destruct (List.length (filter direct (links st)) =? 0) eqn:Z.
  - apply Nat.eqb_eq in Z. unfold getChainIdsExcluding.
    match goal with |- context [component ?m ?e ?x] =>
      destruct (component_ends m e x) as [chain ->] end.
    destruct (bridgingLink _ _ chain) as [link|] eqn:B.
    + eexists; eexists. split; [reflexivity|]. cbn [listings links].
      rewrite (Keep direct _ Z).
      unfold bridgingLink in B. apply find_some in B.
      destruct B as [B _]. cbn [links] in B. rewrite (Keep direct _ Z) in B.
      apply filter_In in B. destruct B as [B _].
      pose proof (Some_deleted (fun k => String.eqb (link_id k) (link_id link))
                               (links st) link B (String.eqb_refl _)) as Hl.
      repeat split; [intros E; lia | intros _; now apply Drop].
    + eexists; eexists. split; [reflexivity|]. cbn [listings links].
      repeat split; [intros _; now apply Keep | lia].
  - apply Nat.eqb_neq in Z. eexists; eexists. split; [reflexivity|].
    cbn [listings links]. repeat split; [lia|]. intros _. apply Drop. lia.
Qed.

Lemma detach_spec (id1 id2 : string) (st : Store) :
  exists st' Q,
    detach id1 id2 st = Some st'
    /\ links st' = links st
    /\ listings st' = map Q (listings st)
    /\ forall r, id (Q r) = id r
                 /\ (id r = id2 -> is_superseded (Q r) = false)
                 /\ (id r <> id2 -> Q r = r).
Proof.
  unfold detach.
  set (prevId2 := match getListingByIdOrHash st id2 with
                  | Some fresh2 => previous_version_id fresh2
                  | None => None
                  end).
  assert (forall r, id r <> id2 -> is_id id2 r = false) as Off
      by (intros r N; now apply String.eqb_neq).
  assert (forall r, id r = id2 -> is_id id2 r = true) as On
      by (intros r N; now apply String.eqb_eq).
  destruct (Str.truthy prevId2).
  - unfold getChainIdsExcluding.
    destruct (component_ends st (Some id2) id1) as [chain ->].
    destruct (match prevId2 with Some p => mem p chain | None => false end).
    + eexists; eexists. split; [reflexivity|].
      cbn [unsupersede updateRows listings links]. rewrite map_map.
      repeat split; cbv beta.
      * unfold is_id. cbn [id setPrevious].
        destruct (String.eqb (id r) id2) eqn:E; cbn [id setPrevious];
          rewrite E; reflexivity.
      * intros E. rewrite (On r E). cbn [id setPrevious is_id].
        unfold is_id. cbn [id setPrevious]. fold (is_id id2 r).
        now rewrite (On r E).
      * intros N. now rewrite (Off r N), (Off r N).
    + eexists; eexists. split; [reflexivity|].
      cbn [unsupersede updateRows listings links].
      repeat split; cbv beta.
      * now destruct (is_id id2 r).
      * intros E. now rewrite (On r E).
      * intros N. now rewrite (Off r N).
  - eexists; eexists. split; [reflexivity|].
    cbn [unsupersede updateRows listings links].
    repeat split; cbv beta.
    * now destruct (is_id id2 r).
    * intros E. now rewrite (On r E).
    * intros N. now rewrite (Off r N).
Qed.

Lemma removeManualLink_returns (listingId linkedListingId : option string)
  (st : Store) :
  exists out, removeManualLink listingId linkedListingId st = Some out.
Proof.
  unfold removeManualLink.
  destruct listingId as [a|], linkedListingId as [b|]; try (eexists; reflexivity).
  destruct (negb (nonempty a) || negb (nonempty b)); [eexists; reflexivity|].
  destruct (getListingByIdOrHash st a) as [l1|]; [|eexists; reflexivity].
  destruct (getListingByIdOrHash st b) as [l2|]; [|eexists; reflexivity].
  destruct (unlink_spec l1 l2 st) as [st1 [changes [-> _]]].
  destruct (0 <? changes); [|eexists; reflexivity].
  destruct (detach_spec (id l1) (id l2) st1) as [st2 [Q [-> _]]].
  eexists; reflexivity.
Qed.

(** A removal makes [listing2] visible and changes no other flag. *)
Lemma removeManualLink_detaches (a b : string) (st : Store)
  (res : Result) (st' : Store) :
  removeManualLink (Some a) (Some b) st = Some (res, st') ->
  removed res = Some true ->
  exists listing2,
    getListingByIdOrHash st b = Some listing2
    /\ List.length (links st') < List.length (links st)
    /\ forall r, In r (listings st') ->
                 if String.eqb (id r) (id listing2)
                 then is_superseded r = false
                 else In r (listings st).
Proof.
  unfold removeManualLink.
  destruct (negb (nonempty a) || negb (nonempty b));
    [intros E; injection E as <- _; discriminate|].
  destruct (getListingByIdOrHash st a) as [l1|];
    [|intros E; injection E as <- _; discriminate].
  destruct (getListingByIdOrHash st b) as [l2|];
    [|intros E; injection E as <- _; discriminate].
  destruct (unlink_spec l1 l2 st) as [st1 [changes [-> [R1 [_ L1]]]]].
  destruct (0 <? changes) eqn:Pos;
    [|intros E; injection E as <- _; discriminate].
  apply Nat.ltb_lt in Pos.
  destruct (detach_spec (id l1) (id l2) st1) as [st2 [Q [-> [L2 [R2 HQ]]]]].
  intros E _. injection E as _ <-. exists l2.
  repeat split; [rewrite L2; now apply L1|].
  intros r Hr. rewrite R2, R1 in Hr. apply in_map_iff in Hr.
  destruct Hr as [r0 [<- Hr0]]. destruct (HQ r0) as [Ei [On Off]].
  rewrite Ei. destruct (String.eqb (id r0) (id l2)) eqn:E.
  - apply On. now apply String.eqb_eq.
  - rewrite Off; [exact Hr0 | now apply String.eqb_neq].
Qed.

(** Whether an argument names a stored listing. *)
Definition found (st : Store) (x : option string) : bool :=
  match x with
  | Some s => match getListingByIdOrHash st s with
              | Some _ => true
              | None => false
              end
  | None => false
  end.


(** The visible listings among those named by [chain]. *)
Definition visibleIn (st : Store) (chain : list string) : list string :=
  map id (filter (fun r => mem (id r) chain && negb (is_superseded r))
                 (listings st)).

(** On a store whose ids are unique and non-empty, [createManualLink]
    returns, and when it inserts a link it leaves, among the listings joined
    to [listing1] by [previous_version_id] pointers and manual links,
    exactly the newest one visible ([is_superseded = 0]) and every other one
    hidden, and leaves the rows outside that chain as they were. *)
Theorem createManualLink_leaves_one_visible_head (newLinkId : string)
  (now : Z) (userId : option string) (a b : string) (st : Store) :
  keyed st ->
  (exists out,
      createManualLink newLinkId now (Some a) (Some b) userId st = Some out)
  /\ (forall res st',
         createManualLink newLinkId now (Some a) (Some b) userId st
         = Some (res, st') ->
         success res = true -> alreadyExists res = false ->
         exists listing1 listing2 head,
           getListingByIdOrHash st a = Some listing1
           /\ getListingByIdOrHash st b = Some listing2
           /\ connected st' (id listing1) (id listing2)
           /\ In head (listings st')
           /\ connected st' (id listing1) (id head)
           /\ is_superseded head = false
           /\ (forall r, In r (listings st') ->
                         connected st' (id listing1) (id r) ->
                         (dateOf r <= dateOf head)%Z
                         /\ (r <> head -> is_superseded r = true))
           /\ (forall r, In r (listings st') ->
                         ~ connected st' (id listing1) (id r) ->
                         In r (listings st))).
Proof.
  intros K. split; [apply createManualLink_returns|].
  intros res st' E S A.
  exact (@createManualLink_settles _ _ _ _ _ _ _ _ K E S A).
Qed.

(** C8, as amended: when an argument names no stored listing, both
    operations return a result with [success: false] and leave the store as
    it is.  [createManualLink] always adds an [error] message;
    [removeManualLink] adds one only when an identifier is empty, and
    otherwise returns [{ success: false, removed: false }]. *)
Theorem missing_listing_results (newLinkId : string) (now : Z)
  (userId listingId linkedListingId : option string) (st : Store) :
  found st listingId && found st linkedListingId = false ->
  (exists message,
      createManualLink newLinkId now listingId linkedListingId userId st
      = Some (failure message, st))
  /\ removeManualLink listingId linkedListingId st
     = Some (if Str.truthy listingId && Str.truthy linkedListingId
             then MkResult false None None false (Some false)
             else failure "Both listing IDs are required",
             st).
Proof.
  unfold found, createManualLink, removeManualLink, Str.truthy.
  destruct listingId as [a|]; [|intros _; split; [eexists|]; reflexivity].
  destruct linkedListingId as [b|];
    [|intros _; rewrite andb_false_r; split; [eexists|]; reflexivity].
  destruct (nonempty a); cbn [negb orb andb];
    [|intros _; split; [eexists|]; reflexivity].
  destruct (nonempty b); cbn [negb orb andb];
    [|intros _; split; [eexists|]; reflexivity].
  destruct (getListingByIdOrHash st a), (getListingByIdOrHash st b);
    try discriminate; intros _;
    (split; [destruct (String.eqb a b); eexists|]; reflexivity).
Qed.

(** Two listings, both visible and not linked. *)
Definition older : Row :=
  MkRow "1" "a1" "job" (Num (ofZ 100)) None (Some 10%Z) None None None
        false false NoText.

Definition newer : Row :=
  MkRow "2" "b2" "job" (Num (ofZ 120)) None (Some 20%Z) None None None
        false false NoText.

Definition twoListings : Store := MkStore [older; newer] [].

Definition bothPrices : Stored :=
  Json (Changes (Some [Entry (ofZ 10) (Num (ofZ 100));
                       Entry (ofZ 20) (Num (ofZ 120))])).

(** The store after [createManualLink('1', '2')]. *)
Definition afterLink : Store :=
  MkStore [setSuperseded true older;
           setChangeSet bothPrices (setPrevious (Some "1") newer)]
          [MkLink "f00d" "1" "2" None 30%Z].

(** The store after [removeManualLink('1', '2')] on [afterLink]. *)
Definition afterUnlink : Store :=
  MkStore [setSuperseded true older; setChangeSet bothPrices newer] [].

(** The store after [removeManualLink('2', '1')] on [afterLink]. *)
Definition afterReverseUnlink : Store :=
  MkStore [older; setChangeSet bothPrices (setPrevious (Some "1") newer)] [].

Lemma twoListings_keyed : keyed twoListings.
Proof.
  split.
  - repeat constructor; simpl; intuition discriminate.
  - intros r [<-|[<-|[]]]; reflexivity.
Defined.

(** C1: [removeManualLink] does not undo the version chain.  Linking two
    visible listings and removing the link again leaves the older listing
    hidden although nothing is joined to it any more, so that its component
    has no visible listing; removing the link with the arguments exchanged
    leaves both listings visible although the newer one still points to the
    older, so that their component has two. *)
Lemma removal_leaves_no_visible_head :
  createManualLink "f00d" 30 (Some "1") (Some "2") None twoListings
  = Some (MkResult true None (Some "f00d") false None, afterLink)
  /\ removeManualLink (Some "1") (Some "2") afterLink
     = Some (MkResult true None None false (Some true), afterUnlink)
  /\ component afterUnlink None "1" = Some ["1"]
  /\ visibleIn afterUnlink ["1"] = []
  /\ removeManualLink (Some "2") (Some "1") afterLink
     = Some (MkResult true None None false (Some true), afterReverseUnlink)
  /\ component afterReverseUnlink None "1" = Some ["1"; "2"]
  /\ visibleIn afterReverseUnlink ["1"; "2"] = ["1"; "2"].
Proof.
  repeat split; vm_compute; reflexivity.
Qed.

Lemma createManualLink_leaves_one_visible_head_witness :
  keyed twoListings
  /\ exists listing1 listing2 head,
       getListingByIdOrHash twoListings "1" = Some listing1
       /\ getListingByIdOrHash twoListings "2" = Some listing2
       /\ connected afterLink (id listing1) (id listing2)
       /\ In head (listings afterLink)
       /\ connected afterLink (id listing1) (id head)
       /\ is_superseded head = false
       /\ (forall r, In r (listings afterLink) ->
                     connected afterLink (id listing1) (id r) ->
                     (dateOf r <= dateOf head)%Z
                     /\ (r <> head -> is_superseded r = true))
       /\ (forall r, In r (listings afterLink) ->
                     ~ connected afterLink (id listing1) (id r) ->
                     In r (listings twoListings)).
Proof.
  split; [exact twoListings_keyed|].
  destruct (createManualLink_leaves_one_visible_head
              "f00d" 30 None "1" "2" twoListings_keyed) as [_ Create].
  apply (Create (MkResult true None (Some "f00d") false None) afterLink);
    reflexivity.
Defined.

(** C8 fails for removals: with a listing that is not stored,
    [removeManualLink] returns [{ success: false, removed: false }], which
    has no [error] field. *)
Lemma removal_of_missing_listing_has_no_error :
  found twoListings (Some "9") = false
  /\ removeManualLink (Some "2") (Some "9") twoListings
     = Some ({| success := false; error := None; linkId := None;
                alreadyExists := false; removed := Some false |},
             twoListings).
Proof.
  split; reflexivity.
Qed.

Lemma missing_listing_results_witness :
  found twoListings (Some "2") && found twoListings (Some "9") = false
  /\ (exists message,
         createManualLink "f00d" 30 (Some "2") (Some "9") None twoListings
         = Some (failure message, twoListings))
  /\ removeManualLink (Some "2") (Some "9") twoListings
     = Some (MkResult false None None false (Some false), twoListings).
Proof.
  split; [reflexivity|].
  apply (missing_listing_results "f00d" 30 None (Some "2") (Some "9")
                                 twoListings).
  reflexivity.
Defined.

End ManualFacts.

(** ** Batch-aware version detection *)

Module DetectorFacts.

Import Js Str Val Data VersionDetector.
Local Open Scope string_scope.
Local Open Scope list_scope.
Local Open Scope nat_scope.

(** *** Objects changed in place *)

Lemma modify_length (i : nat) (f : Listing -> Listing) (heap : list Listing) :
  List.length (modify i f heap) = List.length heap.
Proof.
  revert i. induction heap as [|l heap IH]; intros [|i]; simpl; auto.
Qed.

Lemma modify_same (i : nat) (f : Listing -> Listing) (heap : list Listing) :
  nth_error (modify i f heap) i = option_map f (nth_error heap i).
Proof.
  revert i. induction heap as [|l heap IH]; intros [|i]; simpl; auto.
Qed.

Lemma modify_other (i j : nat) (f : Listing -> Listing) (heap : list Listing) :
  i <> j -> nth_error (modify i f heap) j = nth_error heap j.
Proof.
  revert i j. induction heap as [|l heap IH]; intros [|i] [|j] N; simpl; auto;
    try congruence.
Qed.

(** What no step of the detection changes on a listing. *)
Definition anchor (l : Listing) : option string * value * option string :=
  (id l, publishedAt l, fuzzyIdentity l).

Definition anchored (heap heap' : list Listing) : Prop :=
  forall j, option_map anchor (nth_error heap' j)
            = option_map anchor (nth_error heap j).

Lemma anchored_refl (heap : list Listing) : anchored heap heap.
Proof. intros j. reflexivity. Qed.

Lemma anchored_trans (h1 h2 h3 : list Listing) :
  anchored h1 h2 -> anchored h2 h3 -> anchored h1 h3.
Proof. intros A B j. now rewrite B, A. Qed.

Lemma modify_anchored (i : nat) (f : Listing -> Listing) (heap : list Listing) :
  (forall l, anchor (f l) = anchor l) -> anchored heap (modify i f heap).
Proof.
  intros H j. destruct (Nat.eq_dec i j) as [<-|N].
  - rewrite modify_same. destruct (nth_error heap i); simpl; [|reflexivity].
    now rewrite H.
  - now rewrite modify_other.
Qed.

(** *** The groups *)

Section Groups.

Variable shortest : Qc -> string.

Local Abbreviation fuzzyOf := (fuzzyIdentityOf shortest).

Definition refsOf (groups : list (string * list nat)) : list nat :=
  List.concat (map snd groups).

(** Every position in a group lies below [bound] and holds a listing with
    the fuzzy identity of the group. *)
Definition placed (heap : list Listing) (bound : nat)
  (groups : list (string * list nat)) : Prop :=
  forall key refs r, In (key, refs) groups -> In r refs ->
    r < bound
    /\ nonempty key = true
    /\ exists l, nth_error heap r = Some l /\ fuzzyOf l = Some key.

Lemma refsOf_addToGroup (key : string) (ref : nat)
  (groups : list (string * list nat)) :
  Permutation (ref :: refsOf groups) (refsOf (addToGroup key ref groups)).
Proof.
  unfold refsOf. induction groups as [|[k refs] rest IH]; simpl.
  - reflexivity.
  - destruct (String.eqb k key); simpl.
    + rewrite <- app_assoc. simpl. apply Permutation_middle.
    + rewrite <- IH. apply Permutation_middle.
Qed.

Lemma in_addToGroup (key : string) (ref : nat)
  (groups : list (string * list nat)) (k : string) (refs : list nat) :
  In (k, refs) (addToGroup key ref groups) ->
  In (k, refs) groups
  \/ k = key /\ (refs = [ref]
                 \/ exists old, In (k, old) groups /\ refs = old ++ [ref]).
Proof.
  induction groups as [|[k0 refs0] rest IH]; simpl.
  - intros [E|[]]. injection E as <- <-. right. split; [reflexivity|now left].
  - destruct (String.eqb k0 key) eqn:E.
    + apply String.eqb_eq in E. subst k0. intros [H|H].
      * injection H as <- <-. right. split; [reflexivity|]. right.
        exists refs0. split; [now left | reflexivity].
      * left. now right.
    + intros [H|H]; [left; now left|].
      destruct (IH H) as [H1|[-> [H1|[old [H1 H2]]]]].
      * left. now right.
      * right. split; [reflexivity | now left].
      * right. split; [reflexivity|]. right. exists old.
        split; [now right | exact H2].
Qed.

Lemma keys_addToGroup (key : string) (ref : nat)
  (groups : list (string * list nat)) :
  NoDup (map fst groups) -> NoDup (map fst (addToGroup key ref groups)).
Proof.
  induction groups as [|[k refs] rest IH]; simpl; intros N.
  - repeat constructor. intros [].
  - destruct (String.eqb k key) eqn:E; simpl; [exact N|].
    apply NoDup_cons_iff in N. destruct N as [N1 N2].
    constructor; [|now apply IH].
    intros H. apply in_map_iff in H. destruct H as [[k' refs'] [Ek H]].
    simpl in Ek. subst k'. destruct (in_addToGroup _ _ _ _ _ H) as [H1|[-> _]].
    + apply N1. apply in_map_iff. exists (k, refs'). now split.
    + now rewrite String.eqb_refl in E.
Qed.

(** The groups are disjoint sets of positions under distinct keys. *)
Definition grouped (heap : list Listing) (groups : list (string * list nat))
  : Prop :=
  placed heap (List.length heap) groups
  /\ NoDup (refsOf groups) /\ NoDup (map fst groups).

Lemma groupFrom_placed (heap : list Listing) (listings : list Listing) :
  forall before groups,
    heap = before ++ listings ->
    placed heap (List.length before) groups ->
    NoDup (refsOf groups) -> NoDup (map fst groups) ->
    grouped heap (groupFrom shortest (List.length before) listings groups).
Proof.
  unfold grouped.
  induction listings as [|l rest IH]; intros before groups E P N K; simpl.
  - subst heap. rewrite app_nil_r in *. auto.
  - assert (heap = (before ++ [l]) ++ rest) as E'
        by (rewrite <- app_assoc; exact E).
    assert (List.length (before ++ [l]) = S (List.length before)) as L
        by (rewrite length_app; simpl; lia).
    assert (nth_error heap (List.length before) = Some l) as Here.
    { rewrite E, nth_error_app2 by lia. now rewrite Nat.sub_diag. }
    rewrite <- L. apply IH; [exact E'| | |].
    + rewrite L. destruct (fuzzyOf l) as [key|] eqn:F;
        [destruct (nonempty key) eqn:T|].
      * intros k refs r Hk Hr.
        destruct (in_addToGroup _ _ _ _ _ Hk) as [H|[-> [->|[old [H ->]]]]].
        -- destruct (P k refs r H Hr) as [B R]. split; [lia | exact R].
        -- destruct Hr as [<-|[]]. split; [lia|]. split; [exact T|].
           exists l. now split.
        -- apply in_app_iff in Hr. destruct Hr as [Hr|[<-|[]]].
           ++ destruct (P key old r H Hr) as [B R]. split; [lia | exact R].
           ++ split; [lia|]. split; [exact T|]. exists l. now split.
      * intros k refs r Hk Hr. destruct (P k refs r Hk Hr) as [B R].
        split; [lia | exact R].
      * intros k refs r Hk Hr. destruct (P k refs r Hk Hr) as [B R].
        split; [lia | exact R].
    + destruct (fuzzyOf l) as [key|]; [destruct (nonempty key)|];
        try exact N.
      apply (Permutation_NoDup (refsOf_addToGroup key _ groups)).
      constructor; [|exact N]. intros H. unfold refsOf in H.
      apply in_concat in H. destruct H as [members [H1 H2]].
      apply in_map_iff in H1. destruct H1 as [[k members'] [E1 H1]].
      simpl in E1. subst members'. destruct (P k members _ H1 H2) as [B _].
      lia.
    + destruct (fuzzyOf l) as [key|]; [destruct (nonempty key)|];
        try exact K. now apply keys_addToGroup.
Qed.

Lemma groups_placed (heap : list Listing) :
  grouped heap (groupByFuzzyIdentity shortest heap).
Proof.
  apply (@groupFrom_placed heap heap [] []);
    [reflexivity | intros k members r [] | constructor | constructor].
Qed.

End Groups.


(** *** The steps of the loop *)

Definition idAt (heap : list Listing) (ref : nat) : option string :=
  match nth_error heap ref with
  | Some l => id l
  | None => None
  end.

Lemma idAt_anchored (heap heap' : list Listing) (ref : nat) :
  anchored heap heap' -> idAt heap' ref = idAt heap ref.
Proof.
  intros A. specialize (A ref). unfold idAt.
  destruct (nth_error heap' ref), (nth_error heap ref); simpl in A;
    try discriminate; [|reflexivity].
  unfold anchor in A. congruence.
Qed.

Lemma nth_error_last (A : Type) (l : list A) (d : A) :
  l <> [] -> nth_error l (List.length l - 1) = Some (last l d).
Proof.
  induction l as [|a [|b l] IH]; intros N; [congruence | reflexivity|].
  specialize (IH ltac:(discriminate)). cbn [List.length] in *.
  replace (S (S (List.length l)) - 1) with (S (S (List.length l) - 1)) by lia.
  exact IH.
Qed.

Section Steps.

Variable shortest : Qc -> string.
Variable Date_now : nat -> Z.

Lemma markChain_step (a b : nat) (t : list nat) (heap : list Listing) :
  markChain (a :: b :: t) heap
  = markChain (b :: t)
              (modify a (setBatchPreviousHash (idAt heap b)) heap).
Proof. reflexivity. Qed.

Lemma markChain_anchored (refs : list nat) :
  forall heap, anchored heap (markChain refs heap).
Proof.
  induction refs as [|a [|b t] IH]; intros heap;
    try apply anchored_refl.
  rewrite markChain_step. eapply anchored_trans; [|apply IH].
  apply modify_anchored. reflexivity.
Qed.

(** Only a position that has a successor in [refs] is marked. *)
Lemma markChain_other (refs : list nat) (j : nat) :
  forall heap,
    (forall k, nth_error refs k = Some j -> nth_error refs (S k) = None) ->
    nth_error (markChain refs heap) j = nth_error heap j.
Proof.
  induction refs as [|a [|b t] IH]; intros heap H; try reflexivity.
  rewrite markChain_step, IH.
  - apply modify_other. intros ->. specialize (H 0 eq_refl). discriminate.
  - intros k Hk. exact (H (S k) Hk).
Qed.

Lemma markChain_pair (refs : list nat) :
  forall heap k newer older l,
    NoDup refs ->
    nth_error refs k = Some newer -> nth_error refs (S k) = Some older ->
    nth_error heap newer = Some l ->
    nth_error (markChain refs heap) newer
    = Some (setBatchPreviousHash (idAt heap older) l).
Proof.
  induction refs as [|a [|b t] IH]; intros heap k newer older l N Hn Ho Hl.
  - destruct k; discriminate.
  - destruct k as [|[|k]]; discriminate.
  - rewrite markChain_step. apply NoDup_cons_iff in N. destruct N as [N1 N2].
    destruct k as [|k].
    + injection Hn as <-. injection Ho as <-. rewrite markChain_other.
      * rewrite modify_same, Hl. reflexivity.
      * intros k Hk. exfalso. apply N1. exact (nth_error_In _ _ Hk).
    + cbn [nth_error] in Hn, Ho.
      assert (a <> newer) as Na
          by (intros ->; apply N1; exact (nth_error_In _ _ Hn)).
      rewrite (IH _ k newer older l N2 Hn Ho).
      * f_equal. f_equal. apply idAt_anchored. apply modify_anchored.
        reflexivity.
      * rewrite modify_other; assumption.
Qed.

Lemma linked_anchor (now : Z) (l : Listing) (e : Storage.Row) :
  anchor (linked now l e) = anchor l.
Proof. reflexivity. Qed.

Lemma linkListingToExisting_other (i j : nat) (e : Storage.Row) (s : State) :
  i <> j ->
  nth_error (batch (linkListingToExisting Date_now i e s)) j
  = nth_error (batch s) j.
Proof.
  intros N. unfold linkListingToExisting.
  destruct (nth_error (batch s) i); [|reflexivity]. cbn [batch].
  now apply modify_other.
Qed.

Lemma linkListingToExisting_same (i : nat) (e : Storage.Row) (s : State) :
  nth_error (batch (linkListingToExisting Date_now i e s)) i
  = option_map (fun l => linked (Date_now (reads s)) l e)
               (nth_error (batch s) i).
Proof.
  unfold linkListingToExisting.
  destruct (nth_error (batch s) i) eqn:E; cbn [batch].
  - now rewrite modify_same, E.
  - now rewrite E.
Qed.

Lemma linkListingToExisting_anchored (i : nat) (e : Storage.Row) (s : State) :
  anchored (batch s) (batch (linkListingToExisting Date_now i e s)).
Proof.
  unfold linkListingToExisting.
  destruct (nth_error (batch s) i); [|apply anchored_refl]. cbn [batch].
  apply modify_anchored. intros x. apply linked_anchor.
Qed.

Variable dbMatches : string -> option Storage.Row.

Lemma linkToMatch_other (key : string) (i j : nat) (s : State) :
  i <> j ->
  nth_error (batch (linkToMatch Date_now dbMatches key i s)) j
  = nth_error (batch s) j.
Proof.
  intros N. unfold linkToMatch. destruct (dbMatches key); [|reflexivity].
  now apply linkListingToExisting_other.
Qed.

Lemma linkToMatch_anchored (key : string) (i : nat) (s : State) :
  anchored (batch s) (batch (linkToMatch Date_now dbMatches key i s)).
Proof.
  unfold linkToMatch. destruct (dbMatches key); [|apply anchored_refl].
  apply linkListingToExisting_anchored.
Qed.

(** A group leaves every listing outside it alone. *)
Lemma processGroup_other (s : State) (key : string) (refs : list nat)
  (j : nat) :
  ~ In j refs ->
  nth_error (batch (processGroup Date_now dbMatches s (key, refs))) j
  = nth_error (batch s) j.
Proof.
  intros N. unfold processGroup.
  set (sorted := sort (newestFirst (batch s)) refs).
  assert (~ In j sorted) as Ns.
  { intros H. apply N.
    exact (Permutation_in
             j (Permutation_sym
                  (SortFacts.sort_perm (newestFirst (batch s)) refs)) H). }
  assert (nth_error (markChain sorted (batch s)) j = nth_error (batch s) j)
    as M.
  { apply markChain_other. intros k Hk. exfalso. apply Ns.
    exact (nth_error_In _ _ Hk). }
  destruct refs as [|a [|b t]].
  - exact M.
  - apply linkToMatch_other. intros ->. apply N. now left.
  - destruct sorted as [|c u] eqn:Es; [exact M|].
    rewrite linkToMatch_other; [exact M|].
    intros E. apply Ns. rewrite <- E. rewrite <- Es.
    assert (sorted <> []) as Ne by (rewrite Es; discriminate).
    rewrite Es in *. apply (nth_error_In _ (List.length (c :: u) - 1)).
    now apply nth_error_last.
Qed.

Lemma processGroup_anchored (s : State) (group : string * list nat) :
  anchored (batch s) (batch (processGroup Date_now dbMatches s group)).
Proof.
  destruct group as [key refs]. unfold processGroup.
  destruct refs as [|a [|b t]].
  - apply markChain_anchored.
  - apply linkToMatch_anchored.
  - destruct (sort _ _) eqn:Es.
    + cbn [batch markChain]. apply anchored_refl.
    + rewrite <- Es. eapply anchored_trans; [|apply linkToMatch_anchored].
      cbn [batch]. apply markChain_anchored.
Qed.

Lemma groups_anchored (groups : list (string * list nat)) :
  forall s,
    anchored (batch s)
             (batch (fold_left (processGroup Date_now dbMatches) groups s)).
Proof.
  induction groups as [|g rest IH]; intros s; [apply anchored_refl|].
  cbn [fold_left]. eapply anchored_trans; [|apply IH].
  apply processGroup_anchored.
Qed.

Lemma groups_other (groups : list (string * list nat)) (j : nat) :
  forall s,
    (forall key refs, In (key, refs) groups -> ~ In j refs) ->
    nth_error (batch (fold_left (processGroup Date_now dbMatches) groups s)) j
    = nth_error (batch s) j.
Proof.
  induction groups as [|[key refs] rest IH]; intros s H; [reflexivity|].
  cbn [fold_left]. rewrite IH.
  - apply processGroup_other. apply (H key). now left.
  - intros k members Hk. apply (H k). now right.
Qed.


Lemma last_position (refs : list nat) (k : nat) :
  NoDup refs -> nth_error refs k = Some (last refs 0) ->
  nth_error refs (S k) = None.
Proof.
  intros N H. destruct refs as [|a t]; [destruct k; discriminate|].
  assert (a :: t <> []) as Ne by discriminate.
  pose proof (nth_error_last 0 Ne) as L.
  assert (k = List.length (a :: t) - 1) as ->.
  { apply (proj1 (NoDup_nth_error (a :: t)) N).
    - apply nth_error_Some. congruence.
    - congruence. }
  apply nth_error_None. simpl. lia.
Qed.

Section Group.

Variables (s : State) (key : string) (refs : list nat).
Hypothesis several : 2 <= List.length refs.
Hypothesis distinct : NoDup refs.

Local Abbreviation sorted := (sort (newestFirst (batch s)) refs).
Local Abbreviation after :=
  (processGroup Date_now dbMatches s (key, refs)).

Lemma sorted_distinct : NoDup sorted.
Proof.
  exact (Permutation_NoDup (SortFacts.sort_perm _ refs) distinct).
Qed.

Lemma sorted_several : 2 <= List.length sorted.
Proof.
  now rewrite <- (Permutation_length (SortFacts.sort_perm _ refs)).
Qed.

Lemma processGroup_several :
  after = linkToMatch Date_now dbMatches key (last sorted 0)
                      (MkState (markChain sorted (batch s)) (db s) (reads s)).
Proof.
  pose proof sorted_several as L. unfold processGroup.
  destruct refs as [|a [|b t]]; [simpl in several; lia..|].
  destruct (sort _ (a :: b :: t)); [simpl in L; lia | reflexivity].
Qed.

(** Each member but the last is marked with the [id] of its successor and
    is otherwise untouched. *)
Lemma processGroup_marks (k newer older : nat) (l : Listing) :
  nth_error sorted k = Some newer -> nth_error sorted (S k) = Some older ->
  nth_error (batch s) newer = Some l ->
  nth_error (batch after) newer
  = Some (setBatchPreviousHash (idAt (batch s) older) l).
Proof.
  intros Hn Ho Hl. rewrite processGroup_several.
  rewrite linkToMatch_other.
  - cbn [batch]. exact (markChain_pair _ _ sorted_distinct Hn Ho Hl).
  - intros E. rewrite <- E in Hn.
    rewrite (last_position _ sorted_distinct Hn) in Ho. discriminate.
Qed.

(** The last member gets no marker; it is linked to the match in the
    tables, if there is one. *)
Lemma processGroup_oldest (l : Listing) :
  nth_error (batch s) (last sorted 0) = Some l ->
  nth_error (batch after) (last sorted 0)
  = Some match dbMatches key with
         | Some dbMatch => linked (Date_now (reads s)) l dbMatch
         | None => l
         end.
Proof.
  intros Hl. rewrite processGroup_several.
  assert (nth_error (markChain sorted (batch s)) (last sorted 0) = Some l)
    as M.
  { rewrite markChain_other; [exact Hl|].
    intros k Hk. exact (last_position _ sorted_distinct Hk). }
  unfold linkToMatch. destruct (dbMatches key) as [e|]; [|exact M].
  rewrite linkListingToExisting_same. cbn [batch reads]. now rewrite M.
Qed.

End Group.

(** [detectVersion] of one listing leaves the others and the anchors
    alone. *)
Lemma detectVersion_anchor (st : Storage.Store) (jobId : string) (now : Z)
  (l : Listing) :
  anchor (fst (detectVersion shortest st jobId now l)) = anchor l.
Proof.
  unfold detectVersion. destruct (strictIdentity shortest l) as [p|];
    [|reflexivity].
  destruct (negb (nonempty p)); [reflexivity|].
  destruct (Storage.findListingByPropertyIdentity _ _ _ _); reflexivity.
Qed.

Lemma detectVersionAt_other (jobId : string) (i j : nat) (st : State) :
  i <> j ->
  nth_error (batch (detectVersionAt shortest Date_now jobId i st)) j
  = nth_error (batch st) j.
Proof.
  intros N. unfold detectVersionAt.
  destruct (nth_error (batch st) i); [|reflexivity].
  destruct (detectVersion _ _ _ _ _). cbn [batch]. now apply modify_other.
Qed.

Lemma detect_others (jobId : string) (positions : list nat) (j : nat) :
  forall st,
    ~ In j positions ->
    nth_error
      (batch (fold_left (fun st i => detectVersionAt shortest Date_now jobId i st)
                        positions st)) j
    = nth_error (batch st) j.
Proof.
  induction positions as [|i rest IH]; intros st N; [reflexivity|].
  cbn [fold_left]. rewrite IH by (intros H; apply N; now right).
  apply detectVersionAt_other. intros ->. apply N. now left.
Qed.

End Steps.

Lemma withoutIdentity_spec (listings : list Listing) :
  forall ref j,
    In j (withoutIdentity ref listings) ->
    exists l, nth_error listings (j - ref) = Some l
              /\ ref <= j
              /\ Str.truthy (fuzzyIdentity l) = false.
Proof.
  induction listings as [|l rest IH]; intros ref j H; [destruct H|].
  cbn [withoutIdentity] in H.
  assert (In j (withoutIdentity (S ref) rest) ->
          exists l0, nth_error (l :: rest) (j - ref) = Some l0
                     /\ ref <= j /\ Str.truthy (fuzzyIdentity l0) = false)
    as Later.
  { intros Hj. destruct (IH _ _ Hj) as [l0 [E [B T]]]. exists l0.
    replace (j - ref) with (S (j - S ref)) by lia. repeat split; auto. lia. }
  destruct (Str.truthy (fuzzyIdentity l)) eqn:T; [now apply Later|].
  destruct H as [<-|H]; [|now apply Later].
  exists l. rewrite Nat.sub_diag. repeat split; auto.
Qed.

Lemma noIdentity_spec (heap : list Listing) (j : nat) :
  In j (noIdentity heap) ->
  exists l, nth_error heap j = Some l /\ Str.truthy (fuzzyIdentity l) = false.
Proof.
  intros H. destruct (@withoutIdentity_spec heap 0 j H) as [l [E [_ T]]].
  rewrite Nat.sub_0_r in E. now exists l.
Qed.


(** *** Order by publication time *)

(** [publishedAt] is absent or a whole number of milliseconds. *)
Definition timed (l : Listing) : Prop :=
  publishedAt l = Null \/ exists z, publishedAt l = Num (ofZ z).

Definition timestampOf (l : Listing) : Z :=
  match publishedAt l with
  | Num (Fin q) => qround q
  | _ => 0%Z
  end.

Definition timestampAt (heap : list Listing) (ref : nat) : Z :=
  match nth_error heap ref with
  | Some l => timestampOf l
  | None => 0%Z
  end.

Lemma publishedOrZero_timed (l : Listing) :
  timed l -> publishedOrZero l = ofZ (timestampOf l).
Proof.
  unfold publishedOrZero, timestampOf. intros [E|[z E]]; rewrite E.
  - reflexivity.
  - cbn [Val.truthy to_number truthy_num ofZ]. rewrite Bounds.qround_qz.
    destruct (qeqb (qz z) 0) eqn:Q; cbn [negb]; [|reflexivity].
    apply NumberFacts.qeqb_iff in Q. unfold ofZ. rewrite Q. reflexivity.
Qed.

Lemma newestFirst_timed (heap : list Listing) (a b : nat) (la lb : Listing) :
  nth_error heap a = Some la -> nth_error heap b = Some lb ->
  timed la -> timed lb ->
  newestFirst heap a b = (timestampAt heap b <=? timestampAt heap a)%Z.
Proof.
  intros Ha Hb Ta Tb. unfold newestFirst, dateAt, timestampAt.
  rewrite Ha, Hb, (publishedOrZero_timed Ta), (publishedOrZero_timed Tb).
  rewrite ScorerFacts.sub_ofZ. unfold keeps_order.
  rewrite Bounds.leb_ofZ. cbn [isNaN ofZ orb].
  apply eq_true_iff_eq. rewrite !Z.leb_le. lia.
Qed.

Lemma sort_ext (A : Type) (le le' : A -> A -> bool) (l : list A) :
  (forall a b, le a b = le' a b) -> sort le l = sort le' l.
Proof.
  intros H. induction l as [|x l IH]; [reflexivity|]. cbn [sort].
  rewrite IH. generalize (sort le' l). intros m.
  induction m as [|y m IHm]; [reflexivity|]. cbn [insert].
  now rewrite H, IHm.
Qed.

Lemma dateAt_anchored (heap heap' : list Listing) (ref : nat) :
  anchored heap heap' -> dateAt heap' ref = dateAt heap ref.
Proof.
  intros A. specialize (A ref). unfold dateAt, publishedOrZero.
  destruct (nth_error heap' ref), (nth_error heap ref); simpl in A;
    try discriminate; [|reflexivity].
  unfold anchor in A. injection A as _ -> _. reflexivity.
Qed.

Lemma sorted_by_time (heap : list Listing) (refs : list nat) :
  (forall r, In r refs -> exists l, nth_error heap r = Some l /\ timed l) ->
  StronglySorted (KeySort.descending (timestampAt heap))
                 (sort (newestFirst heap) refs).
Proof.
  intros H. apply KeySort.sort_sorted. intros a b Ha Hb.
  destruct (H a Ha) as [la [Ea Ta]]. destruct (H b Hb) as [lb [Eb Tb]].
  exact (@newestFirst_timed heap a b la lb Ea Eb Ta Tb).
Qed.

(** *** The match in the tables *)

Lemma created_before_chain (best r x : Storage.Row) :
  Storage.created_before best r = true ->
  Storage.created_before best x = false ->
  Storage.created_before r x = false.
Proof.
  unfold Storage.created_before.
  destruct (Storage.created_at best), (Storage.created_at r),
    (Storage.created_at x); try discriminate; try reflexivity.
  rewrite Z.ltb_lt, !Z.ltb_ge. lia.
Qed.

Lemma created_before_irrefl (r : Storage.Row) :
  Storage.created_before r r = false.
Proof.
  unfold Storage.created_before. destruct (Storage.created_at r); [|reflexivity].
  apply Z.ltb_irrefl.
Qed.

Lemma mostRecent_fold (rows : list Storage.Row) :
  forall best r,
    fold_left (fun best r =>
                 if Storage.created_before best r then r else best)
              rows best = r ->
    (r = best \/ In r rows)
    /\ Storage.created_before r best = false
    /\ forall x, In x rows -> Storage.created_before r x = false.
Proof.
  induction rows as [|y rows IH]; intros best r E; cbn [fold_left] in E.
  - subst r. repeat split; [now left | apply created_before_irrefl |].
    intros x [].
  - destruct (Storage.created_before best y) eqn:B.
    + destruct (IH _ _ E) as [M [L1 L2]]. repeat split.
      * destruct M as [->|M]; right; [now left | now right].
      * destruct (Storage.created_before r best) eqn:C; [|reflexivity].
        exfalso. revert B C L1. unfold Storage.created_before.
        destruct (Storage.created_at best), (Storage.created_at y),
          (Storage.created_at r); try discriminate.
        rewrite !Z.ltb_lt, Z.ltb_ge. lia.
      * intros x [<-|Hx]; [exact L1 | now apply L2].
    + destruct (IH _ _ E) as [M [L1 L2]]. repeat split.
      * destruct M as [->|M]; [now left | right; now right].
      * exact L1.
      * intros x [<-|Hx]; [|now apply L2].
        destruct (Storage.created_before r y) eqn:C; [|reflexivity].
        exfalso. revert B C L1. unfold Storage.created_before.
        destruct (Storage.created_at best), (Storage.created_at y),
          (Storage.created_at r); try discriminate.
        rewrite Z.ltb_lt, !Z.ltb_ge. lia.
Qed.

(** [mostRecent] returns a row none of the others was created after. *)
Lemma mostRecent_spec (rows : list Storage.Row) :
  match Storage.mostRecent rows with
  | Some r => In r rows
              /\ forall x, In x rows -> Storage.created_before r x = false
  | None => rows = []
  end.
Proof.
  destruct rows as [|first rest]; [reflexivity|]. cbn [Storage.mostRecent].
  destruct (mostRecent_fold rest first eq_refl) as [M [L1 L2]]. split.
  - destruct M as [->|M]; [now left | now right].
  - intros x [<-|Hx]; [exact L1 | now apply L2].
Qed.

(** A row that [findListingsByFuzzyIdentities] considers for [key]. *)
Definition candidate (jobId key : string) (r : Storage.Row) : Prop :=
  Storage.job_id r = jobId
  /\ Storage.fuzzy_identity r = Some key
  /\ Storage.manually_deleted r = false.

Lemma findListingsByFuzzyIdentities_spec (st : Storage.Store)
  (jobId : string) (keys : list string) (key : string) :
  In key keys -> nonempty key = true ->
  match Storage.findListingsByFuzzyIdentities st jobId keys key with
  | Some e =>
      In e (Storage.listings st) /\ candidate jobId key e
      /\ forall r, In r (Storage.listings st) -> candidate jobId key r ->
                   Storage.created_before e r = false
  | None =>
      forall r, In r (Storage.listings st) -> ~ candidate jobId key r
  end.
Proof.
  intros Hk T. unfold Storage.findListingsByFuzzyIdentities.
  assert (Storage.mem key keys = true) as ->.
  { unfold Storage.mem. apply existsb_exists. exists key.
    split; [exact Hk | apply String.eqb_refl]. }
  rewrite T. cbn [andb].
  set (p := fun r : Storage.Row =>
              String.eqb (Storage.job_id r) jobId
              && match Storage.fuzzy_identity r with
                 | Some x => String.eqb x key
                 | None => false
                 end
              && negb (Storage.manually_deleted r)).
  assert (forall r, p r = true <-> candidate jobId key r) as P.
  { intros r. unfold p, candidate. rewrite !andb_true_iff, String.eqb_eq.
    rewrite negb_true_iff. destruct (Storage.fuzzy_identity r) as [x|].
    - rewrite String.eqb_eq.
      split; intros H; decompose [and] H; repeat split; congruence.
    - split; intros H; decompose [and] H; discriminate. }
  pose proof (mostRecent_spec (filter p (Storage.listings st))) as M.
  destruct (Storage.mostRecent (filter p (Storage.listings st))) as [e|].
  - destruct M as [M1 M2]. apply filter_In in M1. destruct M1 as [M1 M3].
    repeat split; [exact M1 | apply P; exact M3 ..|].
    intros r Hr C. apply M2. apply filter_In. split; [exact Hr | now apply P].
  - intros r Hr C. apply P in C.
    assert (In r (filter p (Storage.listings st))) as F
        by (apply filter_In; now split).
    rewrite M in F. destruct F.
Qed.


Lemma disjoint_parts (A : Type) (l1 l2 : list A) (a : A) :
  NoDup (l1 ++ l2) -> In a l1 -> ~ In a l2.
Proof.
  induction l1 as [|x l1 IH]; intros N H; [destruct H|].
  cbn [app] in N. apply NoDup_cons_iff in N. destruct N as [N1 N2].
  destruct H as [->|H]; [|now apply IH].
  intros H2. apply N1. apply in_app_iff. now right.
Qed.

Lemma outside_refsOf (groups : list (string * list nat)) (j : nat) :
  ~ In j (refsOf groups) ->
  forall key refs, In (key, refs) groups -> ~ In j refs.
Proof.
  intros N key refs H Hj. apply N. unfold refsOf. apply in_concat.
  exists refs. split; [|exact Hj]. apply in_map_iff. exists (key, refs).
  now split.
Qed.

(** *** The batch *)

Section Batch.

Variable shortest : Qc -> string.
Variable Date_now : nat -> Z.

(** Step 1: both identities are stored on the listing. *)
Definition identify (l : Listing) : Listing :=
  setIdentities (fuzzyIdentityOf shortest l) (strictIdentity shortest l) l.

Definition identified (s : State) : list Listing := map identify (batch s).

Definition groupsOf (s : State) : list (string * list nat) :=
  groupByFuzzyIdentity shortest (identified s).

(** The matches in the tables, as looked up once before the loop. *)
Definition matchesOf (jobId : string) (s : State) (key : string)
  : option Storage.Row :=
  Storage.findListingsByFuzzyIdentities (db s) jobId (map fst (groupsOf s)) key.

(** A group in the order of its chain: newest first. *)
Definition chainOrder (s : State) (refs : list nat) : list nat :=
  sort (newestFirst (identified s)) refs.

Lemma fuzzy_identify (l : Listing) :
  fuzzyIdentityOf shortest (identify l) = fuzzyIdentityOf shortest l.
Proof. reflexivity. Qed.

Lemma identified_timed (s : State) (r : nat) (l : Listing) :
  (forall x, In x (batch s) -> timed x) ->
  nth_error (identified s) r = Some l -> timed l.
Proof.
  intros T E. unfold identified in E. rewrite nth_error_map in E.
  destruct (nth_error (batch s) r) as [x|] eqn:Ex; [|discriminate].
  injection E as <-. exact (T x (nth_error_In _ _ Ex)).
Qed.

Lemma batch_unfold (jobId : string) (s : State) :
  groupsOf s <> [] ->
  detectVersionsWithBatchAwareness shortest Date_now jobId s
  = let after :=
      fold_left (processGroup Date_now (matchesOf jobId s)) (groupsOf s)
                (MkState (identified s) (db s) (reads s)) in
    fold_left (fun st i => detectVersionAt shortest Date_now jobId i st)
              (noIdentity (batch after)) after.
Proof.
  intros N. unfold detectVersionsWithBatchAwareness, matchesOf.
  unfold groupsOf, identified, identify in *.
  destruct (batch s) as [|l rest] eqn:B; [now elim N|].
  destruct (map fst _) eqn:K; [|reflexivity].
  exfalso. apply N. apply map_eq_nil in K. exact K.
Qed.

(** C6: in a group of several listings, taken newest first by
    [publishedAt || 0], every listing but the last gets the [id] of its
    successor as [_batchPreviousHash] and nothing else of it changes; the
    last one gets no marker and is linked by [linkListingToExisting] to the
    match in the tables when there is one; that match is a row of the job
    with the group's fuzzy identity, not deleted by hand, and no other such
    row was created after it. *)
Theorem batch_version_chain (jobId : string) (s : State)
  (key : string) (refs : list nat) :
  (forall l, In l (batch s) -> timed l) ->
  In (key, refs) (groupsOf s) -> 2 <= List.length refs ->
  Permutation refs (chainOrder s refs)
  /\ StronglySorted (KeySort.descending (timestampAt (identified s)))
                    (chainOrder s refs)
  /\ (forall k newer older,
         nth_error (chainOrder s refs) k = Some newer ->
         nth_error (chainOrder s refs) (S k) = Some older ->
         exists l o,
           nth_error (identified s) newer = Some l
           /\ nth_error (identified s) older = Some o
           /\ nth_error
                (batch (detectVersionsWithBatchAwareness
                          shortest Date_now jobId s)) newer
              = Some (setBatchPreviousHash (id o) l))
  /\ (exists l now,
         nth_error (identified s) (last (chainOrder s refs) 0) = Some l
         /\ nth_error
              (batch (detectVersionsWithBatchAwareness
                        shortest Date_now jobId s))
              (last (chainOrder s refs) 0)
            = Some match matchesOf jobId s key with
                   | Some dbMatch => linked now l dbMatch
                   | None => l
                   end)
  /\ match matchesOf jobId s key with
     | Some dbMatch =>
         In dbMatch (Storage.listings (db s))
         /\ candidate jobId key dbMatch
         /\ forall r, In r (Storage.listings (db s)) ->
                      candidate jobId key r ->
                      Storage.created_before dbMatch r = false
     | None =>
         forall r, In r (Storage.listings (db s)) -> ~ candidate jobId key r
     end.
Proof.
  intros T G L.
  destruct (@groups_placed shortest (identified s)) as [P [N K]].
  fold (groupsOf s) in P, N, K.
  assert (groupsOf s <> []) as Ne by (intros E; rewrite E in G; destruct G).
  rewrite (@batch_unfold jobId s Ne). cbv zeta.
  set (dbMatches := matchesOf jobId s) in *.
  set (start := MkState (identified s) (db s) (reads s)).
  set (after := fold_left (processGroup Date_now dbMatches) (groupsOf s) start).
  destruct (in_split _ _ G) as [pre [post E]].
  set (before := fold_left (processGroup Date_now dbMatches) pre start).
  assert (after = fold_left (processGroup Date_now dbMatches) post
                            (processGroup Date_now dbMatches before (key, refs)))
    as Ea.
  { unfold after, before. rewrite E, fold_left_app. reflexivity. }
  assert (NoDup refs /\ forall j, In j refs ->
                                  ~ In j (refsOf pre) /\ ~ In j (refsOf post))
    as [Nr Dis].
  { unfold refsOf in *. rewrite E, map_app, concat_app in N.
    cbn [map List.concat] in N. split.
    - apply NoDup_app_remove_l in N. now apply NoDup_app_remove_r in N.
    - intros j Hj. split.
      + intros Hp. apply (@disjoint_parts _ _ _ j N Hp).
        apply in_app_iff. now left.
      + apply NoDup_app_remove_l in N.
        exact (@disjoint_parts _ _ _ j N Hj). }
  assert (anchored (identified s) (batch before)) as Ab
      by (apply (@groups_anchored Date_now dbMatches pre start)).
  assert (anchored (identified s) (batch after)) as Aa
      by (apply (@groups_anchored Date_now dbMatches (groupsOf s) start)).
  assert (forall j, In j refs ->
                    nth_error (batch before) j = nth_error (identified s) j)
    as Same.
  { intros j Hj. apply (@groups_other Date_now dbMatches pre j start).
    apply outside_refsOf. now apply Dis. }
  assert (sort (newestFirst (batch before)) refs = chainOrder s refs) as So.
  { apply sort_ext. intros a b. unfold newestFirst.
    now rewrite !(@dateAt_anchored _ _ _ Ab). }
  assert (forall j, In j refs ->
            nth_error
              (batch (fold_left
                        (fun st i => detectVersionAt shortest Date_now jobId i st)
                        (noIdentity (batch after)) after)) j
            = nth_error (batch (processGroup Date_now dbMatches before
                                             (key, refs))) j) as Fin.
  { intros j Hj. rewrite detect_others.
    - rewrite Ea. apply groups_other. apply outside_refsOf. now apply Dis.
    - intros Hn. destruct (@noIdentity_spec _ _ Hn) as [l2 [E2 T2]].
      destruct (P key refs j G Hj) as [_ [Tk [l1 [E1 F1]]]].
      specialize (Aa j). cbn [batch start] in Aa. rewrite E1, E2 in Aa.
      cbn [option_map] in Aa.
      unfold anchor in Aa. injection Aa as _ _ Af.
      assert (fuzzyIdentity l1 = Some key) as Fk.
      { unfold identified in E1. rewrite nth_error_map in E1.
        destruct (nth_error (batch s) j) as [x|]; [|discriminate].
        injection E1 as <-. rewrite fuzzy_identify in F1. exact F1. }
      rewrite Af, Fk in T2. cbn [Str.truthy] in T2. congruence. }
  assert (forall j, In j (chainOrder s refs) -> In j refs) as Back.
  { intros j Hj. unfold chainOrder in Hj.
    exact (Permutation_in
             j (Permutation_sym
                  (SortFacts.sort_perm (newestFirst (identified s)) refs)) Hj). }
  repeat split.
  - apply SortFacts.sort_perm.
  - apply sorted_by_time. intros r Hr.
    destruct (P key refs r G Hr) as [_ [_ [l [El _]]]]. exists l.
    split; [exact El | exact (@identified_timed s r l T El)].
  - intros k newer older Hn Ho.
    pose proof (Back _ (nth_error_In _ _ Hn)) as In_n.
    pose proof (Back _ (nth_error_In _ _ Ho)) as In_o.
    destruct (P key refs newer G In_n) as [_ [_ [l [El _]]]].
    destruct (P key refs older G In_o) as [_ [_ [o [Eo _]]]].
    exists l, o. repeat split; [exact El | exact Eo |].
    rewrite (Fin newer In_n). rewrite <- So in Hn, Ho.
    rewrite (@processGroup_marks Date_now dbMatches before key refs L Nr
                                 k newer older l Hn Ho).
    + f_equal. f_equal. rewrite (@idAt_anchored _ _ older Ab). unfold idAt.
      cbn [batch start]. now rewrite Eo.
    + rewrite Same; assumption.
  - assert (chainOrder s refs <> []) as Nc.
    { intros Ec. pose proof (Permutation_length
                               (SortFacts.sort_perm (newestFirst (identified s))
                                                    refs)) as Lc.
      unfold chainOrder in Ec. rewrite Ec in Lc. simpl in Lc. lia. }
    pose proof (nth_error_In _ _ (@nth_error_last _ _ 0 Nc)) as In_l.
    apply Back in In_l.
    destruct (P key refs _ G In_l) as [_ [_ [l [El _]]]].
    exists l, (Date_now (reads before)). split; [exact El|].
    rewrite (Fin _ In_l). rewrite <- So.
    apply (@processGroup_oldest Date_now dbMatches before key refs L Nr).
    rewrite So, Same; assumption.
  - apply findListingsByFuzzyIdentities_spec.
    + apply in_map_iff. exists (key, refs). now split.
    + destruct refs as [|r t]; [simpl in L; lia|].
      destruct (P key (r :: t) r G (or_introl eq_refl)) as [_ [Tk _]].
      exact Tk.
Qed.

End Batch.


(** *** Scenario: three listings of one property in a batch *)

Definition flat (hash : string) (published : Z) : Listing :=
  MkListing (Some hash) None (Some "Flat")
            (Some "Musterstr. 12, 10115 Berlin")
            (Text "1.200") (Num (ofZ 80)) (Num (ofZ 3)) Null Null
            (Num (ofZ published)) None None None None None.

(** The fuzzy identity of [flat]. *)
Definition flatIdentity : string := "2110748877979ac0".

Definition stored : Storage.Row :=
  Storage.MkRow "77" "h050" "job" (Num (ofZ 1100)) None (Some 50%Z)
                None (Some flatIdentity) None false false Storage.NoText.

Definition scenario : State :=
  MkState [flat "h100" 100; flat "h300" 300; flat "h200" 200]
          (Storage.MkStore [stored] []) 0.

Definition clock (n : nat) : Z := (1000 + Z.of_nat n)%Z.

Lemma scenario_timed (l : Listing) : In l (batch scenario) -> timed l.
Proof.
  intros [<-|[<-|[<-|[]]]]; right; eexists; reflexivity.
Defined.

Lemma scenario_group :
  In (flatIdentity, [0; 1; 2])
     (groupsOf IdentityFacts.sample_shortest scenario).
Proof.
  vm_compute. left. reflexivity.
Defined.

Lemma scenario_order :
  chainOrder IdentityFacts.sample_shortest scenario [0; 1; 2] = [1; 2; 0].
Proof.
  vm_compute. reflexivity.
Defined.

(** The batch as [detectVersionsWithBatchAwareness] returns it. *)
Definition outcome : list Listing :=
  batch (detectVersionsWithBatchAwareness
           IdentityFacts.sample_shortest clock "job" scenario).

Lemma batch_version_chain_witness :
  chainOrder IdentityFacts.sample_shortest scenario [0; 1; 2] = [1; 2; 0]
  /\ option_map batchPreviousHash (nth_error outcome 1) = Some (Some "h200")
  /\ option_map batchPreviousHash (nth_error outcome 2) = Some (Some "h100")
  /\ option_map previousVersionId (nth_error outcome 0) = Some (Some "77").
Proof.
  unfold outcome.
  destruct (@batch_version_chain
              IdentityFacts.sample_shortest clock "job" scenario
              flatIdentity [0; 1; 2] scenario_timed scenario_group
              (le_S _ _ (le_n 2)))
    as [_ [_ [Marks [Oldest Match]]]].
  rewrite scenario_order in Marks, Oldest.
  split; [exact scenario_order|]. split; [|split].
  - destruct (Marks 0 1 2 eq_refl eq_refl) as [l [o [_ [Eo ->]]]].
    injection Eo as <-. reflexivity.
  - destruct (Marks 1 2 0 eq_refl eq_refl) as [l [o [_ [Eo ->]]]].
    injection Eo as <-. reflexivity.
  - destruct Oldest as [l [now [_ Eo]]]. cbn [last] in Eo. rewrite Eo.
    destruct (matchesOf IdentityFacts.sample_shortest "job" scenario
                        flatIdentity) as [dbMatch|].
    + destruct Match as [[<-|[]] _]. reflexivity.
    + exfalso. apply (Match stored); [now left | repeat split].
Defined.

End DetectorFacts.

(** ** The price history *)

Module HistoryFacts.

Import Js Str Val Data.
Local Open Scope string_scope.
Local Open Scope list_scope.
Local Open Scope Z_scope.

(** The date of an entry as a whole number of milliseconds. *)
Definition stamp (e : PriceEntry) : Z :=
  match date e with
  | Fin q => qround q
  | _ => 0
  end.

Definition dated (e : PriceEntry) : Prop := date e = ofZ (stamp e).

(** No two entries of the same date. *)
Definition neat (h : list PriceEntry) : Prop :=
  Forall dated h /\ NoDup (map stamp h).

Definition ascending (h : list PriceEntry) : Prop :=
  StronglySorted (fun a b => stamp a <= stamp b) h.

Definition tidy (h : list PriceEntry) : Prop := neat h /\ ascending h.

Lemma qz_inj (a b : Z) : qz a = qz b -> a = b.
Proof.
  intros E. apply Z.le_antisymm; apply Bounds.qz_le; rewrite E; apply Qcle_refl.
Qed.

Lemma eqb_ofZ (a b : Z) : eqb (ofZ a) (ofZ b) = (a =? b).
Proof.
  apply eq_true_iff_eq. cbn [eqb ofZ].
  rewrite NumberFacts.qeqb_iff, Z.eqb_eq. split; [apply qz_inj | congruence].
Qed.

Lemma stamp_entry (d : Z) (p : value) : stamp (Entry (ofZ d) p) = d.
Proof. unfold stamp. cbn [date ofZ]. apply Bounds.qround_qz. Qed.

Lemma dated_entry (d : Z) (p : value) : dated (Entry (ofZ d) p).
Proof. unfold dated. now rewrite stamp_entry. Qed.

Lemma has_date (d : Z) (h : list PriceEntry) :
  Forall dated h ->
  existsb (fun e => eqb (date e) (ofZ d)) h = true <-> In d (map stamp h).
Proof.
  intros F. rewrite existsb_exists, in_map_iff. rewrite Forall_forall in F.
  split; intros [e [A B]]; exists e.
  - split; [|exact A]. rewrite (F e A), eqb_ofZ in B. now apply Z.eqb_eq.
  - split; [exact B|]. rewrite (F e B), eqb_ofZ. now apply Z.eqb_eq.
Qed.

Lemma neat_push (d : Z) (p : value) (h : list PriceEntry) :
  neat h -> ~ In d (map stamp h) -> neat (h ++ [Entry (ofZ d) p]).
Proof.
  intros [F N] Hd. split.
  - apply Forall_app. split; [exact F|]. repeat constructor.
    apply dated_entry.
  - rewrite map_app. cbn [map]. rewrite stamp_entry.
    apply (Permutation_NoDup (Permutation_cons_append (map stamp h) d)).
    now constructor.
Qed.

Lemma neat_guarded_push (d : Z) (p : value) (h : list PriceEntry) :
  neat h ->
  existsb (fun e => eqb (date e) (ofZ d)) h = false ->
  neat (h ++ [Entry (ofZ d) p]).
Proof.
  intros Nh E. apply neat_push; [exact Nh|]. intros H.
  apply (has_date d (proj1 Nh)) in H. congruence.
Qed.

(** Both comparators order dated entries by their stamps. *)
Lemma byDate_stamp (a b : PriceEntry) :
  dated a -> dated b ->
  keeps_order (sub (date a) (date b)) = (stamp a <=? stamp b).
Proof.
  intros -> ->. rewrite ScorerFacts.sub_ofZ. unfold keeps_order.
  rewrite Bounds.leb_ofZ. cbn [isNaN ofZ orb].
  apply eq_true_iff_eq. rewrite !Z.leb_le. lia.
Qed.

Lemma sorted_weaken (A : Type) (R R' : A -> A -> Prop) (l : list A) :
  (forall a b, R a b -> R' a b) ->
  StronglySorted R l -> StronglySorted R' l.
Proof.
  intros H S. induction S as [|a l S IH F]; constructor; [exact IH|].
  rewrite Forall_forall in *. intros b Hb. apply H. now apply F.
Qed.

Lemma sort_tidy (le : PriceEntry -> PriceEntry -> bool) (h : list PriceEntry) :
  (forall a b, le a b = keeps_order (sub (date a) (date b))) ->
  neat h -> tidy (sort le h).
Proof.
  intros Hle [F N]. pose proof (SortFacts.sort_perm le h) as P.
  repeat split.
  - exact (Permutation_Forall P F).
  - exact (Permutation_NoDup (Permutation_map stamp P) N).
  - apply (@sorted_weaken _ (KeySort.descending (fun e => - stamp e))).
    + unfold KeySort.descending. intros a b. lia.
    + apply KeySort.sort_sorted. intros a b Ha Hb.
      rewrite Forall_forall in F.
      rewrite Hle, (byDate_stamp (F a Ha) (F b Hb)).
      apply eq_true_iff_eq. rewrite !Z.leb_le. lia.
Qed.

Lemma neat_pushExisting (e : Storage.Row) (h : list PriceEntry) :
  neat h -> neat (VersionDetector.pushExisting e h).
Proof.
  intros Nh. unfold VersionDetector.pushExisting.
  destruct (Storage.created_at e) as [c|]; [|exact Nh].
  destruct (c =? 0); [exact Nh|].
  destruct (is_null (Storage.price e)); [exact Nh|]. cbn [orb].
  destruct (existsb _ h) eqn:E; [exact Nh|].
  now apply neat_guarded_push.
Qed.

Lemma neat_pushPrice (l : Storage.Row) (h : list PriceEntry) :
  neat h -> neat (ManualLinks.pushPrice l h).
Proof.
  intros Nh. unfold ManualLinks.pushPrice, ManualLinks.hasDate.
  destruct (ManualLinks.orElse _ _) as [d|]; [|exact Nh].
  destruct (ManualLinks.parsePrice _) as [p|]; [|exact Nh].
  destruct (d =? 0); [exact Nh|]. cbn [orb].
  destruct (existsb _ h) eqn:E; [exact Nh|].
  now apply neat_guarded_push.
Qed.

(** An operation that links versions, as it acts on the price history. *)
Inductive VersionLink : Type :=
| Linked (now : Z) (currentPrice : option number) (existing : Storage.Row)
| Detected (now : Z) (currentPrice : option number) (existing : Storage.Row)
| Merged (newerListing olderListing : Storage.Row).

Definition relink (h : list PriceEntry) (op : VersionLink) : list PriceEntry :=
  match op with
  | Linked now p e => VersionDetector.linkedEntries now p e h
  | Detected now p e => VersionDetector.detectedEntries now p e h
  | Merged n o => ManualLinks.mergedEntries n o h
  end.

(** The time an automatic link reads is the date of no entry it finds. *)
Definition newReading (h : list PriceEntry) (op : VersionLink) : Prop :=
  match op with
  | Linked now _ e | Detected now _ e =>
      ~ In now (map stamp (VersionDetector.pushExisting e h))
  | Merged _ _ => True
  end.

Fixpoint readingsNew (h : list PriceEntry) (ops : list VersionLink) : Prop :=
  match ops with
  | [] => True
  | op :: rest => newReading h op /\ readingsNew (relink h op) rest
  end.

Lemma relink_tidy (h : list PriceEntry) (op : VersionLink) :
  neat h -> newReading h op -> tidy (relink h op).
Proof.
  intros Nh R. destruct op as [now p e|now p e|n o]; cbn [relink newReading] in *.
  - unfold VersionDetector.linkedEntries. apply sort_tidy; [reflexivity|].
    destruct p as [p|].
    + apply neat_push; [now apply neat_pushExisting | exact R].
    + rewrite app_nil_r. now apply neat_pushExisting.
  - unfold VersionDetector.detectedEntries. apply sort_tidy; [reflexivity|].
    apply neat_push; [now apply neat_pushExisting | exact R].
  - unfold ManualLinks.mergedEntries. apply sort_tidy; [reflexivity|].
    now apply neat_pushPrice, neat_pushPrice.
Qed.

(** The find() test of the previous price is what keeps the dates
    apart as far as it goes: a price history without repeated dates and in
    ascending order stays so under any sequence of version links in which
    each time an automatic link reads from the clock is not already the
    date of an entry. *)
Theorem price_history_stays_tidy (ops : list VersionLink) :
  forall h, tidy h -> readingsNew h ops -> tidy (fold_left relink ops h).
Proof.
  induction ops as [|op rest IH]; intros h T R; [exact T|].
  cbn [fold_left]. destruct R as [R1 R2].
  apply IH; [|exact R2]. apply relink_tidy; [exact (proj1 T) | exact R1].
Qed.

(** What the operations store is what [relink] computes. *)
Lemma linked_history (now : Z) (l : Listing) (e : Storage.Row) :
  VersionDetector.historyOf (VersionDetector.linked now l e)
  = relink (VersionDetector.historyOf l)
           (Linked now (VersionDetector.parsePrice (price l)) e).
Proof. reflexivity. Qed.

(** A row created at the time 1000. *)
Definition justStored : Storage.Row :=
  Storage.MkRow "79" "h060" "job" (Num (ofZ 1100)) None (Some 1000)
                None None None false false Storage.NoText.

(** C9: the current price is pushed without the find() test that guards
    the previous price.  [linkListingToExisting] of a listing to a row
    created at the time the clock reads leaves two entries of that date,
    and so do two links of one listing that read the same time. *)
Lemma same_reading_repeats_a_date :
  VersionDetector.historyOf
    (VersionDetector.linked 1000 (DetectorFacts.flat "h100" 100) justStored)
  = [Entry (ofZ 1000) (Num (ofZ 1100)); Entry (ofZ 1000) (Num (ofZ 1200))]
  /\ map date
         (VersionDetector.historyOf
            (VersionDetector.linked
               1000 (VersionDetector.linked 1000 (DetectorFacts.flat "h100" 100)
                                            DetectorFacts.stored)
               DetectorFacts.stored))
     = [ofZ 50; ofZ 1000; ofZ 1000].
Proof.
  split; vm_compute; reflexivity.
Qed.

Definition relisted : Storage.Row :=
  Storage.MkRow "78" "h100" "job" (Num (ofZ 1200)) (Some 900) (Some 1001)
                None None None false false Storage.NoText.

Definition threeLinks : list VersionLink :=
  [Linked 1000 (Some (ofZ 1200)) DetectorFacts.stored;
   Merged relisted DetectorFacts.stored;
   Detected 2000 None DetectorFacts.stored].

Lemma price_history_stays_tidy_witness :
  tidy [] /\ readingsNew [] threeLinks
  /\ tidy (fold_left relink threeLinks []).
Proof.
  assert (tidy []) as T by (repeat constructor).
  assert (readingsNew [] threeLinks) as R.
  { vm_compute. repeat split; intros H; decompose [or] H;
      try discriminate; assumption. }
  split; [exact T|]. split; [exact R|].
  exact (@price_history_stays_tidy threeLinks [] T R).
Defined.

End HistoryFacts.

(** ** Further properties of the manual-link layer *)

Module LinkLayerFacts.

Import Js Str Val Data Storage ManualLinks WalkFacts ManualFacts.
Local Open Scope string_scope.
Local Open Scope list_scope.
Local Open Scope nat_scope.

Lemma walk_distinct (st : Store) (excludeId : option string) (fuel : nat) :
  forall visited toVisit v,
    NoDup visited ->
    walk fuel st excludeId visited toVisit = Some v -> NoDup v.
Proof.
  induction fuel as [|fuel IH]; intros visited toVisit v N W.
  - destruct toVisit; [|discriminate]. now injection W as <-.
  - destruct toVisit as [|c rest]; [now injection W as <-|].
    simpl in W. destruct (mem c visited || excluded excludeId c) eqn:E.
    + exact (IH _ _ _ N W).
    + apply orb_false_iff in E. destruct E as [M _].
      apply (IH _ _ _) in W; [exact W|].
      apply (Permutation_NoDup (Permutation_cons_append visited c)).
      constructor; [|exact N]. now apply mem_not_In.
Qed.

Lemma reaches_allowed (st : Store) (excludeId : option string) (a x : string) :
  reaches st excludeId a x ->
  excluded excludeId a = false -> excluded excludeId x = false.
Proof.
  intros R. induction R as [|a b c E R IH]; [trivial|].
  intros _. apply IH. exact (proj2 E).
Qed.

(** The walk of [findChainHead] and [getChainIdsExcluding] ends; it visits
    no identifier twice, never the excluded one, and exactly those the
    start is joined to by pointers and links that avoid the excluded
    one. *)
Theorem chain_walk_collects_the_chain (st : Store)
  (excludeId : option string) (start : string) :
  exists chain,
    component st excludeId start = Some chain
    /\ NoDup chain
    /\ (forall x, In x chain -> excluded excludeId x = false)
    /\ (forall x, In x chain <->
                  excluded excludeId start = false
                  /\ reaches st excludeId start x).
Proof.
  destruct (component_ends st excludeId start) as [chain C].
  exists chain. split; [exact C|].
  pose proof (@component_reaches st excludeId start chain C) as R.
  split; [|split].
  - unfold component in C. apply (walk_distinct _ _ _ _ (NoDup_nil _) C).
  - intros x Hx. apply R in Hx. destruct Hx as [X Hx].
    exact (reaches_allowed Hx X).
  - exact R.
Qed.


Lemma newest_split (rows : list Row) :
  forall first h,
    fold_left (fun headListing l =>
                 if (dateOf headListing <? dateOf l)%Z then l
                 else headListing) rows first = h ->
    (h = first /\ forall r, In r rows -> (dateOf r <= dateOf first)%Z)
    \/ exists earlier later,
         rows = earlier ++ h :: later
         /\ (dateOf first < dateOf h)%Z
         /\ (forall r, In r earlier -> (dateOf r < dateOf h)%Z)
         /\ (forall r, In r later -> (dateOf r <= dateOf h)%Z).
Proof.
  induction rows as [|y t IH]; intros first h E; cbn [fold_left] in E.
  - left. split; [now symmetry | intros r []].
  - destruct (dateOf first <? dateOf y)%Z eqn:L.
    + apply Z.ltb_lt in L. right.
      destruct (IH _ _ E) as [[-> A]|[earlier [later [-> [B [C D]]]]]].
      * exists [], t. repeat split; [exact L | intros r [] | exact A].
      * exists (y :: earlier), later. repeat split; [lia | | exact D].
        intros r [<-|Hr]; [exact B | now apply C].
    + apply Z.ltb_ge in L.
      destruct (IH _ _ E) as [[-> A]|[earlier [later [-> [B [C D]]]]]].
      * left. split; [reflexivity|]. intros r [<-|Hr]; [exact L | now apply A].
      * right. exists (y :: earlier), later. repeat split; [exact B | | exact D].
        intros r [<-|Hr]; [lia | now apply C].
Qed.

(** [findChainHead] returns, as [allInChain], the stored rows that the
    start is joined to and, as head, one of them that no other one is newer
    than; there is no head only when no row is joined to the start.  Which
    of several newest rows is the head depends on the order in which the
    rows are read, which is left open here. *)
Theorem findChainHead_picks_a_newest (st : Store) (startingId : string) :
  exists headListing allInChain,
    findChainHead st startingId = Some (headListing, allInChain)
    /\ (forall r, In r allInChain <->
                  In r (listings st) /\ connected st startingId (id r))
    /\ match headListing with
       | Some h =>
           In h allInChain
           /\ forall r, In r allInChain -> (dateOf r <= dateOf h)%Z
       | None => allInChain = []
       end.
Proof.
  destruct (component_ends st None startingId) as [chain C].
  unfold findChainHead. rewrite C.
  exists (newest (filter (fun r => mem (id r) chain) (listings st))),
         (filter (fun r => mem (id r) chain) (listings st)).
  split; [reflexivity|]. split.
  - intros r. rewrite filter_In, mem_In.
    now rewrite (@component_connected st startingId chain C (id r)).
  - destruct (filter _ (listings st)) as [|first rest] eqn:F; [reflexivity|].
    cbn [newest].
    destruct (@newest_split (first :: rest) first _ eq_refl)
      as [[E A]|[earlier [later [E [L [B D]]]]]].
    + rewrite E. split; [now left | exact A].
    + split.
      * rewrite E at 2. apply in_or_app. right. now left.
      * intros r Hr. rewrite E in Hr. apply in_app_or in Hr.
        destruct Hr as [Hr|[<-|Hr]]; [apply B in Hr; lia | lia | now apply D].
Qed.

Lemma find_map_key (A : Type) (p : A -> bool) (G : A -> A) (l : list A) :
  (forall x, p (G x) = p x) -> find p (map G l) = option_map G (find p l).
Proof.
  intros H. induction l as [|x l IH]; [reflexivity|]. cbn [map find].
  rewrite H. destruct (p x); [reflexivity | exact IH].
Qed.

Lemma insertLink_rows (k : Link) (newerOfPair olderOfPair : Row) (st : Store) :
  exists P,
    listings (insertLink k newerOfPair olderOfPair st) = map P (listings st)
    /\ forall r, exists p, P r = setPrevious p r.
Proof.
  unfold insertLink.
  destruct (negb (Str.truthy (previous_version_id newerOfPair)));
    cbn [updateRows listings].
  - eexists. split; [reflexivity|]. intros r. cbv beta.
    destruct (is_id (id newerOfPair) r); eexists; [reflexivity|].
    instantiate (1 := previous_version_id r). now destruct r.
  - exists (fun r => r). rewrite map_id. split; [reflexivity|].
    intros r. exists (previous_version_id r). now destruct r.
Qed.

(** After a successful [createManualLink], any further call whose two
    arguments resolve to the same pair in the same stored order finds the
    link. *)
Lemma createManualLink_finds_link (newLinkId newLinkId' : string) (now now' : Z)
  (userId userId' : option string) (a b a' b' : string)
  (st st' : Store) (res : Result) (l1 l2 x y : Row) :
  createManualLink newLinkId now (Some a) (Some b) userId st
  = Some (res, st') ->
  success res = true ->
  getListingByIdOrHash st a = Some l1 -> getListingByIdOrHash st b = Some l2 ->
  getListingByIdOrHash st a' = Some x -> getListingByIdOrHash st b' = Some y ->
  nonempty a' = true -> nonempty b' = true -> String.eqb a' b' = false ->
  ordered x y = ordered l1 l2 ->
  createManualLink newLinkId' now' (Some a') (Some b') userId' st'
  = Some (MkResult true None (linkId res) true None, st').
Proof.
  intros E S G1 G2 Gx Gy Na Nb Nab Oxy. unfold createManualLink in E.
  destruct (negb (nonempty a) || negb (nonempty b)) eqn:Ne;
    [injection E as <- _; discriminate|].
  destruct (String.eqb a b) eqn:Eab; [injection E as <- _; discriminate|].
  rewrite G1, G2 in E.
  destruct (ordered l1 l2) as [f s] eqn:O.
  destruct (find (is_link (id f) (id s)) (links st)) as [existing|] eqn:Fk.
  - injection E as <- <-. unfold createManualLink.
    now rewrite Na, Nb, Nab, Gx, Gy, Oxy, Fk.
  - destruct (byAge l1 l2) as [n o].
    set (k := MkLink newLinkId (id f) (id s) userId now) in *.
    destruct (insertLink_spec k n o st) as [Lm _].
    destruct (insertLink_rows k n o st) as [P [Rm HP]].
    set (mid := insertLink k n o st) in *.
    destruct (settleChain l1 n o mid) as [st2|] eqn:SC; [|discriminate].
    injection E as <- <-.
    assert (In (id l1) (map id (listings mid))) as M1.
    { rewrite Rm, map_map. apply in_map_iff. exists l1. split.
      - destruct (HP l1) as [p ->]. reflexivity.
      - exact (getListingByIdOrHash_row _ _ G1). }
    destruct (@settleChain_spec l1 n o mid st2 M1 SC)
      as [chain [h [F [_ [_ [_ [_ [L2 [R2 HF]]]]]]]]].
    set (G := fun r => F (P r)).
    assert (forall r, id (G r) = id r /\ hash (G r) = hash r) as HG.
    { intros r. unfold G. destruct (HF (P r)) as [c [-> _]].
      destruct (HP r) as [p ->]. split; reflexivity. }
    assert (forall z r, getListingByIdOrHash st z = Some r ->
                        getListingByIdOrHash st2 z = Some (G r)) as Found.
    { intros z r Hz. unfold getListingByIdOrHash in *.
      rewrite R2, Rm, map_map. fold G.
      rewrite find_map_key, Hz; [reflexivity|].
      intros w. destruct (HG w) as [-> ->]. reflexivity. }
    unfold createManualLink.
    rewrite Na, Nb, Nab, (Found _ _ Gx), (Found _ _ Gy). cbn [negb orb].
    assert (ordered (G x) (G y) = (G f, G s)) as ->.
    { unfold ordered in *. destruct (HG x) as [-> _]. destruct (HG y) as [-> _].
      destruct (leb (toNumber (id x)) (toNumber (id y)));
        now injection Oxy as <- <-. }
    destruct (HG f) as [-> _]. destruct (HG s) as [-> _].
    rewrite L2, Lm.
    assert (find (is_link (id f) (id s)) (links st ++ [k]) = Some k) as ->.
    { clear - Fk. induction (links st) as [|z l IH]; cbn [app find].
      - unfold is_link. cbn [listing_id linked_listing_id k].
        now rewrite !String.eqb_refl.
      - cbn [find] in Fk. destruct (is_link (id f) (id s) z); [discriminate|].
        now apply IH. }
    reflexivity.
Qed.

Lemma createManualLink_resolves (newLinkId : string) (now : Z)
  (userId : option string) (a b : string) (st st' : Store) (res : Result) :
  createManualLink newLinkId now (Some a) (Some b) userId st
  = Some (res, st') ->
  success res = true ->
  nonempty a = true /\ nonempty b = true /\ String.eqb a b = false
  /\ exists l1 l2, getListingByIdOrHash st a = Some l1
                   /\ getListingByIdOrHash st b = Some l2.
Proof.
  intros E S. unfold createManualLink in E.
  destruct (nonempty a), (nonempty b); cbn [negb orb] in E;
    try (injection E as <- _; discriminate).
  destruct (String.eqb a b); [injection E as <- _; discriminate|].
  destruct (getListingByIdOrHash st a) as [l1|];
    [|injection E as <- _; discriminate].
  destruct (getListingByIdOrHash st b) as [l2|];
    [|injection E as <- _; discriminate].
  repeat split. now exists l1, l2.
Qed.

(** Linking a pair that is linked already changes nothing: a second
    [createManualLink] with the same arguments reports [alreadyExists] with
    the identifier of the first link and leaves the tables as they are. *)
Theorem createManualLink_again (newLinkId newLinkId' : string) (now now' : Z)
  (userId userId' : option string) (a b : string)
  (st st' : Store) (res : Result) :
  createManualLink newLinkId now (Some a) (Some b) userId st
  = Some (res, st') ->
  success res = true ->
  createManualLink newLinkId' now' (Some a) (Some b) userId' st'
  = Some (MkResult true None (linkId res) true None, st').
Proof.
  intros E S.
  destruct (@createManualLink_resolves newLinkId now userId a b st st' res E S)
    as [Na [Nb [Nab [l1 [l2 [G1 G2]]]]]].
  exact (@createManualLink_finds_link
           newLinkId newLinkId' now now' userId userId' a b a b st st' res
           l1 l2 l1 l2 E S G1 G2 G1 G2 Na Nb Nab eq_refl).
Qed.

Lemma createManualLink_again_witness :
  createManualLink "beef" 31 (Some "1") (Some "2") None ManualFacts.afterLink
  = Some (MkResult true None (Some "f00d") true None, ManualFacts.afterLink).
Proof.
  apply (@createManualLink_again
           "f00d" "beef" 30 31 None None "1" "2" ManualFacts.twoListings
           ManualFacts.afterLink
           (MkResult true None (Some "f00d") false None));
    vm_compute; reflexivity.
Defined.

(** The same holds with the two arguments exchanged, provided [Number] puts
    the two identifiers in a strict order.  (If neither [Number(id)] is
    below the other, as for identifiers that are not numerals, the pair is
    stored the other way round and the exchanged call finds no link.) *)
Theorem createManualLink_exchanged (newLinkId newLinkId' : string)
  (now now' : Z) (userId userId' : option string) (a b : string)
  (st st' : Store) (res : Result) (l1 l2 : Row) :
  createManualLink newLinkId now (Some a) (Some b) userId st
  = Some (res, st') ->
  success res = true ->
  getListingByIdOrHash st a = Some l1 -> getListingByIdOrHash st b = Some l2 ->
  leb (toNumber (id l1)) (toNumber (id l2))
  = negb (leb (toNumber (id l2)) (toNumber (id l1))) ->
  createManualLink newLinkId' now' (Some b) (Some a) userId' st'
  = Some (MkResult true None (linkId res) true None, st').
Proof.
  intros E S G1 G2 Strict.
  destruct (@createManualLink_resolves newLinkId now userId a b st st' res E S)
    as [Na [Nb [Nab _]]].
  apply (@createManualLink_finds_link
           newLinkId newLinkId' now now' userId userId' a b b a st st' res
           l1 l2 l2 l1 E S G1 G2 G2 G1 Nb Na).
  - rewrite String.eqb_sym. exact Nab.
  - unfold ordered. rewrite Strict.
    now destruct (leb (toNumber (id l2)) (toNumber (id l1))).
Qed.

Lemma createManualLink_exchanged_witness :
  createManualLink "beef" 31 (Some "2") (Some "1") None ManualFacts.afterLink
  = Some (MkResult true None (Some "f00d") true None, ManualFacts.afterLink).
Proof.
  apply (@createManualLink_exchanged
           "f00d" "beef" 30 31 None None "1" "2" ManualFacts.twoListings
           ManualFacts.afterLink (MkResult true None (Some "f00d") false None)
           ManualFacts.older ManualFacts.newer);
    vm_compute; reflexivity.
Defined.

Lemma settleChain_links (listing1 newerOfPair olderOfPair : Row) (st : Store) :
  In (id listing1) (map id (listings st)) ->
  exists st', settleChain listing1 newerOfPair olderOfPair st = Some st'
              /\ links st' = links st.
Proof.
  intros H.
  destruct (settleChain listing1 newerOfPair olderOfPair st) as [st'|] eqn:E.
  - exists st'. split; [reflexivity|].
    destruct (@settleChain_spec listing1 newerOfPair olderOfPair st st' H E)
      as [chain [h [F [_ [_ [_ [_ [L _]]]]]]]]. exact L.
  - exfalso. unfold settleChain, findChainHead in E.
    destruct (component_ends st None (id listing1)) as [chain C].
    rewrite C in E. destruct (newest _); discriminate.
Qed.

(** [createManualLink] looks the pair up in one order only.  When [Number]
    puts neither identifier below the other (as for identifiers that are no
    numerals), a pair stored as (a, b) is not found by
    [createManualLink(a, b)], which looks for (b, a): it inserts a second
    link, so that the tables hold the pair in both orders. *)
Theorem createManualLink_misses_reverse_link (newLinkId : string) (now : Z)
  (userId : option string) (a b : string) (st : Store) (l1 l2 : Row)
  (stored : Link) :
  nonempty a = true -> nonempty b = true -> String.eqb a b = false ->
  getListingByIdOrHash st a = Some l1 -> getListingByIdOrHash st b = Some l2 ->
  leb (toNumber (id l1)) (toNumber (id l2)) = false ->
  In stored (links st) -> is_link (id l1) (id l2) stored = true ->
  find (is_link (id l2) (id l1)) (links st) = None ->
  exists st',
    createManualLink newLinkId now (Some a) (Some b) userId st
    = Some (MkResult true None (Some newLinkId) false None, st')
    /\ links st'
       = links st ++ [MkLink newLinkId (id l2) (id l1) userId now].
Proof.
  intros Na Nb Nab G1 G2 U Hs Is Fk. unfold createManualLink.
  rewrite Na, Nb, Nab, G1, G2. cbn [negb orb]. unfold ordered. rewrite U, Fk.
  destruct (byAge l1 l2) as [n o].
  set (k := MkLink newLinkId (id l2) (id l1) userId now).
  destruct (insertLink_spec k n o st) as [Lm _].
  destruct (insertLink_rows k n o st) as [P [Rm HP]].
  destruct (@settleChain_links l1 n o (insertLink k n o st)) as [st' [-> L]].
  - rewrite Rm, map_map. apply in_map_iff. exists l1. split.
    + destruct (HP l1) as [p ->]. reflexivity.
    + exact (getListingByIdOrHash_row _ _ G1).
  - exists st'. split; [reflexivity|]. now rewrite L, Lm.
Qed.

Definition lettered : Store :=
  MkStore [MkRow "abc" "a1" "job" Null None (Some 10%Z)
                 None None None false false NoText;
           MkRow "xyz" "b2" "job" Null None (Some 20%Z)
                 None None None false false NoText]
          [MkLink "f00d" "abc" "xyz" None 30].

Lemma createManualLink_misses_reverse_link_witness :
  exists st',
    createManualLink "beef" 31 (Some "abc") (Some "xyz") None lettered
    = Some (MkResult true None (Some "beef") false None, st')
    /\ links st'
       = [MkLink "f00d" "abc" "xyz" None 30; MkLink "beef" "xyz" "abc" None 31].
Proof.
  destruct (@createManualLink_misses_reverse_link
              "beef" 31 None "abc" "xyz" lettered
              (MkRow "abc" "a1" "job" Null None (Some 10%Z)
                     None None None false false NoText)
              (MkRow "xyz" "b2" "job" Null None (Some 20%Z)
                     None None None false false NoText)
              (MkLink "f00d" "abc" "xyz" None 30))
    as [st' [E L]]; try reflexivity; [now left|].
  exists st'. split; [exact E | exact L].
Defined.

(** A listing given once by its [id] and once by its [hash] passes the
    check for equal arguments: the link joins the listing to itself. *)
Theorem createManualLink_by_id_and_hash (newLinkId : string) (now : Z)
  (userId : option string) (a b : string) (st : Store) (l : Row) :
  nonempty a = true -> nonempty b = true -> String.eqb a b = false ->
  getListingByIdOrHash st a = Some l -> getListingByIdOrHash st b = Some l ->
  find (is_link (id l) (id l)) (links st) = None ->
  exists st',
    createManualLink newLinkId now (Some a) (Some b) userId st
    = Some (MkResult true None (Some newLinkId) false None, st')
    /\ links st' = links st ++ [MkLink newLinkId (id l) (id l) userId now].
Proof.
  intros Na Nb Nab G1 G2 Fk. unfold createManualLink.
  rewrite Na, Nb, Nab, G1, G2. cbn [negb orb].
  assert (ordered l l = (l, l)) as ->
      by (unfold ordered; now destruct (leb _ _)).
  rewrite Fk. destruct (byAge l l) as [n o].
  set (k := MkLink newLinkId (id l) (id l) userId now).
  destruct (insertLink_spec k n o st) as [Lm _].
  destruct (insertLink_rows k n o st) as [P [Rm HP]].
  destruct (@settleChain_links l n o (insertLink k n o st)) as [st' [-> L]].
  - rewrite Rm, map_map. apply in_map_iff. exists l. split.
    + destruct (HP l) as [p ->]. reflexivity.
    + exact (getListingByIdOrHash_row _ _ G1).
  - exists st'. split; [reflexivity|]. now rewrite L, Lm.
Qed.

Lemma createManualLink_by_id_and_hash_witness :
  exists st',
    createManualLink "f00d" 30 (Some "1") (Some "a1") None
                     ManualFacts.twoListings
    = Some (MkResult true None (Some "f00d") false None, st')
    /\ links st' = [MkLink "f00d" "1" "1" None 30].
Proof.
  destruct (@createManualLink_by_id_and_hash
              "f00d" 30 None "1" "a1" ManualFacts.twoListings
              ManualFacts.older)
    as [st' [E L]]; try reflexivity.
  exists st'. split; [exact E | exact L].
Defined.

(** [getLinkedListingIds] is symmetric: one listing is among the linked
    ones of another exactly when the other is among its own. *)
Theorem getLinkedListingIds_symmetric (st : Store) (a b : string) :
  nonempty a = true -> nonempty b = true ->
  In b (getLinkedListingIds st (Some a))
  <-> In a (getLinkedListingIds st (Some b)).
Proof.
  assert (forall x y, nonempty x = true ->
            In y (getLinkedListingIds st (Some x)) ->
            exists k, In k (links st) /\ touches x k = true
                      /\ other_end x k = y) as Out.
  { intros x y Nx H. unfold getLinkedListingIds, getManualLinks in H.
    rewrite Nx in H. cbn [negb] in H. apply in_map_iff in H.
    destruct H as [k [E H]]. apply KeySort.sort_in in H.
    apply filter_In in H. exists k. tauto. }
  assert (forall x k, nonempty x = true -> In k (links st) ->
            touches x k = true ->
            In (other_end x k) (getLinkedListingIds st (Some x))) as Into.
  { intros x k Nx Hk T. unfold getLinkedListingIds, getManualLinks.
    rewrite Nx. cbn [negb]. apply in_map. apply KeySort.sort_in.
    apply filter_In. now split. }
  assert (forall x y k, touches x k = true -> other_end x k = y ->
            touches y k = true /\ other_end y k = x) as Flip.
  { intros x y k T E. unfold touches, other_end in *.
    destruct (String.eqb (listing_id k) x) eqn:E1.
    - apply String.eqb_eq in E1. subst y.
      rewrite String.eqb_refl, orb_true_r. split; [reflexivity|].
      destruct (String.eqb (listing_id k) (linked_listing_id k)) eqn:E2;
        [|exact E1].
      apply String.eqb_eq in E2. congruence.
    - cbn [orb] in T. apply String.eqb_eq in T. subst y.
      rewrite String.eqb_refl. split; [reflexivity | exact T]. }
  intros Na Nb. split; intros H.
  - destruct (Out a b Na H) as [k [Hk [T E]]].
    destruct (Flip a b k T E) as [T' E']. rewrite <- E'.
    exact (Into b k Nb Hk T').
  - destruct (Out b a Nb H) as [k [Hk [T E]]].
    destruct (Flip b a k T E) as [T' E']. rewrite <- E'.
    exact (Into a k Na Hk T').
Qed.

Lemma getLinkedListingIds_symmetric_witness :
  In "2" (getLinkedListingIds ManualFacts.afterLink (Some "1"))
  <-> In "1" (getLinkedListingIds ManualFacts.afterLink (Some "2")).
Proof.
  apply (@getLinkedListingIds_symmetric ManualFacts.afterLink "1" "2");
    reflexivity.
Defined.

End LinkLayerFacts.

(** ** Further properties of the price history *)

Module HistoryMore.

Import Js Str Val Data HistoryFacts.
Local Open Scope string_scope.
Local Open Scope list_scope.
Local Open Scope Z_scope.

Lemma sort_ascending (le : PriceEntry -> PriceEntry -> bool)
  (h : list PriceEntry) :
  (forall a b, le a b = keeps_order (sub (date a) (date b))) ->
  Forall dated h ->
  Forall dated (sort le h) /\ ascending (sort le h).
Proof.
  intros Hle F. pose proof (SortFacts.sort_perm le h) as P. split.
  - exact (Permutation_Forall P F).
  - apply (@sorted_weaken _ (KeySort.descending (fun e => - stamp e))).
    + unfold KeySort.descending. intros a b. lia.
    + apply KeySort.sort_sorted. intros a b Ha Hb.
      rewrite Forall_forall in F.
      rewrite Hle, (byDate_stamp (F a Ha) (F b Hb)).
      apply eq_true_iff_eq. rewrite !Z.leb_le. lia.
Qed.

Lemma dated_pushExisting (e : Storage.Row) (h : list PriceEntry) :
  Forall dated h -> Forall dated (VersionDetector.pushExisting e h).
Proof.
  intros F. unfold VersionDetector.pushExisting.
  destruct (Storage.created_at e) as [c|]; [|exact F].
  destruct (_ || _); [exact F|].
  apply Forall_app. split; [exact F|]. repeat constructor. apply dated_entry.
Qed.

Lemma dated_pushPrice (l : Storage.Row) (h : list PriceEntry) :
  Forall dated h -> Forall dated (ManualLinks.pushPrice l h).
Proof.
  intros F. unfold ManualLinks.pushPrice.
  destruct (ManualLinks.orElse _ _) as [d|]; [|exact F].
  destruct (ManualLinks.parsePrice _) as [p|]; [|exact F].
  destruct (_ || _); [exact F|].
  apply Forall_app. split; [exact F|]. repeat constructor. apply dated_entry.
Qed.

(** Whatever the clock reads, every version link leaves the price history
    in ascending order of date, if its dates were whole numbers. *)
Theorem relink_sorts (h : list PriceEntry) (op : VersionLink) :
  Forall dated h ->
  Forall dated (relink h op) /\ ascending (relink h op).
Proof.
  intros F. destruct op as [now p e|now p e|n o]; cbn [relink].
  - apply sort_ascending; [reflexivity|]. apply Forall_app.
    split; [now apply dated_pushExisting|].
    destruct p; repeat constructor. apply dated_entry.
  - apply sort_ascending; [reflexivity|]. apply Forall_app.
    split; [now apply dated_pushExisting|].
    repeat constructor. apply dated_entry.
  - apply sort_ascending; [reflexivity|].
    now apply dated_pushPrice, dated_pushPrice.
Qed.

Lemma relink_sorts_witness :
  Forall dated (relink [Entry (ofZ 70) Null; Entry (ofZ 30) Null]
                       (Linked 50 (Some (ofZ 900)) DetectorFacts.stored))
  /\ ascending (relink [Entry (ofZ 70) Null; Entry (ofZ 30) Null]
                       (Linked 50 (Some (ofZ 900)) DetectorFacts.stored)).
Proof.
  apply relink_sorts. repeat constructor.
Defined.

Lemma sort_sorted_same (le : PriceEntry -> PriceEntry -> bool)
  (h : list PriceEntry) :
  StronglySorted (fun a b => le a b = true) h -> sort le h = h.
Proof.
  intros S. induction S as [|a l S IH F]; [reflexivity|].
  cbn [sort]. rewrite IH. destruct l as [|b l']; [reflexivity|].
  cbn [insert]. rewrite Forall_forall in F. now rewrite (F b (or_introl eq_refl)).
Qed.

Lemma pushPrice_present (l : Storage.Row) (h : list PriceEntry) (d : Z)
  (p : number) :
  ManualLinks.orElse (Storage.published_at l) (Storage.created_at l) = Some d ->
  d <> 0%Z ->
  ManualLinks.parsePrice (Storage.price l) = Some p ->
  ManualLinks.hasDate (ofZ d) (ManualLinks.pushPrice l h) = true.
Proof.
  intros D N P. unfold ManualLinks.pushPrice. rewrite D, P.
  apply Z.eqb_neq in N. rewrite N. cbn [orb].
  destruct (ManualLinks.hasDate (ofZ d) h) eqn:E; [exact E|].
  unfold ManualLinks.hasDate. rewrite existsb_app. cbn [existsb date].
  rewrite eqb_ofZ, Z.eqb_refl. now rewrite !orb_true_r.
Qed.

Lemma hasDate_kept (d : number) (h h' : list PriceEntry) :
  (forall e, In e h -> In e h') ->
  ManualLinks.hasDate d h = true -> ManualLinks.hasDate d h' = true.
Proof.
  unfold ManualLinks.hasDate. rewrite !existsb_exists.
  intros H [e [A B]]. exists e. split; [now apply H | exact B].
Qed.

Lemma pushPrice_keeps (l : Storage.Row) (h : list PriceEntry) (e : PriceEntry) :
  In e h -> In e (ManualLinks.pushPrice l h).
Proof.
  intros H. unfold ManualLinks.pushPrice.
  destruct (ManualLinks.orElse _ _); [|exact H].
  destruct (ManualLinks.parsePrice _); [|exact H].
  destruct (_ || _); [exact H|].
  apply in_app_iff. now left.
Qed.

Lemma pushPrice_settled (l : Storage.Row) (h : list PriceEntry) :
  (forall d p,
      ManualLinks.orElse (Storage.published_at l) (Storage.created_at l)
      = Some d ->
      d <> 0%Z ->
      ManualLinks.parsePrice (Storage.price l) = Some p ->
      ManualLinks.hasDate (ofZ d) h = true) ->
  ManualLinks.pushPrice l h = h.
Proof.
  intros H. unfold ManualLinks.pushPrice.
  destruct (ManualLinks.orElse _ _) as [d|]; [|reflexivity].
  destruct (ManualLinks.parsePrice _) as [p|]; [|reflexivity].
  destruct (Z.eqb_spec d 0) as [Z0|N]; [reflexivity|]. cbn [orb].
  now rewrite (H d p eq_refl N eq_refl).
Qed.

Lemma sorted_by_comparator (le : PriceEntry -> PriceEntry -> bool)
  (h : list PriceEntry) :
  (forall a b, le a b = keeps_order (sub (date a) (date b))) ->
  Forall dated h -> ascending h ->
  StronglySorted (fun a b => le a b = true) h.
Proof.
  intros Hle F S. induction S as [|a l S IH A]; constructor.
  - apply IH. now inversion F.
  - inversion F as [|? ? Da Dl]; subst. rewrite Forall_forall in *.
    intros b Hb. rewrite Hle, (byDate_stamp Da (Dl b Hb)).
    apply Z.leb_le. now apply A.
Qed.

(** [updatePriceHistory] is idempotent on the history: merging the same two
    listings into the merged history again changes nothing. *)
Theorem mergedEntries_again (newerListing olderListing : Storage.Row)
  (h : list PriceEntry) :
  Forall dated h ->
  ManualLinks.mergedEntries newerListing olderListing
    (ManualLinks.mergedEntries newerListing olderListing h)
  = ManualLinks.mergedEntries newerListing olderListing h.
Proof.
  intros F. unfold ManualLinks.mergedEntries.
  set (once := ManualLinks.pushPrice olderListing h).
  set (pushed := ManualLinks.pushPrice newerListing once).
  set (merged := sort ManualLinks.byDate pushed).
  assert (forall e, In e pushed -> In e merged) as Keep.
  { intros e He. apply KeySort.sort_in. exact He. }
  assert (Forall dated pushed) as Fp
      by (now apply dated_pushPrice, dated_pushPrice).
  destruct (@sort_ascending ManualLinks.byDate pushed (fun _ _ => eq_refl) Fp)
    as [Fm Am]. fold merged in Fm, Am.
  rewrite (@pushPrice_settled olderListing merged).
  - rewrite (@pushPrice_settled newerListing merged).
    + apply sort_sorted_same.
      now apply sorted_by_comparator.
    + intros d p D N P. apply (@hasDate_kept _ pushed merged Keep).
      exact (@pushPrice_present newerListing once d p D N P).
  - intros d p D N P. apply (@hasDate_kept _ once merged).
    + intros e He. apply Keep. now apply pushPrice_keeps.
    + exact (@pushPrice_present olderListing h d p D N P).
Qed.

Lemma mergedEntries_again_witness :
  ManualLinks.mergedEntries HistoryFacts.relisted DetectorFacts.stored
    (ManualLinks.mergedEntries HistoryFacts.relisted DetectorFacts.stored
                               [Entry (ofZ 70) Null])
  = ManualLinks.mergedEntries HistoryFacts.relisted DetectorFacts.stored
                              [Entry (ofZ 70) Null].
Proof.
  apply mergedEntries_again. repeat constructor.
Defined.

End HistoryMore.

(** ** Further properties of the version detection *)

Module DetectionMore.

Import Js Str Val Data VersionDetector DetectorFacts.
Local Open Scope string_scope.
Local Open Scope list_scope.
Local Open Scope nat_scope.

Section Detection.

Variable shortest : Qc -> string.

Lemma hex16_nonempty (input : string) : nonempty (Sha256.hex16 input) = true.
Proof.
  pose proof (HashFacts.hex16_length input) as L.
  destruct (Sha256.hex16 input); [discriminate | reflexivity].
Qed.

Lemma strictIdentity_nonempty (l : Listing) (p : string) :
  strictIdentity shortest l = Some p -> nonempty p = true.
Proof.
  unfold strictIdentity, PropertyIdentity.computePropertyIdentity.
  destruct (negb (Str.truthy (address l))); [discriminate|].
  destruct (negb (nonempty _)); [discriminate|].
  intros E. injection E as <-. apply hex16_nonempty.
Qed.

(** A row [findListingByPropertyIdentity] considers for a listing. *)
Definition sameProperty (jobId p : string) (own : option string)
  (r : Storage.Row) : Prop :=
  Storage.job_id r = jobId
  /\ Storage.property_identity r = Some p
  /\ forall h, own = Some h -> nonempty h = true -> Storage.hash r <> h.

Lemma findListingByPropertyIdentity_spec (st : Storage.Store)
  (jobId p : string) (own : option string) :
  nonempty p = true ->
  match Storage.findListingByPropertyIdentity st jobId (Some p) own with
  | Some e =>
      In e (Storage.listings st) /\ sameProperty jobId p own e
      /\ forall r, In r (Storage.listings st) -> sameProperty jobId p own r ->
                   Storage.created_before e r = false
  | None =>
      forall r, In r (Storage.listings st) -> ~ sameProperty jobId p own r
  end.
Proof.
  intros T. unfold Storage.findListingByPropertyIdentity. rewrite T.
  cbn [negb].
  set (q := fun r : Storage.Row =>
              String.eqb (Storage.job_id r) jobId
              && match Storage.property_identity r with
                 | Some x => String.eqb x p
                 | None => false
                 end
              && match own with
                 | Some e => if nonempty e
                             then negb (String.eqb (Storage.hash r) e)
                             else true
                 | None => true
                 end).
  assert (forall r, q r = true <-> sameProperty jobId p own r) as Q.
  { intros r. unfold q, sameProperty. rewrite !andb_true_iff, String.eqb_eq.
    assert ((match Storage.property_identity r with
             | Some x => String.eqb x p
             | None => false
             end = true) <-> Storage.property_identity r = Some p) as ->.
    { destruct (Storage.property_identity r) as [x|].
      - rewrite String.eqb_eq. split; congruence.
      - split; discriminate. }
    assert ((match own with
             | Some e => if nonempty e
                         then negb (String.eqb (Storage.hash r) e)
                         else true
             | None => true
             end = true)
            <-> forall h, own = Some h -> nonempty h = true ->
                          Storage.hash r <> h) as ->.
    { destruct own as [e|].
      - destruct (nonempty e) eqn:Ne.
        + rewrite negb_true_iff, String.eqb_neq. split.
          * intros H h Eh _. congruence.
          * intros H. now apply H.
        + split; [|reflexivity]. intros _ h Eh Nh. congruence.
      - split; [|reflexivity]. intros _ h Eh. discriminate. }
    tauto. }
  pose proof (mostRecent_spec (filter q (Storage.listings st))) as M.
  destruct (Storage.mostRecent (filter q (Storage.listings st))) as [e|].
  - destruct M as [M1 M2]. apply filter_In in M1. destruct M1 as [M1 M3].
    split; [exact M1|]. split; [now apply Q|].
    intros r Hr C. apply M2. apply filter_In. split; [exact Hr | now apply Q].
  - intros r Hr C. apply Q in C.
    assert (In r (filter q (Storage.listings st))) as F
        by (apply filter_In; now split).
    rewrite M in F. destruct F.
Qed.

(** [detectVersion] leaves a listing without a strict identity as it is.
    Otherwise it stores the identity and, if the tables hold a row of the
    job with that identity and another hash, links the listing to the most
    recently created such row and records both prices; nothing else of the
    listing changes. *)
Theorem detectVersion_links_most_recent (st : Storage.Store)
  (jobId : string) (now : Z) (l : Listing) :
  match strictIdentity shortest l with
  | None => detectVersion shortest st jobId now l = (l, false)
  | Some p =>
      let identified := setPropertyIdentity (Some p) l in
      match Storage.findListingByPropertyIdentity st jobId (Some p) (id l) with
      | Some e =>
          detectVersion shortest st jobId now l
          = (setVersion (Some (Storage.id e))
                        (Changes (Some (detectedHistory now l e)))
                        identified, true)
          /\ In e (Storage.listings st)
          /\ sameProperty jobId p (id l) e
          /\ forall r, In r (Storage.listings st) ->
                       sameProperty jobId p (id l) r ->
                       Storage.created_before e r = false
      | None =>
          detectVersion shortest st jobId now l = (identified, false)
          /\ forall r, In r (Storage.listings st) ->
                       ~ sameProperty jobId p (id l) r
      end
  end.
Proof.
  destruct (strictIdentity shortest l) as [p|] eqn:E.
  - pose proof (strictIdentity_nonempty _ E) as T. cbv zeta.
    pose proof (@findListingByPropertyIdentity_spec st jobId p (id l) T) as F.
    unfold detectVersion. rewrite E, T. cbn [negb].
    change (id (setPropertyIdentity (Some p) l)) with (id l).
    destruct (Storage.findListingByPropertyIdentity st jobId (Some p) (id l))
      as [e|].
    + split; [reflexivity | exact F].
    + split; [reflexivity | exact F].
  - unfold detectVersion. now rewrite E.
Qed.


Lemma fuzzyIdentity_nonempty (l : Listing) (key : string) :
  fuzzyIdentityOf shortest l = Some key -> nonempty key = true.
Proof.
  unfold fuzzyIdentityOf, FuzzyMatcher.computeFuzzyIdentity,
    FuzzyMatcher.identityOfParts.
  destruct (_ <? 4); [discriminate|]. intros E. injection E as <-.
  apply hex16_nonempty.
Qed.

(** *** The groups partition the listings that have a fuzzy identity *)

Lemma addToGroup_keeps (key : string) (ref : nat)
  (groups : list (string * list nat)) (k : string) (refs : list nat) :
  In (k, refs) groups ->
  exists refs', In (k, refs') (addToGroup key ref groups)
                /\ forall r, In r refs -> In r refs'.
Proof.
  induction groups as [|[k0 refs0] rest IH]; intros H; [destruct H|].
  cbn [addToGroup]. destruct (String.eqb k0 key) eqn:E.
  - destruct H as [H|H].
    + injection H as <- <-. exists (refs0 ++ [ref]). split; [now left|].
      intros r Hr. apply in_app_iff. now left.
    + exists refs. split; [now right | auto].
  - destruct H as [H|H].
    + exists refs. split; [now left | auto].
    + destruct (IH H) as [refs' [A B]]. exists refs'. split; [now right | exact B].
Qed.

Lemma addToGroup_adds (key : string) (ref : nat)
  (groups : list (string * list nat)) :
  exists refs, In (key, refs) (addToGroup key ref groups) /\ In ref refs.
Proof.
  induction groups as [|[k0 refs0] rest IH]; cbn [addToGroup].
  - exists [ref]. split; now left.
  - destruct (String.eqb k0 key) eqn:E.
    + apply String.eqb_eq in E. subst k0. exists (refs0 ++ [ref]).
      split; [now left|]. apply in_app_iff. right. now left.
    + destruct IH as [refs [A B]]. exists refs. split; [now right | exact B].
Qed.

(** Every listing with a fuzzy identity below [bound] is in the group of
    that identity. *)
Definition covered (heap : list Listing) (bound : nat)
  (groups : list (string * list nat)) : Prop :=
  forall r l key,
    r < bound -> nth_error heap r = Some l ->
    fuzzyIdentityOf shortest l = Some key ->
    exists refs, In (key, refs) groups /\ In r refs.

(** Every group is non-empty and in the order of the batch, with members
    below [bound]. *)
Definition lined (bound : nat) (groups : list (string * list nat)) : Prop :=
  forall key refs, In (key, refs) groups ->
    refs <> [] /\ StronglySorted lt refs /\ forall r, In r refs -> r < bound.

Lemma sorted_snoc (refs : list nat) (ref : nat) :
  StronglySorted lt refs -> (forall r, In r refs -> r < ref) ->
  StronglySorted lt (refs ++ [ref]).
Proof.
  intros S. induction S as [|a l S IH F]; intros B; cbn [app].
  - repeat constructor.
  - constructor.
    + apply IH. intros r Hr. apply B. now right.
    + apply Forall_app. split; [exact F|]. repeat constructor.
      apply B. now left.
Qed.

Lemma groupFrom_covers (heap : list Listing) (listings : list Listing) :
  forall before groups,
    heap = before ++ listings ->
    covered heap (List.length before) groups ->
    lined (List.length before) groups ->
    covered heap (List.length heap)
            (groupFrom shortest (List.length before) listings groups)
    /\ lined (List.length heap)
             (groupFrom shortest (List.length before) listings groups).
Proof.
  induction listings as [|l rest IH]; intros before groups E C L;
    cbn [groupFrom].
  - subst heap. rewrite app_nil_r in *. auto.
  - assert (heap = (before ++ [l]) ++ rest) as E'
        by (rewrite <- app_assoc; exact E).
    assert (List.length (before ++ [l]) = S (List.length before)) as Len
        by (rewrite length_app; simpl; lia).
    assert (nth_error heap (List.length before) = Some l) as Here.
    { rewrite E, nth_error_app2 by lia. now rewrite Nat.sub_diag. }
    rewrite <- Len. apply IH; [exact E'| |]; rewrite Len.
    + intros r x key B Hx Fx.
      destruct (Nat.eq_dec r (List.length before)) as [->|Nr].
      * rewrite Here in Hx. injection Hx as <-. rewrite Fx.
        rewrite (fuzzyIdentity_nonempty _ Fx). apply addToGroup_adds.
      * destruct (C r x key ltac:(lia) Hx Fx) as [refs [A B']].
        destruct (fuzzyIdentityOf shortest l) as [k|] eqn:Fl;
          [rewrite (fuzzyIdentity_nonempty _ Fl)|];
          [|exists refs; now split].
        destruct (addToGroup_keeps k (List.length before) _ _ _ A)
          as [refs' [A' K]].
        exists refs'. split; [exact A' | now apply K].
    + intros key refs H.
      assert (forall x : list nat,
                x <> [] /\ StronglySorted lt x
                /\ (forall r, In r x -> r < List.length before) ->
                x <> [] /\ StronglySorted lt x
                /\ (forall r, In r x -> r < S (List.length before)))
        as Up.
      { intros x [A [B D]]. repeat split; auto.
        intros r Hr. specialize (D r Hr). lia. }
      destruct (fuzzyIdentityOf shortest l) as [k|] eqn:Fl;
        [rewrite (fuzzyIdentity_nonempty _ Fl) in H|];
        [|apply Up, (L key refs H)].
      destruct (in_addToGroup _ _ _ _ _ H) as [H1|[-> [->|[old [H1 ->]]]]].
      * apply Up, (L key refs H1).
      * repeat split; [discriminate | repeat constructor |].
        intros r [<-|[]]. lia.
      * destruct (L k old H1) as [A [B D]]. repeat split.
        -- destruct old; discriminate.
        -- now apply sorted_snoc.
        -- intros r Hr. apply in_app_iff in Hr.
           destruct Hr as [Hr|[<-|[]]]; [specialize (D r Hr)|]; lia.
Qed.

Lemma one_group (groups : list (string * list nat)) (key : string)
  (a b : list nat) :
  NoDup (map fst groups) -> In (key, a) groups -> In (key, b) groups -> a = b.
Proof.
  induction groups as [|[k refs] rest IH]; intros N Ha Hb; [destruct Ha|].
  cbn [map fst] in N. apply NoDup_cons_iff in N. destruct N as [N1 N2].
  assert (forall x, In (key, x) rest -> k <> key) as Other.
  { intros x Hx E. apply N1. rewrite E. apply in_map_iff.
    exists (key, x). now split. }
  destruct Ha as [Ha|Ha], Hb as [Hb|Hb].
  - congruence.
  - injection Ha as Ek _. now elim (Other b Hb).
  - injection Hb as Ek _. now elim (Other a Ha).
  - now apply IH.
Qed.

(** [groupByFuzzyIdentity] partitions the listings that have a fuzzy
    identity: one group for each identity, holding in batch order exactly
    the listings with that identity. *)
Theorem groupByFuzzyIdentity_partitions (heap : list Listing) :
  NoDup (map fst (groupByFuzzyIdentity shortest heap))
  /\ NoDup (refsOf (groupByFuzzyIdentity shortest heap))
  /\ forall key refs,
       In (key, refs) (groupByFuzzyIdentity shortest heap) ->
       refs <> [] /\ StronglySorted lt refs
       /\ forall r, In r refs <->
                    exists l, nth_error heap r = Some l
                              /\ fuzzyIdentityOf shortest l = Some key.
Proof.
  destruct (groups_placed shortest heap) as [P [N K]].
  destruct (@groupFrom_covers heap heap [] []) as [C L];
    [reflexivity | intros r l key B; cbn in B; lia | intros key refs [] |].
  fold (groupByFuzzyIdentity shortest heap) in C, L.
  split; [exact K|]. split; [exact N|].
  intros key refs H. destruct (L key refs H) as [A [B _]].
  split; [exact A|]. split; [exact B|]. intros r. split.
  - intros Hr. destruct (P key refs r H Hr) as [_ [_ E]]. exact E.
  - intros [l [El Fl]].
    assert (r < List.length heap) as Br
        by (apply nth_error_Some; congruence).
    destruct (C r l key Br El Fl) as [refs' [H' Hr]].
    now rewrite (@one_group _ key refs refs' K H H').
Qed.


(** *** What the batch function changes *)

(** The fields of a listing that the detection only reads. *)
Definition core (l : Listing) :=
  (id l, hash l, title l, address l, price l,
   (size l, rooms l, latitude l, longitude l, publishedAt l, fuzzyIdentity l)).

Definition kept (heap heap' : list Listing) : Prop :=
  forall j, option_map core (nth_error heap' j)
            = option_map core (nth_error heap j).

Lemma kept_refl (heap : list Listing) : kept heap heap.
Proof. intros j. reflexivity. Qed.

Lemma kept_trans (h1 h2 h3 : list Listing) :
  kept h1 h2 -> kept h2 h3 -> kept h1 h3.
Proof. intros A B j. now rewrite B, A. Qed.

Lemma modify_kept (i : nat) (f : Listing -> Listing) (heap : list Listing) :
  (forall l, core (f l) = core l) -> kept heap (modify i f heap).
Proof.
  intros H j. destruct (Nat.eq_dec i j) as [<-|N].
  - rewrite modify_same. destruct (nth_error heap i); simpl; [|reflexivity].
    now rewrite H.
  - now rewrite modify_other.
Qed.

Variable Date_now : nat -> Z.

Lemma markChain_kept (refs : list nat) :
  forall heap, kept heap (markChain refs heap).
Proof.
  induction refs as [|a [|b t] IH]; intros heap; try apply kept_refl.
  rewrite markChain_step. eapply kept_trans; [|apply IH].
  apply modify_kept. reflexivity.
Qed.

Lemma linkToMatch_kept (dbMatches : string -> option Storage.Row)
  (key : string) (i : nat) (st : State) :
  kept (batch st) (batch (linkToMatch Date_now dbMatches key i st)).
Proof.
  unfold linkToMatch, linkListingToExisting.
  destruct (dbMatches key); [|apply kept_refl].
  destruct (nth_error (batch st) i); [|apply kept_refl]. cbn [batch].
  apply modify_kept. reflexivity.
Qed.

Lemma processGroup_kept (dbMatches : string -> option Storage.Row)
  (st : State) (group : string * list nat) :
  kept (batch st) (batch (processGroup Date_now dbMatches st group)).
Proof.
  destruct group as [key refs]. unfold processGroup.
  destruct refs as [|a [|b t]].
  - apply markChain_kept.
  - apply linkToMatch_kept.
  - destruct (sort _ _) eqn:Es.
    + cbn [batch markChain]. apply kept_refl.
    + rewrite <- Es. eapply kept_trans; [|apply linkToMatch_kept].
      cbn [batch]. apply markChain_kept.
Qed.

Lemma groups_kept (dbMatches : string -> option Storage.Row)
  (groups : list (string * list nat)) :
  forall st,
    kept (batch st)
         (batch (fold_left (processGroup Date_now dbMatches) groups st)).
Proof.
  induction groups as [|g rest IH]; intros st; [apply kept_refl|].
  cbn [fold_left]. eapply kept_trans; [|apply IH]. apply processGroup_kept.
Qed.

Lemma detectVersion_core (db : Storage.Store) (jobId : string) (now : Z)
  (l : Listing) :
  core (fst (detectVersion shortest db jobId now l)) = core l.
Proof.
  unfold detectVersion. destruct (strictIdentity shortest l) as [p|];
    [|reflexivity].
  destruct (negb (nonempty p)); [reflexivity|].
  destruct (Storage.findListingByPropertyIdentity _ _ _ _); reflexivity.
Qed.

Lemma detectVersionAt_kept (jobId : string) (i : nat) (st : State) :
  kept (batch st) (batch (detectVersionAt shortest Date_now jobId i st)).
Proof.
  unfold detectVersionAt.
  destruct (nth_error (batch st) i) as [l|] eqn:E; [|apply kept_refl].
  pose proof (detectVersion_core (db st) jobId (Date_now (reads st)) l) as C.
  destruct (detectVersion _ _ _ _ _) as [l' read]. cbn [batch fst] in *.
  intros j. destruct (Nat.eq_dec i j) as [<-|N].
  - rewrite modify_same, E. cbn [option_map]. now rewrite C.
  - now rewrite modify_other.
Qed.

Lemma detect_kept (jobId : string) (positions : list nat) :
  forall st,
    kept (batch st)
         (batch (fold_left
                   (fun st i => detectVersionAt shortest Date_now jobId i st)
                   positions st)).
Proof.
  induction positions as [|i rest IH]; intros st; [apply kept_refl|].
  cbn [fold_left]. eapply kept_trans; [|apply IH]. apply detectVersionAt_kept.
Qed.

(** The steps of [detectVersionsWithBatchAwareness] on a batch that is not
    empty. *)
Lemma batch_steps (jobId : string) (s : State) :
  batch s <> [] ->
  detectVersionsWithBatchAwareness shortest Date_now jobId s
  = fold_left (fun st i => detectVersionAt shortest Date_now jobId i st)
      (noIdentity
         (batch (fold_left
                   (processGroup Date_now (matchesOf shortest jobId s))
                   (groupsOf shortest s)
                   (MkState (identified shortest s) (db s) (reads s)))))
      (fold_left (processGroup Date_now (matchesOf shortest jobId s))
                 (groupsOf shortest s)
                 (MkState (identified shortest s) (db s) (reads s))).
Proof.
  intros N. destruct (groupsOf shortest s) as [|g rest] eqn:G.
  - unfold detectVersionsWithBatchAwareness, groupsOf, identified, identify
      in *.
    destruct (batch s) as [|l t]; [now elim N|]. rewrite G. reflexivity.
  - rewrite <- G. apply batch_unfold. rewrite G. discriminate.
Qed.

(** The batch keeps its listings in place: each comes back with the fields
    the detection reads unchanged and with its computed fuzzy identity.
    Only the strict identity, the version link, the change set and the
    batch marker can differ. *)
Theorem batch_keeps_listings (jobId : string) (s : State) (j : nat) :
  option_map core
    (nth_error
       (batch (detectVersionsWithBatchAwareness shortest Date_now jobId s)) j)
  = option_map
      (fun l => (id l, hash l, title l, address l, price l,
                 (size l, rooms l, latitude l, longitude l, publishedAt l,
                  fuzzyIdentityOf shortest l)))
      (nth_error (batch s) j).
Proof.
  assert (option_map core (nth_error (identified shortest s) j)
          = option_map
              (fun l => (id l, hash l, title l, address l, price l,
                         (size l, rooms l, latitude l, longitude l,
                          publishedAt l, fuzzyIdentityOf shortest l)))
              (nth_error (batch s) j)) as Start.
  { unfold identified. rewrite nth_error_map.
    destruct (nth_error (batch s) j); reflexivity. }
  destruct (batch s) as [|l t] eqn:B.
  - unfold detectVersionsWithBatchAwareness. rewrite B.
    rewrite B. destruct j; reflexivity.
  - rewrite <- Start. rewrite batch_steps by (rewrite B; discriminate).
    rewrite (detect_kept jobId _ _ j).
    exact (groups_kept (matchesOf shortest jobId s) (groupsOf shortest s)
                       (MkState (identified shortest s) (db s) (reads s)) j).
Qed.


(** *** What the batch function does to the tables *)

(** The rows the groups are linked to. *)
Definition matchedIds (jobId : string) (s : State) : list string :=
  flat_map (fun group : string * list nat =>
              match matchesOf shortest jobId s (fst group) with
              | Some dbMatch => [Storage.id dbMatch]
              | None => []
              end)
           (groupsOf shortest s).

Definition supersede (ids : list string) (r : Storage.Row) : Storage.Row :=
  if Storage.mem (Storage.id r) ids && nonempty (Storage.id r)
  then Storage.setSuperseded true r else r.

Lemma supersede_marked (ids : list string) (x : string) (st : Storage.Store) :
  map (supersede ids)
      (Storage.listings (Storage.markListingAsSuperseded x st))
  = map (supersede (x :: ids)) (Storage.listings st).
Proof.
  unfold Storage.markListingAsSuperseded.
  assert (forall r, supersede ids (Storage.setSuperseded true r)
                    = Storage.setSuperseded true r) as Twice.
  { intros r. unfold supersede. cbn [Storage.id Storage.setSuperseded].
    now destruct (Storage.mem (Storage.id r) ids && nonempty (Storage.id r)). }
  destruct (nonempty x) eqn:Nx; cbn [negb Storage.updateRows Storage.listings];
    rewrite ?map_map; apply map_ext; intros r;
    unfold supersede at 2, Storage.mem; cbn [existsb];
    fold (Storage.mem (Storage.id r) ids); unfold Storage.is_id.
  - destruct (String.eqb (Storage.id r) x) eqn:E; [|reflexivity].
    apply String.eqb_eq in E. rewrite E, Nx. cbn [orb andb]. apply Twice.
  - destruct (String.eqb (Storage.id r) x) eqn:E; [|reflexivity].
    apply String.eqb_eq in E. rewrite E, Nx.
    unfold supersede. rewrite E, Nx. now rewrite !andb_false_r.
Qed.

Lemma linkToMatch_db (dbMatches : string -> option Storage.Row)
  (key : string) (i : nat) (st : State) (l : Listing) :
  nth_error (batch st) i = Some l ->
  db (linkToMatch Date_now dbMatches key i st)
  = match dbMatches key with
    | Some dbMatch =>
        Storage.markListingAsSuperseded (Storage.id dbMatch) (db st)
    | None => db st
    end.
Proof.
  intros E. unfold linkToMatch, linkListingToExisting.
  destruct (dbMatches key); [|reflexivity]. now rewrite E.
Qed.

Lemma processGroup_db (dbMatches : string -> option Storage.Row)
  (st : State) (key : string) (refs : list nat) :
  refs <> [] ->
  (forall r, In r refs -> nth_error (batch st) r <> None) ->
  db (processGroup Date_now dbMatches st (key, refs))
  = match dbMatches key with
    | Some dbMatch =>
        Storage.markListingAsSuperseded (Storage.id dbMatch) (db st)
    | None => db st
    end.
Proof.
  intros Ne V. unfold processGroup.
  destruct refs as [|a [|b t]]; [now elim Ne | |].
  - destruct (nth_error (batch st) a) as [l|] eqn:E;
      [|now elim (V a (or_introl eq_refl))].
    exact (linkToMatch_db dbMatches key a st E).
  - set (sorted := sort (newestFirst (batch st)) (a :: b :: t)).
    assert (sorted <> []) as Ns.
    { intros E. pose proof (Permutation_length
                              (SortFacts.sort_perm (newestFirst (batch st))
                                                   (a :: b :: t))) as L.
      fold sorted in L. rewrite E in L. discriminate. }
    destruct sorted as [|c u] eqn:Es; [now elim Ns|]. rewrite <- Es in *.
    assert (In (last sorted 0) (a :: b :: t)) as Hl.
    { apply (Permutation_in _ (Permutation_sym
                                 (SortFacts.sort_perm (newestFirst (batch st))
                                                      (a :: b :: t)))).
      fold sorted. apply (nth_error_In _ (List.length sorted - 1)).
      now apply nth_error_last. }
    destruct (nth_error (markChain sorted (batch st)) (last sorted 0))
      as [l|] eqn:E.
    + exact (linkToMatch_db dbMatches key (last sorted 0)
                            (MkState (markChain sorted (batch st)) (db st)
                                     (reads st)) E).
    + exfalso. apply (V _ Hl).
      pose proof (markChain_anchored sorted (batch st) (last sorted 0)) as A.
      rewrite E in A. destruct (nth_error (batch st) (last sorted 0));
        [discriminate | reflexivity].
Qed.

Lemma supersede_none (rows : list Storage.Row) :
  map (supersede []) rows = rows.
Proof.
  rewrite <- (map_id rows) at 2. apply map_ext. reflexivity.
Qed.

Lemma supersede_ext (ids ids' : list string) (rows : list Storage.Row) :
  (forall x, In x ids <-> In x ids') ->
  map (supersede ids) rows = map (supersede ids') rows.
Proof.
  intros H. apply map_ext. intros r. unfold supersede.
  assert (Storage.mem (Storage.id r) ids = Storage.mem (Storage.id r) ids')
    as ->; [|reflexivity].
  apply eq_true_iff_eq. unfold Storage.mem. rewrite !existsb_exists.
  split; intros [y [A B]]; exists y; (split; [now apply H | exact B]).
Qed.

Lemma groups_db (dbMatches : string -> option Storage.Row)
  (groups : list (string * list nat)) :
  forall st ids,
    (forall key refs, In (key, refs) groups ->
       refs <> []
       /\ forall r, In r refs -> nth_error (batch st) r <> None) ->
    map (supersede ids)
        (Storage.listings
           (db (fold_left (processGroup Date_now dbMatches) groups st)))
    = map (supersede
             (rev (flat_map (fun group : string * list nat =>
                               match dbMatches (fst group) with
                               | Some dbMatch => [Storage.id dbMatch]
                               | None => []
                               end) groups) ++ ids))
          (Storage.listings (db st))
    /\ Storage.links
         (db (fold_left (processGroup Date_now dbMatches) groups st))
       = Storage.links (db st).
Proof.
  induction groups as [|[key refs] rest IH]; intros st ids V.
  - split; reflexivity.
  - cbn [fold_left flat_map fst].
    destruct (V key refs (or_introl eq_refl)) as [Ne Vr].
    destruct (IH (processGroup Date_now dbMatches st (key, refs)) ids)
      as [R L].
    { intros k members Hk. destruct (V k members (or_intror Hk)) as [A B].
      split; [exact A|]. intros r Hr E. apply (B r Hr).
      pose proof (processGroup_anchored Date_now dbMatches st (key, refs) r)
        as An.
      rewrite E in An. destruct (nth_error (batch st) r);
        [discriminate | reflexivity]. }
    rewrite R, L, (processGroup_db dbMatches st key Ne Vr).
    destruct (dbMatches key) as [e|]; cbn [app rev].
    + split.
      * rewrite supersede_marked. apply supersede_ext. intros x.
        cbn [In]. rewrite !in_app_iff. cbn [In]. tauto.
      * unfold Storage.markListingAsSuperseded.
        now destruct (negb (nonempty (Storage.id e))).
    + split; reflexivity.
Qed.

Lemma detect_db (jobId : string) (positions : list nat) :
  forall st,
    db (fold_left (fun st i => detectVersionAt shortest Date_now jobId i st)
                  positions st) = db st.
Proof.
  induction positions as [|i rest IH]; intros st; [reflexivity|].
  cbn [fold_left]. rewrite IH. unfold detectVersionAt.
  destruct (nth_error (batch st) i); [|reflexivity].
  now destruct (detectVersion _ _ _ _ _).
Qed.

(** The only change to the tables: the rows the groups are linked to are
    marked as superseded; no link is touched. *)
Theorem batch_supersedes_matches (jobId : string) (s : State) :
  Storage.listings
    (db (detectVersionsWithBatchAwareness shortest Date_now jobId s))
  = map (supersede (matchedIds jobId s)) (Storage.listings (db s))
  /\ Storage.links
       (db (detectVersionsWithBatchAwareness shortest Date_now jobId s))
     = Storage.links (db s).
Proof.
  destruct (batch s) as [|l t] eqn:B.
  - unfold detectVersionsWithBatchAwareness, matchedIds, groupsOf, identified.
    rewrite B. cbn [map flat_map]. unfold groupByFuzzyIdentity.
    cbn [groupFrom flat_map]. now rewrite supersede_none.
  - rewrite batch_steps by (rewrite B; discriminate). rewrite detect_db.
    destruct (groups_placed shortest (identified shortest s)) as [P _].
    destruct (@groupFrom_covers (identified shortest s)
                                (identified shortest s) [] [])
      as [_ L];
      [reflexivity | intros r x key Hr; cbn in Hr; lia | intros key refs [] |].
    destruct (@groups_db (matchesOf shortest jobId s) (groupsOf shortest s)
                         (MkState (identified shortest s) (db s) (reads s)) [])
      as [R Lk].
    { intros key refs H. split; [exact (proj1 (L key refs H))|].
      intros r Hr. destruct (P key refs r H Hr) as [_ [_ [x [E _]]]].
      cbn [batch]. congruence. }
    split; [|exact Lk]. rewrite supersede_none in R. rewrite R.
    cbn [db]. apply supersede_ext. intros x. rewrite app_nil_r.
    unfold matchedIds. now rewrite <- in_rev.
Qed.


(** *** Listings that are alone in their group, or in none *)

Lemma withoutIdentity_from (listings : list Listing) :
  forall ref j, In j (withoutIdentity ref listings) -> ref <= j.
Proof.
  intros ref j H. destruct (@withoutIdentity_spec listings ref j H)
    as [l [_ [B _]]]. exact B.
Qed.

Lemma withoutIdentity_distinct (listings : list Listing) :
  forall ref, NoDup (withoutIdentity ref listings).
Proof.
  induction listings as [|l rest IH]; intros ref; cbn [withoutIdentity];
    [constructor|].
  destruct (Str.truthy (fuzzyIdentity l)); [apply IH|].
  constructor; [|apply IH]. intros H.
  pose proof (withoutIdentity_from _ _ _ H). lia.
Qed.

Lemma withoutIdentity_complete (listings : list Listing) :
  forall ref j l,
    nth_error listings j = Some l -> Str.truthy (fuzzyIdentity l) = false ->
    In (ref + j) (withoutIdentity ref listings).
Proof.
  induction listings as [|x rest IH]; intros ref j l E T;
    [destruct j; discriminate|].
  cbn [withoutIdentity]. destruct j as [|j].
  - injection E as ->. rewrite T, Nat.add_0_r. now left.
  - cbn [nth_error] in E. replace (ref + S j) with (S ref + j) by lia.
    destruct (Str.truthy (fuzzyIdentity x)); [|right]; exact (IH _ _ _ E T).
Qed.

Lemma detect_at (jobId : string) (positions : list nat) (j : nat) (l : Listing) :
  forall st,
    NoDup positions -> In j positions -> nth_error (batch st) j = Some l ->
    exists now,
      nth_error
        (batch (fold_left
                  (fun st i => detectVersionAt shortest Date_now jobId i st)
                  positions st)) j
      = Some (fst (detectVersion shortest (db st) jobId now l)).
Proof.
  induction positions as [|i rest IH]; intros st N H E; [destruct H|].
  apply NoDup_cons_iff in N. destruct N as [N1 N2]. cbn [fold_left].
  destruct H as [->|H].
  - exists (Date_now (reads st)). rewrite detect_others by exact N1.
    unfold detectVersionAt. rewrite E.
    destruct (detectVersion _ _ _ _ _) as [l' read]. cbn [batch fst].
    now rewrite modify_same, E.
  - assert (i <> j) as Nij by (intros ->; contradiction).
    destruct (IH (detectVersionAt shortest Date_now jobId i st) N2 H)
      as [now R].
    + rewrite (@detectVersionAt_other shortest Date_now jobId i j st Nij).
      exact E.
    + exists now. rewrite R.
      pose proof (detect_db jobId [i] st) as D. cbn [fold_left] in D.
      now rewrite D.
Qed.

(** A listing without a fuzzy identity is handed to [detectVersion], which
    sees the tables as the groups left them. *)
Theorem unidentified_listing_is_detected (jobId : string) (s : State)
  (j : nat) (l : Listing) :
  nth_error (batch s) j = Some l ->
  fuzzyIdentityOf shortest l = None ->
  exists now,
    nth_error
      (batch (detectVersionsWithBatchAwareness shortest Date_now jobId s)) j
    = Some (fst (detectVersion
                   shortest
                   (db (detectVersionsWithBatchAwareness
                          shortest Date_now jobId s))
                   jobId now (identify shortest l))).
Proof.
  intros E F.
  assert (batch s <> []) as Ne by (intros B; rewrite B in E; destruct j; discriminate).
  rewrite (@batch_steps jobId s Ne).
  set (start := MkState (identified shortest s) (db s) (reads s)).
  set (after := fold_left (processGroup Date_now (matchesOf shortest jobId s))
                          (groupsOf shortest s) start).
  assert (nth_error (identified shortest s) j = Some (identify shortest l))
    as Ei by (unfold identified; now rewrite nth_error_map, E).
  destruct (groups_placed shortest (identified shortest s)) as [P _].
  assert (nth_error (batch after) j = Some (identify shortest l)) as Ea.
  { unfold after. rewrite groups_other; [exact Ei|].
    intros key refs H Hj. destruct (P key refs j H Hj) as [_ [_ [x [Ex Fx]]]].
    rewrite Ei in Ex. injection Ex as <-. rewrite fuzzy_identify in Fx.
    congruence. }
  rewrite detect_db.
  apply detect_at; [apply withoutIdentity_distinct | | exact Ea].
  apply (@withoutIdentity_complete (batch after) 0 j (identify shortest l) Ea).
  unfold identify. cbn [fuzzyIdentity setIdentities]. now rewrite F.
Qed.

(** A listing that is alone in its group gets no marker: it is linked to
    the match of its fuzzy identity in the tables, or left as identified. *)
Theorem single_listing_is_linked (jobId : string) (s : State)
  (key : string) (r : nat) :
  In (key, [r]) (groupsOf shortest s) ->
  exists l now,
    nth_error (batch s) r = Some l
    /\ nth_error
         (batch (detectVersionsWithBatchAwareness shortest Date_now jobId s)) r
       = Some match matchesOf shortest jobId s key with
              | Some dbMatch => linked now (identify shortest l) dbMatch
              | None => identify shortest l
              end.
Proof.
  intros G.
  destruct (groups_placed shortest (identified shortest s)) as [P [N K]].
  fold (groupsOf shortest s) in P, N, K.
  destruct (P key [r] r G (or_introl eq_refl)) as [_ [_ [x [Ex Fx]]]].
  assert (exists l, nth_error (batch s) r = Some l /\ x = identify shortest l)
    as [l [El ->]].
  { unfold identified in Ex. rewrite nth_error_map in Ex.
    destruct (nth_error (batch s) r) as [l|]; [|discriminate].
    injection Ex as <-. now exists l. }
  assert (batch s <> []) as Ne
      by (intros B; rewrite B in El; destruct r; discriminate).
  rewrite (@batch_steps jobId s Ne).
  set (dbMatches := matchesOf shortest jobId s).
  set (start := MkState (identified shortest s) (db s) (reads s)).
  destruct (in_split _ _ G) as [pre [post E]].
  set (before := fold_left (processGroup Date_now dbMatches) pre start).
  set (after := fold_left (processGroup Date_now dbMatches)
                          (groupsOf shortest s) start).
  assert (after = fold_left (processGroup Date_now dbMatches) post
                            (processGroup Date_now dbMatches before (key, [r])))
    as Ea by (unfold after, before; now rewrite E, fold_left_app).
  assert (~ In r (refsOf pre) /\ ~ In r (refsOf post)) as [Dp Dq].
  { unfold refsOf in *. rewrite E, map_app, concat_app in N.
    cbn [map List.concat snd app] in N. split.
    - intros H. apply (@disjoint_parts _ _ _ r N H). now left.
    - apply NoDup_app_remove_l in N. apply NoDup_cons_iff in N. tauto. }
  assert (nth_error (batch before) r = Some (identify shortest l)) as Eb.
  { unfold before. rewrite groups_other; [exact Ex|].
    now apply outside_refsOf. }
  exists l, (Date_now (reads before)). split; [exact El|].
  rewrite detect_others.
  - rewrite Ea, groups_other by (now apply outside_refsOf).
    unfold processGroup, linkToMatch.
    destruct (dbMatches key) as [e|]; [|exact Eb].
    now rewrite linkListingToExisting_same, Eb.
  - intros Hn. destruct (@noIdentity_spec _ _ Hn) as [l2 [E2 T2]].
    pose proof (groups_anchored Date_now dbMatches (groupsOf shortest s)
                                start r) as A.
    fold after in A. cbn [batch start] in A. rewrite E2, Ex in A.
    cbn [option_map] in A. unfold anchor in A. injection A as _ _ Af.
    rewrite Af in T2. unfold identify in T2.
    cbn [fuzzyIdentity setIdentities] in T2.
    rewrite fuzzy_identify in Fx. rewrite Fx in T2. cbn [Str.truthy] in T2.
    rewrite (fuzzyIdentity_nonempty _ Fx) in T2. discriminate.
Qed.

End Detection.

(** A batch of one listing, with its match in the tables. *)
Definition alone : State :=
  MkState [flat "h400" 400] (Storage.MkStore [stored] []) 0.

Lemma single_listing_is_linked_witness :
  exists l now,
    nth_error (batch alone) 0 = Some l
    /\ nth_error
         (batch (detectVersionsWithBatchAwareness
                   IdentityFacts.sample_shortest clock "job" alone)) 0
       = Some match matchesOf IdentityFacts.sample_shortest "job" alone
                              flatIdentity with
              | Some dbMatch =>
                  linked now (identify IdentityFacts.sample_shortest l) dbMatch
              | None => identify IdentityFacts.sample_shortest l
              end.
Proof.
  apply (@single_listing_is_linked
           IdentityFacts.sample_shortest clock "job" alone flatIdentity 0).
  vm_compute. left. reflexivity.
Defined.

(** A listing without an address has neither identity. *)
Definition bare : Listing :=
  MkListing (Some "h500") None None None Null Null Null Null Null Null
            None None None None None.

Lemma unidentified_listing_is_detected_witness :
  exists now,
    nth_error
      (batch (detectVersionsWithBatchAwareness
                IdentityFacts.sample_shortest clock "job"
                (MkState [bare] (Storage.MkStore [stored] []) 0))) 0
    = Some (fst (detectVersion
                   IdentityFacts.sample_shortest
                   (db (detectVersionsWithBatchAwareness
                          IdentityFacts.sample_shortest clock "job"
                          (MkState [bare] (Storage.MkStore [stored] []) 0)))
                   "job" now (identify IdentityFacts.sample_shortest bare))).
Proof.
  apply (@unidentified_listing_is_detected
           IdentityFacts.sample_shortest clock "job"
           (MkState [bare] (Storage.MkStore [stored] []) 0) 0 bare);
    vm_compute; reflexivity.
Defined.

End DetectionMore.

(** ** Further properties of the similarity scorer and its matchers *)

Module ScoringMore.

Import Js NumberFacts Str Val Data.
Local Open Scope string_scope.
Local Open Scope list_scope.

(** *** The order of the numbers *)

Lemma number_leb_trans (x y z : number) :
  leb x y = true -> leb y z = true -> leb x z = true.
Proof.
  destruct x as [| | |a], y as [| | |b], z as [| | |c]; simpl; trivial;
    try discriminate.
  rewrite !qleb_iff. apply Qcle_trans.
Qed.

Lemma number_leb_total (x y : number) :
  isNaN x = false -> isNaN y = false -> leb x y = true \/ leb y x = true.
Proof.
  destruct x as [| | |a], y as [| | |b]; simpl; auto; try discriminate.
  intros _ _. rewrite !qleb_iff.
  destruct (Qclt_le_dec a b) as [H|H]; [left; now apply Qclt_le_weak|now right].
Qed.

Lemma qle_difference (a b : Qc) : (a + - b <= 0 <-> a <= b)%Qc.
Proof.
  rewrite (Qcle_minus_iff a b), (Qcle_minus_iff (a + - b) 0).
  assert (E : (0 + - (a + - b) = b + - a)%Qc) by ring.
  now rewrite E.
Qed.

(** A comparator [a - b] orders numbers other than NaN by [<=]. *)
Lemma difference_orders (x y : number) :
  isNaN x = false -> isNaN y = false -> keeps_order (sub x y) = leb x y.
Proof.
  destruct x as [| | |a], y as [| | |b]; simpl; trivial; try discriminate.
  intros _ _. unfold keeps_order, sub. cbn [neg add isNaN orb leb ofZ].
  apply eq_true_iff_eq. rewrite !qleb_iff. apply qle_difference.
Qed.

Lemma leb_not_NaN (x y : number) : leb x y = true -> isNaN x = false.
Proof. destruct x; [discriminate| | |]; reflexivity. Qed.

(** *** The stable sort under a comparator that agrees with an order *)

Section Ordered.
Variable A : Type.
Variable le ord : A -> A -> bool.
Variable ok : A -> Prop.
Hypothesis le_ord : forall a b, ok a -> ok b -> le a b = ord a b.
Hypothesis ord_total :
  forall a b, ok a -> ok b -> ord a b = true \/ ord b a = true.
Hypothesis ord_trans :
  forall a b c, ord a b = true -> ord b c = true -> ord a c = true.

Definition inOrder (a b : A) : Prop := ord a b = true.

Lemma insert_ordered (x : A) (l : list A) :
  ok x -> Forall ok l -> StronglySorted inOrder l ->
  StronglySorted inOrder (insert le x l).
Proof.
  intros Hx F S. induction S as [|z l S IH Fz]; cbn [insert].
  - repeat constructor.
  - inversion F as [|? ? Hz Fl]; subst. rewrite (le_ord Hx Hz).
    destruct (ord x z) eqn:E.
    + constructor; [now constructor|]. constructor; [exact E|].
      rewrite Forall_forall in *. intros y Hy.
      exact (ord_trans E (Fz y Hy)).
    + constructor; [exact (IH Fl)|].
      rewrite Forall_forall in *. intros y Hy.
      apply KeySort.insert_in in Hy. destruct Hy as [->|Hy]; [|now apply Fz].
      destruct (ord_total Hx Hz) as [T|T]; [congruence|exact T].
Qed.

Lemma sort_ordered (l : list A) :
  Forall ok l -> StronglySorted inOrder (sort le l).
Proof.
  induction l as [|x l IH]; intro F; cbn [sort]; [constructor|].
  inversion F as [|? ? Hx Fl]; subst. apply insert_ordered.
  - exact Hx.
  - exact (Permutation_Forall (SortFacts.sort_perm le l) Fl).
  - exact (IH Fl).
Qed.

End Ordered.

(** *** geoMatcher.js *)

Section Geo.
Variable Math_sin Math_cos Math_sqrt : number -> number.
Variable Math_atan2 : number -> number -> number.
Variable Math_PI : number.

Local Abbreviation haversine :=
  (GeoMatcher.haversineDistance Math_sin Math_cos Math_sqrt Math_atan2 Math_PI).
Local Abbreviation geoScore :=
  (GeoMatcher.calculateGeoScore Math_sin Math_cos Math_sqrt Math_atan2 Math_PI).
Local Abbreviation withinRadius :=
  (GeoMatcher.findListingsWithinRadius Math_sin Math_cos Math_sqrt Math_atan2
     Math_PI).

(** The distance of a listing from the centre, where both have valid
    coordinates. *)
Definition distanceFrom (centerLat centerLon : value) (listing : Listing)
  : option number :=
  match centerLat, centerLon, latitude listing, longitude listing with
  | Num cla, Num clo, Num lat, Num lon =>
      if GeoMatcher.isValidCoordinate centerLat centerLon
         && GeoMatcher.isValidCoordinate (latitude listing) (longitude listing)
      then Some (haversine cla clo lat lon)
      else None
  | _, _, _, _ => None
  end.

Definition nearerFirst (a b : Listing * number) : Prop :=
  leb (snd a) (snd b) = true.

Lemma isValidCoordinate_numbers (lat lon : value) :
  GeoMatcher.isValidCoordinate lat lon = true ->
  exists la lo, lat = Num la /\ lon = Num lo.
Proof.
  destruct lat as [|la|], lon as [|lo|]; try discriminate. intros _.
  now exists la, lo.
Qed.

Lemma withinRadius_members (listings : list Listing)
  (centerLat centerLon : value) (radiusMeters : number) (l : Listing)
  (d : number) :
  In (l, d) (withinRadius listings centerLat centerLon radiusMeters)
  <-> In l listings /\ distanceFrom centerLat centerLon l = Some d
      /\ leb d radiusMeters = true.
Proof.
  unfold GeoMatcher.findListingsWithinRadius, distanceFrom.
  destruct centerLat as [|cla|];
    try (simpl; split; [tauto|intros (_ & D & _); discriminate]).
  destruct centerLon as [|clo|];
    try (simpl; split; [tauto|intros (_ & D & _); discriminate]).
  destruct (GeoMatcher.isValidCoordinate (Num cla) (Num clo)) eqn:C;
    cbn [negb andb].
  - rewrite KeySort.sort_in, in_flat_map. split.
    + intros [x [Hx H]].
      destruct (latitude x) as [|lat|] eqn:La; try contradiction.
      destruct (longitude x) as [|lon|] eqn:Lo; try contradiction.
      destruct (GeoMatcher.isValidCoordinate (Num lat) (Num lon)) eqn:V;
        cbn [negb] in H; try contradiction.
      destruct (leb _ radiusMeters) eqn:R; try contradiction.
      destruct H as [H|[]]. injection H as <- <-.
      rewrite La, Lo, V. auto.
    + intros (Hl & D & R). exists l. split; [exact Hl|].
      destruct (latitude l) as [|lat|]; try discriminate.
      destruct (longitude l) as [|lon|]; try discriminate.
      destruct (GeoMatcher.isValidCoordinate (Num lat) (Num lon));
        try discriminate. injection D as <-. cbn [negb]. rewrite R.
      now left.
  - split; [intros []|]. intros (_ & D & _).
    destruct (latitude l), (longitude l); discriminate.
Qed.

(** [findListingsWithinRadius] returns exactly the listings with valid
    coordinates whose distance from a valid centre is at most the radius,
    each with that distance, the nearest first. *)
Theorem findListingsWithinRadius_nearest_first (listings : list Listing)
  (centerLat centerLon : value) (radiusMeters : number) :
  (forall l d,
      In (l, d) (withinRadius listings centerLat centerLon radiusMeters)
      <-> In l listings /\ distanceFrom centerLat centerLon l = Some d
          /\ leb d radiusMeters = true)
  /\ StronglySorted nearerFirst
       (withinRadius listings centerLat centerLon radiusMeters).
Proof.
  split; [intros l d; apply withinRadius_members|].
  assert (F : Forall (fun p : Listing * number => isNaN (snd p) = false)
                     (withinRadius listings centerLat centerLon radiusMeters)).
  { rewrite Forall_forall. intros [l d] H.
    apply withinRadius_members in H. destruct H as (_ & _ & R).
    exact (leb_not_NaN _ _ R). }
  revert F. unfold GeoMatcher.findListingsWithinRadius.
  destruct centerLat as [|cla|]; [constructor| |constructor].
  destruct centerLon as [|clo|]; [constructor| |constructor].
  destruct (negb _); [constructor|]. intros F.
  apply (@sort_ordered (Listing * number)
           (fun a b => keeps_order (sub (snd a) (snd b)))
           (fun a b => leb (snd a) (snd b))
           (fun p => isNaN (snd p) = false)).
  - intros a b Ha Hb. now apply difference_orders.
  - intros a b Ha Hb. now apply number_leb_total.
  - intros a b c. apply number_leb_trans.
  - exact (Permutation_Forall
             (Permutation_sym (SortFacts.sort_perm _ _)) F).
Qed.

(** The points of a distance in the table of thresholds. *)
Definition pointsAt (d : number) : number :=
  match GeoMatcher.firstThreshold d GeoMatcher.PROXIMITY_THRESHOLDS with
  | Some (_, points) => points
  | None => ofZ 0
  end.

Lemma geoScore_distance (lat1 lon1 lat2 lon2 : value) (d : number) :
  GeoMatcher.distance (geoScore lat1 lon1 lat2 lon2) = Some d ->
  GeoMatcher.score (geoScore lat1 lon1 lat2 lon2) = pointsAt d.
Proof.
  unfold GeoMatcher.calculateGeoScore, pointsAt.
  destruct (negb _ || negb _); [discriminate|].
  destruct lat1, lon1, lat2, lon2; try discriminate.
  destruct (GeoMatcher.firstThreshold _ _) as [[m p]|] eqn:E;
    cbn [GeoMatcher.distance GeoMatcher.score]; intro H; injection H as <-;
    now rewrite E.
Qed.

Lemma pointsAt_antitone (d d' : number) :
  leb d d' = true -> leb (pointsAt d') (pointsAt d) = true.
Proof.
  intros H.
  assert (T : forall t, leb d' t = true -> leb d t = true)
    by (intro t; apply number_leb_trans; exact H).
  unfold pointsAt, GeoMatcher.PROXIMITY_THRESHOLDS.
  cbn [GeoMatcher.firstThreshold].
  destruct (leb d' (ofZ 30)) eqn:E1; [rewrite (T _ E1); reflexivity|].
  destruct (leb d (ofZ 30));
    [destruct (leb d' (ofZ 50)), (leb d' (ofZ 100)), (leb d' (ofZ 200));
     reflexivity|].
  destruct (leb d' (ofZ 50)) eqn:E2; [rewrite (T _ E2); reflexivity|].
  destruct (leb d (ofZ 50));
    [destruct (leb d' (ofZ 100)), (leb d' (ofZ 200)); reflexivity|].
  destruct (leb d' (ofZ 100)) eqn:E3; [rewrite (T _ E3); reflexivity|].
  destruct (leb d (ofZ 100)); [destruct (leb d' (ofZ 200)); reflexivity|].
  destruct (leb d' (ofZ 200)) eqn:E4; [rewrite (T _ E4); reflexivity|].
  destruct (leb d (ofZ 200)); reflexivity.
Qed.

(** Of two pairs of coordinates the nearer pair scores no fewer geo
    points. *)
Theorem calculateGeoScore_nearer_scores_more
  (lat1 lon1 lat2 lon2 lat3 lon3 lat4 lon4 : value) (d d' : number) :
  GeoMatcher.distance (geoScore lat1 lon1 lat2 lon2) = Some d ->
  GeoMatcher.distance (geoScore lat3 lon3 lat4 lon4) = Some d' ->
  leb d d' = true ->
  leb (GeoMatcher.score (geoScore lat3 lon3 lat4 lon4))
      (GeoMatcher.score (geoScore lat1 lon1 lat2 lon2)) = true.
Proof.
  intros D D' H.
  rewrite (@geoScore_distance lat1 lon1 lat2 lon2 d D),
    (@geoScore_distance lat3 lon3 lat4 lon4 d' D').
  now apply pointsAt_antitone.
Qed.

End Geo.

Definition centre : value * value := (Num (frac 5252 100), Num (frac 1340 100)).
Definition farther : value * value := (Num (frac 5282 100), Num (frac 1340 100)).
Definition sampleDistance (lat : number) : number :=
  GeoMatcher.haversineDistance
    IdentityFacts.sample_sin IdentityFacts.sample_cos
    IdentityFacts.sample_sqrt IdentityFacts.sample_atan2
    IdentityFacts.sample_PI
    (frac 5252 100) (frac 1340 100) lat (frac 1340 100).

Lemma calculateGeoScore_nearer_scores_more_witness :
  leb (GeoMatcher.score
         (GeoMatcher.calculateGeoScore
            IdentityFacts.sample_sin IdentityFacts.sample_cos
            IdentityFacts.sample_sqrt IdentityFacts.sample_atan2
            IdentityFacts.sample_PI
            (fst centre) (snd centre) (fst farther) (snd farther)))
      (GeoMatcher.score
         (GeoMatcher.calculateGeoScore
            IdentityFacts.sample_sin IdentityFacts.sample_cos
            IdentityFacts.sample_sqrt IdentityFacts.sample_atan2
            IdentityFacts.sample_PI
            (fst centre) (snd centre) (fst centre) (snd centre)))
  = true.
Proof.
  apply (@calculateGeoScore_nearer_scores_more
           IdentityFacts.sample_sin IdentityFacts.sample_cos
           IdentityFacts.sample_sqrt IdentityFacts.sample_atan2
           IdentityFacts.sample_PI
           (fst centre) (snd centre) (fst centre) (snd centre)
           (fst centre) (snd centre) (fst farther) (snd farther)
           (sampleDistance (frac 5252 100)) (sampleDistance (frac 5282 100)));
    vm_compute; reflexivity.
Defined.

(** *** enhancedSimilarityScorer.js: the factors and the recommendation *)

Lemma percentDifference_sym (a b : number) :
  Scorer.percentDifference a b = Scorer.percentDifference b a.
Proof.
  unfold Scorer.percentDifference.
  now rewrite (add_comm a b), (abs_sub_swap b a).
Qed.

(** The size, rooms and price factors do not depend on the order of the two
    listings. *)
Theorem size_rooms_price_factors_symmetric (listing1 listing2 : Listing) :
  Scorer.calculateSizeScore listing1 listing2
  = Scorer.calculateSizeScore listing2 listing1
  /\ Scorer.calculateRoomScore listing1 listing2
     = Scorer.calculateRoomScore listing2 listing1
  /\ Scorer.calculatePriceScore listing1 listing2
     = Scorer.calculatePriceScore listing2 listing1.
Proof.
  unfold Scorer.calculateSizeScore, Scorer.calculateRoomScore,
    Scorer.calculatePriceScore.
  repeat split.
  - destruct (Scorer.parseSize (size listing1)) as [a|],
      (Scorer.parseSize (size listing2)) as [b|]; trivial.
    now rewrite (percentDifference_sym a b).
  - destruct (Scorer.parseRooms (rooms listing1)) as [a|],
      (Scorer.parseRooms (rooms listing2)) as [b|]; trivial.
    now rewrite (abs_sub_swap b a).
  - destruct (Scorer.parsePrice (price listing1)) as [a|],
      (Scorer.parsePrice (price listing2)) as [b|]; trivial.
    now rewrite (percentDifference_sym a b).
Qed.

Definition autoLinking : string :=
  "Very likely the same property. Auto-linking recommended.".

Lemma recommendation_autoLinking (score : number) (c : Scorer.Confidence) :
  Scorer.generateRecommendation score c = autoLinking
  <-> c = Scorer.High /\ geb score (ofZ 80) = true.
Proof.
  unfold Scorer.generateRecommendation, autoLinking.
  destruct c.
  - destruct (geb score (ofZ 80)).
    + split; [now split|reflexivity].
    + split; [discriminate|]. intros [_ H]. discriminate.
  - split; [|intros [H _]; discriminate].
    destruct (geb score (ofZ 70)); [discriminate|].
    destruct (geb score (ofZ 50)); [discriminate|].
    destruct (geb score (ofZ 40)); discriminate.
  - split; [|intros [H _]; discriminate].
    destruct (geb score (ofZ 40)); discriminate.
  - split; [|intros [H _]; discriminate].
    destruct (geb score (ofZ 40)); discriminate.
Qed.

(** Auto-linking is recommended exactly when three factors or more are
    available and the total reaches 80; the shortcut for a strong address
    and geo match never recommends it below that. *)
Theorem auto_linking_needs_three_factors_and_80 (totalScore : number)
  (factors : Scorer.Factors) :
  Scorer.generateRecommendation totalScore
    (Scorer.calculateConfidence totalScore factors) = autoLinking
  <-> (3 <= Scorer.countAvailable (Scorer.factorList factors))%nat
      /\ geb totalScore (ofZ 80) = true.
Proof.
  rewrite recommendation_autoLinking. unfold Scorer.calculateConfidence.
  destruct (Scorer.countAvailable _ <? 3)%nat eqn:N.
  - apply Nat.ltb_lt in N. split.
    + intros [C _]. destruct (geb totalScore Scorer.threshold_medium);
        discriminate.
    + intros [M _]. lia.
  - apply Nat.ltb_ge in N. unfold Scorer.threshold_high. split.
    + intros [_ G]. now split.
    + intros [_ G]. split; [|exact G]. rewrite G.
      now destruct (_ && _ && _).
Qed.

(** *** propertyIdentity.js *)

Section Identity.
Variable shortest : Qc -> string.

Local Abbreviation identityOf := (PropertyIdentity.computePropertyIdentity shortest).
Local Abbreviation sameProperty := (PropertyIdentity.isSameProperty shortest).

(** A property identity is a text of 16 hexadecimal digits, and only a
    listing whose address keeps a character after normalisation has one. *)
Theorem computePropertyIdentity_format (l : Listing) (i : string) :
  identityOf (Some l) = Some i ->
  String.length i = 16%nat
  /\ forallb Sha256.is_hex (chars i) = true
  /\ nonempty (PropertyIdentity.normalizeAddress (address l)) = true.
Proof.
  unfold PropertyIdentity.computePropertyIdentity.
  destruct (negb (Str.truthy (address l))); [discriminate|].
  destruct (nonempty (PropertyIdentity.normalizeAddress (address l)));
    [|discriminate].
  cbn [negb]. intro H. injection H as <-.
  split; [apply HashFacts.hex16_length|].
  split; [apply HashFacts.hex16_is_hex|reflexivity].
Qed.

(** [isSameProperty] gives the same answer for a pair in either order. *)
Theorem isSameProperty_symmetric (listing1 listing2 : option Listing) :
  sameProperty listing1 listing2 = sameProperty listing2 listing1.
Proof.
  unfold PropertyIdentity.isSameProperty.
  destruct (identityOf listing1), (identityOf listing2); trivial.
  apply String.eqb_sym.
Qed.

(** [isSameProperty] is transitive, and a listing that is the same property
    as another is the same property as itself. *)
Theorem isSameProperty_transitive (listing1 listing2 listing3 : option Listing) :
  sameProperty listing1 listing2 = true ->
  sameProperty listing2 listing3 = true ->
  sameProperty listing1 listing3 = true
  /\ sameProperty listing1 listing1 = true.
Proof.
  unfold PropertyIdentity.isSameProperty.
  destruct (identityOf listing1), (identityOf listing2),
    (identityOf listing3); try discriminate.
  rewrite !String.eqb_eq. intros -> ->. now split.
Qed.

End Identity.

Definition dotted : Listing :=
  IdentityFacts.plainListing "Musterstr. 12, Berlin" (Num (ofZ 70)) Null Null.
Definition spelled : Listing :=
  IdentityFacts.plainListing "musterstrasse 12 berlin" (Num (ofZ 70))
                             (Num (ofZ 3)) Null.
Definition sharp : Listing :=
  IdentityFacts.plainListing ("Muster" ++ PropertyIdentity.strasze ++ " 12 Berlin")
                             (Num (ofZ 70)) Null (Num (ofZ 900)).
Definition dottedIdentity : string :=
  match PropertyIdentity.computePropertyIdentity IdentityFacts.sample_shortest
          (Some dotted) with
  | Some i => i
  | None => ""
  end.

Lemma computePropertyIdentity_format_witness :
  String.length dottedIdentity = 16%nat
  /\ forallb Sha256.is_hex (chars dottedIdentity) = true
  /\ nonempty (PropertyIdentity.normalizeAddress (address dotted)) = true.
Proof.
  apply (@computePropertyIdentity_format IdentityFacts.sample_shortest dotted
           dottedIdentity).
  vm_compute. reflexivity.
Defined.

Lemma isSameProperty_transitive_witness :
  PropertyIdentity.isSameProperty IdentityFacts.sample_shortest
    (Some dotted) (Some sharp) = true
  /\ PropertyIdentity.isSameProperty IdentityFacts.sample_shortest
       (Some dotted) (Some dotted) = true.
Proof.
  apply (@isSameProperty_transitive IdentityFacts.sample_shortest
           (Some dotted) (Some spelled) (Some sharp));
    vm_compute; reflexivity.
Defined.

(** *** addressNormalizer.js *)

Lemma umlaut_settled (c : ascii) :
  flat_map (fun c => AddressNormalizer.umlaut c AddressNormalizer.UMLAUT_MAP)
           (AddressNormalizer.umlaut c AddressNormalizer.UMLAUT_MAP)
  = AddressNormalizer.umlaut c AddressNormalizer.UMLAUT_MAP.
Proof.
  unfold AddressNormalizer.UMLAUT_MAP. cbn [AddressNormalizer.umlaut].
  destruct (is_char AddressNormalizer.a_umlaut c) eqn:E1; [reflexivity|].
  destruct (is_char AddressNormalizer.o_umlaut c) eqn:E2; [reflexivity|].
  destruct (is_char AddressNormalizer.u_umlaut c) eqn:E3; [reflexivity|].
  destruct (is_char AddressNormalizer.sharp_s c) eqn:E4; [reflexivity|].
  destruct (is_char AddressNormalizer.A_umlaut c) eqn:E5; [reflexivity|].
  destruct (is_char AddressNormalizer.O_umlaut c) eqn:E6; [reflexivity|].
  destruct (is_char AddressNormalizer.U_umlaut c) eqn:E7; [reflexivity|].
  cbn [flat_map AddressNormalizer.umlaut].
  now rewrite E1, E2, E3, E4, E5, E6, E7.
Qed.

Lemma flat_map_settled (A : Type) (f : A -> list A) (l : list A) :
  (forall x, flat_map f (f x) = f x) ->
  flat_map f (flat_map f l) = flat_map f l.
Proof.
  intros H. induction l as [|x l IH]; [reflexivity|].
  cbn [flat_map]. now rewrite flat_map_app, H, IH.
Qed.

(** [replaceUmlauts] leaves none of the seven characters behind: a second
    pass changes nothing. *)
Theorem replaceUmlauts_idempotent (s : string) :
  AddressNormalizer.replaceUmlauts (AddressNormalizer.replaceUmlauts s)
  = AddressNormalizer.replaceUmlauts s.
Proof.
  unfold AddressNormalizer.replaceUmlauts. rewrite HashFacts.chars_str.
  f_equal. apply flat_map_settled. exact umlaut_settled.
Qed.

End ScoringMore.

(** ** listingsExtendedStorage.js: breaking a version chain *)

Module ExtendedStorage.

Import Str Storage.
Local Open Scope string_scope.
Local Open Scope list_scope.

(** [{ success, removed, error }] *)
Record Outcome : Type := MkOutcome {
  success : bool;
  removed : bool;
  error : option string
}.

(** [UPDATE listings SET previous_version_id = NULL WHERE id = @id] *)
Definition clearPrevious (x : string) (st : Store) : Store :=
  updateRows (setPrevious None) x st.

(** One of the two walks along [previous_version_id]: from [walkId] to the
    first listing that points at [target], whose pointer is cleared.  The
    store after the walk, and whether a pointer was cleared.  One unit of
    [fuel] is spent per iteration. *)
Fixpoint cutChain (fuel : nat) (target walkId : string)
  (visited : list string) (st : Store) : Store * bool :=
  match fuel with
  | O => (st, false)
  | S fuel' =>
      if negb (nonempty walkId) || mem walkId visited then (st, false) else
      match rowById st walkId with
      | None => (st, false)
      | Some current =>
          match previous_version_id current with
          | None => (st, false)
          | Some p =>
              if negb (nonempty p) then (st, false)
              else if String.eqb p target
                   then (clearPrevious (id current) st, true)
                   else cutChain fuel' target p (walkId :: visited) st
          end
      end
  end.

(** A walk visits a listing once, so it needs no more iterations than there
    are listings, and one to see the end. *)
Definition iterations (st : Store) : nat := S (List.length (listings st)).

(** [breakVersionChain], on the migrated schema. *)
Definition breakVersionChain (listingId1 listingId2 : option string)
  (st : Store) : Outcome * Store :=
  match listingId1, listingId2 with
  | Some a, Some b =>
      if negb (nonempty a) || negb (nonempty b)
      then (MkOutcome false false (Some "Both listing IDs are required"), st)
      else
        match rowById st a, rowById st b with
        | Some listing1, Some listing2 =>
            let id1 := id listing1 in
            let id2 := id listing2 in
            let removed := false in
            let (st, removed) :=
              if ManualLinks.points_to id2 listing1
              then (clearPrevious id1 st, true) else (st, removed) in
            let (st, removed) :=
              if ManualLinks.points_to id1 listing2
              then (clearPrevious id2 st, true) else (st, removed) in
            let (st, cut) := cutChain (iterations st) id2 id1 [] st in
            let removed := removed || cut in
            let (st, cut) := cutChain (iterations st) id1 id2 [] st in
            let removed := removed || cut in
            let (st, changes) :=
              ManualLinks.deleteLinks
                (fun k => ManualLinks.is_link id1 id2 k
                          || ManualLinks.is_link id2 id1 k) st in
            let removed := removed || (0 <? changes)%nat in
            let st := ManualLinks.unsupersede id2 st in
            (MkOutcome true removed None, st)
        | _, _ =>
            (MkOutcome false false (Some "One or both listings not found"), st)
        end
  | _, _ => (MkOutcome false false (Some "Both listing IDs are required"), st)
  end.

End ExtendedStorage.

(** ** Properties of [breakVersionChain] *)

Module ChainFacts.

Import Str Storage ExtendedStorage.
Local Open Scope string_scope.
Local Open Scope list_scope.
Local Open Scope nat_scope.

(** The previous version the walks follow from a listing. *)
Definition previousOf (st : Store) (x : string) : option string :=
  match rowById st x with
  | Some r =>
      match previous_version_id r with
      | Some p => if nonempty p then Some p else None
      | None => None
      end
  | None => None
  end.

Definition versionStep (st : Store) (x y : string) : Prop :=
  previousOf st x = Some y.

(** [y] is an earlier version of [x]: one or more steps along
    [previous_version_id] lead from [x] to [y]. *)
Definition earlierVersion (st : Store) : string -> string -> Prop :=
  clos_trans_1n string (versionStep st).

(** The pointers of [st'] are pointers of [st]. *)
Definition fewerPointers (st' st : Store) : Prop :=
  forall y, previousOf st' y = previousOf st y \/ previousOf st' y = None.

Lemma fewerPointers_refl (st : Store) : fewerPointers st st.
Proof. intro y. now left. Qed.

Lemma fewerPointers_trans (st1 st2 st3 : Store) :
  fewerPointers st3 st2 -> fewerPointers st2 st1 -> fewerPointers st3 st1.
Proof.
  intros H32 H21 y. destruct (H32 y) as [E|E]; [|now right].
  rewrite E. apply H21.
Qed.

Lemma rowById_id (st : Store) (x : string) (r : Row) :
  rowById st x = Some r -> id r = x /\ In r (listings st).
Proof.
  unfold rowById. intro E. apply find_some in E. destruct E as [I E].
  split; [now apply String.eqb_eq in E | exact I].
Qed.

Lemma rowById_updateRows (F : Row -> Row) (x y : string) (st : Store) :
  (forall r, id (F r) = id r) ->
  rowById (updateRows F x st) y
  = option_map (fun r => if String.eqb y x then F r else r) (rowById st y).
Proof.
  intros H. unfold rowById, updateRows. cbn [listings].
  rewrite (@ManualFacts.find_map_id (fun r => if is_id x r then F r else r)).
  - destruct (find (is_id y) (listings st)) as [r|] eqn:E; [|reflexivity].
    cbn [option_map]. apply find_some in E. destruct E as [_ E].
    apply String.eqb_eq in E. unfold is_id. now rewrite E.
  - intro r. destruct (is_id x r); [apply H | reflexivity].
Qed.

Lemma previousOf_clearPrevious (x y : string) (st : Store) :
  previousOf (clearPrevious x st) y
  = if String.eqb y x then None else previousOf st y.
Proof.
  unfold previousOf, clearPrevious.
  rewrite rowById_updateRows by reflexivity.
  destruct (rowById st y) as [r|]; cbn [option_map];
    destruct (String.eqb y x); reflexivity.
Qed.

Lemma previousOf_setSuperseded (b : bool) (x y : string) (st : Store) :
  previousOf (updateRows (setSuperseded b) x st) y = previousOf st y.
Proof.
  unfold previousOf. rewrite rowById_updateRows by reflexivity.
  destruct (rowById st y) as [r|]; cbn [option_map]; [|reflexivity].
  now destruct (String.eqb y x).
Qed.

Lemma clearPrevious_fewer (x : string) (st : Store) :
  fewerPointers (clearPrevious x st) st.
Proof.
  intro y. rewrite previousOf_clearPrevious.
  destruct (String.eqb y x); [now right | now left].
Qed.

Lemma earlierVersion_fewer (st' st : Store) (x y : string) :
  fewerPointers st' st -> earlierVersion st' x y -> earlierVersion st x y.
Proof.
  intros F E. induction E as [x y H|x z y H E IH].
  - apply Relation_Operators.t1n_step. unfold versionStep in *.
    destruct (F x) as [G|G]; congruence.
  - apply (@Relation_Operators.t1n_trans _ _ x z y); [|exact IH].
    unfold versionStep in *.
    destruct (F x) as [G|G]; congruence.
Qed.

Lemma earlierVersion_first (st : Store) (x y : string) :
  earlierVersion st x y ->
  exists z, previousOf st x = Some z /\ (z = y \/ earlierVersion st z y).
Proof.
  intros E. destruct E as [y H|z y H E]; [exists y | exists z]; auto.
Qed.

(** From a set of listings that is closed under the step and has no
    pointer at [t], no listing has [t] as an earlier version. *)
Lemma closed_no_earlier (st : Store) (v : list string) (t x : string) :
  (forall a, In a v ->
             exists a', previousOf st a = Some a' /\ a' <> t /\ In a' v) ->
  In x v -> ~ earlierVersion st x t.
Proof.
  intros C Hx E. induction E as [x y H|x z y H E IH].
  - destruct (C x Hx) as [a' [P [N _]]]. unfold versionStep in H. congruence.
  - destruct (C x Hx) as [a' [P [_ I]]]. unfold versionStep in H.
    apply IH; [exact C|]. congruence.
Qed.

Lemma cutChain_step (fuel : nat) (target walkId : string)
  (visited : list string) (st : Store) :
  cutChain (S fuel) target walkId visited st
  = if negb (nonempty walkId) || mem walkId visited then (st, false) else
    match previousOf st walkId with
    | None => (st, false)
    | Some p =>
        if String.eqb p target then (clearPrevious walkId st, true)
        else cutChain fuel target p (walkId :: visited) st
    end.
Proof.
  cbn [cutChain]. destruct (negb (nonempty walkId) || mem walkId visited);
    [reflexivity|].
  unfold previousOf. destruct (rowById st walkId) as [r|] eqn:E; [|reflexivity].
  destruct (rowById_id _ _ E) as [I _].
  destruct (previous_version_id r) as [p|]; [|reflexivity].
  destruct (nonempty p); cbn [negb]; [|reflexivity]. now rewrite I.
Qed.

Lemma previousOf_row (st : Store) (x p : string) :
  previousOf st x = Some p ->
  In x (map id (listings st)) /\ nonempty p = true.
Proof.
  unfold previousOf. destruct (rowById st x) as [r|] eqn:E; [|discriminate].
  destruct (rowById_id _ _ E) as [I M].
  destruct (previous_version_id r) as [q|]; [|discriminate].
  destruct (nonempty q) eqn:N; [|discriminate]. intro H. injection H as <-.
  split; [|exact N]. rewrite <- I. now apply in_map.
Qed.

Lemma ids_updateRows (F : Row -> Row) (x : string) (st : Store) :
  (forall r, id (F r) = id r) ->
  map id (listings (updateRows F x st)) = map id (listings st).
Proof.
  intros H. unfold updateRows. cbn [listings]. rewrite map_map.
  apply map_ext. intro r. destruct (is_id x r); [apply H | reflexivity].
Qed.

Lemma ids_length (st' st : Store) :
  map id (listings st') = map id (listings st) ->
  List.length (listings st') = List.length (listings st).
Proof.
  intro E. apply (f_equal (@List.length string)) in E.
  now rewrite !length_map in E.
Qed.

(** What a walk leaves of the tables. *)
Lemma cutChain_tables (fuel : nat) (target walkId : string)
  (visited : list string) (st : Store) :
  fewerPointers (fst (cutChain fuel target walkId visited st)) st
  /\ links (fst (cutChain fuel target walkId visited st)) = links st
  /\ map id (listings (fst (cutChain fuel target walkId visited st)))
     = map id (listings st)
  /\ (snd (cutChain fuel target walkId visited st) = false ->
      fst (cutChain fuel target walkId visited st) = st).
Proof.
  revert walkId visited.
  induction fuel as [|fuel IH]; intros walkId visited.
  - cbn. repeat split. apply fewerPointers_refl.
  - rewrite cutChain_step.
    destruct (negb (nonempty walkId) || mem walkId visited);
      [cbn; repeat split; apply fewerPointers_refl|].
    destruct (previousOf st walkId) as [p|];
      [|cbn; repeat split; apply fewerPointers_refl].
    destruct (String.eqb p target); [|apply IH].
    cbn [fst snd]. split; [apply clearPrevious_fewer|].
    split; [reflexivity|]. split; [|discriminate].
    apply ids_updateRows. reflexivity.
Qed.

(** The walk from [w] leaves no way from [w] to the target. *)
Lemma cutChain_separates (fuel : nat) (t w : string) (v : list string)
  (st : Store) :
  NoDup v -> incl v (map id (listings st)) ->
  List.length (listings st) < fuel + List.length v ->
  nonempty w = true ->
  (forall a, In a v ->
             exists a', previousOf st a = Some a' /\ a' <> t
                        /\ (In a' v \/ a' = w)) ->
  ~ earlierVersion (fst (cutChain fuel t w v st)) w t.
Proof.
  revert w v. induction fuel as [|fuel IH]; intros w v N I L W C.
  - exfalso. pose proof (NoDup_incl_length N I) as B.
    rewrite length_map in B. cbn in L. lia.
  - rewrite cutChain_step. rewrite W. cbn [negb orb].
    destruct (mem w v) eqn:M.
    + cbn [fst]. apply (@closed_no_earlier st v t w).
      * intros a Ha. destruct (C a Ha) as [a' [P [D [J|J]]]];
          exists a'; repeat split; trivial.
        subst a'. now apply WalkFacts.mem_In.
      * now apply WalkFacts.mem_In.
    + destruct (previousOf st w) as [p|] eqn:P.
      * destruct (previousOf_row _ _ P) as [Iw Np].
        destruct (String.eqb p t) eqn:T.
        -- cbn [fst]. intro E. apply earlierVersion_first in E.
           destruct E as [z [Z _]]. rewrite previousOf_clearPrevious in Z.
           now rewrite String.eqb_refl in Z.
        -- apply String.eqb_neq in T.
           assert (F : ~ earlierVersion
                         (fst (cutChain fuel t p (w :: v) st)) p t).
           { apply IH.
             - constructor; [|exact N]. now apply WalkFacts.mem_not_In.
             - intros a [<-|Ha]; [exact Iw | now apply I].
             - cbn [List.length]. lia.
             - exact Np.
             - intros a [<-|Ha].
               + exists p. repeat split; trivial. now right.
               + destruct (C a Ha) as [a' [Pa [D [J|J]]]];
                   exists a'; repeat split; trivial; left;
                     [now right | now left]. }
           intro E. apply earlierVersion_first in E.
           destruct E as [z [Z R]].
           destruct (cutChain_tables fuel t p (w :: v) st) as [S _].
           destruct (S w) as [G|G]; [|congruence].
           rewrite G, P in Z. injection Z as <-.
           destruct R as [R|R]; [now apply T | now apply F].
      * cbn [fst]. intro E. apply earlierVersion_first in E.
        destruct E as [z [Z _]]. congruence.
Qed.

(** With more iterations than listings are left to visit, further ones
    change nothing. *)
Lemma cutChain_enough (fuel fuel' : nat) (t w : string) (v : list string)
  (st : Store) :
  NoDup v -> incl v (map id (listings st)) ->
  List.length (listings st) < fuel + List.length v ->
  fuel <= fuel' ->
  cutChain fuel' t w v st = cutChain fuel t w v st.
Proof.
  revert fuel' w v. induction fuel as [|fuel IH]; intros fuel' w v N I L B.
  - exfalso. pose proof (NoDup_incl_length N I) as K.
    rewrite length_map in K. cbn in L. lia.
  - destruct fuel' as [|fuel']; [lia|]. rewrite !cutChain_step.
    destruct (negb (nonempty w) || mem w v) eqn:M; [reflexivity|].
    destruct (previousOf st w) as [p|] eqn:P; [|reflexivity].
    destruct (String.eqb p t); [reflexivity|].
    apply orb_false_iff in M. destruct M as [_ M].
    destruct (previousOf_row _ _ P) as [Iw _].
    apply IH.
    + constructor; [|exact N]. now apply WalkFacts.mem_not_In.
    + intros a [<-|Ha]; [exact Iw | now apply I].
    + cbn [List.length]. lia.
    + lia.
Qed.

Definition joins (a b : string) (k : Link) : bool :=
  ManualLinks.is_link a b k || ManualLinks.is_link b a k.

(** After [breakVersionChain] has succeeded neither listing is an earlier
    version of the other, no manual link joins the two, and the second
    listing is visible. *)
Theorem breakVersionChain_separates (a b : string) (st st' : Store)
  (res : Outcome) :
  breakVersionChain (Some a) (Some b) st = (res, st') ->
  success res = true ->
  ~ earlierVersion st' a b
  /\ ~ earlierVersion st' b a
  /\ (forall k, In k (links st') -> joins a b k = false)
  /\ exists r, rowById st' b = Some r /\ is_superseded r = false.
Proof.
  unfold breakVersionChain.
  destruct (nonempty a) eqn:Na;
    [|cbn; intros E; injection E as <- _; discriminate].
  destruct (nonempty b) eqn:Nb;
    [|cbn; intros E; injection E as <- _; discriminate].
  cbn [negb orb].
  destruct (rowById st a) as [listing1|] eqn:Ra;
    [|intros E; injection E as <- _; discriminate].
  destruct (rowById st b) as [listing2|] eqn:Rb;
    [|intros E; injection E as <- _; discriminate].
  destruct (rowById_id _ _ Ra) as [Ia _].
  destruct (rowById_id _ _ Rb) as [Ib _]. rewrite Ia, Ib.
  set (direct1 := if ManualLinks.points_to b listing1
                  then (clearPrevious a st, true) else (st, false)).
  assert (F1 : map id (listings (fst direct1)) = map id (listings st)).
  { unfold direct1. destruct (ManualLinks.points_to b listing1); cbn [fst].
    - apply ids_updateRows. reflexivity.
    - reflexivity. }
  destruct direct1 as [s1 r1]. cbn [fst] in F1.
  set (direct2 := if ManualLinks.points_to a listing2
                  then (clearPrevious b s1, true) else (s1, r1)).
  assert (F2 : map id (listings (fst direct2)) = map id (listings s1)).
  { unfold direct2. destruct (ManualLinks.points_to a listing2); cbn [fst].
    - apply ids_updateRows. reflexivity.
    - reflexivity. }
  destruct direct2 as [s2 r2]. cbn [fst] in F2.
  pose proof (@cutChain_separates (iterations s2) b a [] s2) as W1.
  destruct (cutChain_tables (iterations s2) b a [] s2) as (_ & _ & L3 & _).
  destruct (cutChain (iterations s2) b a [] s2) as [s3 c3].
  cbn [fst] in W1, L3.
  pose proof (@cutChain_separates (iterations s3) a b [] s3) as W2.
  destruct (cutChain_tables (iterations s3) a b [] s3) as (S4 & K4 & L4 & _).
  destruct (cutChain (iterations s3) a b [] s3) as [s4 c4].
  cbn [fst] in W2, S4, K4, L4.
  unfold ManualLinks.deleteLinks, ManualLinks.unsupersede.
  intros E _. injection E as _ <-.
  set (s5 := MkStore (listings s4)
               (filter (fun k => negb (ManualLinks.is_link a b k
                                       || ManualLinks.is_link b a k))
                       (links s4))).
  assert (P : forall x y,
             earlierVersion (updateRows (setSuperseded false) b s5) x y ->
             earlierVersion s4 x y).
  { intros x y. apply earlierVersion_fewer. intro z. left.
    rewrite previousOf_setSuperseded. reflexivity. }
  split; [|split; [|split]].
  - intro E. apply P in E. apply (earlierVersion_fewer S4) in E.
    revert E. apply W1.
    + constructor.
    + intros x [].
    + unfold iterations. cbn [List.length]. lia.
    + exact Na.
    + intros x [].
  - intro E. apply P in E. revert E. apply W2.
    + constructor.
    + intros x [].
    + unfold iterations. cbn [List.length]. lia.
    + exact Nb.
    + intros x [].
  - cbn [updateRows links s5]. intros k Hk. apply filter_In in Hk.
    destruct Hk as [_ Hk]. unfold joins. now apply negb_true_iff in Hk.
  - rewrite rowById_updateRows by reflexivity.
    assert (X : In b (map id (listings s5))).
    { cbn [s5 listings]. rewrite L4, L3, F2, F1, <- Ib.
      apply in_map. now apply (rowById_id _ _ Rb). }
    apply ManualFacts.rowById_key in X. destruct X as [r [R _]].
    rewrite R. cbn [option_map]. rewrite String.eqb_refl.
    now exists (setSuperseded false r).
Qed.

Definition version (x : string) (previous : option string) (hidden : bool)
  : Row :=
  MkRow x ("h" ++ x) "job" Val.Null None (Some 30%Z) None None previous hidden
        false NoText.

(** Three versions in a chain, the first linked by hand to the last. *)
Definition chained : Store :=
  MkStore [version "1" (Some "2") false; version "2" (Some "3") true;
           version "3" None true]
          [MkLink "f00d" "1" "3" None 40].

Definition unchained : Outcome * Store :=
  breakVersionChain (Some "1") (Some "3") chained.

Lemma breakVersionChain_separates_witness :
  ~ earlierVersion (snd unchained) "1" "3"
  /\ ~ earlierVersion (snd unchained) "3" "1"
  /\ (forall k, In k (links (snd unchained)) -> joins "1" "3" k = false)
  /\ exists r, rowById (snd unchained) "3" = Some r
               /\ is_superseded r = false.
Proof.
  apply (@breakVersionChain_separates "1" "3" chained (snd unchained)
           (fst unchained)); reflexivity.
Defined.

Lemma filter_none (A : Type) (p : A -> bool) (l : list A) :
  List.length (filter p l) = 0 -> filter (fun x => negb (p x)) l = l.
Proof.
  induction l as [|x l IH]; [reflexivity|]. cbn [filter].
  destruct (p x); [discriminate|]. cbn [negb]. intro H. now rewrite IH.
Qed.

(** When [breakVersionChain] reports that nothing was removed, it has
    changed nothing but the visibility of the second listing. *)
Theorem breakVersionChain_nothing_removed (a b : string) (st st' : Store)
  (res : Outcome) :
  breakVersionChain (Some a) (Some b) st = (res, st') ->
  success res = true -> removed res = false ->
  st' = ManualLinks.unsupersede b st.
Proof.
  unfold breakVersionChain.
  destruct (negb (nonempty a) || negb (nonempty b));
    [intros E; injection E as <- _; discriminate|].
  destruct (rowById st a) as [listing1|] eqn:Ra;
    [|intros E; injection E as <- _; discriminate].
  destruct (rowById st b) as [listing2|] eqn:Rb;
    [|intros E; injection E as <- _; discriminate].
  destruct (rowById_id _ _ Ra) as [Ia _].
  destruct (rowById_id _ _ Rb) as [Ib _]. rewrite Ia, Ib.
  destruct (ManualLinks.points_to b listing1);
    [destruct (ManualLinks.points_to a listing2);
     destruct (cutChain _ b a [] _) as [s3 c3];
     destruct (cutChain _ a b [] _) as [s4 c4];
     cbn; intros E; injection E as <- _; discriminate|].
  destruct (ManualLinks.points_to a listing2);
    [destruct (cutChain _ b a [] _) as [s3 c3];
     destruct (cutChain _ a b [] _) as [s4 c4];
     cbn; intros E; injection E as <- _; discriminate|].
  destruct (cutChain_tables (iterations st) b a [] st) as (_ & _ & _ & U3).
  destruct (cutChain (iterations st) b a [] st) as [s3 c3].
  cbn [fst snd] in U3.
  destruct (cutChain_tables (iterations s3) a b [] s3) as (_ & _ & _ & U4).
  destruct (cutChain (iterations s3) a b [] s3) as [s4 c4].
  cbn [fst snd] in U4.
  unfold ManualLinks.deleteLinks. intros E _ R. injection E as <- <-.
  cbn [removed orb] in R.
  apply orb_false_iff in R. destruct R as [R Z].
  apply orb_false_iff in R. destruct R as [-> ->].
  pose proof (U4 eq_refl) as E4. pose proof (U3 eq_refl) as E3.
  subst s4 s3. apply Nat.ltb_ge in Z. apply Nat.le_0_r in Z.
  rewrite (filter_none _ _ Z). now destruct st.
Qed.

Lemma breakVersionChain_nothing_removed_witness :
  snd (breakVersionChain (Some "3") (Some "2") (snd unchained))
  = ManualLinks.unsupersede "2" (snd unchained).
Proof.
  apply (@breakVersionChain_nothing_removed "3" "2" (snd unchained)
           (snd (breakVersionChain (Some "3") (Some "2") (snd unchained)))
           (fst (breakVersionChain (Some "3") (Some "2") (snd unchained))));
    reflexivity.
Defined.

(** A run of the loop [while (walkId && !visited.has(walkId))] of
    [breakVersionChain] from [walkId] with the set [visited]: the store it
    leaves and whether it has cleared a pointer.  Only a run that ends has
    an outcome. *)
Inductive walked (st : Store) (target : string)
  : string -> list string -> Store * bool -> Prop :=
| walked_over (walkId : string) (visited : list string) :
    negb (nonempty walkId) || mem walkId visited = true ->
    walked st target walkId visited (st, false)
| walked_break (walkId : string) (visited : list string) :
    negb (nonempty walkId) || mem walkId visited = false ->
    previousOf st walkId = None ->
    walked st target walkId visited (st, false)
| walked_cut (walkId : string) (visited : list string) :
    negb (nonempty walkId) || mem walkId visited = false ->
    previousOf st walkId = Some target ->
    walked st target walkId visited (clearPrevious walkId st, true)
| walked_on (walkId : string) (visited : list string) (p : string)
    (outcome : Store * bool) :
    negb (nonempty walkId) || mem walkId visited = false ->
    previousOf st walkId = Some p ->
    p <> target ->
    walked st target p (walkId :: visited) outcome ->
    walked st target walkId visited outcome.

Lemma walked_once (st : Store) (target walkId : string)
  (visited : list string) (r r' : Store * bool) :
  walked st target walkId visited r ->
  walked st target walkId visited r' -> r' = r.
Proof.
  intros W. revert r'.
  induction W as [w v C|w v C P|w v C P|w v p r C P N W IH]; intros r' W';
    inversion W' as [w' v' C'|w' v' C' P'|w' v' C' P'|w' v' p' q' C' P' N' X];
    subst; try reflexivity; try congruence.
  apply IH. assert (p' = p) as -> by congruence. exact X.
Qed.

Lemma cutChain_walked (fuel : nat) (t : string) (st : Store) :
  forall w v,
    NoDup v -> incl v (map id (listings st)) ->
    List.length (listings st) < fuel + List.length v ->
    walked st t w v (cutChain fuel t w v st).
Proof.
  induction fuel as [|fuel IH]; intros w v N I L.
  - exfalso. pose proof (NoDup_incl_length N I) as K.
    rewrite length_map in K. cbn in L. lia.
  - rewrite cutChain_step.
    destruct (negb (nonempty w) || mem w v) eqn:M; [now apply walked_over|].
    destruct (previousOf st w) as [p|] eqn:P; [|now apply walked_break].
    destruct (String.eqb p t) eqn:E.
    + apply String.eqb_eq in E. subst p. now apply walked_cut.
    + apply String.eqb_neq in E. apply (walked_on M P E).
      apply orb_false_iff in M. destruct M as [_ M].
      destruct (previousOf_row _ _ P) as [Iw _].
      apply IH.
      * constructor; [|exact N]. now apply WalkFacts.mem_not_In.
      * intros a [<-|Ha]; [exact Iw | now apply I].
      * cbn [List.length]. lia.
Qed.

(** A walk of [breakVersionChain] ends, whatever the pointers are: the loop
    has a run from every listing, with one outcome, and it takes no more
    than one iteration for each listing and one more, after which further
    iterations change nothing. *)
Theorem breakVersionChain_walk_ends (target walkId : string) (st : Store) :
  exists outcome,
    walked st target walkId [] outcome
    /\ (forall other, walked st target walkId [] other -> other = outcome)
    /\ (forall fuel, iterations st <= fuel ->
                     cutChain fuel target walkId [] st = outcome).
Proof.
  exists (cutChain (iterations st) target walkId [] st).
  assert (walked st target walkId []
                 (cutChain (iterations st) target walkId [] st)) as W.
  { apply cutChain_walked.
    - constructor.
    - intros x [].
    - unfold iterations. cbn [List.length]. lia. }
  split; [exact W|]. split.
  - intros other O. exact (walked_once W O).
  - intros fuel B. apply cutChain_enough.
    + constructor.
    + intros x [].
    + unfold iterations. cbn [List.length]. lia.
    + exact B.
Qed.

End ChainFacts.

(** ** listingsStorage.js: resolving the chains of a batch *)

Module BatchChains.

Import Str Data Storage.
Local Open Scope string_scope.
Local Open Scope list_scope.

(** [listings.filter((l) => l._batchPreviousHash)] *)
Definition withBatchChain (batch : list Listing) : list Listing :=
  filter (fun l => Str.truthy (batchPreviousHash l)) batch.

(** The hashes bound to the query, or nothing when a listing has no [id]:
    the statement binds no [undefined]. *)
Fixpoint hashesToLookup (chain : list Listing) : option (list string) :=
  match chain with
  | [] => Some []
  | l :: chain' =>
      match Data.id l, batchPreviousHash l, hashesToLookup chain' with
      | Some h, Some p, Some hashes => Some (h :: p :: hashes)
      | _, _, _ => None
      end
  end.

(** [SELECT id, hash FROM listings WHERE job_id = ? AND hash IN (...)] *)
Definition lookedUp (jobId : string) (hashes : list string) (st : Store)
  : list Row :=
  filter (fun r => String.eqb (job_id r) jobId && mem (hash r) hashes)
         (listings st).

(** [hashToDbId.get(hash)]: a later row replaces an earlier one. *)
Definition hashToDbId (rows : list Row) (h : string) : option string :=
  option_map id (find (fun r => String.eqb (hash r) h) (rev rows)).

Definition lookup (rows : list Row) (h : option string) : option string :=
  match h with
  | Some h => hashToDbId rows h
  | None => None
  end.

(** The two identifiers found for a listing of the chain, both truthy. *)
Definition resolved (rows : list Row) (l : Listing) : option (string * string) :=
  match lookup rows (Data.id l), lookup rows (batchPreviousHash l) with
  | Some currentDbId, Some previousDbId =>
      if nonempty currentDbId && nonempty previousDbId
      then Some (currentDbId, previousDbId) else None
  | _, _ => None
  end.

Definition linkVersions (rows : list Row) (st : Store) (l : Listing) : Store :=
  match resolved rows l with
  | Some (currentDbId, previousDbId) =>
      updateRows (setSuperseded true) previousDbId
        (updateRows (setPrevious (Some previousDbId)) currentDbId st)
  | None => st
  end.

(** [resolveBatchVersionChains], on the migrated schema. *)
Definition resolveBatchVersionChains (jobId : string) (batch : list Listing)
  (st : Store) : option Store :=
  match withBatchChain batch with
  | [] => Some st
  | chain =>
      match hashesToLookup chain with
      | None => None
      | Some hashes =>
          let rows := lookedUp jobId hashes st in
          Some (fold_left (linkVersions rows) chain st)
      end
  end.

End BatchChains.

(** ** Properties of [resolveBatchVersionChains] *)

Module BatchChainFacts.

Import Str Data Storage BatchChains.
Local Open Scope string_scope.
Local Open Scope list_scope.
Local Open Scope nat_scope.

(** [UNIQUE(job_id, hash)]: the constraint [storeListings] inserts under. *)
Definition oneRowPerHash (jobId : string) (st : Store) : Prop :=
  forall r r', In r (listings st) -> In r' (listings st) ->
               job_id r = jobId -> job_id r' = jobId -> hash r = hash r' ->
               r = r'.

Definition previousAt (st : Store) (x : string) : option (option string) :=
  option_map previous_version_id (rowById st x).

Definition hiddenAt (st : Store) (x : string) : option bool :=
  option_map is_superseded (rowById st x).

Lemma hashesToLookup_members (chain : list Listing) (hashes : list string)
  (l : Listing) (h p : string) :
  hashesToLookup chain = Some hashes -> In l chain ->
  Data.id l = Some h -> batchPreviousHash l = Some p ->
  In h hashes /\ In p hashes.
Proof.
  revert hashes. induction chain as [|x chain IH]; intros hashes E I Hh Hp;
    [destruct I|].
  cbn [hashesToLookup] in E.
  destruct (Data.id x) as [hx|] eqn:Ex; [|discriminate].
  destruct (batchPreviousHash x) as [px|] eqn:Px; [|discriminate].
  destruct (hashesToLookup chain) as [rest|]; [|discriminate].
  injection E as <-. destruct I as [->|I].
  - rewrite Hh in Ex. rewrite Hp in Px. injection Ex as <-. injection Px as <-.
    cbn. auto.
  - destruct (IH rest eq_refl I Hh Hp). cbn. auto.
Qed.

Lemma hashesToLookup_total (chain : list Listing) :
  (forall l, In l chain -> Data.id l <> None /\ batchPreviousHash l <> None) ->
  exists hashes, hashesToLookup chain = Some hashes.
Proof.
  induction chain as [|x chain IH]; intro H; [now exists []|].
  destruct IH as [rest E]; [intros l I; apply H; now right|].
  destruct (H x (or_introl eq_refl)) as [Hi Hp]. cbn [hashesToLookup].
  destruct (Data.id x) as [h|]; [|congruence].
  destruct (batchPreviousHash x) as [p|]; [|congruence].
  rewrite E. now exists (h :: p :: rest).
Qed.

Lemma hashToDbId_row (jobId : string) (hashes : list string) (st : Store)
  (h x : string) :
  hashToDbId (lookedUp jobId hashes st) h = Some x ->
  exists r, In r (listings st) /\ job_id r = jobId /\ hash r = h /\ id r = x.
Proof.
  unfold hashToDbId, lookedUp.
  destruct (find _ _) as [r|] eqn:E; [|discriminate].
  cbn [option_map]. intro H. injection H as <-.
  apply find_some in E. destruct E as [I E]. apply String.eqb_eq in E.
  apply in_rev, filter_In in I. destruct I as [I J].
  apply andb_true_iff in J. destruct J as [J _]. apply String.eqb_eq in J.
  now exists r.
Qed.

Lemma hashToDbId_found (jobId : string) (hashes : list string) (st : Store)
  (r : Row) :
  oneRowPerHash jobId st ->
  In r (listings st) -> job_id r = jobId -> In (hash r) hashes ->
  hashToDbId (lookedUp jobId hashes st) (hash r) = Some (id r).
Proof.
  intros U I J M.
  destruct (hashToDbId (lookedUp jobId hashes st) (hash r)) as [x|] eqn:E.
  - apply hashToDbId_row in E. destruct E as [r' (I' & J' & H' & <-)].
    now rewrite (U r' r I' I J' J H').
  - exfalso. unfold hashToDbId in E.
    destruct (find _ _) as [r'|] eqn:F; [discriminate|].
    assert (K : In r (rev (lookedUp jobId hashes st))).
    { apply in_rev. rewrite rev_involutive. unfold lookedUp.
      apply filter_In. split; [exact I|].
      rewrite J, String.eqb_refl. cbn [andb].
      now apply WalkFacts.mem_In. }
    pose proof (find_none _ _ F r K) as C. cbn in C.
    now rewrite String.eqb_refl in C.
Qed.

Lemma rowById_linkVersions (rows : list Row) (st : Store) (l : Listing)
  (x : string) :
  rowById (linkVersions rows st l) x
  = option_map
      (fun r =>
         match resolved rows l with
         | Some (c, p) =>
             let r := if String.eqb x c then setPrevious (Some p) r else r in
             if String.eqb x p then setSuperseded true r else r
         | None => r
         end)
      (rowById st x).
Proof.
  unfold linkVersions. destruct (resolved rows l) as [[c p]|].
  - rewrite !ChainFacts.rowById_updateRows by reflexivity.
    destruct (rowById st x) as [r|]; reflexivity.
  - destruct (rowById st x) as [r|]; reflexivity.
Qed.

Lemma hiddenAt_kept (rows : list Row) (chain : list Listing) (st : Store)
  (x : string) :
  hiddenAt st x = Some true ->
  hiddenAt (fold_left (linkVersions rows) chain st) x = Some true.
Proof.
  revert st. induction chain as [|l chain IH]; intros st H; [exact H|].
  cbn [fold_left]. apply IH. unfold hiddenAt in *.
  rewrite rowById_linkVersions.
  destruct (rowById st x) as [r|]; [|discriminate].
  cbn [option_map] in *. injection H as H.
  destruct (resolved rows l) as [[c p]|]; [|now rewrite H].
  destruct (String.eqb x c), (String.eqb x p); cbn; now rewrite ?H.
Qed.

Lemma stored_kept (rows : list Row) (chain : list Listing) (st : Store)
  (x : string) :
  rowById st x <> None ->
  rowById (fold_left (linkVersions rows) chain st) x <> None.
Proof.
  revert st. induction chain as [|l chain IH]; intros st H; [exact H|].
  cbn [fold_left]. apply IH. rewrite rowById_linkVersions.
  now destruct (rowById st x).
Qed.

Lemma hides_previous (rows : list Row) (chain : list Listing) (st : Store)
  (l : Listing) (c p : string) :
  In l chain -> resolved rows l = Some (c, p) -> rowById st p <> None ->
  hiddenAt (fold_left (linkVersions rows) chain st) p = Some true.
Proof.
  revert st. induction chain as [|x chain IH]; intros st I R S; [destruct I|].
  cbn [fold_left]. destruct I as [->|I].
  - apply hiddenAt_kept. unfold hiddenAt. rewrite rowById_linkVersions, R.
    destruct (rowById st p) as [r|]; [|congruence].
    cbn [option_map]. now rewrite String.eqb_refl.
  - apply (IH _ I R). rewrite rowById_linkVersions.
    now destruct (rowById st p).
Qed.

Lemma previousAt_kept (rows : list Row) (chain : list Listing) (st : Store)
  (c p : string) :
  (forall l p', In l chain -> resolved rows l = Some (c, p') -> p' = p) ->
  previousAt st c = Some (Some p) ->
  previousAt (fold_left (linkVersions rows) chain st) c = Some (Some p).
Proof.
  revert st. induction chain as [|l chain IH]; intros st C H; [exact H|].
  cbn [fold_left]. apply IH; [intros l' p' I; apply C; now right|].
  unfold previousAt in *. rewrite rowById_linkVersions.
  destruct (rowById st c) as [r|]; [|discriminate].
  cbn [option_map] in *. injection H as H.
  destruct (resolved rows l) as [[c' p']|] eqn:R; [|now rewrite H].
  destruct (String.eqb c c') eqn:E.
  - apply String.eqb_eq in E. subst c'.
    rewrite (C l p' (or_introl eq_refl) R).
    now destruct (String.eqb c p).
  - destruct (String.eqb c p'); cbn; now rewrite H.
Qed.

Lemma points_to_previous (rows : list Row) (chain : list Listing) (st : Store)
  (l : Listing) (c p : string) :
  (forall l' p', In l' chain -> resolved rows l' = Some (c, p') -> p' = p) ->
  In l chain -> resolved rows l = Some (c, p) -> rowById st c <> None ->
  previousAt (fold_left (linkVersions rows) chain st) c = Some (Some p).
Proof.
  revert st. induction chain as [|x chain IH]; intros st C I R S; [destruct I|].
  cbn [fold_left]. destruct I as [->|I].
  - apply previousAt_kept; [intros l' p' J; apply C; now right|].
    unfold previousAt. rewrite rowById_linkVersions, R.
    destruct (rowById st c) as [r|]; [|congruence].
    cbn [option_map]. rewrite String.eqb_refl.
    now destruct (String.eqb c p).
  - apply (IH _ (fun l' p' J => C l' p' (or_intror J)) I R).
    rewrite rowById_linkVersions. now destruct (rowById st c).
Qed.

(** Once the listings of a batch are stored, a listing that carries the
    hash of its previous version points at the row of that version, and
    that row is hidden. *)
Theorem resolveBatchVersionChains_links (jobId : string) (batch : list Listing)
  (st : Store) (l : Listing) (h p : string) (current previous : Row) :
  ManualFacts.keyed st -> oneRowPerHash jobId st ->
  (forall l', In l' batch -> Data.id l' <> None) ->
  (forall l', In l' batch -> Data.id l' = Some h ->
              Str.truthy (batchPreviousHash l') = true ->
              batchPreviousHash l' = Some p) ->
  In l batch -> Data.id l = Some h -> batchPreviousHash l = Some p ->
  nonempty p = true ->
  In current (listings st) -> job_id current = jobId -> hash current = h ->
  In previous (listings st) -> job_id previous = jobId -> hash previous = p ->
  exists st',
    resolveBatchVersionChains jobId batch st = Some st'
    /\ previousAt st' (id current) = Some (Some (id previous))
    /\ hiddenAt st' (id previous) = Some true.
Proof.
  intros [N K] U Ids Same I Hh Hp Np Ic Jc Hc Ip Jp Hprev.
  unfold resolveBatchVersionChains.
  assert (M : In l (withBatchChain batch)).
  { apply filter_In. split; [exact I|]. now rewrite Hp. }
  destruct (withBatchChain batch) as [|x chain] eqn:W; [destruct M|].
  rewrite <- W in *. clear W x chain.
  destruct (@hashesToLookup_total (withBatchChain batch)) as [hashes E].
  { intros l' I'. apply filter_In in I'. destruct I' as [I' T]. split.
    - now apply Ids.
    - destruct (batchPreviousHash l'); [discriminate|discriminate T]. }
  rewrite E. eexists. split; [reflexivity|].
  destruct (@hashesToLookup_members (withBatchChain batch) hashes l h p
              E M Hh Hp) as [Mh Mp].
  set (rows := lookedUp jobId hashes st).
  assert (Gc : hashToDbId rows h = Some (id current)).
  { rewrite <- Hc. apply hashToDbId_found; trivial. now rewrite Hc. }
  assert (Gp : hashToDbId rows p = Some (id previous)).
  { rewrite <- Hprev. apply hashToDbId_found; trivial. now rewrite Hprev. }
  assert (R : resolved rows l = Some (id current, id previous)).
  { unfold resolved, lookup. rewrite Hh, Hp, Gc, Gp.
    now rewrite (K current Ic), (K previous Ip). }
  assert (Sc : rowById st (id current) <> None).
  { destruct (@ManualFacts.rowById_key st (id current)) as [r [Er _]];
      [now apply in_map | congruence]. }
  assert (Sp : rowById st (id previous) <> None).
  { destruct (@ManualFacts.rowById_key st (id previous)) as [r [Er _]];
      [now apply in_map | congruence]. }
  split.
  - apply (@points_to_previous rows (withBatchChain batch) st l); trivial.
    intros l' p' I' R'. unfold resolved, lookup in R'.
    apply filter_In in I'. destruct I' as [I' T].
    destruct (Data.id l') as [h'|] eqn:Eh; [|discriminate].
    destruct (hashToDbId rows h') as [c'|] eqn:Gc'; [|discriminate].
    destruct (batchPreviousHash l') as [q|] eqn:Eq; [|discriminate].
    destruct (hashToDbId rows q) as [q'|] eqn:Gq; [|discriminate].
    destruct (nonempty c' && nonempty q'); [|discriminate].
    injection R' as -> <-.
    apply hashToDbId_row in Gc'. destruct Gc' as [r (Ir & Jr & Hr & Er)].
    assert (X : r = current)
      by exact (@ManualFacts.same_key (listings st) r current N Ir Ic Er).
    subst r. rewrite Hc in Hr. subst h'.
    assert (Q : batchPreviousHash l' = Some p).
    { apply Same; [exact I' | exact Eh | now rewrite Eq]. }
    rewrite Eq in Q. injection Q as ->. congruence.
  - now apply (@hides_previous rows (withBatchChain batch) st l
                 (id current) (id previous)).
Qed.

(** Two listings of one batch after they were stored: the first carries the
    hash of the second. *)
Definition arrived (h : string) (previousHash : option string) : Listing :=
  MkListing (Some h) None None None Val.Null Val.Null Val.Null Val.Null
            Val.Null Val.Null None None None None previousHash.

Definition storedBatch : Store :=
  MkStore [MkRow "n1" "a" "job" Val.Null None (Some 30%Z) None None None
                 false false NoText;
           MkRow "n2" "b" "job" Val.Null None (Some 30%Z) None None None
                 false false NoText]
          [].

Lemma resolveBatchVersionChains_links_witness :
  exists st',
    resolveBatchVersionChains "job" [arrived "a" (Some "b"); arrived "b" None]
                              storedBatch = Some st'
    /\ previousAt st' "n1" = Some (Some "n2")
    /\ hiddenAt st' "n2" = Some true.
Proof.
  apply (@resolveBatchVersionChains_links
           "job" [arrived "a" (Some "b"); arrived "b" None] storedBatch
           (arrived "a" (Some "b")) "a" "b"
           (MkRow "n1" "a" "job" Val.Null None (Some 30%Z) None None None
                  false false NoText)
           (MkRow "n2" "b" "job" Val.Null None (Some 30%Z) None None None
                  false false NoText)).
  - split.
    + repeat constructor; simpl; intuition discriminate.
    + intros r [<-|[<-|[]]]; reflexivity.
  - intros r r' [<-|[<-|[]]] [<-|[<-|[]]] _ _ H;
      try reflexivity; discriminate H.
  - intros l' [<-|[<-|[]]]; discriminate.
  - intros l' [<-|[<-|[]]] H T; try reflexivity; discriminate.
  - now left.
  - reflexivity.
  - reflexivity.
  - reflexivity.
  - now left.
  - reflexivity.
  - reflexivity.
  - right. now left.
  - reflexivity.
  - reflexivity.
Defined.

End BatchChainFacts.
